(** * Traffic simulation game: simulation and routing engine

    A shallow embedding of the JavaScript sources (GameState, Car,
    CarManager, PathFinder, GridManager/InputManager/LevelManager, Road,
    Helpers, Constants, GameScene), the properties of the specification
    that are stated about them, and further properties of the code.

    Conventions of the embedding:
    - JavaScript numbers that count things or index the grid are [Z] or
      [N]; durations (milliseconds) are [Z]; the success rate, a quotient
      of two counters, is an exact rational [Q] (its comparison with
      the win threshold in binary64 is checked against the exact one
      for up to 1000 terminated cars);
    - the string key ["row,col"] built by [gridKey] is the pair
      [(row, col)];
    - a [Map] whose iteration order is irrelevant is a [gmap], a [Set] of
      cells a [gset]; the car registry, whose insertion order is the
      update order, is a list of ids;
    - objects shared between managers (cars) live in one store indexed
      by car id; methods that mutate them are functions on the whole
      [World];
    - an event emitted on the scene or on the game state is the direct
      call of the listeners registered for it, in registration order. *)

From Stdlib Require Import ZArith QArith Lia Lqa List Bool String PrimFloat Uint63.
From Stdlib Require Import Qround Qminmax Ascii DecimalString DecimalZ DecimalPos.
From stdpp Require Import gmap strings list.

Local Open Scope Z_scope.

(** ** Constants.js *)

Module GameConfig.
Definition cellSize : Z := 40.
Definition roadCost : Z := 1000.
Definition maxWaitTime : Z := 10000.
Definition carSpeed : Z := 2000.
Definition carSpawnInterval : Z := 3000.
Definition maxCarsPerType : Z := 5.
(** [successThreshold: 0.8], a constant of the program. *)
Definition successThreshold : Q := 8 # 10.
End GameConfig.

Inductive Direction :=
| UP | DOWN | LEFT | RIGHT | UP_RIGHT | UP_LEFT | DOWN_RIGHT | DOWN_LEFT.

Inductive CellType := EDITABLE | TREE | BUILDING | ROAD.

Inductive CarState := SPAWNING | MOVING | WAITING | REACHED_EXIT | FAILED.

Inductive GameStates := BUILDING_MODE | SIMULATING | WON | LOST.

Inductive Tool := PLACE | DELETE | ARROW.

Inductive Side := SideTop | SideBottom | SideLeft | SideRight.

#[global] Instance Direction_eq_dec : EqDecision Direction.
Proof. solve_decision. Defined.
#[global] Instance CarState_eq_dec : EqDecision CarState.
Proof. solve_decision. Defined.
#[global] Instance CellType_eq_dec : EqDecision CellType.
Proof. solve_decision. Defined.

(** ** Helpers.js *)

(** A grid cell [{row, col}]; also the key ["row,col"] of the maps. *)
Abbreviation Cell := (Z * Z)%type.

(** An entrance or exit as produced by the level loader:
    [{row, col, isEntrance, side}]. *)
Record Position := mkPosition {
  row : Z;
  col : Z;
  isEntrance : bool;
  side : option Side
}.

Definition gridKey (r c : Z) : Cell := (r, c).

Definition plainPosition (c : Cell) : Position :=
  mkPosition (fst c) (snd c) false None.

Definition isValidGridPosition (r c maxRows maxCols : Z) : bool :=
  (0 <=? r) && (r <? maxRows) && (0 <=? c) && (c <? maxCols).

Definition getAdjacentPositions (r c : Z) : list Cell :=
  [ (r - 1, c); (r + 1, c); (r, c - 1); (r, c + 1) ].

(** Level JSON coordinates: 0 is the top/left edge, -1 the bottom/right
    edge, anything else a 1-based grid index. *)
Definition processEntranceCoordinates (r c gridRows gridCols : Z) : Position :=
  let '(processedRow, isEntrance1, side1) :=
    if r =? 0 then (-1, true, Some SideTop)
    else if r =? -1 then (gridRows, true, Some SideBottom)
    else (r - 1, false, None) in
  let '(processedCol, isEntrance2, side2) :=
    if c =? 0 then (-1, true, Some SideLeft)
    else if c =? -1 then (gridCols, true, Some SideRight)
    else (c - 1, isEntrance1, side1) in
  mkPosition processedRow processedCol isEntrance2 side2.

(** Level JSON coordinates are 1-based, internal coordinates 0-based. *)
Definition jsonToInternal (jsonRow jsonCol : Z) : Cell :=
  (jsonRow - 1, jsonCol - 1).

Definition internalToJson (r c : Z) : Cell := (r + 1, c + 1).

(** World coordinates are pixels and need not be integers: [{x, y}] is
    a pair of rationals, and the arithmetic on them is exact. *)
Definition gridToWorld (gridRow gridCol : Z) (gridOffsetX gridOffsetY : Q)
  : Q * Q :=
  (gridOffsetX + inject_Z gridCol * inject_Z GameConfig.cellSize
   + inject_Z GameConfig.cellSize / 2,
   gridOffsetY + inject_Z gridRow * inject_Z GameConfig.cellSize
   + inject_Z GameConfig.cellSize / 2)%Q.

Definition worldToGrid (worldX worldY gridOffsetX gridOffsetY : Q) : Cell :=
  let c := Qfloor ((worldX - gridOffsetX) / inject_Z GameConfig.cellSize) in
  let r := Qfloor ((worldY - gridOffsetY) / inject_Z GameConfig.cellSize) in
  (r, c).

Definition manhattanDistance (row1 col1 row2 col2 : Z) : Z :=
  Z.abs (row2 - row1) + Z.abs (col2 - col1).

(** [ToInt32] on a number that is an integer: the operands of the
    bitwise operators are taken modulo 2^32 into [-2^31, 2^31). *)
Definition toInt32 (x : Z) : Z := (x + 2 ^ 31) mod 2 ^ 32 - 2 ^ 31.

(** [hexToRgb(hex)]: [{r, g, b}] as a triple. *)
Definition hexToRgb (hex : Z) : Z * Z * Z :=
  (Z.land (toInt32 (Z.shiftr (toInt32 hex) 16)) 255,
   Z.land (toInt32 (Z.shiftr (toInt32 hex) 8)) 255,
   Z.land (toInt32 hex) 255).

(** [Math.round]: the nearest integer, a half rounded up.  The
    interpolation factor is an exact rational. *)
Definition mathRound (x : Q) : Z := Qfloor (x + (1 # 2)).

Definition interpolateChannel (c1 c2 : Z) (factor : Q) : Z :=
  mathRound (inject_Z c1 + factor * (inject_Z c2 - inject_Z c1)).

(** [(r << 16) | (g << 8) | b] on 32-bit integers. *)
Definition packRgb (r g b : Z) : Z :=
  toInt32 (Z.lor (toInt32 (Z.lor (toInt32 (Z.shiftl (toInt32 r) 16))
                                 (toInt32 (Z.shiftl (toInt32 g) 8))))
                 (toInt32 b)).

Definition interpolateColor (color1 color2 : Z) (factor : Q) : Z :=
  let '(r1, g1, b1) := hexToRgb color1 in
  let '(r2, g2, b2) := hexToRgb color2 in
  packRgb (interpolateChannel r1 r2 factor)
          (interpolateChannel g1 g2 factor)
          (interpolateChannel b1 b2 factor).

(** *** Grid keys as strings

    [gridKey] builds the string ["row,col"] and [parseGridKey] reads it
    back with [split(',')] and [Number].  A number that is an integer
    prints as its decimal numeral (JavaScript does so below 10^21, far
    beyond any grid coordinate); [Number] is modelled on decimal
    numerals only, [None] standing for every other string. *)

Module Keys.
Definition numberToString (z : Z) : string :=
  NilZero.string_of_int (Z.to_int z).

Definition stringToNumber (s : string) : option Z :=
  option_map Z.of_int (NilZero.int_of_string s).

Definition gridKey (r c : Z) : string :=
  String.append (numberToString r) (String "," (numberToString c)).

(** [key.split(',')] *)
Fixpoint split (s : string) : list string :=
  match s with
  | EmptyString => [EmptyString]
  | String a s' =>
      if Ascii.eqb a ","
      then EmptyString :: split s'
      else match split s' with
           | [] => [String a EmptyString]
           | part :: parts => String a part :: parts
           end
  end.

Definition parseGridKey (key : string) : option Cell :=
  match split key with
  | r :: c :: _ =>
      match stringToNumber r, stringToNumber c with
      | Some r', Some c' => Some (r', c')
      | _, _ => None
      end
  | _ => None
  end.
End Keys.

(** ** Road (entities/Cell.js, class Road) *)

Module Road.
Record t := mk { r : Z; c : Z; directions : list Direction }.

Definition getPositionInDirection (rd : t) (d : Direction) : option Cell :=
  match d with
  | UP => Some (r rd - 1, c rd)
  | DOWN => Some (r rd + 1, c rd)
  | LEFT => Some (r rd, c rd - 1)
  | RIGHT => Some (r rd, c rd + 1)
  | _ => None
  end.

Definition getDirectionToPosition (rd : t) (targetRow targetCol : Z)
  : option Direction :=
  let deltaRow := targetRow - r rd in
  let deltaCol := targetCol - c rd in
  if (deltaRow =? -1) && (deltaCol =? 0) then Some UP
  else if (deltaRow =? 1) && (deltaCol =? 0) then Some DOWN
  else if (deltaRow =? 0) && (deltaCol =? -1) then Some LEFT
  else if (deltaRow =? 0) && (deltaCol =? 1) then Some RIGHT
  else None.

(** The connections [{row, col, direction}] of a road. *)
Definition getPathfindingConnections (rd : t)
  : list (Cell * option Direction) :=
  match directions rd with
  | [] =>
      map (fun pos => (pos, getDirectionToPosition rd (fst pos) (snd pos)))
          (getAdjacentPositions (r rd) (c rd))
  | ds =>
      flat_map (fun d => match getPositionInDirection rd d with
                         | Some targetPos => [(targetPos, Some d)]
                         | None => []
                         end) ds
  end.

Definition addDirection (rd : t) (d : Direction) : t :=
  mk (r rd) (c rd) (directions rd ++ [d]).
End Road.

(** ** PathFinding.js (external library [PF])

    The library is loaded from a script tag and is not part of the
    repository.  [PF.Grid] is modelled by its documented interface: a
    [width] x [height] matrix of nodes with a walkable flag, here the
    set of walkable [(x, y)]. *)

Module PF.
Abbreviation Node := (Z * Z)%type.

Record Grid := mkGrid {
  width : Z;
  height : Z;
  walkable : gset Node
}.

Definition allNodes (w h : Z) : list Node :=
  flat_map (fun y => map (fun x => (x, y)) (seqZ 0 w)) (seqZ 0 h).

(** [new PF.Grid(width, height)]: every node starts walkable. *)
Definition newGrid (w h : Z) : Grid :=
  mkGrid w h (list_to_set (allNodes w h)).

Definition isInside (g : Grid) (x y : Z) : bool :=
  (0 <=? x) && (x <? width g) && (0 <=? y) && (y <? height g).

Definition isWalkableAt (g : Grid) (x y : Z) : bool :=
  isInside g x y && bool_decide ((x, y) ∈ walkable g).

Definition setWalkableAt (g : Grid) (x y : Z) (b : bool) : Grid :=
  mkGrid (width g) (height g)
         (if b then walkable g ∪ {[ (x, y) ]} else walkable g ∖ {[ (x, y) ]}).

(** [Grid.getNeighbors] with [DiagonalMovement.Never]: up, right, down,
    left, walkable nodes only. *)
Definition getNeighbors (g : Grid) (n : Node) : list Node :=
  let '(x, y) := n in
  filter (fun m => isWalkableAt g (fst m) (snd m) = true)
         [ (x, y - 1); (x + 1, y); (x, y + 1); (x - 1, y) ].

(** Modelled from the spec: the finder of the library
    ([PF.AStarFinder], manhattan heuristic, no diagonal moves) is not
    in the repository.  The specification describes a unit-weight
    shortest-path search, breadth-first, with ties broken by scan
    order, that returns the cells from start to goal inclusive and
    the empty path when the goal is unreachable.  The queue holds the
    reversed paths of the frontier. *)
Fixpoint bfs (fuel : nat) (g : Grid) (goal : Node)
         (visited : gset Node) (queue : list (list Node)) : list Node :=
  match fuel with
  | O => []
  | S fuel' =>
      match queue with
      | [] => []
      | [] :: rest => bfs fuel' g goal visited rest
      | (cur :: p) :: rest =>
          if decide (cur = goal) then rev (cur :: p)
          else
            let ns := filter (fun n => n ∉ visited) (getNeighbors g cur) in
            bfs fuel' g goal (visited ∪ list_to_set ns)
                (rest ++ map (fun n => n :: cur :: p) ns)
      end
  end.

Definition findPath (startX startY endX endY : Z) (g : Grid) : list Node :=
  bfs (S (Z.to_nat (width g * height g))) g (endX, endY)
      {[ (startX, startY) ]} [ [ (startX, startY) ] ].
End PF.

(** ** PathFinder (utils/PathFinder.js) *)

Module PathFinder.
Record t := mk {
  grid : option PF.Grid;
  gridWidth : Z;
  gridHeight : Z
}.

(** State after the constructor. *)
Definition init : t := mk None 0 0.

(** Nested loop [for y < height, for x < width: setWalkableAt(x, y, false)]. *)
Definition blockAll (g : PF.Grid) (w h : Z) : PF.Grid :=
  fold_left (fun g0 n => PF.setWalkableAt g0 (fst n) (snd n) false)
            (PF.allNodes w h) g.

Definition initializeGrid (w h : Z) : t :=
  mk (Some (blockAll (PF.newGrid w h) w h)) w h.

Definition setRoads (roads : list Cell) (gridRows gridCols : Z)
           (g : PF.Grid) : PF.Grid :=
  fold_left (fun g0 k =>
               let '(r, c) := k in
               if isValidGridPosition r c gridRows gridCols
               then PF.setWalkableAt g0 c r true else g0)
            roads g.

Definition setObstacles (obstacles : list Cell) (gridRows gridCols : Z)
           (g : PF.Grid) : PF.Grid :=
  fold_left (fun g0 k =>
               let '(r, c) := k in
               if isValidGridPosition r c gridRows gridCols
               then PF.setWalkableAt g0 c r false else g0)
            obstacles g.

(** [updateGrid(roads, obstacles, gridRows, gridCols)]: only the keys
    of [roads] are read; the road objects, hence their directions,
    are ignored. *)
Definition updateGrid (pf : t) (roads : gmap Cell Road.t)
           (obstacles : gset Cell) (gridRows gridCols : Z) : t :=
  let pf1 :=
    if negb (gridWidth pf =? gridCols) || negb (gridHeight pf =? gridRows)
    then initializeGrid gridCols gridRows else pf in
  let pf2 :=
    match grid pf1 with
    | None => initializeGrid gridCols gridRows
    | Some _ => pf1
    end in
  match grid pf2 with
  | None => pf2
  | Some g =>
      let g1 := blockAll g (gridWidth pf2) (gridHeight pf2) in
      let g2 := setRoads (map fst (map_to_list roads)) gridRows gridCols g1 in
      let g3 := setObstacles (elements obstacles) gridRows gridCols g2 in
      mk (Some g3) (gridWidth pf2) (gridHeight pf2)
  end.

Definition findPath (pf : t) (startRow startCol endRow endCol : Z)
  : option (list Cell) :=
  match grid pf with
  | None => None
  | Some g =>
      if negb (isValidGridPosition startRow startCol (gridHeight pf) (gridWidth pf))
         || negb (isValidGridPosition endRow endCol (gridHeight pf) (gridWidth pf))
      then None
      else if negb (PF.isWalkableAt g startCol startRow) then None
      else if negb (PF.isWalkableAt g endCol endRow) then None
      else
        match PF.findPath startCol startRow endCol endRow g with
        | [] => None
        | path => Some (map (fun n => (snd n, fst n)) path)
        end
  end.

Definition gridWalkableAt (pf : t) (c r : Z) : bool :=
  match grid pf with
  | Some g => PF.isWalkableAt g c r
  | None => false
  end.

(** Cells on the boundary of the square of the given radius around
    [position], in the order of the two nested loops. *)
Definition ringCells (position : Position) (radius : Z) : list Cell :=
  flat_map (fun deltaRow =>
    flat_map (fun deltaCol =>
      if negb (Z.abs deltaRow =? radius) && negb (Z.abs deltaCol =? radius)
      then []
      else [ (row position + deltaRow, col position + deltaCol) ])
      (seqZ (- radius) (2 * radius + 1)))
    (seqZ (- radius) (2 * radius + 1)).

Definition searchCells (position : Position) (gridRows gridCols : Z)
  : list Cell :=
  flat_map (ringCells position) (seqZ 1 (Z.max gridRows gridCols)).

Definition findNearestValidPosition (pf : t) (position : Position)
           (gridRows gridCols : Z) : option Cell :=
  if isValidGridPosition (row position) (col position) gridRows gridCols
     && gridWalkableAt pf (col position) (row position)
  then Some (row position, col position)
  else
    List.find (fun t => isValidGridPosition (fst t) (snd t) gridRows gridCols
                        && gridWalkableAt pf (snd t) (fst t))
              (searchCells position gridRows gridCols).

Definition findPathWithEntrances (pf : t) (start end_ : Position)
           (gridRows gridCols : Z) : option (list Cell) :=
  let actualStart :=
    if isEntrance start
    then findNearestValidPosition pf start gridRows gridCols
    else Some (row start, col start) in
  match actualStart with
  | None => None
  | Some s =>
      let actualEnd :=
        if isEntrance end_
        then findNearestValidPosition pf end_ gridRows gridCols
        else Some (row end_, col end_) in
      match actualEnd with
      | None => None
      | Some e => findPath pf (fst s) (snd s) (fst e) (snd e)
      end
  end.

(** [isWalkable(row, col)] *)
Definition isWalkable (pf : t) (r c : Z) : bool :=
  match grid pf with
  | None => false
  | Some g =>
      if negb (isValidGridPosition r c (gridHeight pf) (gridWidth pf)) then false
      else PF.isWalkableAt g c r
  end.

(** [getStats()]: [{walkableCells, blockedCells, totalCells}]; the
    fields [gridWidth] and [gridHeight] that a path finder with a grid
    adds repeat its own fields and are left out. *)
Record Stats := mkStats {
  walkableCells : nat;
  blockedCells : nat;
  totalCells : nat
}.

Definition getStats (pf : t) : Stats :=
  match grid pf with
  | None => mkStats 0 0 0
  | Some g =>
      let '(walkableCells, blockedCells) :=
        fold_left (fun acc n =>
                     if PF.isWalkableAt g (fst n) (snd n)
                     then (S (fst acc), snd acc)
                     else (fst acc, S (snd acc)))
                  (PF.allNodes (gridWidth pf) (gridHeight pf)) (0%nat, 0%nat) in
      mkStats walkableCells blockedCells (walkableCells + blockedCells)
  end.

(** [clear()] *)
Definition clear (pf : t) : t :=
  match grid pf with
  | None => pf
  | Some g => mk (Some (blockAll g (gridWidth pf) (gridHeight pf)))
                 (gridWidth pf) (gridHeight pf)
  end.

(** [destroy()] *)
Definition destroy (pf : t) : t := mk None 0 0.
End PathFinder.

(** ** Level data, as processed by LevelManager *)

Abbreviation CarId := string.

Module Level.
Record CarType := mkCarType {
  color : string;
  entrances : list Position;
  exit_ : Position
}.

(** [initialBudget] stands for [levelManager.getInitialBudget()], whose
    definition is not in the repository. *)
Record t := mk {
  grid_rows : Z;
  grid_columns : Z;
  cars : list CarType;
  uneditableCells : gset Cell;
  cellTypes : gmap Cell CellType;
  initialBudget : Z
}.
End Level.

(** ** LevelManager (managers/LevelManager.js)

    The level JSON is a record whose fields have the JSON types the
    loader expects; a malformed document (a missing field, a value of
    another type) is outside the model.  [loadLevel] either throws, here
    the error, or returns the processed level. *)

Module LevelLimits.
Definition minGridSize : Z := 3.
Definition maxGridSize : Z := 20.
Definition maxCarTypes : nat := 10.
Definition maxEntrancesPerCar : nat := 5.
End LevelLimits.

Module LevelManager.
(** An entry of [grid.uneditable], 1-based and inclusive. *)
Record RawArea := mkRawArea {
  row_from : Z;
  row_to : Z;
  column_from : Z;
  column_to : Z;
  area_type : CellType
}.

(** [{row, column}] of an entrance or exit. *)
Abbreviation RawPosition := (Z * Z)%type.

Record RawCar := mkRawCar {
  color : string;
  entrances : list RawPosition;
  exit_ : RawPosition
}.

Record RawLevel := mkRawLevel {
  rows : Z;
  column : Z;
  uneditable : list RawArea;
  cars : list RawCar
}.

Inductive Error :=
| GridColumnMissing
| GridRowsMissing
| GridRowsOutOfRange
| GridColumnsOutOfRange
| NoCar
| TooManyCarTypes
| CarWithoutColor (index : nat)
| CarWithoutEntrance (index : nat)
| TooManyEntrances (index : nat)
| EntranceOutsideGrid (carIndex entranceIndex : nat)
| ExitOutsideGrid (carIndex : nat).

(** A computation that may throw. *)
Definition M (A : Type) : Type := Error + A.

Definition ret {A} (a : A) : M A := inr a.

Definition throw {A} (e : Error) : M A := inl e.

Definition bind {A B} (m : M A) (k : A -> M B) : M B :=
  match m with
  | inl e => inl e
  | inr a => k a
  end.

(** [if (cond) throw e] *)
Definition throwIf (cond : bool) (e : Error) : M unit :=
  if cond then throw e else ret tt.

(** [l.forEach((x, index) => f(x, index))] for a callback that may throw. *)
Fixpoint forEachFrom {A} (f : A -> nat -> M unit) (index : nat) (l : list A)
  : M unit :=
  match l with
  | [] => ret tt
  | x :: l' => bind (f x index) (fun _ => forEachFrom f (S index) l')
  end.

Definition forEach {A} (f : A -> nat -> M unit) (l : list A) : M unit :=
  forEachFrom f 0 l.

Definition validateCarStructure (car : RawCar) (index : nat) : M unit :=
  bind (throwIf (String.eqb (color car) EmptyString) (CarWithoutColor index))
       (fun _ =>
  bind (throwIf (Nat.eqb (length (entrances car)) 0) (CarWithoutEntrance index))
       (fun _ =>
  throwIf (Nat.ltb LevelLimits.maxEntrancesPerCar (length (entrances car)))
          (TooManyEntrances index))).

Definition validateLevelStructure (levelData : RawLevel) : M unit :=
  bind (throwIf (column levelData =? 0) GridColumnMissing) (fun _ =>
  bind (throwIf (rows levelData =? 0) GridRowsMissing) (fun _ =>
  bind (throwIf ((rows levelData <? LevelLimits.minGridSize)
                 || (LevelLimits.maxGridSize <? rows levelData))
                GridRowsOutOfRange) (fun _ =>
  bind (throwIf ((column levelData <? LevelLimits.minGridSize)
                 || (LevelLimits.maxGridSize <? column levelData))
                GridColumnsOutOfRange) (fun _ =>
  bind (throwIf (Nat.eqb (length (cars levelData)) 0) NoCar) (fun _ =>
  bind (throwIf (Nat.ltb LevelLimits.maxCarTypes (length (cars levelData)))
                TooManyCarTypes) (fun _ =>
  forEach validateCarStructure (cars levelData))))))).

(** An uneditable area after conversion: 0-based and inclusive. *)
Record Area := mkArea {
  rowFrom : Z;
  rowTo : Z;
  columnFrom : Z;
  columnTo : Z;
  type : CellType
}.

(** The result of [convertCoordinates]. *)
Record Converted := mkConverted {
  grid_rows : Z;
  grid_columns : Z;
  grid_uneditable : list Area;
  converted_cars : list Level.CarType
}.

Definition convertArea (area : RawArea) : Area :=
  mkArea (row_from area - 1) (row_to area - 1)
         (column_from area - 1) (column_to area - 1) (area_type area).

Definition convertCar (gridRows gridCols : Z) (car : RawCar) : Level.CarType :=
  Level.mkCarType (color car)
    (map (fun entrance =>
            processEntranceCoordinates (fst entrance) (snd entrance)
                                       gridRows gridCols)
         (entrances car))
    (processEntranceCoordinates (fst (exit_ car)) (snd (exit_ car))
                                gridRows gridCols).

Definition convertCoordinates (levelData : RawLevel) : Converted :=
  mkConverted (rows levelData) (column levelData)
              (map convertArea (uneditable levelData))
              (map (convertCar (rows levelData) (column levelData))
                   (cars levelData)).

Definition validateCarPaths (processedLevel : Converted) : M unit :=
  forEach
    (fun car carIndex =>
       bind (forEach
               (fun entrance entranceIndex =>
                  throwIf (negb (isEntrance entrance)
                           && negb (isValidGridPosition
                                      (row entrance) (col entrance)
                                      (grid_rows processedLevel)
                                      (grid_columns processedLevel)))
                          (EntranceOutsideGrid carIndex entranceIndex))
               (Level.entrances car))
            (fun _ =>
       throwIf (negb (isEntrance (Level.exit_ car))
                && negb (isValidGridPosition
                           (row (Level.exit_ car)) (col (Level.exit_ car))
                           (grid_rows processedLevel)
                           (grid_columns processedLevel)))
               (ExitOutsideGrid carIndex)))
    (converted_cars processedLevel).

(** The cells visited by the two nested loops over one area, clipped to
    the grid. *)
Definition areaCells (gridRows gridCols : Z) (area : Area) : list Cell :=
  let rowLo := Z.max 0 (rowFrom area) in
  let rowHi := Z.min (gridRows - 1) (rowTo area) in
  let colLo := Z.max 0 (columnFrom area) in
  let colHi := Z.min (gridCols - 1) (columnTo area) in
  flat_map (fun r => map (fun c => (r, c)) (seqZ colLo (colHi - colLo + 1)))
           (seqZ rowLo (rowHi - rowLo + 1)).

(** [processUneditableAreas]: the set [uneditableCells] and the map
    [cellTypes]. *)
Definition processUneditableAreas (processedLevel : Converted)
  : gset Cell * gmap Cell CellType :=
  fold_left
    (fun acc area =>
       fold_left (fun acc' cellKey =>
                    (fst acc' ∪ {[ cellKey ]}, <[cellKey := type area]> (snd acc')))
                 (areaCells (grid_rows processedLevel)
                            (grid_columns processedLevel) area)
                 acc)
    (grid_uneditable processedLevel) (∅, ∅).

(** [loadLevel] once the JSON document is fetched; [initialBudget] is
    the budget that [Level.t] carries along. *)
Definition loadLevel (levelData : RawLevel) (initialBudget : Z) : M Level.t :=
  bind (validateLevelStructure levelData) (fun _ =>
  let processedLevel := convertCoordinates levelData in
  bind (validateCarPaths processedLevel) (fun _ =>
  let '(uneditableCells, cellTypes) := processUneditableAreas processedLevel in
  ret (Level.mk (grid_rows processedLevel) (grid_columns processedLevel)
                (converted_cars processedLevel) uneditableCells cellTypes
                initialBudget))).
End LevelManager.

(** [arr.splice(arr.findIndex(x => x === v), 1)] when [v] is found. *)
Fixpoint removeFirst (v : CarId) (l : list CarId) : list CarId :=
  match l with
  | [] => []
  | x :: l' => if decide (x = v) then l' else x :: removeFirst v l'
  end.

(** ** GameState (data/GameState.js)

    A method returns its JavaScript result, the new state and the events
    it emitted, in order.  The two reads of the wall clock ([Date.now()])
    are the argument [now]. *)

Module GameState.
Record Stats := mkStats {
  carsSpawned : N;
  carsReachedExit : N;
  carsFailed : N;
  simulationStartTime : option Z;
  simulationEndTime : option Z
}.

Record t := mk {
  budget : Z;
  currentTool : Tool;
  gameState : GameStates;
  isSimulating : bool;
  level : Level.t;
  roads : gmap Cell Road.t;
  cars : list CarId;
  activeCars : gset CarId;
  selectedCell : option Cell;
  hoveredCell : option Cell;
  isDeleteMode : bool;
  stats : Stats;
  pathfindingGridDirty : bool
}.

Inductive Event :=
| budgetChanged (b : Z)
| roadPlaced (r c : Z)
| roadRemoved (r c : Z)
| roadDirectionsUpdated (r c : Z) (ds : list Direction)
| carAdded (id : CarId)
| carRemoved (id : CarId)
| simulationStarted
| simulationStopped
| levelWon
| levelLost
| levelLoaded
| cellSelected (c : option Cell)
| cellHovered (c : option Cell).

(** The object spread [...roadData] of [placeRoad]: the fields that
    the caller overrides. *)
Record RoadData := mkRoadData {
  rd_row : option Z;
  rd_col : option Z;
  rd_directions : option (list Direction)
}.

Definition noRoadData : RoadData := mkRoadData None None None.

Definition set_budget (b : Z) (s : t) : t :=
  mk b (currentTool s) (gameState s) (isSimulating s) (level s) (roads s)
     (cars s) (activeCars s) (selectedCell s) (hoveredCell s)
     (isDeleteMode s) (stats s) (pathfindingGridDirty s).
Definition set_gameState (g : GameStates) (s : t) : t :=
  mk (budget s) (currentTool s) g (isSimulating s) (level s) (roads s)
     (cars s) (activeCars s) (selectedCell s) (hoveredCell s)
     (isDeleteMode s) (stats s) (pathfindingGridDirty s).
Definition set_isSimulating (b : bool) (s : t) : t :=
  mk (budget s) (currentTool s) (gameState s) b (level s) (roads s)
     (cars s) (activeCars s) (selectedCell s) (hoveredCell s)
     (isDeleteMode s) (stats s) (pathfindingGridDirty s).
Definition set_roads (m : gmap Cell Road.t) (s : t) : t :=
  mk (budget s) (currentTool s) (gameState s) (isSimulating s) (level s) m
     (cars s) (activeCars s) (selectedCell s) (hoveredCell s)
     (isDeleteMode s) (stats s) (pathfindingGridDirty s).
Definition set_cars (l : list CarId) (a : gset CarId) (s : t) : t :=
  mk (budget s) (currentTool s) (gameState s) (isSimulating s) (level s)
     (roads s) l a (selectedCell s) (hoveredCell s)
     (isDeleteMode s) (stats s) (pathfindingGridDirty s).
Definition set_selectedCell (c : option Cell) (s : t) : t :=
  mk (budget s) (currentTool s) (gameState s) (isSimulating s) (level s)
     (roads s) (cars s) (activeCars s) c (hoveredCell s)
     (isDeleteMode s) (stats s) (pathfindingGridDirty s).
Definition set_hoveredCell (c : option Cell) (s : t) : t :=
  mk (budget s) (currentTool s) (gameState s) (isSimulating s) (level s)
     (roads s) (cars s) (activeCars s) (selectedCell s) c
     (isDeleteMode s) (stats s) (pathfindingGridDirty s).
Definition set_stats (st : Stats) (s : t) : t :=
  mk (budget s) (currentTool s) (gameState s) (isSimulating s) (level s)
     (roads s) (cars s) (activeCars s) (selectedCell s) (hoveredCell s)
     (isDeleteMode s) st (pathfindingGridDirty s).
Definition set_dirty (b : bool) (s : t) : t :=
  mk (budget s) (currentTool s) (gameState s) (isSimulating s) (level s)
     (roads s) (cars s) (activeCars s) (selectedCell s) (hoveredCell s)
     (isDeleteMode s) (stats s) b.

Definition emptyStats : Stats := mkStats 0 0 0 None None.

(** [reset()] followed by [initializeWithLevel(levelData)]. *)
Definition initializeWithLevel (levelData : Level.t) : t :=
  mk (Level.initialBudget levelData) PLACE BUILDING_MODE false levelData ∅
     [] ∅ None None false emptyStats true.

Definition canAfford (s : t) (cost : Z) : bool := cost <=? budget s.

Definition spendBudget (s : t) (amount : Z) : bool * t * list Event :=
  if negb (canAfford s amount) then (false, s, [])
  else (true, set_budget (budget s - amount) s,
        [budgetChanged (budget s - amount)]).

Definition addBudget (s : t) (amount : Z) : t * list Event :=
  (set_budget (budget s + amount) s, [budgetChanged (budget s + amount)]).

Definition hasRoad (s : t) (r c : Z) : bool :=
  bool_decide (is_Some (roads s !! gridKey r c)).

Definition getRoad (s : t) (r c : Z) : option Road.t :=
  roads s !! gridKey r c.

Definition placeRoad (s : t) (r c : Z) (roadData : RoadData)
  : bool * t * list Event :=
  if isSimulating s then (false, s, [])
  else if negb (canAfford s GameConfig.roadCost) then (false, s, [])
  else if hasRoad s r c then (false, s, [])
  else
    let '(ok, s1, evs) := spendBudget s GameConfig.roadCost in
    if ok then
      let road := Road.mk (default r (rd_row roadData))
                          (default c (rd_col roadData))
                          (default [] (rd_directions roadData)) in
      (true,
       set_dirty true (set_roads (<[gridKey r c := road]> (roads s1)) s1),
       evs ++ [roadPlaced r c])
    else (false, s1, evs).

Definition removeRoad (s : t) (r c : Z) : bool * t * list Event :=
  if isSimulating s then (false, s, [])
  else
    match roads s !! gridKey r c with
    | None => (false, s, [])
    | Some road =>
        let s1 := set_roads (delete (gridKey r c) (roads s)) s in
        let '(s2, evs) := addBudget s1 GameConfig.roadCost in
        (true, set_dirty true s2, evs ++ [roadRemoved r c])
    end.

Definition updateRoadDirections (s : t) (r c : Z) (ds : list Direction)
  : bool * t * list Event :=
  match getRoad s r c with
  | None => (false, s, [])
  | Some road =>
      let road' := Road.mk (Road.r road) (Road.c road) ds in
      (true,
       set_dirty true (set_roads (<[gridKey r c := road']> (roads s)) s),
       [roadDirectionsUpdated r c ds])
  end.

Definition resetStats (s : t) : t := set_stats emptyStats s.

Definition addCar (s : t) (id : CarId) : t * list Event :=
  let st := stats s in
  (set_stats (mkStats (carsSpawned st + 1) (carsReachedExit st)
                      (carsFailed st) (simulationStartTime st)
                      (simulationEndTime st))
             (set_cars (cars s ++ [id]) (activeCars s ∪ {[ id ]}) s),
   [carAdded id]).

Definition startSimulation (s : t) (now : Z) : bool * t * list Event :=
  if isSimulating s then (false, s, [])
  else if bool_decide (size (roads s) = 0%nat) then (false, s, [])
  else
    let s1 := set_gameState SIMULATING (set_isSimulating true s) in
    let s2 := resetStats s1 in
    let s3 := set_stats (mkStats 0 0 0 (Some now) None) s2 in
    (true, s3, [simulationStarted]).

Definition stopSimulation (s : t) (now : Z) : t * list Event :=
  if negb (isSimulating s) then (s, [])
  else
    let s1 := set_gameState BUILDING_MODE (set_isSimulating false s) in
    let st := stats s1 in
    let s2 := set_stats (mkStats (carsSpawned st) (carsReachedExit st)
                                 (carsFailed st) (simulationStartTime st)
                                 (Some now)) s1 in
    (set_cars [] ∅ s2, map carRemoved (cars s) ++ [simulationStopped]).

Definition successRate (st : Stats) : Q :=
  inject_Z (Z.of_N (carsReachedExit st))
  / inject_Z (Z.of_N (carsReachedExit st + carsFailed st)).

(** [checkGameEndConditions()] *)
Definition checkGameEndConditions (s : t) (now : Z) : t * list Event :=
  if negb (isSimulating s) then (s, [])
  else
    let totalCars := (carsReachedExit (stats s) + carsFailed (stats s))%N in
    let minCarsToCheck := (N.of_nat (length (Level.cars (level s))) * 2)%N in
    if (minCarsToCheck <=? totalCars)%N then
      if Qle_bool GameConfig.successThreshold (successRate (stats s)) then
        let '(s1, evs) := stopSimulation (set_gameState WON s) now in
        (s1, evs ++ [levelWon])
      else if (carsReachedExit (stats s) <? carsFailed (stats s))%N then
        let '(s1, evs) := stopSimulation (set_gameState LOST s) now in
        (s1, evs ++ [levelLost])
      else (s, [])
    else (s, []).

(** [removeCar(carId)]; [finalState] is the state of the car object
    found in [this.cars]. *)
Definition removeCar (s : t) (carId : CarId) (finalState : option CarState)
           (now : Z) : t * list Event :=
  if bool_decide (carId ∈ cars s) then
    let st := stats s in
    let st' :=
      match finalState with
      | Some REACHED_EXIT =>
          mkStats (carsSpawned st) (carsReachedExit st + 1) (carsFailed st)
                  (simulationStartTime st) (simulationEndTime st)
      | Some FAILED =>
          mkStats (carsSpawned st) (carsReachedExit st) (carsFailed st + 1)
                  (simulationStartTime st) (simulationEndTime st)
      | _ => st
      end in
    let s1 := set_stats st'
                (set_cars (removeFirst carId (cars s))
                          (activeCars s ∖ {[ carId ]}) s) in
    let '(s2, evs) := checkGameEndConditions s1 now in
    (s2, carRemoved carId :: evs)
  else (s, []).

Definition setSelectedCell (s : t) (c : option Cell) : t * list Event :=
  (set_selectedCell c s, [cellSelected c]).

Definition setHoveredCell (s : t) (c : option Cell) : t * list Event :=
  (set_hoveredCell c s, [cellHovered c]).
End GameState.

(** ** GridManager (managers/GridManager.js) *)

Module GridManager.
Record t := mk {
  levelData : option Level.t;
  rows : Z;
  columns : Z;
  cells : gmap Cell CellType;
  roads : gmap Cell Road.t
}.

Definition init : t := mk None 0 0 ∅ ∅.

Definition allCells (nrows ncols : Z) : list Cell :=
  flat_map (fun r => map (fun c => (r, c)) (seqZ 0 ncols)) (seqZ 0 nrows).

Definition getCellType (ld : option Level.t) (r c : Z) : CellType :=
  match ld with
  | None => EDITABLE
  | Some l =>
      if bool_decide (gridKey r c ∈ Level.uneditableCells l)
      then default TREE (Level.cellTypes l !! gridKey r c)
      else EDITABLE
  end.

(** [initialize(levelData)]: dimensions, [destroy()], [createCells()]. *)
Definition initialize (levelData : Level.t) : t :=
  mk (Some levelData) (Level.grid_rows levelData) (Level.grid_columns levelData)
     (fold_left (fun m k =>
                   <[k := getCellType (Some levelData) (fst k) (snd k)]> m)
                (allCells (Level.grid_rows levelData) (Level.grid_columns levelData)) ∅)
     ∅.

Definition isValidPosition (g : t) (r c : Z) : bool :=
  (0 <=? r) && (r <? rows g) && (0 <=? c) && (c <? columns g).

(** [Cell.isEditable()] *)
Definition isEditable (ct : CellType) : bool :=
  bool_decide (ct = EDITABLE) || bool_decide (ct = ROAD).

Definition isPositionEditable (g : t) (r c : Z) : bool :=
  if negb (isValidPosition g r c) then false
  else match cells g !! gridKey r c with
       | Some ct => isEditable ct
       | None => false
       end.

Definition hasRoad (g : t) (r c : Z) : bool :=
  bool_decide (is_Some (roads g !! gridKey r c)).

Definition getRoad (g : t) (r c : Z) : option Road.t :=
  roads g !! gridKey r c.

(** [cell.setCellType(newType)] on the cell stored under the key, if any. *)
Definition setCellType (k : Cell) (ct : CellType)
           (m : gmap Cell CellType) : gmap Cell CellType :=
  match m !! k with
  | Some _ => <[k := ct]> m
  | None => m
  end.

Definition placeRoad (g : t) (r c : Z) : bool * t :=
  if negb (isValidPosition g r c) || negb (isPositionEditable g r c)
  then (false, g)
  else if hasRoad g r c then (false, g)
  else (true,
        mk (levelData g) (rows g) (columns g)
           (setCellType (gridKey r c) ROAD (cells g))
           (<[gridKey r c := Road.mk r c []]> (roads g))).

Definition removeRoad (g : t) (r c : Z) : bool * t :=
  match roads g !! gridKey r c with
  | None => (false, g)
  | Some _ =>
      (true,
       mk (levelData g) (rows g) (columns g)
          (setCellType (gridKey r c) EDITABLE (cells g))
          (delete (gridKey r c) (roads g)))
  end.

(** [road.addDirection(direction)] on the road stored at the cell. *)
Definition addDirection (g : t) (k : Cell) (d : Direction) : t :=
  mk (levelData g) (rows g) (columns g) (cells g)
     (alter (fun rd => Road.addDirection rd d) k (roads g)).

Definition getRoadsData (g : t) : gmap Cell Road.t := roads g.

(** [calculateGridOffset()] for a camera of the given size: the grid is
    centred, with a margin of at least 50 pixels. *)
Definition calculateGridOffset (g : t) (cameraWidth cameraHeight : Q) : Q * Q :=
  let gridWidth := inject_Z (columns g * GameConfig.cellSize) in
  let gridHeight := inject_Z (rows g * GameConfig.cellSize) in
  (Qmax 50 ((cameraWidth - gridWidth) / 2),
   Qmax 50 ((cameraHeight - gridHeight) / 2)).

(** [worldToGrid] and [gridToWorld] of the manager; its field
    [gridOffset] is the argument of that name. *)
Definition worldToGrid (g : t) (gridOffset : Q * Q) (worldX worldY : Q)
  : option Cell :=
  let gridPos := worldToGrid worldX worldY (fst gridOffset) (snd gridOffset) in
  if isValidPosition g (fst gridPos) (snd gridPos) then Some gridPos else None.

Definition gridToWorld (gridOffset : Q * Q) (r c : Z) : Q * Q :=
  gridToWorld r c (fst gridOffset) (snd gridOffset).
End GridManager.

(** ** Car (entities/Car.js): the object and the methods that do not
    emit scene events *)

Module Car.
Record t := mk {
  id : CarId;
  color : string;
  gridRow : Z;
  gridCol : Z;
  spawnPosition : Position;
  targetPosition : Position;
  path : list Cell;
  pathIndex : nat;
  hasPath : bool;
  needsNewPath : bool;
  isMoving : bool;
  currentTween : option Cell;  (* target of the running tween *)
  state : CarState;
  waitTime : Z;
  totalWaitTime : Z;
  lastMoveTime : Z;
  spawnTime : Z;
  blockedBy : option CarId;
  isBlocked : bool
}.

Definition set_position (r c : Z) (k : t) : t :=
  mk (id k) (color k) r c (spawnPosition k) (targetPosition k) (path k)
     (pathIndex k) (hasPath k) (needsNewPath k) (isMoving k)
     (currentTween k) (state k) (waitTime k) (totalWaitTime k)
     (lastMoveTime k) (spawnTime k) (blockedBy k) (isBlocked k).
Definition set_route (p : list Cell) (i : nat) (h : bool) (k : t) : t :=
  mk (id k) (color k) (gridRow k) (gridCol k) (spawnPosition k)
     (targetPosition k) p i h (needsNewPath k) (isMoving k)
     (currentTween k) (state k) (waitTime k) (totalWaitTime k)
     (lastMoveTime k) (spawnTime k) (blockedBy k) (isBlocked k).
Definition set_needsNewPath (b : bool) (k : t) : t :=
  mk (id k) (color k) (gridRow k) (gridCol k) (spawnPosition k)
     (targetPosition k) (path k) (pathIndex k) (hasPath k) b (isMoving k)
     (currentTween k) (state k) (waitTime k) (totalWaitTime k)
     (lastMoveTime k) (spawnTime k) (blockedBy k) (isBlocked k).
Definition set_motion (m : bool) (tw : option Cell) (k : t) : t :=
  mk (id k) (color k) (gridRow k) (gridCol k) (spawnPosition k)
     (targetPosition k) (path k) (pathIndex k) (hasPath k) (needsNewPath k)
     m tw (state k) (waitTime k) (totalWaitTime k)
     (lastMoveTime k) (spawnTime k) (blockedBy k) (isBlocked k).
Definition set_state (s : CarState) (k : t) : t :=
  mk (id k) (color k) (gridRow k) (gridCol k) (spawnPosition k)
     (targetPosition k) (path k) (pathIndex k) (hasPath k) (needsNewPath k)
     (isMoving k) (currentTween k) s (waitTime k) (totalWaitTime k)
     (lastMoveTime k) (spawnTime k) (blockedBy k) (isBlocked k).
Definition set_waitTime (w : Z) (k : t) : t :=
  mk (id k) (color k) (gridRow k) (gridCol k) (spawnPosition k)
     (targetPosition k) (path k) (pathIndex k) (hasPath k) (needsNewPath k)
     (isMoving k) (currentTween k) (state k) w (totalWaitTime k)
     (lastMoveTime k) (spawnTime k) (blockedBy k) (isBlocked k).
Definition set_totalWaitTime (w : Z) (k : t) : t :=
  mk (id k) (color k) (gridRow k) (gridCol k) (spawnPosition k)
     (targetPosition k) (path k) (pathIndex k) (hasPath k) (needsNewPath k)
     (isMoving k) (currentTween k) (state k) (waitTime k) w
     (lastMoveTime k) (spawnTime k) (blockedBy k) (isBlocked k).
Definition set_lastMoveTime (w : Z) (k : t) : t :=
  mk (id k) (color k) (gridRow k) (gridCol k) (spawnPosition k)
     (targetPosition k) (path k) (pathIndex k) (hasPath k) (needsNewPath k)
     (isMoving k) (currentTween k) (state k) (waitTime k) (totalWaitTime k)
     w (spawnTime k) (blockedBy k) (isBlocked k).
Definition set_blockedBy (b : option CarId) (k : t) : t :=
  mk (id k) (color k) (gridRow k) (gridCol k) (spawnPosition k)
     (targetPosition k) (path k) (pathIndex k) (hasPath k) (needsNewPath k)
     (isMoving k) (currentTween k) (state k) (waitTime k) (totalWaitTime k)
     (lastMoveTime k) (spawnTime k) b (isBlocked k).
Definition set_isBlocked (b : bool) (k : t) : t :=
  mk (id k) (color k) (gridRow k) (gridCol k) (spawnPosition k)
     (targetPosition k) (path k) (pathIndex k) (hasPath k) (needsNewPath k)
     (isMoving k) (currentTween k) (state k) (waitTime k) (totalWaitTime k)
     (lastMoveTime k) (spawnTime k) (blockedBy k) b.

(** The constructor; [newId] is the result of [generateId()] and [now]
    of [Date.now()]. *)
Definition create (newId : CarId) (carData : Level.CarType)
           (spawn target : Position) (now : Z) : t :=
  mk newId (Level.color carData) (row spawn) (col spawn) spawn target
     [] 0 false true false None SPAWNING 0 0 0 now None false.

Definition getGridPosition (k : t) : Cell := (gridRow k, gridCol k).

Definition isTerminal (k : t) : bool :=
  bool_decide (state k = REACHED_EXIT) || bool_decide (state k = FAILED).

Definition updateSpawning (time delta : Z) (k : t) : t :=
  if 500 <? time - spawnTime k
  then set_needsNewPath true (set_state MOVING k)
  else k.

Definition setPath (p : option (list Cell)) (k : t) : t :=
  match p with
  | Some (c :: p') => set_state MOVING (set_route (c :: p') 0 true k)
  | _ => set_state WAITING (set_route [] 0 false k)
  end.

Definition isNearTarget (k : t) : bool :=
  if isEntrance (targetPosition k)
  then Z.abs (gridRow k - row (targetPosition k))
       + Z.abs (gridCol k - col (targetPosition k)) <=? 1
  else false.

Definition atTarget (k : t) : bool :=
  (gridRow k =? row (targetPosition k))
  && (gridCol k =? col (targetPosition k)).
End Car.

(** ** CarManager (managers/CarManager.js): state and statistics

    The write-only bookkeeping of the manager ([carsAwaitingPath],
    [lastSpawnTime]) is left out; the pending spawn timers are part of
    the delayed events of the scene below. *)

Module CarManager.
Record Stats := mkStats {
  totalSpawned : N;
  totalReachedExit : N;
  totalFailed : N;
  spawnedByType : gmap nat N;
  succeededByType : gmap nat N;
  failedByType : gmap nat N
}.

Record t := mk {
  cars : list CarId;                    (* keys of the Map, insertion order *)
  carsByPosition : gmap Cell (list CarId);
  levelData : option Level.t;
  isSpawning : bool;
  stats : Stats
}.

Definition emptyStats : Stats := mkStats 0 0 0 ∅ ∅ ∅.

Definition init : t := mk [] ∅ None false emptyStats.

Definition set_cars (l : list CarId) (m : t) : t :=
  mk l (carsByPosition m) (levelData m) (isSpawning m) (stats m).
Definition set_carsByPosition (p : gmap Cell (list CarId)) (m : t) : t :=
  mk (cars m) p (levelData m) (isSpawning m) (stats m).
Definition set_isSpawning (b : bool) (m : t) : t :=
  mk (cars m) (carsByPosition m) (levelData m) b (stats m).
Definition set_stats (s : Stats) (m : t) : t :=
  mk (cars m) (carsByPosition m) (levelData m) (isSpawning m) s.

Definition resetStats (m : t) : t := set_stats emptyStats m.

(** [getSuccessRate()]: a percentage. *)
Definition getSuccessRate (m : t) : Q :=
  let total := (totalReachedExit (stats m) + totalFailed (stats m))%N in
  if (total =? 0)%N then 0%Q
  else (inject_Z (Z.of_N (totalReachedExit (stats m)))
        / inject_Z (Z.of_N total) * 100)%Q.

Inductive EndCondition := won | lost.

Definition minCarsToCheck (m : t) : N :=
  match levelData m with
  | Some l => (N.of_nat (length (Level.cars l)) * 3)%N
  | None => 10%N
  end.

(** [checkEndConditions()]; the rate and the threshold are exact
    rationals here, [checkEndConditions_binary64] below is the
    evaluation in binary64. *)
Definition checkEndConditions (m : t) : option EndCondition :=
  let totalCars := (totalReachedExit (stats m) + totalFailed (stats m))%N in
  if (minCarsToCheck m <=? totalCars)%N then
    let successRate := (getSuccessRate m / 100)%Q in
    if Qle_bool GameConfig.successThreshold successRate then Some won
    else if (totalReachedExit (stats m) <? totalFailed (stats m))%N
         then Some lost
         else None
  else None.

Definition positionIds (m : t) (r c : Z) : list CarId :=
  default [] (carsByPosition m !! gridKey r c).

Definition isPositionOccupied (m : t) (r c : Z) : bool :=
  match carsByPosition m !! gridKey r c with
  | Some ids => bool_decide (0 < length ids)%nat
  | None => false
  end.

(** [removeCarFromPosition(car)]: the key is computed from the
    position stored in the car object. *)
Definition removeCarFromPosition (m : t) (k : Car.t) : t :=
  let oldPosKey := gridKey (Car.gridRow k) (Car.gridCol k) in
  match carsByPosition m !! oldPosKey with
  | Some ids =>
      let ids' := filter (fun i => i ≠ Car.id k) ids in
      set_carsByPosition
        (match ids' with
         | [] => delete oldPosKey (carsByPosition m)
         | _ => <[oldPosKey := ids']> (carsByPosition m)
         end) m
  | None => m
  end.

(** [Set.add] on an insertion-ordered set. *)
Definition setAdd (i : CarId) (ids : list CarId) : list CarId :=
  if bool_decide (i ∈ ids) then ids else ids ++ [i].

(** [updateCarPosition(car, newPosition)]: returns the manager and the
    updated car object. *)
Definition updateCarPosition (m : t) (k : Car.t) (newPosition : Cell)
  : t * Car.t :=
  let m1 := removeCarFromPosition m k in
  let posKey := gridKey (fst newPosition) (snd newPosition) in
  let ids := default [] (carsByPosition m1 !! posKey) in
  (set_carsByPosition (<[posKey := setAdd (Car.id k) ids]> (carsByPosition m1)) m1,
   Car.set_position (fst newPosition) (snd newPosition) k).

(** [findCarTypeIndex(color)]: [findIndex] over the car types. *)
Fixpoint findIndexFrom (i : nat) (clr : string) (l : list Level.CarType)
  : option nat :=
  match l with
  | [] => None
  | ct :: l' => if decide (Level.color ct = clr) then Some i
                else findIndexFrom (S i) clr l'
  end.

Definition findCarTypeIndex (m : t) (clr : string) : option nat :=
  match levelData m with
  | None => None
  | Some l => findIndexFrom 0 clr (Level.cars l)
  end.

Definition bump (i : nat) (cnt : gmap nat N) : gmap nat N :=
  <[i := (default 0%N (cnt !! i) + 1)%N]> cnt.

(** [initializeForLevel(levelData)] without [clearAllCars()], which
    needs the store of car objects. *)
Definition initializeStatsForLevel (levelData : Level.t) : Stats :=
  let zero := fold_left (fun z i => <[i := 0%N]> z)
                        (seq 0 (length (Level.cars levelData))) ∅ in
  mkStats 0 0 0 zero zero zero.
End CarManager.

(** ** The scene: managers and cars wired by events

    [World] gathers the singletons created by [GameScene.initializeSystems]
    and the Phaser-side state they rely on: the store of car objects, the
    flag [scene.input.enabled], and the delayed events of [scene.time]
    (spawn timers and removal timers) that have not fired yet. *)

Inductive Timer :=
| SpawnTimer (carTypeIndex : nat)
| RemoveTimer (carId : CarId).

#[global] Instance Timer_eq_dec : EqDecision Timer.
Proof. solve_decision. Defined.

Record World := mkWorld {
  gameState : GameState.t;
  gridManager : GridManager.t;
  pathFinder : PathFinder.t;
  carManager : CarManager.t;
  carObjects : gmap CarId Car.t;
  inputEnabled : bool;
  timers : list Timer
}.

Definition with_gameState (g : GameState.t) (w : World) : World :=
  mkWorld g (gridManager w) (pathFinder w) (carManager w) (carObjects w)
          (inputEnabled w) (timers w).
Definition with_gridManager (g : GridManager.t) (w : World) : World :=
  mkWorld (gameState w) g (pathFinder w) (carManager w) (carObjects w)
          (inputEnabled w) (timers w).
Definition with_pathFinder (p : PathFinder.t) (w : World) : World :=
  mkWorld (gameState w) (gridManager w) p (carManager w) (carObjects w)
          (inputEnabled w) (timers w).
Definition with_carManager (m : CarManager.t) (w : World) : World :=
  mkWorld (gameState w) (gridManager w) (pathFinder w) m (carObjects w)
          (inputEnabled w) (timers w).
Definition with_carObjects (h : gmap CarId Car.t) (w : World) : World :=
  mkWorld (gameState w) (gridManager w) (pathFinder w) (carManager w) h
          (inputEnabled w) (timers w).
Definition with_inputEnabled (b : bool) (w : World) : World :=
  mkWorld (gameState w) (gridManager w) (pathFinder w) (carManager w)
          (carObjects w) b (timers w).
Definition with_timers (t : list Timer) (w : World) : World :=
  mkWorld (gameState w) (gridManager w) (pathFinder w) (carManager w)
          (carObjects w) (inputEnabled w) t.

Definition getCar (w : World) (carId : CarId) : option Car.t :=
  carObjects w !! carId.

(** A mutation of the car object [carId]. *)
Definition withCar (carId : CarId) (f : Car.t -> Car.t) (w : World) : World :=
  with_carObjects (alter f carId (carObjects w)) w.

(** *** CarManager: path requests *)

Definition CarManager_updatePathfindingGrid (w : World) : World :=
  let gm := gridManager w in
  let roads := GridManager.getRoadsData gm in
  let obstacles := match GridManager.levelData gm with
                   | Some l => Level.uneditableCells l
                   | None => ∅
                   end in
  let pf := PathFinder.updateGrid (pathFinder w) roads obstacles
                                  (GridManager.rows gm) (GridManager.columns gm) in
  with_gameState (GameState.set_dirty false (gameState w))
                 (with_pathFinder pf w).

(** The first two statements of [handlePathRequest]: refresh the grid if
    it is dirty, then query. *)
Definition CarManager_pathQuery (w : World) (start end_ : Position)
  : World * option (list Cell) :=
  let w1 := if GameState.pathfindingGridDirty (gameState w)
            then CarManager_updatePathfindingGrid w else w in
  (w1, PathFinder.findPathWithEntrances (pathFinder w1) start end_
         (GridManager.rows (gridManager w1))
         (GridManager.columns (gridManager w1))).

Definition CarManager_handlePathRequest (carId : CarId)
           (start end_ : Position) (w : World) : World :=
  let '(w1, path) := CarManager_pathQuery w start end_ in
  withCar carId (Car.setPath path) w1.

Definition CarManager_requestPathForCar (carId : CarId) (w : World) : World :=
  match getCar w carId with
  | Some k => CarManager_handlePathRequest carId (Car.spawnPosition k)
                                           (Car.targetPosition k) w
  | None => w
  end.

(** *** CarManager: collision check and outcome handlers *)

Definition CarManager_getCarsAtPosition (w : World) (r c : Z) : list CarId :=
  filter (fun i => i ∈ CarManager.cars (carManager w))
         (CarManager.positionIds (carManager w) r c).

Definition CarManager_handleCollisionCheck (carId : CarId) (targetCell : Cell)
           (w : World) : World * bool :=
  let carsAtTarget :=
    CarManager_getCarsAtPosition w (fst targetCell) (snd targetCell) in
  let otherCars := filter (fun i => i ≠ carId) carsAtTarget in
  match otherCars with
  | other :: _ => (withCar carId (Car.set_blockedBy (Some other)) w, true)
  | [] => (w, false)
  end.

Definition addTimer (t : Timer) (w : World) : World :=
  with_timers (timers w ++ [t]) w.

Definition CarManager_handleCarReachedExit (carId : CarId) (w : World) : World :=
  let m := carManager w in
  let st := CarManager.stats m in
  let byType :=
    match getCar w carId with
    | Some k =>
        match CarManager.findCarTypeIndex m (Car.color k) with
        | Some i => CarManager.bump i (CarManager.succeededByType st)
        | None => CarManager.succeededByType st
        end
    | None => CarManager.succeededByType st
    end in
  let st' := CarManager.mkStats (CarManager.totalSpawned st)
               (CarManager.totalReachedExit st + 1) (CarManager.totalFailed st)
               (CarManager.spawnedByType st) byType
               (CarManager.failedByType st) in
  addTimer (RemoveTimer carId)
           (with_carManager (CarManager.set_stats st' m) w).

Definition CarManager_handleCarFailed (carId : CarId) (w : World) : World :=
  let m := carManager w in
  let st := CarManager.stats m in
  let byType :=
    match getCar w carId with
    | Some k =>
        match CarManager.findCarTypeIndex m (Car.color k) with
        | Some i => CarManager.bump i (CarManager.failedByType st)
        | None => CarManager.failedByType st
        end
    | None => CarManager.failedByType st
    end in
  let st' := CarManager.mkStats (CarManager.totalSpawned st)
               (CarManager.totalReachedExit st) (CarManager.totalFailed st + 1)
               (CarManager.spawnedByType st) (CarManager.succeededByType st)
               byType in
  addTimer (RemoveTimer carId)
           (with_carManager (CarManager.set_stats st' m) w).

(** *** Car: the methods that emit scene events *)

Definition Car_requestNewPath (carId : CarId) (w : World) : World :=
  match getCar w carId with
  | Some k =>
      let w1 := CarManager_handlePathRequest carId
                  (plainPosition (Car.gridRow k, Car.gridCol k))
                  (Car.targetPosition k) w in
      withCar carId (Car.set_needsNewPath false) w1
  | None => w
  end.

(** [checkCollision(targetCell)]: the listener runs, its answer is
    dropped, and the method returns [false]. *)
Definition Car_checkCollision (carId : CarId) (targetCell : Cell) (w : World)
  : World * bool :=
  let '(w1, _) := CarManager_handleCollisionCheck carId targetCell w in
  (w1, false).

Definition Car_moveToCell (carId : CarId) (targetCell : Cell) (w : World)
  : World :=
  withCar carId (Car.set_motion true (Some targetCell)) w.

Definition Car_reachDestination (carId : CarId) (w : World) : World :=
  CarManager_handleCarReachedExit carId
    (withCar carId (fun k => Car.set_motion false None
                               (Car.set_state REACHED_EXIT k)) w).

Definition Car_triggerFailure (carId : CarId) (w : World) : World :=
  CarManager_handleCarFailed carId
    (withCar carId (fun k => Car.set_motion false None
                               (Car.set_state FAILED k)) w).

Definition Car_checkIfReachedExit (carId : CarId) (w : World) : World :=
  match getCar w carId with
  | Some k => if Car.atTarget k || Car.isNearTarget k
              then Car_reachDestination carId w else w
  | None => w
  end.

(** [onMoveComplete(targetCell)], the completion callback of the tween. *)
Definition Car_onMoveComplete (carId : CarId) (targetCell : Cell) (w : World)
  : World :=
  Car_checkIfReachedExit carId
    (withCar carId
       (fun k =>
          Car.set_waitTime 0
            (Car.set_route (Car.path k) (S (Car.pathIndex k)) (Car.hasPath k)
               (Car.set_position (fst targetCell) (snd targetCell)
                  (Car.set_motion false None k)))) w).

Definition Car_updateMoving (carId : CarId) (time delta : Z) (w : World)
  : World :=
  match getCar w carId with
  | None => w
  | Some k0 =>
      let w1 := if Car.needsNewPath k0 then Car_requestNewPath carId w else w in
      match getCar w1 carId with
      | None => w1
      | Some k1 =>
          let '(w2, returned) :=
            if Car.hasPath k1 && negb (Car.isMoving k1)
               && (Car.pathIndex k1 <? length (Car.path k1))%nat
            then
              match Car.path k1 !! Car.pathIndex k1 with
              | Some nextCell =>
                  let '(w', collision) := Car_checkCollision carId nextCell w1 in
                  if collision
                  then (withCar carId (fun k => Car.set_isBlocked true
                                                  (Car.set_state WAITING k)) w',
                        true)
                  else (Car_moveToCell carId nextCell w', false)
              | None => (w1, false)
              end
            else (w1, false) in
          if returned then w2
          else
            match getCar w2 carId with
            | None => w2
            | Some k2 =>
                let w3 := if Car.hasPath k2
                             && (length (Car.path k2) <=? Car.pathIndex k2)%nat
                          then Car_reachDestination carId w2 else w2 in
                match getCar w3 carId with
                | None => w3
                | Some k3 =>
                    if negb (Car.hasPath k3)
                       || (length (Car.path k3) =? 0)%nat
                    then withCar carId (Car.set_state WAITING) w3
                    else w3
                end
            end
      end
  end.

Definition Car_updateWaiting (carId : CarId) (time delta : Z) (w : World)
  : World :=
  let w1 := withCar carId
              (fun k => Car.set_totalWaitTime (Car.totalWaitTime k + delta)
                          (Car.set_waitTime (Car.waitTime k + delta) k)) w in
  match getCar w1 carId with
  | None => w1
  | Some k1 =>
      let '(w2, returned) :=
        if Car.isBlocked k1 && (0 <? length (Car.path k1))%nat
           && (Car.pathIndex k1 <? length (Car.path k1))%nat
        then
          match Car.path k1 !! Car.pathIndex k1 with
          | Some nextCell =>
              let '(w', collision) := Car_checkCollision carId nextCell w1 in
              if negb collision
              then (withCar carId
                      (fun k => Car.set_waitTime 0
                                  (Car.set_state MOVING
                                     (Car.set_blockedBy None
                                        (Car.set_isBlocked false k)))) w',
                    true)
              else (w', false)
          | None => (w1, false)
          end
        else (w1, false) in
      if returned then w2
      else
        match getCar w2 carId with
        | None => w2
        | Some k2 =>
            let w3 := if GameConfig.maxWaitTime <? Car.waitTime k2
                      then Car_triggerFailure carId w2 else w2 in
            match getCar w3 carId with
            | None => w3
            | Some k3 =>
                if 2000 <? Car.waitTime k3
                then withCar carId (fun k => Car.set_waitTime 0
                                               (Car.set_needsNewPath true k)) w3
                else w3
            end
        end
  end.

Definition Car_update (carId : CarId) (time delta : Z) (w : World) : World :=
  let w1 := withCar carId (Car.set_lastMoveTime time) w in
  match getCar w1 carId with
  | None => w1
  | Some k =>
      match Car.state k with
      | SPAWNING => withCar carId (Car.updateSpawning time delta) w1
      | MOVING => Car_updateMoving carId time delta w1
      | WAITING => Car_updateWaiting carId time delta w1
      | REACHED_EXIT | FAILED => w1
      end
  end.

(** *** CarManager: lifecycle *)

Definition CarManager_scheduleCarSpawn (carTypeIndex : nat) (w : World)
  : World :=
  let m := carManager w in
  if negb (CarManager.isSpawning m) then w
  else
    let spawnedCount :=
      default 0%N (CarManager.spawnedByType (CarManager.stats m) !! carTypeIndex) in
    if (GameConfig.maxCarsPerType <=? Z.of_N spawnedCount) then w
    else addTimer (SpawnTimer carTypeIndex) w.

Definition CarManager_clearAllCars (w : World) : World :=
  let m := carManager w in
  with_carManager
    (CarManager.set_carsByPosition ∅ (CarManager.set_cars [] m))
    (with_carObjects
       (fold_left (fun h i => delete i h) (CarManager.cars m) (carObjects w)) w).

Definition CarManager_initializeForLevel (levelData : Level.t) (w : World)
  : World :=
  let w1 := CarManager_clearAllCars w in
  with_carManager
    (CarManager.mk (CarManager.cars (carManager w1))
                   (CarManager.carsByPosition (carManager w1))
                   (Some levelData)
                   (CarManager.isSpawning (carManager w1))
                   (CarManager.initializeStatsForLevel levelData)) w1.

Definition CarManager_startSimulation (w : World) : World :=
  match CarManager.levelData (carManager w) with
  | None => w
  | Some l =>
      let w1 := with_carManager
                  (CarManager.set_isSpawning true (carManager w)) w in
      let w2 := CarManager_updatePathfindingGrid w1 in
      fold_left (fun w0 i => CarManager_scheduleCarSpawn i w0)
                (seq 0 (length (Level.cars l))) w2
  end.

Definition isSpawnTimer (t : Timer) : bool :=
  match t with SpawnTimer _ => true | RemoveTimer _ => false end.

Definition CarManager_stopSimulation (w : World) : World :=
  let w1 := with_carManager
              (CarManager.set_isSpawning false (carManager w)) w in
  let w2 := with_timers
              (List.filter (fun t => negb (isSpawnTimer t)) (timers w1)) w1 in
  CarManager_clearAllCars w2.

(** [addCar(car)] for a freshly constructed car object. *)
Definition CarManager_addCar (k : Car.t) (w : World) : World :=
  let m := carManager w in
  let m1 := CarManager.set_cars (CarManager.setAdd (Car.id k) (CarManager.cars m)) m in
  let '(m2, k') := CarManager.updateCarPosition m1 k (Car.getGridPosition k) in
  let w1 := with_carObjects (<[Car.id k := k']> (carObjects w))
                            (with_carManager m2 w) in
  CarManager_requestPathForCar (Car.id k) w1.

(** *** Game-state events and their listeners *)

Definition InputManager_disable (w : World) : World :=
  let '(gs1, _) := GameState.setHoveredCell (gameState w) None in
  let '(gs2, _) := GameState.setSelectedCell gs1 None in
  with_gameState gs2 (with_inputEnabled false w).

Definition InputManager_enable (w : World) : World :=
  with_inputEnabled true w.

(** Listeners of the events that emit nothing further: CarManager first
    (registered in its constructor), then GameScene. *)
Definition dispatchBasic (ev : GameState.Event) (w : World) : World :=
  match ev with
  | GameState.simulationStarted =>
      InputManager_disable (CarManager_startSimulation w)
  | GameState.simulationStopped =>
      InputManager_enable (CarManager_stopSimulation w)
  | GameState.levelLoaded =>
      CarManager_initializeForLevel (GameState.level (gameState w)) w
  | _ => w
  end.

Definition GameScene_stopSimulation (now : Z) (w : World) : World :=
  let '(gs, evs) := GameState.stopSimulation (gameState w) now in
  fold_left (fun w0 ev => dispatchBasic ev w0) evs (with_gameState gs w).

(** [onLevelWon] and [onLevelLost] stop the simulation. *)
Definition dispatch (now : Z) (ev : GameState.Event) (w : World) : World :=
  match ev with
  | GameState.levelWon | GameState.levelLost => GameScene_stopSimulation now w
  | _ => dispatchBasic ev w
  end.

Definition emitAll (now : Z) (evs : list GameState.Event) (w : World) : World :=
  fold_left (fun w0 ev => dispatch now ev w0) evs w.

Definition CarManager_spawnCar (carTypeIndex entranceChoice : nat)
           (newId : CarId) (now : Z) (w : World) : World :=
  let m := carManager w in
  if negb (CarManager.isSpawning m) then w
  else
    match CarManager.levelData m with
    | None => w
    | Some l =>
        match Level.cars l !! carTypeIndex with
        | None => w
        | Some carType =>
            match Level.entrances carType !! entranceChoice with
            | None => w
            | Some entrance =>
                if CarManager.isPositionOccupied m (row entrance) (col entrance)
                then w
                else
                  let k := Car.create newId carType entrance
                                      (Level.exit_ carType) now in
                  let w1 := CarManager_addCar k w in
                  let m1 := carManager w1 in
                  let st := CarManager.stats m1 in
                  let st' := CarManager.mkStats
                               (CarManager.totalSpawned st + 1)
                               (CarManager.totalReachedExit st)
                               (CarManager.totalFailed st)
                               (CarManager.bump carTypeIndex
                                  (CarManager.spawnedByType st))
                               (CarManager.succeededByType st)
                               (CarManager.failedByType st) in
                  let w2 := with_carManager (CarManager.set_stats st' m1) w1 in
                  let '(gs, evs) := GameState.addCar (gameState w2) newId in
                  emitAll now evs (with_gameState gs w2)
            end
        end
    end.

Definition CarManager_removeCar (carId : CarId) (now : Z) (w : World) : World :=
  let m := carManager w in
  if bool_decide (carId ∈ CarManager.cars m) then
    match getCar w carId with
    | None => w
    | Some k =>
        let m1 := CarManager.removeCarFromPosition m k in
        let m2 := CarManager.set_cars
                    (filter (fun i => i ≠ carId) (CarManager.cars m1)) m1 in
        let w1 := with_carObjects (delete carId (carObjects w))
                                  (with_carManager m2 w) in
        let '(gs, evs) :=
          GameState.removeCar (gameState w1) carId (Some (Car.state k)) now in
        emitAll now evs (with_gameState gs w1)
    end
  else w.

Definition CarManager_cleanupTerminalCars (now : Z) (w : World) : World :=
  let toRemove :=
    List.filter (fun i => match getCar w i with
                          | Some k => Car.isTerminal k
                                      && (10000 <? now - Car.lastMoveTime k)
                          | None => false
                          end) (CarManager.cars (carManager w)) in
  fold_left (fun w0 i => CarManager_removeCar i now w0) toRemove w.

Definition CarManager_update (time delta now : Z) (w : World) : World :=
  let w1 := fold_left (fun w0 i => Car_update i time delta w0)
                      (CarManager.cars (carManager w)) w in
  if Z.rem time 5000 <? delta then CarManager_cleanupTerminalCars now w1
  else w1.

(** *** InputManager: road edits *)

Definition InputManager_handleRoadPlacement (r c : Z) (now : Z) (w : World)
  : World :=
  if negb (GridManager.isPositionEditable (gridManager w) r c) then w
  else if GridManager.hasRoad (gridManager w) r c then w
  else if negb (GameState.canAfford (gameState w) GameConfig.roadCost) then w
  else
    let '(ok, gm) := GridManager.placeRoad (gridManager w) r c in
    if ok then
      let '(_, gs, evs) :=
        GameState.placeRoad (gameState w) r c GameState.noRoadData in
      emitAll now evs (with_gameState gs (with_gridManager gm w))
    else w.

Definition InputManager_handleRoadDeletion (r c : Z) (now : Z) (w : World)
  : World :=
  if negb (GridManager.hasRoad (gridManager w) r c) then w
  else
    let '(ok, gm) := GridManager.removeRoad (gridManager w) r c in
    if ok then
      let '(_, gs, evs) := GameState.removeRoad (gameState w) r c in
      emitAll now evs (with_gameState gs (with_gridManager gm w))
    else w.

Definition InputManager_calculateDirection (fromCell toCell : Cell)
  : option Direction :=
  let deltaRow := fst toCell - fst fromCell in
  let deltaCol := snd toCell - snd fromCell in
  if negb (Z.abs deltaRow + Z.abs deltaCol =? 1) then None
  else if deltaRow =? -1 then Some UP
  else if deltaRow =? 1 then Some DOWN
  else if deltaCol =? -1 then Some LEFT
  else if deltaCol =? 1 then Some RIGHT
  else None.

Definition InputManager_completeArrowDrawing (startCell endCell : Cell)
           (now : Z) (w : World) : World :=
  match GridManager.getRoad (gridManager w) (fst startCell) (snd startCell) with
  | None => w
  | Some road =>
      match InputManager_calculateDirection startCell endCell with
      | None => w
      | Some direction =>
          let gm := GridManager.addDirection (gridManager w) startCell direction in
          let '(_, gs, evs) :=
            GameState.updateRoadDirections (gameState w) (fst startCell)
              (snd startCell) (Road.directions (Road.addDirection road direction)) in
          emitAll now evs (with_gameState gs (with_gridManager gm w))
      end
  end.

(** *** GameScene *)

Definition GameScene_startSimulation (now : Z) (w : World) : World :=
  if bool_decide (size (GameState.roads (gameState w)) = 0%nat) then w
  else
    let '(_, gs, evs) := GameState.startSimulation (gameState w) now in
    emitAll now evs (with_gameState gs w).

Definition GameScene_toggleSimulation (now : Z) (w : World) : World :=
  if GameState.isSimulating (gameState w)
  then GameScene_stopSimulation now w
  else GameScene_startSimulation now w.

Definition GameScene_checkEndConditions (now : Z) (w : World) : World :=
  if GameState.isSimulating (gameState w) then
    match CarManager.checkEndConditions (carManager w) with
    | Some CarManager.won =>
        dispatch now GameState.levelWon
                 (with_gameState (GameState.set_gameState WON (gameState w)) w)
    | Some CarManager.lost =>
        dispatch now GameState.levelLost
                 (with_gameState (GameState.set_gameState LOST (gameState w)) w)
    | None => w
    end
  else w.

Definition GameScene_update (time delta now : Z) (w : World) : World :=
  GameScene_checkEndConditions now (CarManager_update time delta now w).

(** [initializeSystems()] then [loadLevel]: the game state is
    initialised with the level (which emits [levelLoaded]) and the grid
    manager builds its cells. *)
Definition GameScene_loadLevel (levelData : Level.t) : World :=
  let w0 := mkWorld (GameState.initializeWithLevel levelData)
                    GridManager.init PathFinder.init CarManager.init ∅ true [] in
  with_gridManager (GridManager.initialize levelData)
                   (dispatchBasic GameState.levelLoaded w0).

(** *** What Phaser delivers to the scene

    Pointer events reach the input manager only while
    [scene.input.enabled] holds; a delayed event fires once and only if
    it is pending; a tween completes only while it runs.  The order and
    the dates of these stimuli are left free.

    A pointer event stands for the handler that the current tool
    selects: a click with the PLACE tool, a click with the DELETE tool,
    a completed drag with the ARROW tool.  The choice of the tool (the
    D key, [setCurrentTool]) is part of the event and not a stimulus of
    its own.  The R key ([resetLevel]: [GameState.reset] followed by an
    asynchronous reload of the level file) is not among the stimuli: a
    list of events is the play of one loaded level, from its load to
    the next reset. *)

Inductive Event :=
| PlaceRoadClick (r c : Z) (now : Z)
| DeleteRoadClick (r c : Z) (now : Z)
| ArrowDrag (startCell endCell : Cell) (now : Z)
| SpaceKey (now : Z)
| SpawnTimerFired (carTypeIndex entranceChoice : nat) (newId : CarId) (now : Z)
| RemoveTimerFired (carId : CarId) (now : Z)
| TweenCompleted (carId : CarId)
| Frame (time delta now : Z).

Fixpoint removeTimer (t : Timer) (l : list Timer) : list Timer :=
  match l with
  | [] => []
  | x :: l' => if decide (x = t) then l' else x :: removeTimer t l'
  end.

Definition step (ev : Event) (w : World) : World :=
  match ev with
  | PlaceRoadClick r c now =>
      if inputEnabled w then InputManager_handleRoadPlacement r c now w else w
  | DeleteRoadClick r c now =>
      if inputEnabled w then InputManager_handleRoadDeletion r c now w else w
  | ArrowDrag s e now =>
      if inputEnabled w then InputManager_completeArrowDrawing s e now w else w
  | SpaceKey now => GameScene_toggleSimulation now w
  | SpawnTimerFired i choice newId now =>
      if bool_decide (SpawnTimer i ∈ timers w) then
        let w1 := with_timers (removeTimer (SpawnTimer i) (timers w)) w in
        CarManager_scheduleCarSpawn i (CarManager_spawnCar i choice newId now w1)
      else w
  | RemoveTimerFired carId now =>
      if bool_decide (RemoveTimer carId ∈ timers w) then
        let w1 := with_timers (removeTimer (RemoveTimer carId) (timers w)) w in
        CarManager_removeCar carId now w1
      else w
  | TweenCompleted carId =>
      match getCar w carId with
      | Some k =>
          match Car.currentTween k with
          | Some targetCell => Car_onMoveComplete carId targetCell w
          | None => w
          end
      | None => w
      end
  | Frame time delta now => GameScene_update time delta now w
  end.

Definition run (evs : list Event) (w : World) : World :=
  fold_left (fun w0 ev => step ev w0) evs w.

(** ** Vocabulary of the properties *)

(** *** Outcome evaluation *)

Definition reached (m : CarManager.t) : N :=
  CarManager.totalReachedExit (CarManager.stats m).

Definition failed (m : CarManager.t) : N :=
  CarManager.totalFailed (CarManager.stats m).

(** The win comparison of the two evaluators, transcribed to IEEE
    binary64 (the number type of JavaScript); 0x1.999999999999ap-1 is
    the double written [0.8]. *)
Definition winTest_binary64 (r f : float) : bool :=
  let total := (r + f)%float in
  let successRate :=
    if PrimFloat.eqb total 0%float then 0%float
    else (r / total * 100)%float in
  PrimFloat.leb 0x1.999999999999ap-1%float (successRate / 100)%float.

Definition gameStateWinTest_binary64 (r f : float) : bool :=
  PrimFloat.leb 0x1.999999999999ap-1%float (r / (r + f))%float.

(** A car manager whose counters show [r] arrivals and [f] failures. *)
Definition statsOf (r f : N) : CarManager.t :=
  CarManager.set_stats (CarManager.mkStats (r + f) r f ∅ ∅ ∅) CarManager.init.

(** A counter as a binary64 number (exact below 2^53). *)
Definition binary64_of_N (n : N) : float :=
  PrimFloat.of_uint63 (Uint63.of_Z (Z.of_N n)).

(** [CarManager.checkEndConditions] as JavaScript evaluates it: the rate
    and the threshold are binary64 numbers. *)
Definition checkEndConditions_binary64 (m : CarManager.t)
  : option CarManager.EndCondition :=
  if (CarManager.minCarsToCheck m <=? reached m + failed m)%N then
    if winTest_binary64 (binary64_of_N (reached m)) (binary64_of_N (failed m))
    then Some CarManager.won
    else if (reached m <? failed m)%N then Some CarManager.lost
         else None
  else None.

(** The binary64 win test at [r] arrivals and [f] failures gives the
    answer of the comparison of integers [4 f <= r] (with a car
    terminated). *)
Definition winTestExact (r f : N) : bool :=
  Bool.eqb (winTest_binary64 (binary64_of_N r) (binary64_of_N f))
           ((0 <? r + f)%N && (4 * f <=? r)%N).

(** [P] holds of [fuel] consecutive numbers from [i]. *)
Fixpoint allFrom (P : N -> bool) (fuel : nat) (i : N) : bool :=
  match fuel with
  | O => true
  | S k => P i && allFrom P k (N.succ i)
  end.

(** The win test is exact for every split of [t] terminated cars. *)
Definition winTestExactRow (t : N) : bool :=
  allFrom (fun r => winTestExact r (t - r)) (N.to_nat (t + 1)) 0.

(** *** Game states used as examples *)

Definition emptyLevel : Level.t := Level.mk 3 3 [] ∅ ∅ 10000.

Definition runningState : GameState.t :=
  GameState.set_isSimulating true
    (GameState.set_roads {[ gridKey 1 1 := Road.mk 1 1 [] ]}
       (GameState.initializeWithLevel emptyLevel)).

(** *** The pathfinding grid *)

(** A pathfinder whose grid, if any, has the recorded dimensions. *)
Definition wellFormed (pf : PathFinder.t) : Prop :=
  forall g, PathFinder.grid pf = Some g ->
            PF.width g = PathFinder.gridWidth pf
            /\ PF.height g = PathFinder.gridHeight pf.

(** The grid reflects a road layout: its walkable cells are exactly the
    in-grid cells that hold a road and are not obstacles. *)
Definition reflects (pf : PathFinder.t) (roads : gmap Cell Road.t)
           (obstacles : gset Cell) (R C : Z) : Prop :=
  PathFinder.gridWidth pf = C /\ PathFinder.gridHeight pf = R
  /\ exists g, PathFinder.grid pf = Some g
               /\ PF.width g = C /\ PF.height g = R
               /\ forall r c,
                   PF.isWalkableAt g c r = true
                   <-> isValidGridPosition r c R C = true
                       /\ is_Some (roads !! gridKey r c)
                       /\ gridKey r c ∉ obstacles.

(** Reversed paths of the search frontier: they end at [start] and every
    earlier node is a neighbour of the next one. *)
Inductive RevPath (g : PF.Grid) (start : PF.Node) : list PF.Node -> Prop :=
| RevPath_start : RevPath g start [start]
| RevPath_step n cur p :
    RevPath g start (cur :: p) -> n ∈ PF.getNeighbors g cur ->
    RevPath g start (n :: cur :: p).

(** The in-grid nodes of a grid. *)
Definition insideNodes (g : PF.Grid) : gset PF.Node :=
  list_to_set (PF.allNodes (PF.width g) (PF.height g)).

(** Nodes still to discover plus paths still to expand: what the fuel
    of the search has to cover. *)
Definition searchMeasure (g : PF.Grid) (visited : gset PF.Node)
           (queue : list (list PF.Node)) : nat :=
  (size (insideNodes g ∖ visited) + length queue)%nat.

(** *** Entrances and exits outside the grid *)

(** Distance in which the rings of [findNearestValidPosition] grow. *)
Definition chebyshev (p : Position) (c : Cell) : Z :=
  Z.max (Z.abs (fst c - row p)) (Z.abs (snd c - col p)).

(** The interior cell next to a position that lies one step outside one
    edge of the grid. *)
Definition interiorNeighbor (p : Position) (R C : Z) : Cell :=
  (Z.max 0 (Z.min (R - 1) (row p)), Z.max 0 (Z.min (C - 1) (col p))).

Definition usable (pf : PathFinder.t) (R C : Z) (c : Cell) : bool :=
  isValidGridPosition (fst c) (snd c) R C
  && PathFinder.gridWalkableAt pf (snd c) (fst c).

(** [s] is a walkable in-grid cell and no walkable in-grid cell lies in
    a smaller ring around [p]. *)
Definition NearestWalkable (pf : PathFinder.t) (R C : Z) (p : Position)
           (s : Cell) : Prop :=
  usable pf R C s = true
  /\ forall c, usable pf R C c = true -> chebyshev p s <= chebyshev p c.

(** A 3 x 3 grid whose roads are the middle row and the top-left cell. *)
Definition cornerRoads : gmap Cell Road.t :=
  list_to_map [ ((0, 0), Road.mk 0 0 []); ((1, 0), Road.mk 1 0 []);
                ((1, 1), Road.mk 1 1 []); ((1, 2), Road.mk 1 2 []) ].

Definition cornerGrid : PathFinder.t :=
  PathFinder.updateGrid PathFinder.init cornerRoads ∅ 3 3.

(** The entrance of row 2 on the left edge (level coordinates). *)
Definition leftEntrance : Position := processEntranceCoordinates 2 0 3 3.

(** [p] lies one cell outside one edge of the grid. *)
Definition besideGrid (p : Position) (R C : Z) : Prop :=
  (0 <= row p < R /\ (col p = -1 \/ col p = C))
  \/ (0 <= col p < C /\ (row p = -1 \/ row p = R)).

(** [c] is one of the eight cells around [p]. *)
Definition touches (p : Position) (c : Cell) : Prop :=
  Z.abs (fst c - row p) <= 1 /\ Z.abs (snd c - col p) <= 1
  /\ c <> (row p, col p).

(** [s] can stand for the position [p]: it is a walkable in-grid cell,
    and it is the interior cell next to [p] when [p] lies one cell
    outside the grid and that cell is the only walkable one around
    [p]. *)
Definition replaces (pf : PathFinder.t) (R C : Z) (p : Position) (s : Cell)
  : Prop :=
  usable pf R C s = true
  /\ (besideGrid p R C ->
      usable pf R C (interiorNeighbor p R C) = true ->
      (forall c, usable pf R C c = true -> touches p c ->
                 c = interiorNeighbor p R C) ->
      s = interiorNeighbor p R C).

(** A 3 x 3 grid whose roads are the middle row. *)
Definition rowRoads : gmap Cell Road.t :=
  list_to_map [ ((1, 0), Road.mk 1 0 []); ((1, 1), Road.mk 1 1 []);
                ((1, 2), Road.mk 1 2 []) ].

Definition rowGrid : PathFinder.t :=
  PathFinder.updateGrid PathFinder.init rowRoads ∅ 3 3.

(** The same grid without the road next to the left edge. *)
Definition gapRoads : gmap Cell Road.t :=
  list_to_map [ ((1, 1), Road.mk 1 1 []); ((1, 2), Road.mk 1 2 []) ].

Definition gapGrid : PathFinder.t :=
  PathFinder.updateGrid PathFinder.init gapRoads ∅ 3 3.

(** *** The invariant behind the dirty flag *)

Definition obstaclesOf (gm : GridManager.t) : gset Cell :=
  match GridManager.levelData gm with
  | Some l => Level.uneditableCells l
  | None => ∅
  end.

(** The pathfinding grid reflects the roads currently on the grid. *)
Definition fresh (w : World) : Prop :=
  reflects (pathFinder w) (GridManager.roads (gridManager w))
           (obstaclesOf (gridManager w))
           (GridManager.rows (gridManager w))
           (GridManager.columns (gridManager w)).

(** The two road maps hold the same cells, and a clean flag means a
    fresh grid. *)
Definition InvW (w : World) : Prop :=
  wellFormed (pathFinder w)
  /\ dom (GameState.roads (gameState w)) = dom (GridManager.roads (gridManager w))
  /\ (GameState.pathfindingGridDirty (gameState w) = false -> fresh w).

(** Pointer input is delivered only in the build phase. *)
Definition quiet (w : World) : Prop :=
  inputEnabled w = true -> GameState.isSimulating (gameState w) = false.

Definition Inv (w : World) : Prop := InvW w /\ quiet w.

Definition simOf (w : World) : bool := GameState.isSimulating (gameState w).

(** The part of the world the invariant reads. *)
Definition core (w : World) :=
  (gridManager w, pathFinder w, GameState.roads (gameState w),
   GameState.pathfindingGridDirty (gameState w),
   GameState.isSimulating (gameState w), inputEnabled w).

Definition coreW (w : World) :=
  (gridManager w, pathFinder w, GameState.roads (gameState w),
   GameState.pathfindingGridDirty (gameState w)).

(** The invariant together with the values of the two phase flags. *)
Definition J (b : bool * bool) (w : World) : Prop :=
  InvW w /\ (GameState.isSimulating (gameState w), inputEnabled w) = b.

(** Events without a listener that changes the world. *)
Definition harmless (ev : GameState.Event) : bool :=
  match ev with
  | GameState.simulationStarted | GameState.simulationStopped
  | GameState.levelWon | GameState.levelLost | GameState.levelLoaded => false
  | _ => true
  end.

(** *** Frames seen by one car *)

(** Successive updates of one car, one per frame [(time, delta)]. *)
Definition updates (carId : CarId) (frames : list (Z * Z)) (w : World) : World :=
  fold_left (fun w0 f => Car_update carId (fst f) (snd f) w0) frames w.

Definition elapsed (frames : list (Z * Z)) : Z :=
  fold_right (fun f acc => snd f + acc) 0 frames.

Definition positionOf (w : World) (carId : CarId) : option Cell :=
  option_map Car.getGridPosition (getCar w carId).

Definition stateOf (w : World) (carId : CarId) : option CarState :=
  option_map Car.state (getCar w carId).

(** *** A concrete level: one lane, a through car and a stranded car

    A 3 x 3 level whose two car types enter inside the grid (the level
    loader accepts such entrances): red cars go from (1, 0) to (1, 2),
    blue cars enter at (1, 1) and aim at (0, 0).  The player builds the
    middle row only, so blue cars have no route. *)

Definition laneLevel : Level.t :=
  Level.mk 3 3
    [ Level.mkCarType "red" [processEntranceCoordinates 2 1 3 3]
                      (processEntranceCoordinates 2 3 3 3);
      Level.mkCarType "blue" [processEntranceCoordinates 2 2 3 3]
                      (processEntranceCoordinates 1 1 3 3) ]
    ∅ ∅ 10000.

Definition laneBuilt : list Event :=
  [ PlaceRoadClick 1 0 0; PlaceRoadClick 1 1 0; PlaceRoadClick 1 2 0 ].

(** The run starts, then a blue car "B" and a red car "A" are spawned. *)
Definition laneSpawned : list Event :=
  laneBuilt ++ [ SpaceKey 1000;
                 SpawnTimerFired 1 0 "B" 4200;
                 SpawnTimerFired 0 0 "A" 4500 ].

(** "A" decides its second move in the frame at 7000 ms ... *)
Definition laneDecision : list Event :=
  laneSpawned ++ [ Frame 5000 1000 5000; Frame 6000 1000 6000;
                   TweenCompleted "A"; Frame 7000 1000 7000 ].

(** ... and completes it two seconds later. *)
Definition laneCrash : list Event :=
  laneDecision ++ [ Frame 8000 1000 8000; TweenCompleted "A" ].

(** The stranded car at the end of the spawn phase. *)
Definition strandedCar : Car.t :=
  Eval vm_compute in
    default (Car.create "B" (Level.mkCarType "blue" [] (plainPosition (0, 0)))
                        (plainPosition (1, 1)) (plainPosition (0, 0)) 0)
            (getCar (run laneSpawned (GameScene_loadLevel laneLevel)) "B").

(** A thousand frames of 16 ms. *)
Definition sixteenSeconds : list (Z * Z) :=
  map (fun i => (4500 + 16 * i, 16)) (seqZ 1 1000).

(** The lane with an arrow pointing right drawn on its middle road. *)
Definition laneWithArrow : list Event :=
  laneBuilt ++ [ ArrowDrag (1, 1) (1, 2) 0 ].

(** *** A road of the lane is re-annotated between two runs *)

(** The lane is built, the run starts and a red car "A" is spawned. *)
Definition laneFirstRun : list Event :=
  laneBuilt ++ [ SpaceKey 1000; SpawnTimerFired 0 0 "A" 4000 ].

(** The run is stopped and an arrow pointing left is drawn on the middle
    road. *)
Definition laneRedrawn : list Event :=
  laneFirstRun ++ [ SpaceKey 5000; ArrowDrag (1, 1) (1, 0) 6000 ].

(** The run starts again and a red car "C" is spawned. *)
Definition laneSecondRun : list Event :=
  laneRedrawn ++ [ SpaceKey 7000; SpawnTimerFired 0 0 "C" 10000 ].

(** *** Strings without a comma *)

(** No character of the string is a comma. *)
Fixpoint commaFree (s : string) : Prop :=
  match s with
  | EmptyString => True
  | String a s' => Ascii.eqb a "," = false /\ commaFree s'
  end.

(** *** Level documents *)

(** The area contains the cell. *)
Definition covers (area : LevelManager.Area) (k : Cell) : Prop :=
  LevelManager.rowFrom area <= fst k <= LevelManager.rowTo area
  /\ LevelManager.columnFrom area <= snd k <= LevelManager.columnTo area.

(** A position of the level file that the loader accepts: on an edge,
    or inside the grid (1-based). *)
Definition acceptable (gridRows gridCols : Z) (p : LevelManager.RawPosition) : Prop :=
  fst p = 0 \/ fst p = -1 \/ snd p = 0 \/ snd p = -1
  \/ (1 <= fst p <= gridRows /\ 1 <= snd p <= gridCols).

(** A car type that the loader accepts. *)
Definition wellFormedCar (gridRows gridCols : Z) (car : LevelManager.RawCar) : Prop :=
  LevelManager.color car <> EmptyString
  /\ (1 <= length (LevelManager.entrances car) <= LevelLimits.maxEntrancesPerCar)%nat
  /\ Forall (acceptable gridRows gridCols) (LevelManager.entrances car)
  /\ acceptable gridRows gridCols (LevelManager.exit_ car).

(** *** The occupancy index *)

(** No cell of the occupancy index holds an empty set. *)
Definition noEmptySet (m : CarManager.t) : Prop :=
  forall (k : Cell) (ids : list CarId),
    CarManager.carsByPosition m !! k = Some ids -> ids <> [].

(** *** What the cars leave alone *)

(** The pending spawn timers. *)
Definition spawnTimers (w : World) : list Timer :=
  List.filter isSpawnTimer (timers w).

(** Cars of a type spawned so far, as the manager counts them. *)
Definition spawned (w : World) (carTypeIndex : nat) : N :=
  default 0%N (CarManager.spawnedByType (CarManager.stats (carManager w))
               !! carTypeIndex).

(** What the updates of the cars leave alone: everything but the
    pathfinding grid and its dirty flag, the arrival and failure
    counters, the removal timers and the contents of the car objects. *)
Definition scenery (w : World) :=
  (gridManager w, GameState.set_dirty false (gameState w), inputEnabled w,
   (CarManager.cars (carManager w), CarManager.carsByPosition (carManager w),
    CarManager.levelData (carManager w), CarManager.isSpawning (carManager w)),
   (CarManager.totalSpawned (CarManager.stats (carManager w)),
    CarManager.spawnedByType (CarManager.stats (carManager w))),
   spawnTimers w, dom (carObjects w)).

(** The layout the player builds. *)
Definition layout (w : World) :=
  (gridManager w, GameState.roads (gameState w), GameState.budget (gameState w),
   GameState.level (gameState w)).

(** [w] differs from [w0] only in what the updates of the cars change. *)
Definition kept (w0 w : World) : Prop := scenery w = scenery w0.

(** *** The phases of the scene *)

(** What a stop of the simulation leaves in place. *)
Definition Lasting (w : World) : Prop :=
  CarManager.levelData (carManager w) = Some (GameState.level (gameState w))
  /\ dom (carObjects w) = list_to_set (CarManager.cars (carManager w))
  /\ forall i, Z.of_N (spawned w i) <= GameConfig.maxCarsPerType.

(** The phases of the scene: the flags agree, cars and spawn timers
    exist during a run only, and no car type is spawned beyond its
    quota. *)
Definition Sound (w : World) : Prop :=
  GameState.gameState (gameState w)
  = (if GameState.isSimulating (gameState w) then SIMULATING else BUILDING_MODE)
  /\ inputEnabled w = negb (GameState.isSimulating (gameState w))
  /\ CarManager.isSpawning (carManager w) = GameState.isSimulating (gameState w)
  /\ (GameState.isSimulating (gameState w) = false ->
      CarManager.cars (carManager w) = []
      /\ CarManager.carsByPosition (carManager w) = ∅
      /\ GameState.cars (gameState w) = []
      /\ GameState.activeCars (gameState w) = ∅
      /\ spawnTimers w = [])
  /\ (forall i, SpawnTimer i ∈ spawnTimers w ->
                Z.of_N (spawned w i) < GameConfig.maxCarsPerType)
  /\ NoDup (spawnTimers w)
  /\ Lasting w.

(** The game state after a stop at [now]. *)
Definition stopped (s : GameState.t) (now : Z) : GameState.t :=
  let s1 := GameState.set_gameState BUILDING_MODE
              (GameState.set_isSimulating false s) in
  let st := GameState.stats s1 in
  GameState.set_cars [] ∅
    (GameState.set_stats
       (GameState.mkStats (GameState.carsSpawned st) (GameState.carsReachedExit st)
                          (GameState.carsFailed st)
                          (GameState.simulationStartTime st) (Some now)) s1).

(** The part of the game state that tells the phase. *)
Definition gsPhase (s : GameState.t) :=
  (GameState.gameState s, GameState.isSimulating s, GameState.level s,
   GameState.cars s, GameState.activeCars s).

(** What [Sound] reads. *)
Definition phaseView (w : World) :=
  (gsPhase (gameState w), inputEnabled w, carManager w, timers w, carObjects w).

(** The pending test of [scheduleCarSpawn]. *)
Definition belowQuota (w : World) (carTypeIndex : nat) : bool :=
  negb (GameConfig.maxCarsPerType <=? Z.of_N (spawned w carTypeIndex)).

(** *** A level whose cars enter from the left edge *)

(** A level with one car type that enters at three places of the left
    edge and leaves on the right edge. *)
Definition edgeLevel : Level.t :=
  Level.mk 3 3
    [ Level.mkCarType "red" [ processEntranceCoordinates 1 0 3 3;
                              processEntranceCoordinates 2 0 3 3;
                              processEntranceCoordinates 3 0 3 3 ]
                      (processEntranceCoordinates 2 (-1) 3 3) ]
    ∅ ∅ 10000.

(** A run of that level that is lost: three cars are spawned, lose
    their route at their first update and time out in a long frame. *)
Definition lostRun : list Event :=
  [ PlaceRoadClick 1 0 0; SpaceKey 1000;
    SpawnTimerFired 0 0 "A" 4000; SpawnTimerFired 0 1 "B" 7000;
    SpawnTimerFired 0 2 "C" 10000;
    Frame 11000 16 11000; Frame 21001 10001 21001 ].

(** *** The layout and the events that edit it *)

(** The part of the game state that belongs to the layout. *)
Definition gsLayout (s : GameState.t) :=
  (GameState.roads s, GameState.budget s, GameState.level s).

(** Pointer events, the only events of a play that edit the layout. *)
Definition isEdit (ev : Event) : bool :=
  match ev with
  | PlaceRoadClick _ _ _ | DeleteRoadClick _ _ _ | ArrowDrag _ _ _ => true
  | _ => false
  end.

(** *** Roads where the grid can hold them *)

(** The four directions an arrow can take. *)
Definition cardinal (d : Direction) : Prop := d ∈ [UP; DOWN; LEFT; RIGHT].

(** The type the level gives a cell allows editing. *)
Definition levelEditable (l : Level.t) (k : Cell) : bool :=
  GridManager.isEditable (GridManager.getCellType (Some l) (fst k) (snd k)).

(** A road where the grid can hold one. *)
Definition wellPlaced (l : Level.t) (gm : GridManager.t) (k : Cell) (rd : Road.t)
  : Prop :=
  Road.r rd = fst k /\ Road.c rd = snd k
  /\ GridManager.isValidPosition gm (fst k) (snd k) = true
  /\ GridManager.cells gm !! k = Some ROAD
  /\ levelEditable l k = true
  /\ Forall cardinal (Road.directions rd).

(** The layout as the edits of the player keep it, for the level [l]. *)
Definition Built (l : Level.t) (w : World) : Prop :=
  let gs := gameState w in
  let gm := gridManager w in
  GameState.level gs = l
  /\ GridManager.levelData gm = Some l
  /\ GridManager.rows gm = Level.grid_rows l
  /\ GridManager.columns gm = Level.grid_columns l
  /\ GameState.roads gs = GridManager.roads gm
  /\ GameState.budget gs
     = Level.initialBudget l
       - GameConfig.roadCost * Z.of_nat (size (GameState.roads gs))
  /\ Z.min 0 (Level.initialBudget l) <= GameState.budget gs
  /\ (forall k ct, GridManager.cells gm !! k = Some ct ->
                   GridManager.isEditable ct = true -> levelEditable l k = true)
  /\ (forall k rd, GridManager.roads gm !! k = Some rd -> wellPlaced l gm k rd).

(** *** The fate of one car object *)

(** The car object [i] of [w] is the one of [w0]. *)
Definition sameCar (i : CarId) (w0 w : World) : Prop := getCar w i = getCar w0 i.

(** The car object [i] of [w], if any, is the one of [w0]. *)
Definition goneOrSame (i : CarId) (w0 w : World) : Prop :=
  getCar w i = None \/ getCar w i = getCar w0 i.

(** The event is a spawn that gives the new car the identifier [i]. *)
Definition reuses (i : CarId) (ev : Event) : bool :=
  match ev with
  | SpawnTimerFired _ _ newId _ => bool_decide (newId = i)
  | _ => false
  end.

(** Whatever car object [i] is in [w], it satisfies [P]. *)
Definition fate (i : CarId) (P : Car.t -> Prop) (w : World) : Prop :=
  forall k, getCar w i = Some k -> P k.

(** *** Cars that have come to a halt *)

(** A car at [(r, c)] that waits without being flagged as blocked, or
    has failed, and has no tween running. *)
Definition haltedAt (r c : Z) (k : Car.t) : Prop :=
  (Car.state k = WAITING \/ Car.state k = FAILED)
  /\ Car.isBlocked k = false /\ Car.currentTween k = None
  /\ Car.gridRow k = r /\ Car.gridCol k = c.

(** A car at [(r, c)] that is halted, or is about to ask for a new
    route. *)
Definition strandedAt (r c : Z) (k : Car.t) : Prop :=
  haltedAt r c k
  \/ (Car.state k = MOVING /\ Car.needsNewPath k = true
      /\ Car.isBlocked k = false /\ Car.currentTween k = None
      /\ Car.gridRow k = r /\ Car.gridCol k = c).

(** One road is built, the run starts and a first car is spawned. *)
Definition edgeSpawned : list Event :=
  [ PlaceRoadClick 1 0 0; SpaceKey 1000; SpawnTimerFired 0 0 "A" 4000 ].

(** The car spawned at the left edge of the first row: it has a route
    to the road at (1, 0) and is about to ask for a new one. *)
Definition edgeCar : Car.t :=
  Eval vm_compute in
    default (Car.create "A" (Level.mkCarType "red" [] (plainPosition (0, 0)))
                        (plainPosition (0, 0)) (plainPosition (0, 0)) 0)
            (getCar (run edgeSpawned (GameScene_loadLevel edgeLevel)) "A").

(** *** Arrival along a route *)

(** The arrival test of [checkIfReachedExit] for a car standing on
    [cell]: on the target, or next to a target flagged as an entrance. *)
Definition arrivesAt (target : Position) (cell : Cell) : bool :=
  ((fst cell =? row target) && (snd cell =? col target))
  || (if isEntrance target
      then Z.abs (fst cell - row target) + Z.abs (snd cell - col target) <=? 1
      else false).

(** The lane until the first tween of the red car "A" is complete. *)
Definition laneFirstMove : list Event :=
  laneSpawned ++ [ Frame 5000 1000 5000; TweenCompleted "A" ].

(** The red car at that point: it stands on its entrance (1, 0) and its
    route goes on to (1, 1) and (1, 2). *)
Definition laneCar : Car.t :=
  Eval vm_compute in
    default strandedCar
            (getCar (run laneFirstMove (GameScene_loadLevel laneLevel)) "A").

(** A level whose exit lies beyond the right edge, played with a single
    road on the entrance cell (1, 0): the route of a car is that cell
    alone, three cells away from the exit. *)
Definition farExitLevel : Level.t :=
  Level.mk 3 3
    [ Level.mkCarType "red" [ processEntranceCoordinates 2 1 3 3 ]
                      (processEntranceCoordinates 2 (-1) 3 3) ]
    ∅ ∅ 10000.

(** The car is spawned and completes the only tween of its route. *)
Definition farRun : list Event :=
  [ PlaceRoadClick 1 0 0; SpaceKey 1000; SpawnTimerFired 0 0 "A" 4000;
    Frame 5000 16 5000; TweenCompleted "A" ].

(** The car at that point: on (1, 0), its route used up. *)
Definition farCar : Car.t :=
  Eval vm_compute in
    default strandedCar
            (getCar (run farRun (GameScene_loadLevel farExitLevel)) "A").

(** *** Cells joined by roads *)

(** [b] is reached from [a] by steps between neighbours of the grid. *)
Inductive Linked (g : PF.Grid) : PF.Node -> PF.Node -> Prop :=
| Linked_here a : Linked g a a
| Linked_step a b c :
    b ∈ PF.getNeighbors g a -> Linked g b c -> Linked g a c.

(** Every discovered node is still the head of a queued path, or it has
    been expanded: it is not the goal and its neighbours are
    discovered. *)
Definition Frontier (g : PF.Grid) (goal : PF.Node) (visited : gset PF.Node)
           (queue : list (list PF.Node)) : Prop :=
  forall v, v ∈ visited ->
            (exists p, (v :: p) ∈ queue)
            \/ (v <> goal /\ forall n, n ∈ PF.getNeighbors g v -> n ∈ visited).

(** Two cells side by side. *)
Definition beside (a b : Cell) : Prop :=
  manhattanDistance (fst a) (snd a) (fst b) (snd b) = 1.

(** [a] and [b] are joined by a chain of cells side by side that all
    satisfy [P]. *)
Inductive Joined (P : Cell -> Prop) : Cell -> Cell -> Prop :=
| Joined_here a : P a -> Joined P a a
| Joined_step a b c : P a -> beside a b -> Joined P b c -> Joined P a c.

(** An in-grid cell that holds a road and is not an obstacle. *)
Definition openCell (roads : gmap Cell Road.t) (obstacles : gset Cell)
           (R C : Z) (k : Cell) : Prop :=
  isValidGridPosition (fst k) (snd k) R C = true
  /\ is_Some (roads !! k) /\ k ∉ obstacles.

(** A cell of the grid that holds a road of the current layout and is
    not an obstacle of the level. *)
Definition roadCell (w : World) : Cell -> Prop :=
  openCell (GridManager.roads (gridManager w)) (obstaclesOf (gridManager w))
           (GridManager.rows (gridManager w))
           (GridManager.columns (gridManager w)).

(** * Properties *)

(** ** Outcome evaluation *)

Section Outcome.
Implicit Types m : CarManager.t.

Lemma inject_N_pos (n : N) : (0 < n)%N -> (0 < inject_Z (Z.of_N n))%Q.
Proof. intros H. unfold Qlt. simpl. lia. Qed.

Lemma getSuccessRate_nonzero m :
  (reached m + failed m)%N <> 0%N ->
  (CarManager.getSuccessRate m ==
   100 * inject_Z (Z.of_N (reached m)) / inject_Z (Z.of_N (reached m + failed m)))%Q.
Proof.
  intros H. unfold CarManager.getSuccessRate, reached, failed in *.
  destruct (N.eqb_spec (CarManager.totalReachedExit (CarManager.stats m)
                        + CarManager.totalFailed (CarManager.stats m)) 0) as [E|E];
    [contradiction|].
  field. intros Hz.
  assert (0 < inject_Z (Z.of_N (CarManager.totalReachedExit (CarManager.stats m)
                        + CarManager.totalFailed (CarManager.stats m))))%Q as Hp
    by (apply inject_N_pos; lia).
  rewrite Hz in Hp. discriminate Hp.
Qed.

(** The fraction actually compared with the threshold. *)
Lemma rate_fraction m :
  (reached m + failed m)%N <> 0%N ->
  (CarManager.getSuccessRate m / 100 ==
   inject_Z (Z.of_N (reached m)) / inject_Z (Z.of_N (reached m + failed m)))%Q.
Proof.
  intros H. rewrite (getSuccessRate_nonzero m H). field.
  intros Hz.
  assert (0 < inject_Z (Z.of_N (reached m + failed m)))%Q as Hp
    by (apply inject_N_pos; lia).
  rewrite Hz in Hp. discriminate Hp.
Qed.

Lemma fraction_le (t : Q) (a b : N) :
  (0 < b)%N ->
  (t <= inject_Z (Z.of_N a) / inject_Z (Z.of_N b))%Q <->
  (Qnum t * Z.of_N b <= Z.of_N a * Zpos (Qden t)).
Proof.
  intros Hb.
  assert (0 < inject_Z (Z.of_N b))%Q as Hp by (apply inject_N_pos; lia).
  split; intros H.
  - apply (Qmult_le_compat_r _ _ (inject_Z (Z.of_N b))) in H;
      [|apply Qlt_le_weak; exact Hp].
    assert (inject_Z (Z.of_N a) / inject_Z (Z.of_N b) * inject_Z (Z.of_N b)
            == inject_Z (Z.of_N a))%Q as E.
    { field. intros Hz. rewrite Hz in Hp. discriminate Hp. }
    rewrite E in H. unfold Qle in H. simpl in H. lia.
  - apply Qle_shift_div_l; [exact Hp|].
    unfold Qle. simpl. lia.
Qed.

Lemma Qle_bool_false (x y : Q) : Qle_bool x y = false <-> (y < x)%Q.
Proof.
  split; intros H.
  - apply Qnot_le_lt. intros Hle. apply Qle_bool_iff in Hle. congruence.
  - destruct (Qle_bool x y) eqn:E; [|reflexivity].
    apply Qle_bool_iff in E. apply Qlt_not_le in H. contradiction.
Qed.

Lemma losing_rate_below_half (a b : N) :
  (a < b)%N ->
  (inject_Z (Z.of_N a) / inject_Z (Z.of_N (a + b)) < 1 # 2)%Q.
Proof.
  intros H. apply Qnot_le_lt. intros Hle.
  apply fraction_le in Hle; [|lia]. simpl in Hle. lia.
Qed.

(** A losing record is a rate below one half, hence below the win
    threshold. *)
Lemma losing_rate_below_threshold (a b : N) :
  (a < b)%N ->
  Qle_bool GameConfig.successThreshold
           (inject_Z (Z.of_N a) / inject_Z (Z.of_N (a + b))) = false.
Proof.
  intros H. apply Qle_bool_false.
  eapply Qlt_trans; [apply losing_rate_below_half; exact H|reflexivity].
Qed.

Lemma checkEndConditions_won_iff m :
  (CarManager.minCarsToCheck m <= reached m + failed m)%N ->
  CarManager.checkEndConditions m = Some CarManager.won
  <-> (GameConfig.successThreshold <= CarManager.getSuccessRate m / 100)%Q.
Proof.
  intros Hmin. unfold CarManager.checkEndConditions.
  fold (reached m) (failed m).
  destruct (N.leb_spec (CarManager.minCarsToCheck m) (reached m + failed m))
    as [_|?]; [|lia].
  destruct (Qle_bool GameConfig.successThreshold
                     (CarManager.getSuccessRate m / 100)) eqn:E.
  - split; [|reflexivity]. intros _. apply Qle_bool_iff. exact E.
  - split.
    + destruct (_ <? _)%N; discriminate.
    + intros H. apply Qle_bool_iff in H. congruence.
Qed.

(** The win comparison of the car manager fails on a losing record. *)
Lemma losing_record_not_won m :
  (reached m < failed m)%N ->
  Qle_bool GameConfig.successThreshold (CarManager.getSuccessRate m / 100)
  = false.
Proof.
  intros Hlt. apply Qle_bool_false. rewrite rate_fraction by lia.
  eapply Qlt_trans; [apply losing_rate_below_half; exact Hlt|reflexivity].
Qed.

(** The verdict LOST of the car manager in terms of the lose check. *)
Lemma checkEndConditions_lost_iff m :
  CarManager.checkEndConditions m = Some CarManager.lost
  <-> (CarManager.minCarsToCheck m <= reached m + failed m)%N
      /\ (reached m < failed m)%N.
Proof.
  unfold CarManager.checkEndConditions. fold (reached m) (failed m).
  destruct (N.leb_spec (CarManager.minCarsToCheck m) (reached m + failed m))
    as [Hmin|Hmin]; [|split; [discriminate|lia]].
  destruct (N.ltb_spec (reached m) (failed m)) as [Hlt|Hge].
  - rewrite (losing_record_not_won m Hlt). tauto.
  - destruct (Qle_bool _ _); (split; [discriminate|lia]).
Qed.

(** The events of the evaluator of the game state, run on a simulating
    state whose sample is large enough. *)
Lemma checkGameEndConditions_events (s : GameState.t) (now : Z) :
  GameState.isSimulating s = true ->
  (N.of_nat (length (Level.cars (GameState.level s))) * 2
   <= GameState.carsReachedExit (GameState.stats s)
      + GameState.carsFailed (GameState.stats s))%N ->
  snd (GameState.checkGameEndConditions s now) =
  if Qle_bool GameConfig.successThreshold
              (GameState.successRate (GameState.stats s))
  then map GameState.carRemoved (GameState.cars s)
       ++ [GameState.simulationStopped; GameState.levelWon]
  else if (GameState.carsReachedExit (GameState.stats s)
           <? GameState.carsFailed (GameState.stats s))%N
       then map GameState.carRemoved (GameState.cars s)
            ++ [GameState.simulationStopped; GameState.levelLost]
       else [].
Proof.
  intros Hsim Hmin. unfold GameState.checkGameEndConditions.
  rewrite Hsim. simpl negb. cbv iota.
  destruct (N.leb_spec
              (N.of_nat (length (Level.cars (GameState.level s))) * 2)
              (GameState.carsReachedExit (GameState.stats s)
               + GameState.carsFailed (GameState.stats s))) as [_|?]; [|lia].
  unfold GameState.stopSimulation. simpl. rewrite Hsim. simpl.
  destruct (Qle_bool _ _); [by rewrite <- app_assoc|].
  destruct (_ <? _)%N; [by rewrite <- app_assoc|reflexivity].
Qed.

(** [levelLost] is not among the events of a stop, nor is it the event
    of a win. *)
Lemma levelLost_not_in_stop (ids : list CarId) (last : GameState.Event) :
  last <> GameState.levelLost ->
  ~ In GameState.levelLost
       (map GameState.carRemoved ids ++ [GameState.simulationStopped; last]).
Proof.
  intros Hne Hin. apply in_app_or in Hin as [Hin|Hin].
  - apply in_map_iff in Hin as (? & ? & _). discriminate.
  - simpl in Hin. destruct Hin as [?|[?|[]]]; [discriminate|congruence].
Qed.

(** The event [levelLost] of the game state in terms of the lose check. *)
Lemma checkGameEndConditions_lost_iff (s : GameState.t) (now : Z) :
  In GameState.levelLost (snd (GameState.checkGameEndConditions s now))
  <-> GameState.isSimulating s = true
      /\ (N.of_nat (length (Level.cars (GameState.level s))) * 2
          <= GameState.carsReachedExit (GameState.stats s)
             + GameState.carsFailed (GameState.stats s))%N
      /\ (GameState.carsReachedExit (GameState.stats s)
          < GameState.carsFailed (GameState.stats s))%N.
Proof.
  destruct (GameState.isSimulating s) eqn:Hsim.
  2:{ unfold GameState.checkGameEndConditions. rewrite Hsim. simpl.
      split; [intros []|intros [? _]; discriminate]. }
  destruct (N.leb_spec
              (N.of_nat (length (Level.cars (GameState.level s))) * 2)
              (GameState.carsReachedExit (GameState.stats s)
               + GameState.carsFailed (GameState.stats s))) as [Hmin|Hmin].
  2:{ unfold GameState.checkGameEndConditions. rewrite Hsim. simpl negb.
      cbv iota.
      destruct (N.leb_spec
                  (N.of_nat (length (Level.cars (GameState.level s))) * 2)
                  (GameState.carsReachedExit (GameState.stats s)
                   + GameState.carsFailed (GameState.stats s))) as [?|_];
        [lia|].
      simpl. split; [intros []|intros (_ & ? & _); lia]. }
  rewrite (checkGameEndConditions_events s now Hsim Hmin).
  destruct (N.ltb_spec (GameState.carsReachedExit (GameState.stats s))
                       (GameState.carsFailed (GameState.stats s))) as [Hlt|Hge].
  - unfold GameState.successRate.
    rewrite (losing_rate_below_threshold _ _ Hlt).
    split; [auto|]. intros _. apply in_or_app. right. simpl. auto.
  - destruct (Qle_bool _ _).
    + split; [|intros (_ & _ & ?); lia].
      intros Hin. exfalso. revert Hin. apply levelLost_not_in_stop.
      discriminate.
    + split; [intros []|intros (_ & _ & ?); lia].
Qed.
End Outcome.

(** C10.  [getSuccessRate] is defined on every statistics state: it is
    0 when no car has terminated (the division is guarded), and
    otherwise it is 100 * reached / (reached + failed). *)
Theorem getSuccessRate_total (m : CarManager.t) :
  ((reached m + failed m = 0)%N -> CarManager.getSuccessRate m = 0%Q)
  /\ ((reached m + failed m <> 0)%N ->
      (CarManager.getSuccessRate m ==
       100 * inject_Z (Z.of_N (reached m))
       / inject_Z (Z.of_N (reached m + failed m)))%Q).
Proof.
  split.
  - intros H. unfold CarManager.getSuccessRate. fold (reached m) (failed m).
    rewrite H. reflexivity.
  - apply getSuccessRate_nonzero.
Qed.

Lemma getSuccessRate_total_witness :
  CarManager.getSuccessRate (statsOf 0 0) = 0%Q
  /\ (CarManager.getSuccessRate (statsOf 3 1) == 100 * 3 / 4)%Q.
Proof.
  split.
  - apply (proj1 (getSuccessRate_total (statsOf 0 0))). reflexivity.
  - apply (proj2 (getSuccessRate_total (statsOf 3 1))). discriminate.
Defined.

(** C5.  With 8 cars arrived and 2 failed (success rate exactly 0.8)
    and the minimum sample reached, the evaluation reports WON: the
    comparison with the threshold 0.8 is inclusive. *)
Theorem win_threshold_inclusive (m : CarManager.t) :
  reached m = 8%N -> failed m = 2%N ->
  (CarManager.minCarsToCheck m <= 10)%N ->
  CarManager.checkEndConditions m = Some CarManager.won.
Proof.
  intros Hr Hf Hmin.
  apply checkEndConditions_won_iff; [rewrite Hr, Hf; exact Hmin|].
  rewrite rate_fraction by (rewrite Hr, Hf; discriminate).
  rewrite Hr, Hf. apply fraction_le; [reflexivity|].
  unfold GameConfig.successThreshold. simpl. lia.
Qed.

Lemma win_threshold_inclusive_witness :
  CarManager.checkEndConditions (statsOf 8 2) = Some CarManager.won.
Proof.
  apply win_threshold_inclusive; [reflexivity|reflexivity|].
  vm_compute. discriminate.
Defined.

(** The boundary is met in binary64 as well: no rounding separates the
    computed rate from the stored threshold. *)
Lemma win_boundary_binary64 :
  winTest_binary64 8 2 = true /\ gameStateWinTest_binary64 8 2 = true.
Proof. split; vm_compute; reflexivity. Qed.

(** The same boundary in the evaluator of the game state. *)
Lemma checkGameEndConditions_win_inclusive (s : GameState.t) (now : Z) :
  GameState.isSimulating s = true ->
  GameState.carsReachedExit (GameState.stats s) = 8%N ->
  GameState.carsFailed (GameState.stats s) = 2%N ->
  (length (Level.cars (GameState.level s)) <= 5)%nat ->
  snd (GameState.checkGameEndConditions s now) =
  map GameState.carRemoved (GameState.cars s)
  ++ [GameState.simulationStopped; GameState.levelWon].
Proof.
  intros Hsim Hr Hf Hlen.
  rewrite checkGameEndConditions_events; [|exact Hsim|rewrite Hr, Hf; lia].
  unfold GameState.successRate. rewrite Hr, Hf. reflexivity.
Qed.

(** C4.  Once the minimum sample is reached and the failures outnumber
    the arrivals (for example 6 failed and 5 arrived), both evaluators
    report LOST.  The verdict does not depend on the outcome of the win
    comparison: LOST is reported exactly when the sample is reached and
    the failures outnumber the arrivals, for a losing record has a
    success rate below one half and never meets the win threshold. *)
Theorem lose_check_reports_lost :
  (forall m : CarManager.t,
      (CarManager.minCarsToCheck m <= reached m + failed m)%N ->
      (reached m < failed m)%N ->
      CarManager.checkEndConditions m = Some CarManager.lost)
  /\ (forall m : CarManager.t,
         CarManager.checkEndConditions m = Some CarManager.lost
         <-> (CarManager.minCarsToCheck m <= reached m + failed m)%N
             /\ (reached m < failed m)%N)
  /\ (forall (s : GameState.t) (now : Z),
         GameState.isSimulating s = true ->
         (N.of_nat (length (Level.cars (GameState.level s))) * 2
          <= GameState.carsReachedExit (GameState.stats s)
             + GameState.carsFailed (GameState.stats s))%N ->
         (GameState.carsReachedExit (GameState.stats s)
          < GameState.carsFailed (GameState.stats s))%N ->
         snd (GameState.checkGameEndConditions s now) =
         map GameState.carRemoved (GameState.cars s)
         ++ [GameState.simulationStopped; GameState.levelLost])
  /\ (forall (s : GameState.t) (now : Z),
         In GameState.levelLost (snd (GameState.checkGameEndConditions s now))
         <-> GameState.isSimulating s = true
             /\ (N.of_nat (length (Level.cars (GameState.level s))) * 2
                 <= GameState.carsReachedExit (GameState.stats s)
                    + GameState.carsFailed (GameState.stats s))%N
             /\ (GameState.carsReachedExit (GameState.stats s)
                 < GameState.carsFailed (GameState.stats s))%N).
Proof.
  split; [|split; [|split]].
  - intros m Hmin Hlt. apply checkEndConditions_lost_iff. split; assumption.
  - exact checkEndConditions_lost_iff.
  - intros s now Hsim Hmin Hlt.
    rewrite checkGameEndConditions_events by assumption.
    unfold GameState.successRate.
    rewrite (losing_rate_below_threshold _ _ Hlt).
    destruct (N.ltb_spec (GameState.carsReachedExit (GameState.stats s))
                         (GameState.carsFailed (GameState.stats s)));
      [reflexivity|lia].
  - exact checkGameEndConditions_lost_iff.
Qed.

Lemma lose_check_reports_lost_witness :
  CarManager.checkEndConditions (statsOf 5 6) = Some CarManager.lost.
Proof.
  refine (proj1 lose_check_reports_lost (statsOf 5 6) _ _).
  - vm_compute. discriminate.
  - reflexivity.
Defined.

(** ** Run control and road edits of the game state *)

Lemma with_gameState_same (w : World) : with_gameState (gameState w) w = w.
Proof. destruct w; reflexivity. Qed.

(** C8.  When a simulation is already running, or no road is placed,
    [startSimulation] returns false, emits no event and leaves the game
    state unchanged; the scene-level start then leaves the whole world
    unchanged (no statistics reset, no mode change, no spawn timer). *)
Theorem startSimulation_rejected (s : GameState.t) (now : Z) :
  GameState.isSimulating s = true \/ size (GameState.roads s) = 0%nat ->
  GameState.startSimulation s now = (false, s, [])
  /\ forall w : World, gameState w = s -> GameScene_startSimulation now w = w.
Proof.
  intros H.
  assert (GameState.startSimulation s now = (false, s, [])) as E.
  { unfold GameState.startSimulation. destruct H as [H|H].
    - rewrite H. reflexivity.
    - destruct (GameState.isSimulating s); [reflexivity|].
      rewrite bool_decide_eq_true_2 by exact H. reflexivity. }
  split; [exact E|].
  intros w Hw. unfold GameScene_startSimulation. rewrite Hw.
  case_bool_decide; [reflexivity|]. rewrite E. simpl.
  rewrite <- Hw. apply with_gameState_same.
Qed.

Lemma startSimulation_rejected_witness :
  GameState.startSimulation (GameState.initializeWithLevel emptyLevel) 0
  = (false, GameState.initializeWithLevel emptyLevel, []).
Proof.
  refine (proj1 (startSimulation_rejected _ 0 _)).
  right. reflexivity.
Defined.

(** C9.  During a run [placeRoad] and [removeRoad] are rejected without
    any change, whereas [updateRoadDirections] has no such guard: on an
    existing road it replaces the directions, marks the pathfinding grid
    dirty and returns true. *)
Theorem directions_editable_during_run (s : GameState.t) (r c : Z) :
  GameState.isSimulating s = true ->
  (forall roadData, GameState.placeRoad s r c roadData = (false, s, []))
  /\ GameState.removeRoad s r c = (false, s, [])
  /\ forall (road : Road.t) (ds : list Direction),
      GameState.roads s !! gridKey r c = Some road ->
      exists s',
        GameState.updateRoadDirections s r c ds
        = (true, s', [GameState.roadDirectionsUpdated r c ds])
        /\ GameState.roads s' !! gridKey r c
           = Some (Road.mk (Road.r road) (Road.c road) ds)
        /\ (forall k, k <> gridKey r c ->
                      GameState.roads s' !! k = GameState.roads s !! k)
        /\ GameState.pathfindingGridDirty s' = true
        /\ GameState.isSimulating s' = true.
Proof.
  intros Hsim. split; [|split].
  - intros roadData. unfold GameState.placeRoad. rewrite Hsim. reflexivity.
  - unfold GameState.removeRoad. rewrite Hsim. reflexivity.
  - intros road ds Hroad. eexists. split; [|split; [|split; [|split]]].
    + unfold GameState.updateRoadDirections, GameState.getRoad.
      rewrite Hroad. reflexivity.
    + simpl. apply lookup_insert_eq.
    + intros k Hk. simpl. apply lookup_insert_ne. congruence.
    + reflexivity.
    + exact Hsim.
Qed.

Lemma directions_editable_during_run_witness :
  GameState.removeRoad runningState 1 1 = (false, runningState, [])
  /\ exists s',
      GameState.updateRoadDirections runningState 1 1 [RIGHT]
      = (true, s', [GameState.roadDirectionsUpdated 1 1 [RIGHT]])
      /\ GameState.pathfindingGridDirty s' = true.
Proof.
  destruct (directions_editable_during_run runningState 1 1 eq_refl)
    as (_ & Hrem & Hupd).
  split; [exact Hrem|].
  destruct (Hupd (Road.mk 1 1 []) [RIGHT] eq_refl) as (s' & E & _ & _ & Hd & _).
  exists s'. split; [exact E|exact Hd].
Defined.

(** ** The pathfinding grid *)

Section Grid.
Implicit Types (g : PF.Grid) (pf : PathFinder.t).

Lemma isValidGridPosition_true (r c maxRows maxCols : Z) :
  isValidGridPosition r c maxRows maxCols = true
  <-> 0 <= r < maxRows /\ 0 <= c < maxCols.
Proof. unfold isValidGridPosition. rewrite !andb_true_iff. lia. Qed.

Lemma isInside_true g (x y : Z) :
  PF.isInside g x y = true <-> 0 <= x < PF.width g /\ 0 <= y < PF.height g.
Proof. unfold PF.isInside. rewrite !andb_true_iff. lia. Qed.

Lemma isWalkableAt_true g (x y : Z) :
  PF.isWalkableAt g x y = true
  <-> (0 <= x < PF.width g /\ 0 <= y < PF.height g) /\ (x, y) ∈ PF.walkable g.
Proof.
  unfold PF.isWalkableAt.
  rewrite andb_true_iff, isInside_true, bool_decide_eq_true. reflexivity.
Qed.

Lemma In_allNodes (w h x y : Z) :
  In (x, y) (PF.allNodes w h) <-> 0 <= x < w /\ 0 <= y < h.
Proof.
  unfold PF.allNodes. rewrite in_flat_map. split.
  - intros (y' & Hy & Hin). apply in_map_iff in Hin as (x' & E & Hx).
    inversion E; subst.
    apply list_elem_of_In, elem_of_seqZ in Hy.
    apply list_elem_of_In, elem_of_seqZ in Hx. lia.
  - intros [Hx Hy]. exists y. split.
    + apply list_elem_of_In, elem_of_seqZ. lia.
    + apply in_map_iff. exists x. split; [reflexivity|].
      apply list_elem_of_In, elem_of_seqZ. lia.
Qed.

Lemma blockAll_spec l g :
  let g' := fold_left (fun g0 n => PF.setWalkableAt g0 (fst n) (snd n) false) l g in
  PF.width g' = PF.width g /\ PF.height g' = PF.height g
  /\ forall p, p ∈ PF.walkable g' <-> p ∈ PF.walkable g /\ ~ In p l.
Proof.
  revert g. induction l as [|n l IH]; intros g; simpl.
  - repeat split; tauto.
  - destruct (IH (PF.setWalkableAt g (fst n) (snd n) false)) as (Hw & Hh & Hp).
    split; [rewrite Hw; reflexivity|]. split; [rewrite Hh; reflexivity|].
    intros p. rewrite Hp. simpl. destruct n as [nx ny]. simpl.
    rewrite elem_of_difference, elem_of_singleton.
    split; intros H; intuition congruence.
Qed.

Lemma setRoads_spec l (R C : Z) g :
  let g' := PathFinder.setRoads l R C g in
  PF.width g' = PF.width g /\ PF.height g' = PF.height g
  /\ forall x y, (x, y) ∈ PF.walkable g'
                 <-> (x, y) ∈ PF.walkable g
                     \/ (In (y, x) l /\ isValidGridPosition y x R C = true).
Proof.
  unfold PathFinder.setRoads. revert g.
  induction l as [|[r c] l IH]; intros g; simpl.
  - repeat split; [tauto|]. intros [H|[[] _]]. exact H.
  - destruct (isValidGridPosition r c R C) eqn:V.
    + destruct (IH (PF.setWalkableAt g c r true)) as (Hw & Hh & Hp).
      split; [rewrite Hw; reflexivity|]. split; [rewrite Hh; reflexivity|].
      intros x y. rewrite Hp. simpl.
      rewrite elem_of_union, elem_of_singleton.
      split.
      * intros [[H|H]|[H V']]; [tauto| |tauto].
        inversion H; subst. right. split; [left; reflexivity|exact V].
      * intros [H|[[H|H] V']]; [tauto| |tauto].
        inversion H; subst. left. right. reflexivity.
    + destruct (IH g) as (Hw & Hh & Hp).
      split; [exact Hw|]. split; [exact Hh|].
      intros x y. rewrite Hp.
      split.
      * intros [H|[H V']]; tauto.
      * intros [H|[[H|H] V']]; [tauto| |tauto].
        inversion H; subst. congruence.
Qed.

Lemma setObstacles_spec l (R C : Z) g :
  let g' := PathFinder.setObstacles l R C g in
  PF.width g' = PF.width g /\ PF.height g' = PF.height g
  /\ forall x y, (x, y) ∈ PF.walkable g'
                 <-> (x, y) ∈ PF.walkable g
                     /\ ~ (In (y, x) l /\ isValidGridPosition y x R C = true).
Proof.
  unfold PathFinder.setObstacles. revert g.
  induction l as [|[r c] l IH]; intros g; simpl.
  - repeat split; tauto.
  - destruct (isValidGridPosition r c R C) eqn:V.
    + destruct (IH (PF.setWalkableAt g c r false)) as (Hw & Hh & Hp).
      split; [rewrite Hw; reflexivity|]. split; [rewrite Hh; reflexivity|].
      intros x y. rewrite Hp. simpl.
      rewrite elem_of_difference, elem_of_singleton.
      split.
      * intros [[H N] N']. split; [exact H|].
        intros [[E|E] V']; [|tauto].
        inversion E; subst. apply N. reflexivity.
      * intros [H N]. split; [split; [exact H|]|].
        -- intros E. inversion E; subst. apply N. split; [left; reflexivity|exact V].
        -- intros [E V']. apply N. split; [right; exact E|exact V'].
    + destruct (IH g) as (Hw & Hh & Hp).
      split; [exact Hw|]. split; [exact Hh|].
      intros x y. rewrite Hp.
      split.
      * intros [H N]. split; [exact H|].
        intros [[E|E] V']; [|tauto]. inversion E; subst. congruence.
      * intros [H N]. split; [exact H|]. intros [E V']. apply N. tauto.
Qed.

Lemma initializeGrid_wellFormed (w h : Z) :
  wellFormed (PathFinder.initializeGrid w h).
Proof.
  intros g E. unfold PathFinder.initializeGrid, PathFinder.blockAll in E.
  simpl in E. inversion E; subst. simpl.
  destruct (blockAll_spec (PF.allNodes w h) (PF.newGrid w h)) as (Hw & Hh & _).
  simpl in Hw, Hh. split; assumption.
Qed.

Lemma In_road_keys (roads : gmap Cell Road.t) (k : Cell) :
  In k (map fst (map_to_list roads)) <-> is_Some (roads !! k).
Proof.
  rewrite in_map_iff. split.
  - intros ([k' rd] & E & Hin). simpl in E. subst.
    apply list_elem_of_In, elem_of_map_to_list in Hin. eauto.
  - intros [rd Hrd]. exists (k, rd). split; [reflexivity|].
    apply list_elem_of_In, elem_of_map_to_list. exact Hrd.
Qed.

Lemma updateGrid_reflects pf roads obstacles (R C : Z) :
  wellFormed pf ->
  wellFormed (PathFinder.updateGrid pf roads obstacles R C)
  /\ reflects (PathFinder.updateGrid pf roads obstacles R C) roads obstacles R C.
Proof.
  intros Hwf. unfold PathFinder.updateGrid.
  set (pf1 := if negb (PathFinder.gridWidth pf =? C)
                 || negb (PathFinder.gridHeight pf =? R)
              then PathFinder.initializeGrid C R else pf).
  set (pf2 := match PathFinder.grid pf1 with
              | None => PathFinder.initializeGrid C R
              | Some _ => pf1
              end).
  assert (wellFormed pf1 /\ (PathFinder.gridWidth pf1 = C
                             /\ PathFinder.gridHeight pf1 = R)) as [Hwf1 Hd1].
  { unfold pf1.
    destruct (Z.eqb_spec (PathFinder.gridWidth pf) C);
      destruct (Z.eqb_spec (PathFinder.gridHeight pf) R); simpl;
      auto using initializeGrid_wellFormed. }
  assert (wellFormed pf2 /\ (PathFinder.gridWidth pf2 = C
                             /\ PathFinder.gridHeight pf2 = R)
          /\ is_Some (PathFinder.grid pf2)) as (Hwf2 & [Hw2 Hh2] & [g Hg]).
  { unfold pf2. destruct (PathFinder.grid pf1) eqn:E.
    - rewrite E. eauto.
    - simpl. auto using initializeGrid_wellFormed. }
  rewrite Hg. destruct (Hwf2 g Hg) as [Hgw Hgh].
  rewrite Hw2 in *. rewrite Hh2 in *.
  set (g1 := PathFinder.blockAll g C R).
  set (g2 := PathFinder.setRoads (map fst (map_to_list roads)) R C g1).
  set (g3 := PathFinder.setObstacles (elements obstacles) R C g2).
  destruct (blockAll_spec (PF.allNodes C R) g) as (Hw1' & Hh1' & Hp1).
  fold (PathFinder.blockAll g C R) in Hw1', Hh1', Hp1. fold g1 in Hw1', Hh1', Hp1.
  destruct (setRoads_spec (map fst (map_to_list roads)) R C g1) as (Hw2' & Hh2' & Hp2).
  fold g2 in Hw2', Hh2', Hp2.
  destruct (setObstacles_spec (elements obstacles) R C g2) as (Hw3' & Hh3' & Hp3).
  fold g3 in Hw3', Hh3', Hp3.
  assert (PF.width g3 = C) as HW by congruence.
  assert (PF.height g3 = R) as HH by congruence.
  split.
  - intros g' E. simpl in E. inversion E; subst g'. simpl. split; assumption.
  - split; [reflexivity|]. split; [reflexivity|].
    exists g3. split; [reflexivity|]. split; [exact HW|]. split; [exact HH|].
    intros r c. rewrite isWalkableAt_true, HW, HH, Hp3, Hp2, Hp1.
    rewrite In_allNodes, In_road_keys, isValidGridPosition_true.
    rewrite <- list_elem_of_In, elem_of_elements.
    unfold gridKey. split.
    + intros (Hin & [[Hw Hnot]|[Hroad _]] & Hobs); [lia|].
      split; [lia|]. split; [exact Hroad|]. intros Ho. apply Hobs.
      split; [exact Ho|lia].
    + intros (Hv & Hroad & Hobs). split; [lia|]. split.
      * right. split; [exact Hroad|lia].
      * intros [Ho _]. contradiction.
Qed.
End Grid.

(** ** Soundness of the search *)

Lemma getNeighbors_walkable (g : PF.Grid) (n m : PF.Node) :
  m ∈ PF.getNeighbors g n -> PF.isWalkableAt g (fst m) (snd m) = true.
Proof.
  unfold PF.getNeighbors. destruct n as [x y].
  rewrite list_elem_of_filter. tauto.
Qed.

Section Search.
Variable g : PF.Grid.
Variable start : PF.Node.

Lemma RevPath_last p : RevPath g start p -> last p = Some start.
Proof.
  induction 1 as [|n cur p _ IH _]; [reflexivity|].
  rewrite last_cons_cons. exact IH.
Qed.

Lemma RevPath_nodes p :
  RevPath g start p ->
  Forall (fun n => n = start \/ PF.isWalkableAt g (fst n) (snd n) = true) p.
Proof.
  induction 1 as [|n cur p _ IH Hn].
  - constructor; [left; reflexivity|constructor].
  - constructor; [|exact IH]. right. eapply getNeighbors_walkable. exact Hn.
Qed.

Lemma bfs_sound (fuel : nat) (goal : PF.Node) visited queue :
  Forall (RevPath g start) queue ->
  PF.bfs fuel g goal visited queue <> [] ->
  exists p, PF.bfs fuel g goal visited queue = rev (goal :: p)
            /\ RevPath g start (goal :: p).
Proof.
  revert visited queue.
  induction fuel as [|fuel IH]; intros visited queue Hq Hne; simpl in *;
    [congruence|].
  destruct queue as [|[|cur p] rest]; [congruence| |].
  - inversion Hq; subst. apply IH; assumption.
  - inversion Hq as [|? ? Hcur Hrest]; subst.
    destruct (decide (cur = goal)) as [->|Hcg].
    + exists p. split; [reflexivity|exact Hcur].
    + apply IH; [|exact Hne].
      apply Forall_app. split; [exact Hrest|].
      apply Forall_forall. intros q Hq'.
      apply list_elem_of_In, in_map_iff in Hq' as (n & <- & Hn).
      apply list_elem_of_In, list_elem_of_filter in Hn as [_ Hn].
      constructor; assumption.
Qed.
End Search.

Lemma head_rev {A} (l : list A) : head (rev l) = last l.
Proof. rewrite rev_alt. apply head_reverse. Qed.

Lemma last_rev {A} (l : list A) : last (rev l) = head l.
Proof. rewrite rev_alt. apply last_reverse. Qed.

Lemma PF_findPath_sound (g : PF.Grid) (sx sy ex ey : Z) :
  PF.findPath sx sy ex ey g <> [] ->
  head (PF.findPath sx sy ex ey g) = Some (sx, sy)
  /\ last (PF.findPath sx sy ex ey g) = Some (ex, ey)
  /\ Forall (fun n => n = (sx, sy) \/ PF.isWalkableAt g (fst n) (snd n) = true)
            (PF.findPath sx sy ex ey g).
Proof.
  intros Hne. unfold PF.findPath in *.
  destruct (bfs_sound g (sx, sy) _ (ex, ey) _ _
              (Forall_cons_2 _ _ _ (RevPath_start g (sx, sy)) (Forall_nil_2 _)) Hne)
    as (p & E & Hp).
  rewrite E. split; [|split].
  - rewrite head_rev. apply (RevPath_last g (sx, sy)). exact Hp.
  - rewrite last_rev. reflexivity.
  - apply Forall_forall. intros n Hn.
    apply list_elem_of_In, in_rev, list_elem_of_In in Hn.
    revert n Hn. apply Forall_forall. apply RevPath_nodes. exact Hp.
Qed.

(** ** The fuel of the search is never the reason to stop *)

Section Fuel.
Variable g : PF.Grid.

Lemma getNeighbors_NoDup (n : PF.Node) : NoDup (PF.getNeighbors g n).
Proof.
  unfold PF.getNeighbors. destruct n as [x y]. apply NoDup_filter.
  repeat (apply NoDup_cons_2; [rewrite ?elem_of_cons, ?elem_of_nil;
                               intros H; repeat destruct H as [H|H];
                               try (inversion H; lia); contradiction|]).
  apply NoDup_nil_2.
Qed.

Lemma getNeighbors_inside (n m : PF.Node) :
  m ∈ PF.getNeighbors g n -> m ∈ insideNodes g.
Proof.
  intros H. pose proof (getNeighbors_walkable g n m H) as Hw.
  destruct m as [x y]. simpl in Hw.
  apply isWalkableAt_true in Hw. destruct Hw as [Hin _].
  unfold insideNodes. apply elem_of_list_to_set.
  apply list_elem_of_In. apply In_allNodes. exact Hin.
Qed.

Lemma discover_measure (visited : gset PF.Node) (ns : list PF.Node) :
  NoDup ns -> (forall n, n ∈ ns -> n ∈ insideNodes g /\ n ∉ visited) ->
  (size (insideNodes g ∖ (visited ∪ list_to_set ns)) + length ns
   = size (insideNodes g ∖ visited))%nat.
Proof.
  intros Hnd Hns.
  rewrite <- difference_difference_l_L.
  rewrite size_difference.
  - rewrite size_list_to_set by exact Hnd.
    assert (size (list_to_set ns : gset PF.Node)
            <= size (insideNodes g ∖ visited))%nat as Hle.
    { apply subseteq_size. intros n Hn.
      apply elem_of_list_to_set in Hn. apply Hns in Hn. set_solver. }
    rewrite size_list_to_set in Hle by exact Hnd. lia.
  - intros n Hn. apply elem_of_list_to_set in Hn. apply Hns in Hn. set_solver.
Qed.

(** With enough fuel for the measure, more fuel changes nothing. *)
Lemma bfs_fuel_irrelevant (goal : PF.Node) (fuel fuel' : nat) visited queue :
  (searchMeasure g visited queue <= fuel)%nat ->
  (searchMeasure g visited queue <= fuel')%nat ->
  PF.bfs fuel g goal visited queue = PF.bfs fuel' g goal visited queue.
Proof.
  revert fuel' visited queue.
  induction fuel as [|fuel IH]; intros fuel' visited queue H H'.
  - unfold searchMeasure in H. destruct queue; [|simpl in H; lia].
    destruct fuel'; reflexivity.
  - destruct fuel' as [|fuel'].
    { unfold searchMeasure in H'. destruct queue; [|simpl in H'; lia].
      reflexivity. }
    simpl. destruct queue as [|[|cur p] rest]; [reflexivity| |].
    + apply IH; unfold searchMeasure in *; simpl in *; lia.
    + destruct (decide (cur = goal)); [reflexivity|].
      set (ns := filter (fun n => n ∉ visited) (PF.getNeighbors g cur)).
      assert (searchMeasure g (visited ∪ list_to_set ns)
                            (rest ++ map (fun n => n :: cur :: p) ns)
              = searchMeasure g visited rest) as E.
      { unfold searchMeasure. rewrite length_app, length_map.
        rewrite <- (discover_measure visited ns); [lia| |].
        - apply NoDup_filter, getNeighbors_NoDup.
        - intros m Hm. apply list_elem_of_filter in Hm as [Hv Hm].
          split; [eapply getNeighbors_inside; exact Hm|exact Hv]. }
      apply IH; rewrite E; unfold searchMeasure in *; simpl in *; lia.
Qed.
End Fuel.

Lemma size_list_to_set_le (l : list PF.Node) :
  (size (list_to_set l : gset PF.Node) <= length l)%nat.
Proof.
  induction l as [|x l IH].
  - rewrite list_to_set_nil, size_empty. simpl. lia.
  - rewrite list_to_set_cons, size_union_alt, size_singleton. simpl length.
    assert (size (list_to_set l ∖ {[x]} : gset PF.Node)
            <= size (list_to_set l : gset PF.Node))%nat
      by (apply subseteq_size, subseteq_difference_l; reflexivity).
    lia.
Qed.

Lemma length_allNodes (w h : Z) :
  length (PF.allNodes w h) = (Z.to_nat h * Z.to_nat w)%nat.
Proof.
  unfold PF.allNodes.
  assert (forall l : list Z,
             length (flat_map (fun y => map (fun x => (x, y)) (seqZ 0 w)) l)
             = (length l * Z.to_nat w)%nat) as H.
  { induction l as [|y l IH]; simpl; [reflexivity|].
    rewrite length_app, length_map, length_seqZ, IH. reflexivity. }
  rewrite H, length_seqZ. reflexivity.
Qed.

(** The search of [PF.findPath] ends because its queue runs empty or
    the goal is dequeued: any larger fuel yields the same path. *)
Lemma PF_findPath_fuel (g : PF.Grid) (sx sy ex ey : Z) (extra : nat) :
  PF.bfs (S (Z.to_nat (PF.width g * PF.height g)) + extra) g (ex, ey)
         {[ (sx, sy) ]} [ [ (sx, sy) ] ]
  = PF.findPath sx sy ex ey g.
Proof.
  unfold PF.findPath.
  assert (searchMeasure g {[ (sx, sy) ]} [ [ (sx, sy) ] ]
          <= S (Z.to_nat (PF.width g * PF.height g)))%nat as H.
  { unfold searchMeasure. simpl.
    assert (size (insideNodes g ∖ {[ (sx, sy) ]}) <= size (insideNodes g))%nat
      as H1 by (apply subseteq_size, subseteq_difference_l; reflexivity).
    pose proof (size_list_to_set_le (PF.allNodes (PF.width g) (PF.height g))) as H3.
    fold (insideNodes g) in H3. rewrite length_allNodes in H3.
    assert (Z.to_nat (PF.height g) * Z.to_nat (PF.width g)
            <= Z.to_nat (PF.width g * PF.height g))%nat; [|lia].
    destruct (Z_le_gt_dec (PF.width g) 0) as [Hw|Hw].
    { replace (Z.to_nat (PF.width g)) with 0%nat by lia. lia. }
    destruct (Z_le_gt_dec (PF.height g) 0) as [Hh|Hh].
    { replace (Z.to_nat (PF.height g)) with 0%nat by lia. lia. }
    rewrite Z2Nat.inj_mul by lia. lia. }
  apply bfs_fuel_irrelevant; [lia|exact H].
Qed.

Lemma head_map {A B} (f : A -> B) (l : list A) :
  head (map f l) = option_map f (head l).
Proof. destruct l; reflexivity. Qed.

Lemma last_map {A B} (f : A -> B) (l : list A) :
  last (map f l) = option_map f (last l).
Proof.
  induction l as [|a [|b l] IH]; [reflexivity|reflexivity|].
  change (map f (a :: b :: l)) with (f a :: f b :: map f l).
  rewrite !last_cons_cons. exact IH.
Qed.

(** A path returned by [PathFinder.findPath] goes from the start cell to
    the end cell through walkable cells of the grid. *)
Lemma findPath_sound (pf : PathFinder.t) (sr sc er ec : Z) (path : list Cell) :
  PathFinder.findPath pf sr sc er ec = Some path ->
  head path = Some (sr, sc) /\ last path = Some (er, ec)
  /\ Forall (fun c => PathFinder.gridWalkableAt pf (snd c) (fst c) = true) path.
Proof.
  unfold PathFinder.findPath, PathFinder.gridWalkableAt.
  destruct (PathFinder.grid pf) as [g|]; [|discriminate].
  destruct (negb _ || negb _); [discriminate|].
  destruct (PF.isWalkableAt g sc sr) eqn:Ws; [|discriminate].
  destruct (PF.isWalkableAt g ec er) eqn:We; [|discriminate].
  cbn [negb].
  assert (forall l : list PF.Node,
             match l with
             | [] => None
             | p :: l' => Some (map (fun n : Z * Z => (snd n, fst n)) (p :: l'))
             end = Some path ->
             l <> [] /\ path = map (fun n : Z * Z => (snd n, fst n)) l) as Hm.
  { intros [|? ?] H; [discriminate|]. split; [discriminate|congruence]. }
  intros H. apply Hm in H as [Hne ->]. clear Hm.
  destruct (PF_findPath_sound g sc sr ec er Hne) as (Hh & Hl & Hall).
  split; [|split].
  - rewrite head_map, Hh. reflexivity.
  - rewrite last_map, Hl. reflexivity.
  - apply Forall_forall. intros c Hc.
    apply list_elem_of_In, in_map_iff in Hc as ([x y] & <- & Hin). simpl.
    apply list_elem_of_In in Hin.
    rewrite Forall_forall in Hall. destruct (Hall _ Hin) as [Heq|Hw].
    + inversion Heq; subst. exact Ws.
    + exact Hw.
Qed.

(** ** Entrances and exits outside the grid *)

Section Rings.
Variable p : Position.

Lemma In_ringCells (radius : Z) (c : Cell) :
  In c (PathFinder.ringCells p radius) <-> 0 <= radius /\ chebyshev p c = radius.
Proof.
  unfold PathFinder.ringCells, chebyshev. rewrite in_flat_map. split.
  - intros (dr & Hdr & Hin). apply in_flat_map in Hin as (dc & Hdc & Hin).
    apply list_elem_of_In, elem_of_seqZ in Hdr.
    apply list_elem_of_In, elem_of_seqZ in Hdc.
    destruct (Z.eqb_spec (Z.abs dr) radius);
      destruct (Z.eqb_spec (Z.abs dc) radius); simpl in Hin;
      try (destruct Hin as [<-|[]]; simpl; lia); contradiction.
  - intros [Hr Hc]. destruct c as [cr cc]. simpl in Hc.
    exists (cr - row p). split.
    { apply list_elem_of_In, elem_of_seqZ. lia. }
    apply in_flat_map. exists (cc - col p). split.
    { apply list_elem_of_In, elem_of_seqZ. lia. }
    destruct (Z.eqb_spec (Z.abs (cr - row p)) radius);
      destruct (Z.eqb_spec (Z.abs (cc - col p)) radius); simpl;
      try (left; f_equal; lia). lia.
Qed.

Lemma find_app {A} (f : A -> bool) (l1 l2 : list A) :
  find f (l1 ++ l2) = match find f l1 with
                      | Some x => Some x
                      | None => find f l2
                      end.
Proof.
  induction l1 as [|a l1 IH]; simpl; [reflexivity|].
  destruct (f a); [reflexivity|exact IH].
Qed.

(** The first hit of a search over consecutive rings lies in some ring
    and no earlier ring contains a hit. *)
Lemma find_rings (f : Cell -> bool) (n : nat) (first : Z) (s : Cell) :
  find f (flat_map (PathFinder.ringCells p) (seqZ first (Z.of_nat n))) = Some s ->
  f s = true
  /\ exists k, first <= k /\ In s (PathFinder.ringCells p k)
               /\ forall k' c, first <= k' < k ->
                               In c (PathFinder.ringCells p k') -> f c = false.
Proof.
  revert first. induction n as [|n IH]; intros first H.
  - simpl in H. discriminate.
  - rewrite seqZ_cons in H by lia. simpl in H. rewrite find_app in H.
    destruct (find f (PathFinder.ringCells p first)) as [x|] eqn:E.
    + inversion H; subst x. apply find_some in E as [Hin Hf].
      split; [exact Hf|]. exists first. split; [lia|]. split; [exact Hin|].
      intros k' c Hk. lia.
    + replace (Z.pred (Z.of_nat (S n))) with (Z.of_nat n) in H by lia.
      destruct (IH _ H) as (Hf & k & Hk & Hin & Hmin).
      split; [exact Hf|]. exists k. split; [lia|]. split; [exact Hin|].
      intros k' c Hk' Hc.
      destruct (Z.eq_dec k' first) as [->|Hne].
      * eapply find_none; eassumption.
      * apply (Hmin k' c); [lia|exact Hc].
Qed.

Lemma findNearestValidPosition_nearest (pf : PathFinder.t) (R C : Z) (s : Cell) :
  PathFinder.findNearestValidPosition pf p R C = Some s ->
  NearestWalkable pf R C p s.
Proof.
  unfold PathFinder.findNearestValidPosition, NearestWalkable.
  destruct (isValidGridPosition (row p) (col p) R C
            && PathFinder.gridWalkableAt pf (col p) (row p)) eqn:Here.
  - intros H. inversion H; subst s. split; [exact Here|].
    intros c _. unfold chebyshev. simpl. lia.
  - intros H. unfold PathFinder.searchCells in H.
    destruct (Z.max R C) as [|m|m] eqn:Em; try discriminate H.
    rewrite <- (Z2Nat.id (Z.pos m)) in H by lia.
    apply find_rings in H as (Hs & k & Hk & Hin & Hmin).
    split; [exact Hs|].
    intros c Hc. apply In_ringCells in Hin as [_ Hks]. rewrite Hks.
    destruct (Z_le_gt_dec k (chebyshev p c)) as [|Hlt]; [assumption|].
    exfalso.
    destruct (Z.eq_dec (chebyshev p c) 0) as [Hz|Hnz].
    + assert (c = (row p, col p)) as ->.
      { destruct c as [cr cc]. unfold chebyshev in Hz. simpl in Hz.
        f_equal; lia. }
      unfold usable in Hc. simpl in Hc. congruence.
    + assert (0 <= chebyshev p c) by (unfold chebyshev; lia).
      assert (usable pf R C c = false) as Hf.
      { apply (Hmin (chebyshev p c) c); [lia|].
        apply In_ringCells. split; [lia|reflexivity]. }
      congruence.
Qed.
End Rings.

Lemma findNearestValidPosition_replaces (pf : PathFinder.t) (p : Position)
      (R C : Z) (s : Cell) :
  PathFinder.findNearestValidPosition pf p R C = Some s ->
  replaces pf R C p s.
Proof.
  intros H. apply findNearestValidPosition_nearest in H as [Hs Hmin].
  split; [exact Hs|].
  intros Hp Ha Honly. apply Honly; [exact Hs|].
  specialize (Hmin _ Ha).
  unfold usable in Hs. apply andb_prop in Hs as [Hin _].
  unfold isValidGridPosition in Hin.
  unfold chebyshev, interiorNeighbor in Hmin. simpl in Hmin.
  unfold touches. destruct s as [sr sc]. simpl in *.
  unfold besideGrid in Hp.
  split; [|split]; [lia|lia|].
  intros E. inversion E. lia.
Qed.

(** C6, as the code has it.  A start or goal flagged as an entrance is
    not a node of the queried graph: it is replaced by the result of
    [findNearestValidPosition], a walkable in-grid cell, and the
    returned path begins (ends) there and runs through walkable
    in-grid cells only.  For an entrance one cell outside the grid
    that cell is the adjacent interior cell whenever that one is the
    only walkable cell around the entrance. *)
Theorem entrance_replaced_by_walkable_cell
        (pf : PathFinder.t) (start end_ : Position) (R C : Z) (path : list Cell) :
  PathFinder.findPathWithEntrances pf start end_ R C = Some path ->
  (isEntrance start = true ->
   exists s, PathFinder.findNearestValidPosition pf start R C = Some s
             /\ head path = Some s /\ replaces pf R C start s)
  /\ (isEntrance end_ = true ->
      exists e, PathFinder.findNearestValidPosition pf end_ R C = Some e
                /\ last path = Some e /\ replaces pf R C end_ e)
  /\ Forall (fun c => PathFinder.gridWalkableAt pf (snd c) (fst c) = true) path.
Proof.
  unfold PathFinder.findPathWithEntrances. intros H.
  destruct (if isEntrance start
            then PathFinder.findNearestValidPosition pf start R C
            else Some (row start, col start)) as [s|] eqn:Es; [|discriminate].
  destruct (if isEntrance end_
            then PathFinder.findNearestValidPosition pf end_ R C
            else Some (row end_, col end_)) as [e|] eqn:Ee; [|discriminate].
  apply findPath_sound in H as (Hh & Hl & Hall).
  destruct s as [sr sc], e as [er ec]. simpl in Hh, Hl.
  split; [|split; [|exact Hall]].
  - intros Hent. rewrite Hent in Es. exists (sr, sc).
    split; [exact Es|]. split; [exact Hh|].
    apply findNearestValidPosition_replaces. exact Es.
  - intros Hent. rewrite Hent in Ee. exists (er, ec).
    split; [exact Ee|]. split; [exact Hl|].
    apply findNearestValidPosition_replaces. exact Ee.
Qed.

Lemma entrance_replaced_by_walkable_cell_witness :
  exists s, PathFinder.findNearestValidPosition rowGrid leftEntrance 3 3 = Some s
            /\ head [(1, 0); (1, 1); (1, 2)] = Some s
            /\ replaces rowGrid 3 3 leftEntrance s.
Proof.
  refine (proj1 (entrance_replaced_by_walkable_cell rowGrid leftEntrance
                   (plainPosition (1, 2)) 3 3 [(1, 0); (1, 1); (1, 2)] _) _).
  - vm_compute. reflexivity.
  - reflexivity.
Defined.

(** C6 as stated fails.  The entrance lies one cell left of (1, 0),
    which holds no road; the query does not fail for want of the
    adjacent interior cell but starts the path at (1, 1), the walkable
    cell it finds beyond it, and the exterior cell is not on the
    path. *)
Lemma entrance_joined_to_cell_beyond_neighbor :
  isEntrance leftEntrance = true
  /\ (row leftEntrance, col leftEntrance) = (1, -1)
  /\ interiorNeighbor leftEntrance 3 3 = (1, 0)
  /\ PathFinder.gridWalkableAt gapGrid 0 1 = false
  /\ PathFinder.findPathWithEntrances gapGrid leftEntrance
       (plainPosition (1, 2)) 3 3 = Some [(1, 1); (1, 2)]
  /\ head [(1, 1); (1, 2)] <> Some (interiorNeighbor leftEntrance 3 3).
Proof. repeat split; vm_compute; congruence. Qed.

(** ** Dirty-flag invalidation: the invariant of the scene *)

Lemma J_core (b : bool * bool) (w w' : World) :
  core w' = core w -> J b w -> J b w'.
Proof.
  unfold core, J, InvW, fresh. intros E [(Hwf & Hdom & Hfresh) Hb].
  inversion E as [[Egm Epf Eroads Edirty Esim Einp]].
  rewrite Egm, Epf, Eroads, Edirty, Esim, Einp. auto.
Qed.

Lemma J_Inv (w : World) (f : World -> World) :
  (forall b, J b w -> J b (f w)) -> Inv w -> Inv (f w).
Proof.
  intros H [HW Hq].
  destruct (H _ (conj HW eq_refl)) as [HW' E].
  split; [exact HW'|]. unfold quiet in *. inversion E as [[E1 E2]].
  rewrite E1, E2. exact Hq.
Qed.

Create HintDb scene discriminated.

Section CarSide.
Variable b : bool * bool.

Lemma J_withCar carId f w : J b w -> J b (withCar carId f w).
Proof. intros; eapply J_core; [reflexivity|assumption]. Qed.

Lemma J_addTimer t w : J b w -> J b (addTimer t w).
Proof. intros; eapply J_core; [reflexivity|assumption]. Qed.

Lemma J_with_timers t w : J b w -> J b (with_timers t w).
Proof. intros; eapply J_core; [reflexivity|assumption]. Qed.

Lemma J_with_carManager m w : J b w -> J b (with_carManager m w).
Proof. intros; eapply J_core; [reflexivity|assumption]. Qed.

Lemma J_with_carObjects h w : J b w -> J b (with_carObjects h w).
Proof. intros; eapply J_core; [reflexivity|assumption]. Qed.

Lemma J_handleCarReachedExit carId w :
  J b w -> J b (CarManager_handleCarReachedExit carId w).
Proof. intros; eapply J_core; [reflexivity|assumption]. Qed.

Lemma J_handleCarFailed carId w :
  J b w -> J b (CarManager_handleCarFailed carId w).
Proof. intros; eapply J_core; [reflexivity|assumption]. Qed.

Lemma J_clearAllCars w : J b w -> J b (CarManager_clearAllCars w).
Proof. intros; eapply J_core; [reflexivity|assumption]. Qed.

Lemma J_initializeForLevel l w :
  J b w -> J b (CarManager_initializeForLevel l w).
Proof. intros; eapply J_core; [reflexivity|assumption]. Qed.

Lemma J_scheduleCarSpawn i w : J b w -> J b (CarManager_scheduleCarSpawn i w).
Proof.
  intros H. unfold CarManager_scheduleCarSpawn.
  repeat case_match; auto using J_addTimer.
Qed.

Lemma J_updatePathfindingGrid w :
  J b w -> J b (CarManager_updatePathfindingGrid w).
Proof.
  intros [(Hwf & Hdom & _) Hb]. unfold CarManager_updatePathfindingGrid.
  destruct (updateGrid_reflects (pathFinder w)
              (GridManager.getRoadsData (gridManager w))
              (obstaclesOf (gridManager w))
              (GridManager.rows (gridManager w))
              (GridManager.columns (gridManager w)) Hwf) as [Hwf' Hre].
  split; [split; [|split]|].
  - exact Hwf'.
  - exact Hdom.
  - intros _. exact Hre.
  - exact Hb.
Qed.

Lemma J_pathQuery w s e w1 p :
  CarManager_pathQuery w s e = (w1, p) -> J b w -> J b w1.
Proof.
  unfold CarManager_pathQuery. intros E H. inversion E; subst. clear E.
  destruct (GameState.pathfindingGridDirty (gameState w));
    auto using J_updatePathfindingGrid.
Qed.

Lemma J_handlePathRequest carId s e w :
  J b w -> J b (CarManager_handlePathRequest carId s e w).
Proof.
  intros H. unfold CarManager_handlePathRequest.
  destruct (CarManager_pathQuery w s e) as [w1 p] eqn:E.
  apply J_withCar. eapply J_pathQuery; eassumption.
Qed.

Lemma J_requestPathForCar carId w :
  J b w -> J b (CarManager_requestPathForCar carId w).
Proof.
  intros H. unfold CarManager_requestPathForCar.
  case_match; auto using J_handlePathRequest.
Qed.

Lemma J_requestNewPath carId w : J b w -> J b (Car_requestNewPath carId w).
Proof.
  intros H. unfold Car_requestNewPath.
  case_match; auto using J_withCar, J_handlePathRequest.
Qed.

Lemma J_checkCollision carId c w w' r :
  Car_checkCollision carId c w = (w', r) -> J b w -> J b w'.
Proof.
  unfold Car_checkCollision, CarManager_handleCollisionCheck.
  intros E H.
  destruct (filter _ _); simpl in E; inversion E; subst; auto using J_withCar.
Qed.

Lemma J_moveToCell carId c w : J b w -> J b (Car_moveToCell carId c w).
Proof. apply J_withCar. Qed.

Lemma J_reachDestination carId w : J b w -> J b (Car_reachDestination carId w).
Proof. intros. apply J_handleCarReachedExit, J_withCar. assumption. Qed.

Lemma J_triggerFailure carId w : J b w -> J b (Car_triggerFailure carId w).
Proof. intros. apply J_handleCarFailed, J_withCar. assumption. Qed.

Lemma J_checkIfReachedExit carId w :
  J b w -> J b (Car_checkIfReachedExit carId w).
Proof.
  intros H. unfold Car_checkIfReachedExit.
  repeat case_match; auto using J_reachDestination.
Qed.

Lemma J_onMoveComplete carId c w : J b w -> J b (Car_onMoveComplete carId c w).
Proof. intros. apply J_checkIfReachedExit, J_withCar. assumption. Qed.

Hint Resolve J_withCar J_addTimer J_with_timers J_with_carManager
     J_with_carObjects J_handleCarReachedExit J_handleCarFailed
     J_clearAllCars J_scheduleCarSpawn J_updatePathfindingGrid
     J_handlePathRequest J_requestPathForCar J_requestNewPath
     J_moveToCell J_reachDestination J_triggerFailure
     J_checkIfReachedExit J_onMoveComplete : scene.

Lemma J_updateMoving carId time delta w :
  J b w -> J b (Car_updateMoving carId time delta w).
Proof.
  intros H. unfold Car_updateMoving.
  destruct (getCar w carId) as [k0|]; [|assumption].
  set (w1 := if Car.needsNewPath k0 then Car_requestNewPath carId w else w).
  assert (J b w1) as H1 by (unfold w1; case_match; auto with scene).
  clearbody w1. clear H.
  destruct (getCar w1 carId) as [k1|]; [|assumption].
  match goal with
  | |- J b (let '(_, _) := ?X in _) => destruct X as [w2 returned] eqn:E
  end.
  assert (J b w2) as H2.
  { repeat case_match; inversion E; subst; eauto using J_checkCollision with scene. }
  clear E. destruct returned; [assumption|].
  destruct (getCar w2 carId) as [k2|]; [|assumption].
  match goal with
  | |- context [if ?c then Car_reachDestination carId w2 else w2] =>
      set (w3 := if c then Car_reachDestination carId w2 else w2)
  end.
  assert (J b w3) as H3 by (unfold w3; case_match; auto with scene).
  clearbody w3.
  repeat case_match; auto with scene.
Qed.

Lemma J_updateWaiting carId time delta w :
  J b w -> J b (Car_updateWaiting carId time delta w).
Proof.
  intros H. unfold Car_updateWaiting.
  set (w1 := withCar carId _ w).
  assert (J b w1) as H1 by (unfold w1; auto with scene).
  clearbody w1. clear H.
  destruct (getCar w1 carId) as [k1|]; [|assumption].
  match goal with
  | |- J b (let '(_, _) := ?X in _) => destruct X as [w2 returned] eqn:E
  end.
  assert (J b w2) as H2.
  { repeat case_match; inversion E; subst; eauto using J_checkCollision with scene. }
  clear E. destruct returned; [assumption|].
  destruct (getCar w2 carId) as [k2|]; [|assumption].
  match goal with
  | |- context [if ?c then Car_triggerFailure carId w2 else w2] =>
      set (w3 := if c then Car_triggerFailure carId w2 else w2)
  end.
  assert (J b w3) as H3 by (unfold w3; case_match; auto with scene).
  clearbody w3.
  repeat case_match; auto with scene.
Qed.

Lemma J_update carId time delta w : J b w -> J b (Car_update carId time delta w).
Proof.
  intros H. unfold Car_update.
  repeat case_match; auto using J_updateMoving, J_updateWaiting with scene.
Qed.

Lemma J_fold {A} (f : A -> World -> World) (l : list A) w :
  (forall a w0, J b w0 -> J b (f a w0)) ->
  J b w -> J b (fold_left (fun w0 a => f a w0) l w).
Proof.
  intros Hf. revert w. induction l as [|a l IH]; intros w H; simpl; auto.
Qed.

Lemma J_startSimulation w : J b w -> J b (CarManager_startSimulation w).
Proof.
  intros H. unfold CarManager_startSimulation.
  case_match; [|assumption].
  apply J_fold; [intros; apply J_scheduleCarSpawn; assumption|].
  apply J_updatePathfindingGrid, J_with_carManager. assumption.
Qed.

Lemma J_stopSimulation w : J b w -> J b (CarManager_stopSimulation w).
Proof.
  intros H. unfold CarManager_stopSimulation.
  apply J_clearAllCars, J_with_timers, J_with_carManager. assumption.
Qed.

Lemma J_addCar k w : J b w -> J b (CarManager_addCar k w).
Proof.
  intros H. unfold CarManager_addCar.
  destruct (CarManager.updateCarPosition _ _ _) as [m2 k'].
  apply J_requestPathForCar, J_with_carObjects, J_with_carManager. assumption.
Qed.
End CarSide.

(** *** Operations that change the phase *)

Lemma InvW_core (w w' : World) : coreW w' = coreW w -> InvW w -> InvW w'.
Proof.
  unfold coreW, InvW, fresh. intros E (Hwf & Hdom & Hfresh).
  inversion E as [[Egm Epf Eroads Edirty]].
  rewrite Egm, Epf, Eroads, Edirty. auto.
Qed.

Lemma J_frame (w w' : World) :
  (forall b, J b w -> J b w') ->
  InvW w -> InvW w' /\ simOf w' = simOf w /\ inputEnabled w' = inputEnabled w.
Proof.
  intros H HW. destruct (H _ (conj HW eq_refl)) as [HW' E].
  inversion E. auto.
Qed.

Lemma InvW_dispatchBasic (ev : GameState.Event) (w : World) :
  InvW w -> InvW (dispatchBasic ev w) /\ simOf (dispatchBasic ev w) = simOf w.
Proof.
  intros HW. destruct ev; simpl; try (split; [assumption|reflexivity]).
  destruct (J_frame w (CarManager_startSimulation w)
              (fun b => J_startSimulation b w) HW) as (HW' & Hs & _).
  split; [|exact Hs]. eapply InvW_core; [|exact HW']. reflexivity.
Qed.

Lemma InvW_fold_dispatchBasic (evs : list GameState.Event) (w : World) :
  InvW w ->
  InvW (fold_left (fun w0 ev => dispatchBasic ev w0) evs w)
  /\ simOf (fold_left (fun w0 ev => dispatchBasic ev w0) evs w) = simOf w.
Proof.
  revert w. induction evs as [|ev evs IH]; intros w HW; simpl; [auto|].
  destruct (InvW_dispatchBasic ev w HW) as [HW' Hs].
  destruct (IH _ HW') as [HW'' Hs']. split; [assumption|congruence].
Qed.

Lemma stopSimulation_core (s : GameState.t) (now : Z) :
  let s' := fst (GameState.stopSimulation s now) in
  GameState.roads s' = GameState.roads s
  /\ GameState.pathfindingGridDirty s' = GameState.pathfindingGridDirty s
  /\ GameState.isSimulating s' = false.
Proof.
  unfold GameState.stopSimulation.
  destruct (GameState.isSimulating s) eqn:E; simpl; auto.
Qed.

Lemma InvW_with_gameState (gs : GameState.t) (w : World) :
  GameState.roads gs = GameState.roads (gameState w) ->
  GameState.pathfindingGridDirty gs
  = GameState.pathfindingGridDirty (gameState w) ->
  InvW w -> InvW (with_gameState gs w).
Proof.
  intros Hr Hd. apply InvW_core. unfold coreW. simpl. congruence.
Qed.

Lemma InvW_GameScene_stopSimulation (now : Z) (w : World) :
  InvW w ->
  InvW (GameScene_stopSimulation now w)
  /\ simOf (GameScene_stopSimulation now w) = false.
Proof.
  intros HW. unfold GameScene_stopSimulation.
  destruct (stopSimulation_core (gameState w) now) as (Hr & Hd & Hs).
  destruct (GameState.stopSimulation (gameState w) now) as [gs evs].
  simpl in Hr, Hd, Hs.
  destruct (InvW_fold_dispatchBasic evs (with_gameState gs w)) as [HW' Hs'].
  { apply InvW_with_gameState; assumption. }
  split; [exact HW'|]. rewrite Hs'. exact Hs.
Qed.

Lemma InvW_dispatch (now : Z) (ev : GameState.Event) (w : World) :
  InvW w ->
  InvW (dispatch now ev w)
  /\ (simOf w = false -> simOf (dispatch now ev w) = false).
Proof.
  intros HW.
  destruct (InvW_dispatchBasic ev w HW) as [HB HsB].
  destruct (InvW_GameScene_stopSimulation now w HW) as [HS HsS].
  destruct ev; cbn [dispatch];
    first [ split; [exact HS|intros _; exact HsS]
          | split; [exact HB|intros Hs; rewrite HsB; exact Hs] ].
Qed.

Lemma InvW_emitAll (now : Z) (evs : list GameState.Event) (w : World) :
  InvW w ->
  InvW (emitAll now evs w)
  /\ (simOf w = false -> simOf (emitAll now evs w) = false).
Proof.
  unfold emitAll. revert w.
  induction evs as [|ev evs IH]; intros w HW; simpl; [auto|].
  destruct (InvW_dispatch now ev w HW) as [HW' Hs].
  destruct (IH _ HW') as [HW'' Hs']. auto.
Qed.

Lemma emitAll_harmless (now : Z) (evs : list GameState.Event) (w : World) :
  Forall (fun ev => harmless ev = true) evs -> emitAll now evs w = w.
Proof.
  unfold emitAll. induction 1 as [|ev evs Hev _ IH]; simpl; [reflexivity|].
  rewrite <- IH at 2. f_equal. destruct ev; try discriminate; reflexivity.
Qed.

Lemma Inv_notSim (w : World) : InvW w -> simOf w = false -> Inv w.
Proof. intros HW Hs. split; [exact HW|]. intros _. exact Hs. Qed.

Lemma Inv_emitAll_notSim (now : Z) (evs : list GameState.Event) (w : World) :
  InvW w -> simOf w = false -> Inv (emitAll now evs w).
Proof.
  intros HW Hs. destruct (InvW_emitAll now evs w HW) as [HW' Hs'].
  apply Inv_notSim; auto.
Qed.

Lemma Inv_core (w w' : World) : core w' = core w -> Inv w -> Inv w'.
Proof.
  intros E [HW Hq]. destruct (J_core _ w w' E (conj HW eq_refl)) as [HW' Eb].
  split; [exact HW'|]. unfold quiet. inversion Eb as [[E1 E2]].
  rewrite E1, E2. exact Hq.
Qed.

Lemma checkGameEndConditions_cases (s : GameState.t) (now : Z) :
  let r := GameState.checkGameEndConditions s now in
  GameState.roads (fst r) = GameState.roads s
  /\ GameState.pathfindingGridDirty (fst r) = GameState.pathfindingGridDirty s
  /\ (r = (s, []) \/ GameState.isSimulating (fst r) = false).
Proof.
  unfold GameState.checkGameEndConditions.
  destruct (GameState.isSimulating s) eqn:E; simpl; [|auto].
  destruct (_ <=? _)%N; [|auto].
  destruct (Qle_bool _ _).
  - destruct (stopSimulation_core (GameState.set_gameState WON s) now)
      as (Hr & Hd & Hs).
    destruct (GameState.stopSimulation _ now) as [s1 evs]. simpl in *. auto.
  - destruct (_ <? _)%N; [|auto].
    destruct (stopSimulation_core (GameState.set_gameState LOST s) now)
      as (Hr & Hd & Hs).
    destruct (GameState.stopSimulation _ now) as [s1 evs]. simpl in *. auto.
Qed.

Lemma removeCar_cases (s : GameState.t) (carId : CarId)
      (finalState : option CarState) (now : Z) :
  let r := GameState.removeCar s carId finalState now in
  GameState.roads (fst r) = GameState.roads s
  /\ GameState.pathfindingGridDirty (fst r) = GameState.pathfindingGridDirty s
  /\ ((GameState.isSimulating (fst r) = GameState.isSimulating s
       /\ Forall (fun ev => harmless ev = true) (snd r))
      \/ GameState.isSimulating (fst r) = false).
Proof.
  unfold GameState.removeCar. case_bool_decide; simpl; [|auto].
  match goal with
  | |- context [GameState.checkGameEndConditions ?s1 now] =>
      destruct (checkGameEndConditions_cases s1 now) as (Hr & Hd & Hc);
      destruct (GameState.checkGameEndConditions s1 now) as [s2 evs] eqn:E
  end.
  simpl in *. split; [exact Hr|]. split; [exact Hd|].
  destruct Hc as [Hc|Hc]; [|auto].
  inversion Hc; subst. left. split; [reflexivity|].
  constructor; [reflexivity|constructor].
Qed.

Lemma Inv_removeCar (carId : CarId) (now : Z) (w : World) :
  Inv w -> Inv (CarManager_removeCar carId now w).
Proof.
  intros H. unfold CarManager_removeCar.
  case_bool_decide; [|assumption].
  destruct (getCar w carId) as [k|]; [|assumption].
  match goal with
  | |- context [GameState.removeCar ?s ?i ?f now] =>
      destruct (removeCar_cases s i f now) as (Hr & Hd & Hc);
      destruct (GameState.removeCar s i f now) as [gs evs]
  end.
  simpl in Hr, Hd, Hc.
  destruct Hc as [[Hs Hev]|Hs].
  - rewrite emitAll_harmless by exact Hev.
    eapply Inv_core; [|exact H]. unfold core. simpl. congruence.
  - apply Inv_emitAll_notSim; [|exact Hs].
    eapply InvW_core; [|exact (proj1 H)]. unfold coreW. simpl. congruence.
Qed.

Lemma Inv_fold {A} (f : A -> World -> World) (l : list A) (w : World) :
  (forall a w0, Inv w0 -> Inv (f a w0)) ->
  Inv w -> Inv (fold_left (fun w0 a => f a w0) l w).
Proof.
  intros Hf. revert w. induction l as [|a l IH]; intros w H; simpl; auto.
Qed.

Lemma J_spawnCar (b : bool * bool) (i choice : nat) (newId : CarId) (now : Z)
      (w : World) :
  J b w -> J b (CarManager_spawnCar i choice newId now w).
Proof.
  intros H. unfold CarManager_spawnCar.
  destruct (negb _); [assumption|].
  destruct (CarManager.levelData _) as [l|]; [|assumption].
  destruct (Level.cars l !! i) as [carType|]; [|assumption].
  destruct (Level.entrances carType !! choice) as [entrance|]; [|assumption].
  destruct (CarManager.isPositionOccupied _ _ _); [assumption|].
  eapply J_core; [|apply (J_addCar b), H]. reflexivity.
Qed.

Lemma Inv_update (time delta now : Z) (w : World) :
  Inv w -> Inv (CarManager_update time delta now w).
Proof.
  intros H. unfold CarManager_update.
  assert (Inv (fold_left (fun w0 i => Car_update i time delta w0)
                         (CarManager.cars (carManager w)) w)) as H1.
  { apply Inv_fold; [|exact H]. intros a w0 H0.
    apply (J_Inv w0 (Car_update a time delta)); [|exact H0].
    intros b. apply J_update. }
  case_match; [|exact H1].
  unfold CarManager_cleanupTerminalCars.
  apply Inv_fold; [|exact H1]. intros. apply Inv_removeCar. assumption.
Qed.

Lemma Inv_checkEndConditions (now : Z) (w : World) :
  Inv w -> Inv (GameScene_checkEndConditions now w).
Proof.
  intros H. unfold GameScene_checkEndConditions.
  repeat case_match; try assumption; simpl;
    match goal with
    | |- Inv (GameScene_stopSimulation now ?w') =>
        destruct (InvW_GameScene_stopSimulation now w') as [HW Hs];
        [eapply InvW_core; [|exact (proj1 H)]; reflexivity
        |apply Inv_notSim; assumption]
    end.
Qed.

Lemma Inv_toggleSimulation (now : Z) (w : World) :
  Inv w -> Inv (GameScene_toggleSimulation now w).
Proof.
  intros H. unfold GameScene_toggleSimulation.
  destruct (GameState.isSimulating (gameState w)) eqn:Hsim.
  - destruct (InvW_GameScene_stopSimulation now w (proj1 H)).
    apply Inv_notSim; assumption.
  - unfold GameScene_startSimulation.
    case_bool_decide as Hsz; [exact H|].
    unfold GameState.startSimulation. rewrite Hsim.
    rewrite bool_decide_eq_false_2 by exact Hsz. simpl.
    match goal with
    | |- Inv (InputManager_disable (CarManager_startSimulation ?w')) =>
        destruct (J_frame w' (CarManager_startSimulation w')
                    (fun b => J_startSimulation b w')) as (HW & _ & _);
        [eapply InvW_core; [|exact (proj1 H)]; reflexivity|]
    end.
    split.
    + eapply InvW_core; [|exact HW]. reflexivity.
    + intros Hin. discriminate Hin.
Qed.

(** *** Road edits *)

Lemma dom_lookup_None (m1 m2 : gmap Cell Road.t) (k : Cell) :
  dom m1 = dom m2 -> m2 !! k = None -> m1 !! k = None.
Proof.
  intros Hd Hn. apply not_elem_of_dom. rewrite Hd.
  apply not_elem_of_dom. exact Hn.
Qed.

Lemma dom_lookup_Some (m1 m2 : gmap Cell Road.t) (k : Cell) :
  dom m1 = dom m2 -> is_Some (m2 !! k) -> is_Some (m1 !! k).
Proof.
  intros Hd Hs. apply elem_of_dom. rewrite Hd. apply elem_of_dom. exact Hs.
Qed.

Lemma Inv_handleRoadPlacement (r c now : Z) (w : World) :
  Inv w -> inputEnabled w = true ->
  Inv (InputManager_handleRoadPlacement r c now w).
Proof.
  intros H Hin. pose proof H as [(Hwf & Hdom & Hfresh) Hq].
  pose proof (Hq Hin) as Hsim.
  unfold InputManager_handleRoadPlacement.
  destruct (GridManager.isPositionEditable (gridManager w) r c) eqn:Hed;
    [|exact H].
  destruct (GridManager.hasRoad (gridManager w) r c) eqn:Hhas;
    [exact H|].
  destruct (GameState.canAfford (gameState w) GameConfig.roadCost) eqn:Haff;
    [|exact H].
  cbn [negb].
  unfold GridManager.placeRoad. rewrite Hed, Hhas.
  destruct (GridManager.isValidPosition (gridManager w) r c);
    [|exact H].
  cbn [negb orb].
  unfold GridManager.hasRoad in Hhas. apply bool_decide_eq_false in Hhas.
  assert (GridManager.roads (gridManager w) !! gridKey r c = None) as Hnone
    by (destruct (GridManager.roads (gridManager w) !! gridKey r c);
        [exfalso; apply Hhas; eauto|reflexivity]).
  pose proof (dom_lookup_None _ _ _ Hdom Hnone) as Hnone'.
  unfold GameState.placeRoad, GameState.hasRoad, GameState.spendBudget.
  rewrite Hsim, Haff. cbn [negb].
  rewrite bool_decide_eq_false_2 by (rewrite Hnone'; intros [? ?]; discriminate).
  split; [split; [|split]|].
  - exact Hwf.
  - cbn. rewrite !dom_insert_L, Hdom. reflexivity.
  - cbn. discriminate.
  - intros _. exact Hsim.
Qed.

Lemma Inv_handleRoadDeletion (r c now : Z) (w : World) :
  Inv w -> inputEnabled w = true ->
  Inv (InputManager_handleRoadDeletion r c now w).
Proof.
  intros H Hin. pose proof H as [(Hwf & Hdom & Hfresh) Hq].
  pose proof (Hq Hin) as Hsim.
  unfold InputManager_handleRoadDeletion.
  destruct (GridManager.hasRoad (gridManager w) r c) eqn:Hhas;
    [|exact H].
  cbn [negb]. unfold GridManager.removeRoad.
  destruct (GridManager.roads (gridManager w) !! gridKey r c) as [road|] eqn:Hroad;
    [|exact H].
  destruct (dom_lookup_Some _ _ _ Hdom (mk_is_Some _ _ Hroad)) as [road' Hroad'].
  unfold GameState.removeRoad. rewrite Hsim, Hroad'.
  split; [split; [|split]|].
  - exact Hwf.
  - cbn. rewrite !dom_delete_L, Hdom. reflexivity.
  - cbn. discriminate.
  - intros _. exact Hsim.
Qed.

Lemma Inv_completeArrowDrawing (s e : Cell) (now : Z) (w : World) :
  Inv w -> Inv (InputManager_completeArrowDrawing s e now w).
Proof.
  intros H. pose proof H as [(Hwf & Hdom & Hfresh) Hq].
  unfold InputManager_completeArrowDrawing, GridManager.getRoad.
  destruct (GridManager.roads (gridManager w) !! gridKey (fst s) (snd s))
    as [road|] eqn:Hroad; [|exact H].
  destruct (InputManager_calculateDirection s e) as [d|];
    [|exact H].
  destruct (dom_lookup_Some _ _ _ Hdom (mk_is_Some _ _ Hroad)) as [road' Hroad'].
  unfold GameState.updateRoadDirections, GameState.getRoad. rewrite Hroad'.
  split; [split; [|split]|].
  - exact Hwf.
  - cbn. rewrite dom_alter_L, dom_insert_lookup_L by eauto. exact Hdom.
  - cbn. discriminate.
  - exact Hq.
Qed.

Lemma Inv_step (ev : Event) (w : World) : Inv w -> Inv (step ev w).
Proof.
  intros H. destruct ev; cbn [step].
  - destruct (inputEnabled w) eqn:E; [|exact H].
    apply Inv_handleRoadPlacement; assumption.
  - destruct (inputEnabled w) eqn:E; [|exact H].
    apply Inv_handleRoadDeletion; assumption.
  - destruct (inputEnabled w) eqn:E; [|exact H].
    apply Inv_completeArrowDrawing; assumption.
  - apply Inv_toggleSimulation. exact H.
  - case_bool_decide; [|exact H].
    match goal with
    | |- Inv (CarManager_scheduleCarSpawn ?i (CarManager_spawnCar ?a ?c ?n ?t ?w1)) =>
        apply (J_Inv w (fun w0 => CarManager_scheduleCarSpawn i
                                    (CarManager_spawnCar a c n t
                                       (with_timers (timers w1) w0))));
        [|exact H]
    end.
    intros b Hb. apply J_scheduleCarSpawn, J_spawnCar, J_with_timers. exact Hb.
  - case_bool_decide; [|exact H].
    apply Inv_removeCar. eapply Inv_core; [|exact H]. reflexivity.
  - destruct (getCar w carId) as [k|]; [|exact H].
    destruct (Car.currentTween k) as [targetCell|]; [|exact H].
    apply (J_Inv w (Car_onMoveComplete carId targetCell)); [|exact H].
    intros b. apply J_onMoveComplete.
  - apply Inv_checkEndConditions, Inv_update. exact H.
Qed.

Lemma Inv_loadLevel (levelData : Level.t) : Inv (GameScene_loadLevel levelData).
Proof.
  split; [split; [|split]|].
  - intros g Hg. discriminate Hg.
  - cbn. rewrite !dom_empty_L. reflexivity.
  - cbn. discriminate.
  - intros _. reflexivity.
Qed.

Lemma Inv_run (evs : list Event) (w : World) : Inv w -> Inv (run evs w).
Proof.
  unfold run. revert w. induction evs as [|ev evs IH]; intros w H; simpl;
    auto using Inv_step.
Qed.

(** The mechanism of the dirty flag.  Every accepted edit of the game
    state (a road placed, removed or re-annotated) sets the flag; and
    in every state reached from a loaded level by edits, run controls,
    timers, tween completions and frames, a path request leaves the
    flag clean, keeps the roads, and answers with the path found on a
    grid whose walkable cells are exactly the in-grid road cells of
    the current layout that are not obstacles. *)
Lemma path_request_rebuilds_grid :
  (forall (s s' : GameState.t) (r c : Z) rd evs,
      GameState.placeRoad s r c rd = (true, s', evs) ->
      GameState.pathfindingGridDirty s' = true)
  /\ (forall (s s' : GameState.t) (r c : Z) evs,
         GameState.removeRoad s r c = (true, s', evs) ->
         GameState.pathfindingGridDirty s' = true)
  /\ (forall (s s' : GameState.t) (r c : Z) ds evs,
         GameState.updateRoadDirections s r c ds = (true, s', evs) ->
         GameState.pathfindingGridDirty s' = true)
  /\ (forall (levelData : Level.t) (evs : list Event) (start end_ : Position),
         let w := run evs (GameScene_loadLevel levelData) in
         let q := CarManager_pathQuery w start end_ in
         GameState.pathfindingGridDirty (gameState (fst q)) = false
         /\ gridManager (fst q) = gridManager w
         /\ fresh (fst q)
         /\ snd q = PathFinder.findPathWithEntrances (pathFinder (fst q))
                      start end_
                      (GridManager.rows (gridManager w))
                      (GridManager.columns (gridManager w))).
Proof.
  split; [|split; [|split]].
  - intros s s' r c rd evs. unfold GameState.placeRoad, GameState.spendBudget.
    repeat case_match; intros E; inversion E; subst; try discriminate.
    reflexivity.
  - intros s s' r c evs. unfold GameState.removeRoad.
    repeat case_match; intros E; inversion E; subst; reflexivity.
  - intros s s' r c ds evs. unfold GameState.updateRoadDirections.
    repeat case_match; intros E; inversion E; subst; reflexivity.
  - intros levelData evs start end_ w q.
    assert (InvW w) as HW by (apply Inv_run, Inv_loadLevel).
    unfold q, CarManager_pathQuery.
    destruct (GameState.pathfindingGridDirty (gameState w)) eqn:Hd; cbn [fst snd].
    + destruct (J_updatePathfindingGrid _ w (conj HW eq_refl))
        as [(_ & _ & Hfresh') _].
      split; [reflexivity|]. split; [reflexivity|].
      split; [apply Hfresh'; reflexivity|reflexivity].
    + split; [exact Hd|]. split; [reflexivity|].
      split; [apply (proj2 (proj2 HW)); exact Hd|reflexivity].
Qed.

(** ** Waiting and the timeout *)

Lemma getCar_withCar (carId : CarId) (f : Car.t -> Car.t) (w : World) (k : Car.t) :
  getCar w carId = Some k -> getCar (withCar carId f w) carId = Some (f k).
Proof.
  unfold getCar, withCar. simpl. intros H.
  rewrite lookup_alter_eq, H. reflexivity.
Qed.

(** A waiting car that is not flagged as blocked: one update. *)
Lemma Car_update_waiting (carId : CarId) (time delta : Z) (w : World) (k : Car.t) :
  getCar w carId = Some k ->
  Car.state k = WAITING -> Car.isBlocked k = false ->
  0 <= Car.waitTime k <= 2000 -> 0 <= delta <= 8000 ->
  exists k', getCar (Car_update carId time delta w) carId = Some k'
             /\ Car.state k' = WAITING /\ Car.isBlocked k' = false
             /\ 0 <= Car.waitTime k' <= 2000
             /\ Car.totalWaitTime k' = Car.totalWaitTime k + delta.
Proof.
  intros Hk Hst Hbl Hw Hd. unfold Car_update.
  rewrite (getCar_withCar _ _ _ _ Hk). cbn [Car.state Car.set_lastMoveTime].
  rewrite Hst. unfold Car_updateWaiting.
  set (w1 := withCar carId (Car.set_lastMoveTime time) w).
  assert (getCar w1 carId = Some (Car.set_lastMoveTime time k)) as H1
    by (apply getCar_withCar; exact Hk).
  rewrite (getCar_withCar _ _ _ _ H1).
  cbn [Car.isBlocked Car.set_lastMoveTime Car.set_totalWaitTime Car.set_waitTime].
  rewrite Hbl. cbn [andb].
  rewrite (getCar_withCar _ _ _ _ H1).
  cbn [Car.waitTime Car.set_lastMoveTime Car.set_totalWaitTime Car.set_waitTime].
  unfold GameConfig.maxWaitTime.
  destruct (Z.ltb_spec 10000 (Car.waitTime k + delta)) as [?|_]; [lia|].
  rewrite (getCar_withCar _ _ _ _ H1).
  cbn [Car.waitTime Car.set_lastMoveTime Car.set_totalWaitTime Car.set_waitTime].
  destruct (Z.ltb_spec 2000 (Car.waitTime k + delta)) as [Hgt|Hle].
  - eexists. split.
    + apply getCar_withCar. apply getCar_withCar. exact H1.
    + cbn. repeat split; try assumption; lia.
  - eexists. split.
    + apply getCar_withCar. exact H1.
    + cbn. repeat split; try assumption; lia.
Qed.

(** C3: what the code does instead.  A car that waits without being
    flagged as blocked (so every car that never received a path) is
    still Waiting after any number of frames of at most 8 s each,
    however long the total wait: the wait timer restarts every 2 s and
    never reaches the 10 s threshold. *)
Theorem waiting_car_never_times_out
        (carId : CarId) (frames : list (Z * Z)) (w : World) (k : Car.t) :
  getCar w carId = Some k ->
  Car.state k = WAITING -> Car.isBlocked k = false ->
  0 <= Car.waitTime k <= 2000 ->
  Forall (fun f => 0 <= snd f <= 8000) frames ->
  exists k', getCar (updates carId frames w) carId = Some k'
             /\ Car.state k' = WAITING
             /\ Car.totalWaitTime k' = Car.totalWaitTime k + elapsed frames.
Proof.
  intros Hk Hst Hbl Hw Hf. revert w k Hk Hst Hbl Hw.
  induction Hf as [|f frames Hd _ IH]; intros w k Hk Hst Hbl Hw; simpl.
  - exists k. repeat split; try assumption. lia.
  - destruct (Car_update_waiting carId (fst f) (snd f) w k Hk Hst Hbl Hw Hd)
      as (k1 & Hk1 & Hst1 & Hbl1 & Hw1 & Ht1).
    destruct (IH _ _ Hk1 Hst1 Hbl1 Hw1) as (k' & Hk' & Hst' & Ht').
    exists k'. repeat split; try assumption. lia.
Qed.

(** The collision check of the car never reports a collision, whatever
    the occupancy index holds. *)
Lemma checkCollision_always_false (carId : CarId) (targetCell : Cell) (w : World) :
  snd (Car_checkCollision carId targetCell w) = false.
Proof.
  unfold Car_checkCollision.
  destruct (CarManager_handleCollisionCheck carId targetCell w). reflexivity.
Qed.

(** C1 fails on the code.  When "A" decides to enter (1, 1) the
    occupancy index holds "B" there and the manager's check has named
    "B" as the blocker, yet "A" keeps Moving with a tween towards
    (1, 1); once the tween completes both live cars are at (1, 1), while
    the occupancy index still files "A" under its spawn cell. *)
Theorem lane_cars_collide :
  let w1 := run laneDecision (GameScene_loadLevel laneLevel) in
  let w2 := run laneCrash (GameScene_loadLevel laneLevel) in
  (positionOf w1 "B" = Some (1, 1)
   /\ CarManager.isPositionOccupied (carManager w1) 1 1 = true
   /\ option_map Car.blockedBy (getCar w1 "A") = Some (Some "B")
   /\ stateOf w1 "A" = Some MOVING
   /\ option_map Car.currentTween (getCar w1 "A") = Some (Some (1, 1)))
  /\ (CarManager.cars (carManager w2) = ["B"; "A"]
      /\ positionOf w2 "A" = Some (1, 1)
      /\ positionOf w2 "B" = Some (1, 1)
      /\ stateOf w2 "A" = Some MOVING
      /\ stateOf w2 "B" = Some WAITING
      /\ CarManager.positionIds (carManager w2) 1 1 = ["B"]
      /\ CarManager.positionIds (carManager w2) 1 0 = ["A"]).
Proof. vm_compute. repeat split. Qed.

Lemma waiting_car_never_times_out_witness :
  exists k', getCar (updates "B" sixteenSeconds
                             (run laneSpawned (GameScene_loadLevel laneLevel)))
                    "B" = Some k'
             /\ Car.state k' = WAITING
             /\ Car.totalWaitTime k' = 0 + 16000.
Proof.
  apply (waiting_car_never_times_out "B" sixteenSeconds
           (run laneSpawned (GameScene_loadLevel laneLevel)) strandedCar).
  - vm_compute. reflexivity.
  - reflexivity.
  - reflexivity.
  - vm_compute. split; discriminate.
  - apply Forall_forall. intros f Hf.
    apply list_elem_of_In, in_map_iff in Hf as (i & <- & _). simpl. lia.
Defined.

(** ** Direction arrows and the path query *)

(** What the road itself offers: a road annotated [RIGHT] connects to
    its right neighbour only, an open road to its four neighbours. *)
Lemma getPathfindingConnections_right (rd : Road.t) :
  Road.directions rd = [RIGHT] ->
  Road.getPathfindingConnections rd = [((Road.r rd, Road.c rd + 1), Some RIGHT)].
Proof. intros H. unfold Road.getPathfindingConnections. rewrite H. reflexivity. Qed.

Lemma getPathfindingConnections_open (rd : Road.t) :
  Road.directions rd = [] ->
  map fst (Road.getPathfindingConnections rd)
  = getAdjacentPositions (Road.r rd) (Road.c rd).
Proof. intros H. unfold Road.getPathfindingConnections. rewrite H. reflexivity. Qed.

(** C2 fails on the code.  The middle road of the lane carries exactly
    [RIGHT] and offers its right neighbour as only connection, but the
    path query from (1, 2) to (1, 0) crosses it leftwards: the grid is
    built from the positions of the roads alone. *)
Theorem arrow_ignored_by_path_query :
  let w := run laneWithArrow (GameScene_loadLevel laneLevel) in
  option_map Road.directions (GridManager.roads (gridManager w) !! gridKey 1 1)
  = Some [RIGHT]
  /\ option_map Road.directions (GameState.roads (gameState w) !! gridKey 1 1)
     = Some [RIGHT]
  /\ option_map (fun rd => map fst (Road.getPathfindingConnections rd))
                (GridManager.roads (gridManager w) !! gridKey 1 1)
     = Some [(1, 2)]
  /\ snd (CarManager_pathQuery w (plainPosition (1, 2)) (plainPosition (1, 0)))
     = Some [(1, 2); (1, 1); (1, 0)].
Proof. vm_compute. repeat split. Qed.

(** C7 fails on the code for a re-annotation.  Red cars go from (1, 0)
    to (1, 2).  Car "A" of the first run is given the path through the
    middle road.  The arrow drawn afterwards sets the dirty flag and
    leaves the middle road with the left neighbour as its only
    connection; a path request made in that state rebuilds the grid
    and clears the flag, yet the grid is the one of the first run and
    the answer is the path served before the edit, which leaves the
    middle road to the right.  Car "C" of the second run is given that
    path and moves off. *)
Theorem reannotation_not_reflected_by_path_request :
  let w1 := run laneFirstRun (GameScene_loadLevel laneLevel) in
  let w2 := run laneRedrawn (GameScene_loadLevel laneLevel) in
  let q := CarManager_pathQuery w2 (plainPosition (1, 0))
                                (plainPosition (1, 2)) in
  let w3 := run laneSecondRun (GameScene_loadLevel laneLevel) in
  (option_map Car.path (getCar w1 "A") = Some [(1, 0); (1, 1); (1, 2)]
   /\ GameState.pathfindingGridDirty (gameState w1) = false)
  /\ (GameState.pathfindingGridDirty (gameState w2) = true
      /\ option_map Road.directions
                    (GameState.roads (gameState w2) !! gridKey 1 1)
         = Some [LEFT]
      /\ option_map Road.directions
                    (GridManager.roads (gridManager w2) !! gridKey 1 1)
         = Some [LEFT]
      /\ option_map (fun rd => map fst (Road.getPathfindingConnections rd))
                    (GridManager.roads (gridManager w2) !! gridKey 1 1)
         = Some [(1, 0)])
  /\ (GameState.pathfindingGridDirty (gameState (fst q)) = false
      /\ pathFinder (fst q) = pathFinder w1
      /\ snd q = Some [(1, 0); (1, 1); (1, 2)])
  /\ (option_map Car.path (getCar w3 "C") = Some [(1, 0); (1, 1); (1, 2)]
      /\ stateOf w3 "C" = Some MOVING).
Proof. vm_compute. repeat split. Qed.

(** * Further properties of the code *)

(** ** Coordinates of the level file *)

(** X1.  The coordinates of the level file.  [processEntranceCoordinates]
    flags a position as an entrance exactly when its row or its column
    is 0 or -1; a flagged position is always outside the grid (row -1
    or [gridRows], column -1 or [gridCols]); a position that is not
    flagged is the 0-based conversion [jsonToInternal] of the level
    coordinates, and it lies in the grid exactly for rows 1 to
    [gridRows] and columns 1 to [gridCols]; [side] is null exactly for
    the positions that are not flagged, and a special column decides
    the side even when the row is special too. *)
Theorem processEntranceCoordinates_edges (r c gridRows gridCols : Z) :
  let p := processEntranceCoordinates r c gridRows gridCols in
  (isEntrance p = true <-> r = 0 \/ r = -1 \/ c = 0 \/ c = -1)
  /\ (isEntrance p = true ->
      isValidGridPosition (row p) (col p) gridRows gridCols = false)
  /\ (isEntrance p = false ->
      (row p, col p) = jsonToInternal r c
      /\ (isValidGridPosition (row p) (col p) gridRows gridCols = true
          <-> 1 <= r <= gridRows /\ 1 <= c <= gridCols))
  /\ (side p = None <-> isEntrance p = false)
  /\ (c = 0 -> side p = Some SideLeft)
  /\ (c = -1 -> side p = Some SideRight).
Proof.
  unfold processEntranceCoordinates, jsonToInternal.
  destruct (Z.eqb_spec r 0) as [Hr0|Hr0];
    [|destruct (Z.eqb_spec r (-1)) as [Hr1|Hr1]];
    (destruct (Z.eqb_spec c 0) as [Hc0|Hc0];
     [|destruct (Z.eqb_spec c (-1)) as [Hc1|Hc1]]);
    cbn [isEntrance row col side];
    repeat split; intros; try congruence; try lia; auto;
    try (apply not_true_iff_false; rewrite isValidGridPosition_true; lia);
    try (apply isValidGridPosition_true; lia);
    try (match goal with
         | H : isValidGridPosition _ _ _ _ = true |- _ =>
             apply isValidGridPosition_true in H; lia
         end).
Qed.

Lemma processEntranceCoordinates_edges_witness :
  isValidGridPosition (row (processEntranceCoordinates 2 0 3 3))
                      (col (processEntranceCoordinates 2 0 3 3)) 3 3 = false.
Proof.
  apply (proj1 (proj2 (processEntranceCoordinates_edges 2 0 3 3))).
  reflexivity.
Defined.

(** X2.  [getAdjacentPositions (row, col)] lists exactly the cells at
    Manhattan distance 1 from [(row, col)]. *)
Theorem adjacent_iff_manhattan_one (r c : Z) (p : Cell) :
  In p (getAdjacentPositions r c) <-> manhattanDistance r c (fst p) (snd p) = 1.
Proof.
  unfold getAdjacentPositions, manhattanDistance. destruct p as [r' c'].
  cbn [In fst snd]. split.
  - intros [H|[H|[H|[H|[]]]]]; inversion H; subst; lia.
  - intros H.
    assert ((r' = r - 1 /\ c' = c) \/ (r' = r + 1 /\ c' = c)
            \/ (r' = r /\ c' = c - 1) \/ (r' = r /\ c' = c + 1))
      as [[-> ->]|[[-> ->]|[[-> ->]|[-> ->]]]] by lia; auto.
Qed.

Lemma calculateDirection_cases (fromCell toCell : Cell) :
  InputManager_calculateDirection fromCell toCell =
  if (fst toCell =? fst fromCell - 1) && (snd toCell =? snd fromCell) then Some UP
  else if (fst toCell =? fst fromCell + 1) && (snd toCell =? snd fromCell) then Some DOWN
  else if (fst toCell =? fst fromCell) && (snd toCell =? snd fromCell - 1) then Some LEFT
  else if (fst toCell =? fst fromCell) && (snd toCell =? snd fromCell + 1) then Some RIGHT
  else None.
Proof.
  unfold InputManager_calculateDirection.
  destruct fromCell as [r c], toCell as [r' c']. cbn [fst snd].
  repeat match goal with
         | |- context [?a =? ?b] => destruct (Z.eqb_spec a b)
         end; cbn [andb negb]; try reflexivity; lia.
Qed.

Lemma getDirectionToPosition_cases (rd : Road.t) (r' c' : Z) :
  Road.getDirectionToPosition rd r' c' =
  if (r' =? Road.r rd - 1) && (c' =? Road.c rd) then Some UP
  else if (r' =? Road.r rd + 1) && (c' =? Road.c rd) then Some DOWN
  else if (r' =? Road.r rd) && (c' =? Road.c rd - 1) then Some LEFT
  else if (r' =? Road.r rd) && (c' =? Road.c rd + 1) then Some RIGHT
  else None.
Proof.
  unfold Road.getDirectionToPosition.
  repeat match goal with
         | |- context [?a =? ?b] => destruct (Z.eqb_spec a b)
         end; cbn [andb negb]; try reflexivity; lia.
Qed.

(** X3.  Directions and neighbours of a road.  [getPositionInDirection]
    and [getDirectionToPosition] are inverse of each other: a
    direction leads to a cell exactly when that cell is seen in that
    direction; the direction an arrow drag computes from the cell of
    the road ([InputManager.calculateDirection]) is the one the road
    itself computes; and a drag yields a direction exactly towards the
    four cells listed by [getAdjacentPositions]. *)
Theorem direction_round_trip (rd : Road.t) (d : Direction) (target : Cell) :
  (Road.getPositionInDirection rd d = Some target
   <-> Road.getDirectionToPosition rd (fst target) (snd target) = Some d)
  /\ InputManager_calculateDirection (Road.r rd, Road.c rd) target
     = Road.getDirectionToPosition rd (fst target) (snd target)
  /\ (is_Some (InputManager_calculateDirection (Road.r rd, Road.c rd) target)
      <-> In target (getAdjacentPositions (Road.r rd) (Road.c rd))).
Proof.
  rewrite calculateDirection_cases, getDirectionToPosition_cases.
  destruct target as [r' c']. cbn [fst snd].
  unfold Road.getPositionInDirection, getAdjacentPositions. cbn [In].
  destruct (Z.eqb_spec r' (Road.r rd - 1)); destruct (Z.eqb_spec r' (Road.r rd + 1));
    destruct (Z.eqb_spec r' (Road.r rd)); try lia;
    destruct (Z.eqb_spec c' (Road.c rd)); destruct (Z.eqb_spec c' (Road.c rd - 1));
    destruct (Z.eqb_spec c' (Road.c rd + 1)); try lia; cbn [andb]; subst;
    (split; [|split; [reflexivity|]]);
    (split; intros H);
    try (destruct d; inversion H; subst; try reflexivity; lia);
    try (inversion H; subst; reflexivity);
    try (destruct H as [? H]; discriminate H);
    try (destruct H as [H|[H|[H|[H|[]]]]]; inversion H; lia);
    eauto 6.
Qed.

(** ** Pixels and cells *)

Lemma Qfloor_eq_iff (x : Q) (n : Z) :
  Qfloor x = n <-> (inject_Z n <= x /\ x < inject_Z (n + 1))%Q.
Proof.
  split.
  - intros <-. split; [apply Qfloor_le|apply Qlt_floor].
  - intros [Hlo Hhi].
    apply Qfloor_resp_le in Hlo. rewrite Qfloor_Z in Hlo.
    assert (Qfloor x < n + 1); [|lia].
    rewrite Zlt_Qlt. eapply Qle_lt_trans; [apply Qfloor_le|exact Hhi].
Qed.

(** The column (or row) of a pixel coordinate. *)
Lemma cell_of_pixel (x offset : Q) (n : Z) :
  Qfloor ((x - offset) / inject_Z GameConfig.cellSize) = n
  <-> (offset + inject_Z (n * GameConfig.cellSize) <= x
       /\ x < offset + inject_Z ((n + 1) * GameConfig.cellSize))%Q.
Proof.
  rewrite Qfloor_eq_iff. unfold GameConfig.cellSize.
  assert (0 < inject_Z 40)%Q as Hpos by reflexivity.
  rewrite !inject_Z_mult.
  split; intros [Hlo Hhi]; split.
  - apply (Qmult_le_compat_r _ _ (inject_Z 40)) in Hlo; [|apply Qlt_le_weak, Hpos].
    assert ((x - offset) / inject_Z 40 * inject_Z 40 == x - offset)%Q as E
      by (field; discriminate).
    rewrite E in Hlo. apply (Qplus_le_compat offset offset) in Hlo; [|apply Qle_refl].
    assert (offset + (x - offset) == x)%Q as E' by ring. rewrite E' in Hlo. exact Hlo.
  - apply (Qmult_lt_compat_r _ _ (inject_Z 40)) in Hhi; [|exact Hpos].
    assert ((x - offset) / inject_Z 40 * inject_Z 40 == x - offset)%Q as E
      by (field; discriminate).
    rewrite E in Hhi. apply (Qplus_lt_r _ _ offset) in Hhi.
    assert (offset + (x - offset) == x)%Q as E' by ring. rewrite E' in Hhi. exact Hhi.
  - apply Qle_shift_div_l; [exact Hpos|].
    apply (Qplus_le_r _ _ offset).
    assert (offset + (x - offset) == x)%Q as E' by ring. rewrite E'. exact Hlo.
  - apply Qlt_shift_div_r; [exact Hpos|].
    apply (Qplus_lt_r _ _ offset).
    assert (offset + (x - offset) == x)%Q as E' by ring. rewrite E'. exact Hhi.
Qed.

(** X4.  Pixels and cells.  [GridManager.worldToGrid] answers with the
    cell [(r, c)] exactly when that cell is in the grid and the pixel
    lies in its square of [cellSize] pixels, left and top borders
    included, right and bottom borders excluded; and the centre pixel
    computed by [gridToWorld] is mapped back to its cell (to null for
    a cell outside the grid). *)
Theorem worldToGrid_cell (g : GridManager.t) (gridOffset : Q * Q) :
  (forall (x y : Q) (r c : Z),
      GridManager.worldToGrid g gridOffset x y = Some (r, c)
      <-> GridManager.isValidPosition g r c = true
          /\ (fst gridOffset + inject_Z (c * GameConfig.cellSize) <= x
              /\ x < fst gridOffset + inject_Z ((c + 1) * GameConfig.cellSize))%Q
          /\ (snd gridOffset + inject_Z (r * GameConfig.cellSize) <= y
              /\ y < snd gridOffset + inject_Z ((r + 1) * GameConfig.cellSize))%Q)
  /\ (forall r c : Z,
         GridManager.worldToGrid g gridOffset
           (fst (GridManager.gridToWorld gridOffset r c))
           (snd (GridManager.gridToWorld gridOffset r c))
         = if GridManager.isValidPosition g r c then Some (r, c) else None).
Proof.
  assert (forall (x y : Q) (r c : Z),
             worldToGrid x y (fst gridOffset) (snd gridOffset) = (r, c)
             <-> (fst gridOffset + inject_Z (c * GameConfig.cellSize) <= x
                  /\ x < fst gridOffset + inject_Z ((c + 1) * GameConfig.cellSize))%Q
                 /\ (snd gridOffset + inject_Z (r * GameConfig.cellSize) <= y
                     /\ y < snd gridOffset + inject_Z ((r + 1) * GameConfig.cellSize))%Q)
    as Hcell.
  { intros x y r c. unfold worldToGrid.
    rewrite <- !cell_of_pixel. split.
    - intros H. inversion H. auto.
    - intros [-> ->]. reflexivity. }
  split.
  - intros x y r c. unfold GridManager.worldToGrid.
    destruct (worldToGrid x y (fst gridOffset) (snd gridOffset)) as [r0 c0] eqn:E.
    cbn [fst snd]. split.
    + destruct (GridManager.isValidPosition g r0 c0) eqn:V; [|discriminate].
      intros H. inversion H; subst. split; [exact V|]. apply Hcell. exact E.
    + intros [V H]. apply Hcell in H. rewrite E in H. inversion H; subst.
      rewrite V. reflexivity.
  - intros r c. unfold GridManager.worldToGrid, GridManager.gridToWorld.
    assert (worldToGrid (fst (gridToWorld r c (fst gridOffset) (snd gridOffset)))
                        (snd (gridToWorld r c (fst gridOffset) (snd gridOffset)))
                        (fst gridOffset) (snd gridOffset) = (r, c)) as ->.
    { apply Hcell. unfold gridToWorld, GameConfig.cellSize. cbn [fst snd].
      rewrite ?inject_Z_mult, ?inject_Z_plus, ?inject_Z_mult.
      assert (inject_Z 40 / 2 == 20)%Q as E20 by reflexivity.
      repeat split.
      - rewrite E20, <- Qplus_assoc. apply Qplus_le_r.
        rewrite <- (Qplus_0_r (inject_Z c * inject_Z 40)) at 1.
        apply Qplus_le_r. discriminate.
      - rewrite E20, <- Qplus_assoc. apply Qplus_lt_r.
        rewrite Qmult_plus_distr_l. apply Qplus_lt_r. reflexivity.
      - rewrite E20, <- Qplus_assoc. apply Qplus_le_r.
        rewrite <- (Qplus_0_r (inject_Z r * inject_Z 40)) at 1.
        apply Qplus_le_r. discriminate.
      - rewrite E20, <- Qplus_assoc. apply Qplus_lt_r.
        rewrite Qmult_plus_distr_l. apply Qplus_lt_r. reflexivity. }
    reflexivity.
Qed.

(** ** Grid keys as strings *)

Lemma commaFree_uint (d : Decimal.uint) : commaFree (NilEmpty.string_of_uint d).
Proof. induction d; simpl; auto. Qed.

Lemma commaFree_numberToString (z : Z) : commaFree (Keys.numberToString z).
Proof.
  unfold Keys.numberToString, NilZero.string_of_int, NilZero.string_of_uint.
  destruct (Z.to_int z) as [d|d]; destruct d; simpl;
    auto using commaFree_uint.
Qed.

Lemma split_commaFree (s : string) : commaFree s -> Keys.split s = [s].
Proof.
  induction s as [|a s IH]; simpl; [reflexivity|].
  intros [-> H]. rewrite (IH H). reflexivity.
Qed.

Lemma split_append (s t : string) :
  commaFree s ->
  Keys.split (String.append s (String "," t)) = s :: Keys.split t.
Proof.
  induction s as [|a s IH]; simpl.
  - reflexivity.
  - intros [-> H]. rewrite (IH H). reflexivity.
Qed.

Lemma stringToNumber_numberToString (z : Z) :
  Keys.stringToNumber (Keys.numberToString z) = Some z.
Proof.
  unfold Keys.stringToNumber, Keys.numberToString.
  rewrite NilZero.isi.
  - simpl. rewrite DecimalZ.of_to. reflexivity.
  - destruct z; simpl; try discriminate.
    intros H. inversion H as [H']. revert H'. apply Unsigned.to_uint_nonnil.
  - destruct z; simpl; try discriminate.
    intros H. inversion H as [H']. revert H'. apply Unsigned.to_uint_nonnil.
Qed.

(** X5.  Grid keys.  [parseGridKey (gridKey (row, col))] gives back
    [(row, col)] for all integers, negative ones (the cells outside
    the grid) included, so two cells never share a key. *)
Theorem parseGridKey_gridKey (r c : Z) :
  Keys.parseGridKey (Keys.gridKey r c) = Some (gridKey r c)
  /\ forall r' c' : Z, Keys.gridKey r c = Keys.gridKey r' c' -> gridKey r c = gridKey r' c'.
Proof.
  assert (forall r c, Keys.parseGridKey (Keys.gridKey r c) = Some (gridKey r c)) as H.
  { clear. intros r c. unfold Keys.parseGridKey, Keys.gridKey.
    rewrite split_append by apply commaFree_numberToString.
    rewrite split_commaFree by apply commaFree_numberToString.
    rewrite !stringToNumber_numberToString. reflexivity. }
  split; [apply H|].
  intros r' c' E. pose proof (H r c) as H1. rewrite E, H in H1.
  congruence.
Qed.

(** ** Colours *)

Lemma toInt32_small (x : Z) : - 2 ^ 31 <= x < 2 ^ 31 -> toInt32 x = x.
Proof.
  intros H. unfold toInt32. rewrite Z.mod_small by lia. lia.
Qed.

Lemma land_255 (x : Z) : Z.land x 255 = x mod 256.
Proof. change 255 with (Z.ones 8). rewrite Z.land_ones by lia. reflexivity. Qed.

Lemma lor_shiftl_small (a b n : Z) :
  0 <= n -> 0 <= b < 2 ^ n -> Z.lor (Z.shiftl a n) b = a * 2 ^ n + b.
Proof.
  intros Hn Hb. rewrite Z.shiftl_mul_pow2 by exact Hn.
  symmetry. apply Z.add_nocarry_lor. apply Z.bits_inj'. intros i Hi.
  rewrite Z.land_spec, Z.bits_0.
  destruct (Z.lt_ge_cases i n) as [Hlt|Hge].
  - rewrite Z.mul_pow2_bits_low by exact Hlt. reflexivity.
  - rewrite (proj1 (Z.bounded_iff_bits_nonneg n b Hn (proj1 Hb)) (proj2 Hb) i Hge).
    apply andb_false_r.
Qed.

Lemma packRgb_sum (r g b : Z) :
  0 <= r <= 255 -> 0 <= g <= 255 -> 0 <= b <= 255 ->
  packRgb r g b = r * 65536 + g * 256 + b.
Proof.
  intros Hr Hg Hb. unfold packRgb.
  rewrite (toInt32_small r), (toInt32_small g), (toInt32_small b) by lia.
  rewrite (Z.shiftl_mul_pow2 g 8) by lia.
  rewrite (toInt32_small (g * 2 ^ 8)) by lia.
  rewrite (Z.shiftl_mul_pow2 r 16) by lia.
  rewrite (toInt32_small (r * 2 ^ 16)) by lia.
  rewrite <- (Z.shiftl_mul_pow2 r 16) by lia.
  rewrite lor_shiftl_small by lia.
  rewrite (toInt32_small (r * 2 ^ 16 + g * 2 ^ 8)) by lia.
  replace (r * 2 ^ 16 + g * 2 ^ 8) with (Z.shiftl (r * 256 + g) 8)
    by (rewrite Z.shiftl_mul_pow2 by lia; lia).
  rewrite lor_shiftl_small by lia.
  rewrite toInt32_small by lia. lia.
Qed.

Lemma hexToRgb_channels (hex : Z) :
  let '(r, g, b) := hexToRgb hex in
  0 <= r <= 255 /\ 0 <= g <= 255 /\ 0 <= b <= 255.
Proof.
  unfold hexToRgb. rewrite !land_255.
  pose proof (Z.mod_pos_bound (toInt32 (Z.shiftr (toInt32 hex) 16)) 256).
  pose proof (Z.mod_pos_bound (toInt32 (Z.shiftr (toInt32 hex) 8)) 256).
  pose proof (Z.mod_pos_bound (toInt32 hex) 256). lia.
Qed.

Lemma hexToRgb_small (hex : Z) :
  0 <= hex < 2 ^ 24 ->
  hexToRgb hex = (hex / 65536, (hex / 256) mod 256, hex mod 256).
Proof.
  intros H. unfold hexToRgb. rewrite !land_255.
  rewrite (toInt32_small hex) by lia.
  rewrite !Z.shiftr_div_pow2 by lia.
  assert (0 <= hex / 2 ^ 16 < 256)
    by (split; [apply Z.div_pos; lia|apply Z.div_lt_upper_bound; lia]).
  assert (0 <= hex / 2 ^ 8 < 2 ^ 16)
    by (split; [apply Z.div_pos; lia|apply Z.div_lt_upper_bound; lia]).
  rewrite !toInt32_small by lia.
  rewrite (Z.mod_small (hex / 2 ^ 16)) by lia. reflexivity.
Qed.

Lemma hexToRgb_of_packRgb (r g b : Z) :
  0 <= r <= 255 -> 0 <= g <= 255 -> 0 <= b <= 255 ->
  hexToRgb (packRgb r g b) = (r, g, b).
Proof.
  intros Hr Hg Hb. rewrite packRgb_sum by assumption.
  rewrite hexToRgb_small by lia. f_equal; [f_equal|].
  - symmetry. apply Z.div_unique with (g * 256 + b); lia.
  - replace (r * 65536 + g * 256 + b) with (b + (r * 256 + g) * 256) by lia.
    rewrite Z.div_add by lia. rewrite (Z.div_small b) by lia.
    replace (0 + (r * 256 + g)) with (g + r * 256) by lia.
    rewrite Z.mod_add by lia. apply Z.mod_small. lia.
  - replace (r * 65536 + g * 256 + b) with (b + (r * 256 + g) * 256) by lia.
    rewrite Z.mod_add by lia. apply Z.mod_small. lia.
Qed.

Lemma packRgb_of_hexToRgb (hex : Z) :
  0 <= hex < 2 ^ 24 ->
  let '(r, g, b) := hexToRgb hex in packRgb r g b = hex.
Proof.
  intros H. rewrite hexToRgb_small by exact H.
  assert (0 <= hex / 65536 < 256)
    by (split; [apply Z.div_pos; lia|apply Z.div_lt_upper_bound; lia]).
  pose proof (Z.mod_pos_bound (hex / 256) 256).
  pose proof (Z.mod_pos_bound hex 256).
  rewrite packRgb_sum by lia.
  pose proof (Z.div_mod hex 256). pose proof (Z.div_mod (hex / 256) 256).
  replace (hex / 256 / 256) with (hex / 65536) in *
    by (rewrite Z.div_div by lia; reflexivity).
  lia.
Qed.

(** X6.  Colours.  [hexToRgb] and the packing [(r << 16) | (g << 8) | b]
    used by [interpolateColor] are inverse of each other on channels
    0..255 and colours below 2^24, and every channel that [hexToRgb]
    extracts is in 0..255, whatever the number. *)
Theorem hexToRgb_packRgb :
  (forall r g b : Z,
      0 <= r <= 255 -> 0 <= g <= 255 -> 0 <= b <= 255 ->
      hexToRgb (packRgb r g b) = (r, g, b))
  /\ (forall hex : Z,
         0 <= hex < 2 ^ 24 ->
         let '(r, g, b) := hexToRgb hex in packRgb r g b = hex)
  /\ (forall hex : Z,
         let '(r, g, b) := hexToRgb hex in
         0 <= r <= 255 /\ 0 <= g <= 255 /\ 0 <= b <= 255).
Proof.
  split; [exact hexToRgb_of_packRgb|].
  split; [exact packRgb_of_hexToRgb|exact hexToRgb_channels].
Qed.

Lemma hexToRgb_packRgb_witness :
  hexToRgb (packRgb 231 76 60) = (231, 76, 60)
  /\ (let '(r, g, b) := hexToRgb 0x3498db in packRgb r g b = 0x3498db).
Proof.
  split.
  - apply (proj1 hexToRgb_packRgb); lia.
  - apply (proj1 (proj2 hexToRgb_packRgb)). lia.
Defined.

Lemma mathRound_between (lo hi : Z) (x : Q) :
  (inject_Z lo <= x)%Q -> (x <= inject_Z hi)%Q -> lo <= mathRound x <= hi.
Proof.
  intros Hlo Hhi. unfold mathRound. split.
  - rewrite <- (Qfloor_Z lo). apply Qfloor_resp_le. lra.
  - assert (Qfloor (x + (1 # 2)) < hi + 1); [|lia].
    rewrite Zlt_Qlt. eapply Qle_lt_trans; [apply Qfloor_le|].
    rewrite inject_Z_plus. change (inject_Z 1) with 1%Q. lra.
Qed.

Lemma interpolateChannel_between (c1 c2 : Z) (factor : Q) :
  (0 <= factor)%Q -> (factor <= 1)%Q ->
  Z.min c1 c2 <= interpolateChannel c1 c2 factor <= Z.max c1 c2.
Proof.
  intros H0 H1. unfold interpolateChannel.
  destruct (Z.le_ge_cases c1 c2) as [Hle|Hge].
  - rewrite Z.min_l, Z.max_r by lia.
    assert (inject_Z c1 <= inject_Z c2)%Q as Hd by (rewrite <- Zle_Qle; exact Hle).
    apply mathRound_between; nra.
  - rewrite Z.min_r, Z.max_l by lia.
    assert (inject_Z c2 <= inject_Z c1)%Q as Hd by (rewrite <- Zle_Qle; lia).
    apply mathRound_between; nra.
Qed.

Lemma interpolateChannel_0 (c1 c2 : Z) : interpolateChannel c1 c2 0 = c1.
Proof.
  unfold interpolateChannel, mathRound. apply Qfloor_eq_iff.
  rewrite inject_Z_plus. split.
  - assert (inject_Z c1 + 0 * (inject_Z c2 - inject_Z c1) + (1 # 2)
            == inject_Z c1 + (1 # 2))%Q as -> by ring.
    rewrite <- (Qplus_0_r (inject_Z c1)) at 1. apply Qplus_le_r. discriminate.
  - assert (inject_Z c1 + 0 * (inject_Z c2 - inject_Z c1) + (1 # 2)
            == inject_Z c1 + (1 # 2))%Q as -> by ring.
    apply Qplus_lt_r. reflexivity.
Qed.

Lemma interpolateChannel_1 (c1 c2 : Z) : interpolateChannel c1 c2 1 = c2.
Proof.
  unfold interpolateChannel, mathRound. apply Qfloor_eq_iff.
  rewrite inject_Z_plus. split.
  - assert (inject_Z c1 + 1 * (inject_Z c2 - inject_Z c1) + (1 # 2)
            == inject_Z c2 + (1 # 2))%Q as -> by ring.
    rewrite <- (Qplus_0_r (inject_Z c2)) at 1. apply Qplus_le_r. discriminate.
  - assert (inject_Z c1 + 1 * (inject_Z c2 - inject_Z c1) + (1 # 2)
            == inject_Z c2 + (1 # 2))%Q as -> by ring.
    apply Qplus_lt_r. reflexivity.
Qed.

(** X7.  For a factor between 0 and 1, [interpolateColor] returns a
    colour below 2^24 each channel of which lies between the
    corresponding channels of the two colours; the factor 0 gives the
    first colour and the factor 1 the second. *)
Theorem interpolateColor_blend (color1 color2 : Z) (factor : Q) :
  (0 <= factor)%Q -> (factor <= 1)%Q ->
  0 <= interpolateColor color1 color2 factor < 2 ^ 24
  /\ (let '(r1, g1, b1) := hexToRgb color1 in
      let '(r2, g2, b2) := hexToRgb color2 in
      let '(r, g, b) := hexToRgb (interpolateColor color1 color2 factor) in
      Z.min r1 r2 <= r <= Z.max r1 r2
      /\ Z.min g1 g2 <= g <= Z.max g1 g2
      /\ Z.min b1 b2 <= b <= Z.max b1 b2)
  /\ (0 <= color1 < 2 ^ 24 -> interpolateColor color1 color2 0 = color1)
  /\ (0 <= color2 < 2 ^ 24 -> interpolateColor color1 color2 1 = color2).
Proof.
  intros H0 H1. unfold interpolateColor.
  pose proof (hexToRgb_channels color1) as C1.
  pose proof (hexToRgb_channels color2) as C2.
  pose proof (packRgb_of_hexToRgb color1) as P1.
  pose proof (packRgb_of_hexToRgb color2) as P2.
  destruct (hexToRgb color1) as [[r1 g1] b1].
  destruct (hexToRgb color2) as [[r2 g2] b2].
  pose proof (interpolateChannel_between r1 r2 factor H0 H1) as Hr.
  pose proof (interpolateChannel_between g1 g2 factor H0 H1) as Hg.
  pose proof (interpolateChannel_between b1 b2 factor H0 H1) as Hb.
  split; [|split; [|split]].
  - rewrite packRgb_sum by lia. lia.
  - rewrite hexToRgb_of_packRgb by lia. auto.
  - intros Hc. rewrite !interpolateChannel_0. apply P1. exact Hc.
  - intros Hc. rewrite !interpolateChannel_1. apply P2. exact Hc.
Qed.

Lemma interpolateColor_blend_witness :
  0 <= interpolateColor 0x3498db 0xe74c3c (1 # 2) < 2 ^ 24.
Proof.
  apply (interpolateColor_blend 0x3498db 0xe74c3c (1 # 2)); discriminate.
Defined.

(** ** The verdict in terms of the two counters *)

Lemma allFrom_spec (P : N -> bool) (fuel : nat) (i : N) :
  allFrom P fuel i = true ->
  forall j, (i <= j < i + N.of_nat fuel)%N -> P j = true.
Proof.
  revert i. induction fuel as [|k IH]; intros i H j Hj; [lia|].
  simpl in H. apply andb_true_iff in H as [H0 H1].
  destruct (N.eq_dec j i) as [->|Hne]; [exact H0|].
  apply (IH (N.succ i) H1). lia.
Qed.

Lemma allBelow_spec (P : N -> bool) (n : N) :
  allFrom P (N.to_nat n) 0 = true -> forall j, (j < n)%N -> P j = true.
Proof. intros H j Hj. apply (allFrom_spec _ _ _ H). lia. Qed.

(** Every record of at most 1000 terminated cars, evaluated. *)
Lemma winTestExact_rows : allFrom winTestExactRow (N.to_nat 1001) 0 = true.
Proof. vm_compute. reflexivity. Qed.

Lemma winTestExact_upto (r f : N) :
  (r + f <= 1000)%N -> winTestExact r f = true.
Proof.
  intros H.
  pose proof (allBelow_spec winTestExactRow 1001 winTestExact_rows (r + f)%N
                            ltac:(lia)) as H1.
  unfold winTestExactRow in H1.
  pose proof (allBelow_spec _ _ H1 r ltac:(lia)) as H2. cbv beta in H2.
  replace (r + f - r)%N with f in H2 by lia. exact H2.
Qed.

Lemma win_test (m : CarManager.t) :
  Qle_bool GameConfig.successThreshold (CarManager.getSuccessRate m / 100) = true
  <-> (0 < reached m + failed m)%N /\ (4 * failed m <= reached m)%N.
Proof.
  destruct (N.eq_dec (reached m + failed m)%N 0%N) as [Hz|Hnz].
  - assert (CarManager.getSuccessRate m = 0%Q) as ->.
    { unfold CarManager.getSuccessRate. fold (reached m) (failed m).
      rewrite Hz. reflexivity. }
    split; [discriminate|lia].
  - rewrite Qle_bool_iff, (rate_fraction m Hnz), fraction_le by lia.
    unfold GameConfig.successThreshold. simpl. lia.
Qed.

Lemma win_test_bool (m : CarManager.t) :
  Qle_bool GameConfig.successThreshold (CarManager.getSuccessRate m / 100)
  = ((0 <? reached m + failed m)%N && (4 * failed m <=? reached m)%N).
Proof.
  pose proof (win_test m) as H.
  destruct (Qle_bool _ _).
  - destruct (proj1 H eq_refl) as [H1 H2].
    symmetry. apply andb_true_iff. split; [apply N.ltb_lt|apply N.leb_le]; assumption.
  - symmetry. apply not_true_is_false. intros E.
    apply andb_true_iff in E as [H1 H2].
    apply N.ltb_lt in H1. apply N.leb_le in H2.
    assert (false = true) by (apply H; split; assumption). discriminate.
Qed.

(** X8.  The verdict of [CarManager.checkEndConditions] as a table over
    the two counters.  As long as at most 1000 cars have terminated,
    the evaluation in binary64 returns what the evaluation in exact
    arithmetic returns, and with [r] cars arrived, [f] failed and
    [min] the minimum sample (three per car type) that is: won exactly
    when [min <= r + f], some car has terminated and [4 f <= r]; lost
    exactly when [min <= r + f] and [r < f]; undecided in all other
    cases, that is below the minimum sample, or when [f <= r < 4 f],
    or when nothing has terminated. *)
Theorem checkEndConditions_table (m : CarManager.t) :
  (reached m + failed m <= 1000)%N ->
  checkEndConditions_binary64 m = CarManager.checkEndConditions m
  /\ (checkEndConditions_binary64 m = Some CarManager.won
      <-> (CarManager.minCarsToCheck m <= reached m + failed m)%N
          /\ (0 < reached m + failed m)%N /\ (4 * failed m <= reached m)%N)
  /\ (checkEndConditions_binary64 m = Some CarManager.lost
      <-> (CarManager.minCarsToCheck m <= reached m + failed m)%N
          /\ (reached m < failed m)%N)
  /\ (checkEndConditions_binary64 m = None
      <-> (reached m + failed m < CarManager.minCarsToCheck m)%N
          \/ ((failed m <= reached m)%N
              /\ ((reached m < 4 * failed m)%N \/ (reached m + failed m = 0)%N))).
Proof.
  intros Hsmall.
  assert (winTest_binary64 (binary64_of_N (reached m)) (binary64_of_N (failed m))
          = ((0 <? reached m + failed m)%N && (4 * failed m <=? reached m)%N))
    as Hwin.
  { apply eqb_prop. exact (winTestExact_upto _ _ Hsmall). }
  split.
  { unfold checkEndConditions_binary64, CarManager.checkEndConditions.
    fold (reached m) (failed m). rewrite Hwin, win_test_bool. reflexivity. }
  unfold checkEndConditions_binary64. rewrite Hwin.
  destruct (N.leb_spec (CarManager.minCarsToCheck m) (reached m + failed m))
    as [Hmin|Hmin].
  - destruct (N.ltb_spec 0 (reached m + failed m)) as [Hpos|Hz];
      destruct (N.leb_spec (4 * failed m) (reached m)) as [Hw|Hw];
      destruct (N.ltb_spec (reached m) (failed m)) as [Hlt|Hge];
      cbn [andb]; repeat split; intros; try discriminate; try lia; auto;
      try tauto; try (right; split; [assumption|lia]).
  - repeat split; intros; try discriminate; try lia; auto.
Qed.

Lemma checkEndConditions_table_witness :
  checkEndConditions_binary64 (statsOf 8 2)
  = CarManager.checkEndConditions (statsOf 8 2).
Proof.
  refine (proj1 (checkEndConditions_table (statsOf 8 2) _)).
  vm_compute. discriminate.
Defined.

(** ** Queries of the path finder *)

Lemma isWalkable_true (pf : PathFinder.t) (r c : Z) :
  PathFinder.isWalkable pf r c = true
  <-> isValidGridPosition r c (PathFinder.gridHeight pf) (PathFinder.gridWidth pf) = true
      /\ PathFinder.gridWalkableAt pf c r = true.
Proof.
  unfold PathFinder.isWalkable, PathFinder.gridWalkableAt.
  destruct (PathFinder.grid pf) as [g|]; [|intuition discriminate].
  destruct (isValidGridPosition r c _ _); simpl; intuition discriminate.
Qed.

(** X9.  [PathFinder.findPath] answers with a path only if both its start
    and its end are walkable cells of the grid ([isWalkable]); from a
    walkable cell to itself the path is that single cell; and after
    [destroy()] or [clear()] no query finds a path. *)
Theorem findPath_needs_walkable_ends (pf : PathFinder.t) (sr sc er ec : Z) :
  (is_Some (PathFinder.findPath pf sr sc er ec) ->
   PathFinder.isWalkable pf sr sc = true /\ PathFinder.isWalkable pf er ec = true)
  /\ (PathFinder.isWalkable pf sr sc = true ->
      PathFinder.findPath pf sr sc sr sc = Some [(sr, sc)])
  /\ PathFinder.findPath (PathFinder.destroy pf) sr sc er ec = None
  /\ PathFinder.findPath (PathFinder.clear pf) sr sc er ec = None.
Proof.
  split; [|split; [|split]].
  - rewrite !isWalkable_true.
    unfold PathFinder.findPath, PathFinder.gridWalkableAt.
    destruct (PathFinder.grid pf) as [g|]; [|intros [? H]; discriminate H].
    destruct (isValidGridPosition sr sc _ _); [|intros [? H]; discriminate H].
    destruct (isValidGridPosition er ec _ _); [|intros [? H]; discriminate H].
    destruct (PF.isWalkableAt g sc sr); [|intros [? H]; discriminate H].
    destruct (PF.isWalkableAt g ec er); [|intros [? H]; discriminate H].
    auto.
  - rewrite isWalkable_true. unfold PathFinder.findPath, PathFinder.gridWalkableAt.
    destruct (PathFinder.grid pf) as [g|]; [|intros [_ H]; discriminate H].
    intros [-> ->]. cbn [negb orb].
    unfold PF.findPath. cbn [PF.bfs].
    rewrite decide_True by reflexivity. reflexivity.
  - reflexivity.
  - unfold PathFinder.clear, PathFinder.findPath.
    destruct (PathFinder.grid pf) as [g|] eqn:Eg; [|rewrite Eg; reflexivity].
    cbn [PathFinder.grid PathFinder.gridHeight PathFinder.gridWidth].
    destruct (negb _ || negb _) eqn:V; [reflexivity|].
    apply orb_false_elim in V as [V _]. apply negb_false_iff in V.
    apply isValidGridPosition_true in V.
    assert (PF.isWalkableAt (PathFinder.blockAll g (PathFinder.gridWidth pf)
                                                 (PathFinder.gridHeight pf)) sc sr
            = false) as ->; [|reflexivity].
    apply not_true_iff_false. rewrite isWalkableAt_true.
    intros [_ Hin].
    destruct (blockAll_spec (PF.allNodes (PathFinder.gridWidth pf)
                                         (PathFinder.gridHeight pf)) g)
      as (_ & _ & Hp).
    apply Hp in Hin as [_ Hnot]. apply Hnot. apply In_allNodes. lia.
Qed.

Lemma findPath_needs_walkable_ends_witness :
  PathFinder.findPath cornerGrid 1 0 1 0 = Some [(1, 0)].
Proof.
  apply (proj1 (proj2 (findPath_needs_walkable_ends cornerGrid 1 0 1 0))).
  vm_compute. reflexivity.
Defined.

(** ** Nearest walkable cell: when there is none *)

(** X10.  For a position in the grid or one step outside it,
    [findNearestValidPosition] returns null exactly when the grid has
    no walkable cell at all: the rings it scans, of radius up to
    max(rows, cols), cover the whole grid. *)
Theorem findNearestValidPosition_none
        (pf : PathFinder.t) (p : Position) (R C : Z) :
  -1 <= row p <= R -> -1 <= col p <= C ->
  PathFinder.findNearestValidPosition pf p R C = None
  <-> forall c : Cell, usable pf R C c = false.
Proof.
  intros Hr Hc. unfold PathFinder.findNearestValidPosition.
  change (isValidGridPosition (row p) (col p) R C
          && PathFinder.gridWalkableAt pf (col p) (row p))
    with (usable pf R C (row p, col p)).
  split.
  - destruct (usable pf R C (row p, col p)) eqn:Here; [discriminate|].
    intros Hnone c. destruct (usable pf R C c) eqn:Hu; [|reflexivity].
    exfalso.
    assert (usable pf R C c = true) as Hu' by exact Hu.
    unfold usable in Hu'. apply andb_true_iff in Hu' as [Hv _].
    apply isValidGridPosition_true in Hv.
    destruct (Z.eq_dec (chebyshev p c) 0) as [Hz|Hnz].
    + assert (c = (row p, col p)) as Ec.
      { destruct c as [cr cc]. unfold chebyshev in Hz. simpl in *.
        f_equal; lia. }
      rewrite Ec in Hu. congruence.
    + assert (1 <= chebyshev p c <= Z.max R C) as Hd
          by (unfold chebyshev in *; lia).
      assert (In c (PathFinder.searchCells p R C)) as Hin.
      { unfold PathFinder.searchCells. apply in_flat_map.
        exists (chebyshev p c). split.
        - apply list_elem_of_In, elem_of_seqZ. lia.
        - apply In_ringCells. split; [lia|reflexivity]. }
      pose proof (find_none _ _ Hnone c Hin) as Hf.
      unfold usable in Hu. cbv beta in Hf. congruence.
  - intros Hall. rewrite Hall.
    destruct (find _ _) as [s|] eqn:E; [|reflexivity].
    apply find_some in E as [_ E].
    change (usable pf R C s = true) in E.
    rewrite Hall in E. discriminate E.
Qed.

Lemma findNearestValidPosition_none_witness :
  PathFinder.findNearestValidPosition PathFinder.init leftEntrance 3 3 = None
  <-> forall c : Cell, usable PathFinder.init 3 3 c = false.
Proof.
  apply (findNearestValidPosition_none PathFinder.init leftEntrance 3 3);
    vm_compute; split; discriminate.
Defined.

(** ** Statistics of the pathfinding grid *)

Lemma count_fold {A} (f : A -> bool) (l : list A) (a b : nat) :
  fold_left (fun acc n => if f n then (S (fst acc), snd acc)
                          else (fst acc, S (snd acc))) l (a, b)
  = ((a + length (List.filter f l))%nat,
     (b + length (List.filter (fun n => negb (f n)) l))%nat).
Proof.
  revert a b. induction l as [|x l IH]; intros a b; simpl.
  - f_equal; lia.
  - destruct (f x); simpl; rewrite IH; simpl; f_equal; lia.
Qed.

Lemma filter_split_length {A} (f : A -> bool) (l : list A) :
  (length (List.filter f l) + length (List.filter (fun n => negb (f n)) l)
   = length l)%nat.
Proof.
  induction l as [|x l IH]; simpl; [reflexivity|].
  destruct (f x); simpl; lia.
Qed.

Lemma NoDup_allNodes (w h : Z) : NoDup (PF.allNodes w h).
Proof.
  unfold PF.allNodes.
  assert (forall l : list Z, NoDup l ->
            NoDup (flat_map (fun y => map (fun x => (x, y)) (seqZ 0 w)) l)) as H.
  { induction l as [|y l IH]; intros Hnd; simpl; [constructor|].
    apply NoDup_cons in Hnd as [Hy Hl].
    apply NoDup_app. split; [|split].
    - change (NoDup ((fun x => (x, y)) <$> seqZ 0 w)).
      apply NoDup_fmap_2; [|apply NoDup_seqZ].
      intros ? ? E. inversion E. reflexivity.
    - intros n Hn Hn'.
      apply list_elem_of_In, in_map_iff in Hn as (x & <- & _).
      apply list_elem_of_In, in_flat_map in Hn' as (y' & Hy' & Hin).
      apply in_map_iff in Hin as (x' & E & _). inversion E; subst.
      apply Hy. apply list_elem_of_In. exact Hy'.
    - apply IH. exact Hl. }
  apply H, NoDup_seqZ.
Qed.

(** X11.  [getStats()] after [updateGrid]: the total is rows times
    columns, every cell is counted once as walkable or as blocked, and
    the walkable cells are as many as the roads that lie in the grid
    and not on an obstacle. *)
Theorem getStats_updateGrid (pf : PathFinder.t) (roads : gmap Cell Road.t)
        (obstacles : gset Cell) (R C : Z) :
  wellFormed pf ->
  let st := PathFinder.getStats (PathFinder.updateGrid pf roads obstacles R C) in
  PathFinder.totalCells st = (Z.to_nat R * Z.to_nat C)%nat
  /\ (PathFinder.walkableCells st + PathFinder.blockedCells st
      = PathFinder.totalCells st)%nat
  /\ PathFinder.walkableCells st
     = size (filter (fun k => isValidGridPosition (fst k) (snd k) R C = true
                              /\ k ∉ obstacles) (dom roads)).
Proof.
  intros Hwf.
  destruct (updateGrid_reflects pf roads obstacles R C Hwf)
    as (_ & Hw & Hh & g & Hg & Hgw & Hgh & Hwalk).
  intros st. subst st. unfold PathFinder.getStats. rewrite Hg, Hw, Hh.
  rewrite count_fold. cbn [fst snd Nat.add].
  cbn [PathFinder.totalCells PathFinder.walkableCells PathFinder.blockedCells].
  split; [|split; [reflexivity|]].
  - rewrite filter_split_length, length_allNodes. reflexivity.
  - set (L := List.filter (fun n => PF.isWalkableAt g (fst n) (snd n))
                          (PF.allNodes C R)).
    set (swap := fun n : Z * Z => (snd n, fst n)).
    assert (NoDup (swap <$> L)) as Hnd.
    { apply NoDup_fmap_2.
      - intros [? ?] [? ?] E. inversion E. reflexivity.
      - unfold L. apply NoDup_ListNoDup, List.NoDup_filter, NoDup_ListNoDup.
        apply NoDup_allNodes. }
    rewrite <- (length_fmap swap L), <- (size_list_to_set (C := gset Cell) _ Hnd).
    f_equal. apply set_eq. intros [r c].
    rewrite elem_of_list_to_set, list_elem_of_fmap, elem_of_filter, elem_of_dom.
    cbn [fst snd]. split.
    + intros ([x y] & E & Hin). inversion E; subst. clear E.
      unfold L in Hin. apply list_elem_of_In, filter_In in Hin as [_ Hin].
      cbn [fst snd] in Hin. apply Hwalk in Hin. tauto.
    + intros ([Hv Hobs] & Hroad). exists (c, r). split; [reflexivity|].
      unfold L. apply list_elem_of_In, filter_In. cbn [fst snd]. split.
      * apply In_allNodes. apply isValidGridPosition_true in Hv. lia.
      * apply Hwalk. auto.
Qed.

Lemma getStats_updateGrid_witness :
  PathFinder.totalCells (PathFinder.getStats cornerGrid) = 9%nat.
Proof.
  apply (getStats_updateGrid PathFinder.init cornerRoads ∅ 3 3).
  intros g H. discriminate H.
Defined.

(** ** Loading a level *)

Section Uneditable.
Variables R C : Z.

Lemma elem_of_areaCells (area : LevelManager.Area) (k : Cell) :
  k ∈ LevelManager.areaCells R C area
  <-> isValidGridPosition (fst k) (snd k) R C = true /\ covers area k.
Proof.
  rewrite list_elem_of_In.
  unfold LevelManager.areaCells, covers. rewrite in_flat_map, isValidGridPosition_true.
  destruct k as [r c]. cbn [fst snd]. split.
  - intros (r' & Hr & Hin). apply in_map_iff in Hin as (c' & E & Hc).
    inversion E; subst.
    apply list_elem_of_In, elem_of_seqZ in Hr.
    apply list_elem_of_In, elem_of_seqZ in Hc. lia.
  - intros H. exists r. split.
    + apply list_elem_of_In, elem_of_seqZ. lia.
    + apply in_map_iff. exists c. split; [reflexivity|].
      apply list_elem_of_In, elem_of_seqZ. lia.
Qed.

(** The inner loops over the cells of one area. *)
Lemma mark_cells (t : CellType) (l : list Cell) (s : gset Cell)
      (m : gmap Cell CellType) :
  let r := fold_left (fun acc' cellKey =>
                        (fst acc' ∪ {[ cellKey ]}, <[cellKey := t]> (snd acc')))
                     l (s, m) in
  (forall k, k ∈ fst r <-> k ∈ s \/ k ∈ l)
  /\ (forall k, snd r !! k = if bool_decide (k ∈ l) then Some t else m !! k).
Proof.
  revert s m. induction l as [|x l IH]; intros s m; cbn [fold_left fst snd].
  - split.
    + intros k. rewrite elem_of_nil. tauto.
    + intros k. rewrite bool_decide_eq_false_2 by apply not_elem_of_nil.
      reflexivity.
  - destruct (IH (s ∪ {[x]}) (<[x:=t]> m)) as [Hs Hm].
    split.
    + intros k. rewrite Hs, elem_of_union, elem_of_singleton, elem_of_cons.
      tauto.
    + intros k. rewrite Hm.
      destruct (decide (k ∈ l)) as [Hin|Hnin].
      * rewrite !bool_decide_eq_true_2; [reflexivity|right; exact Hin|exact Hin].
      * rewrite (bool_decide_eq_false_2 (k ∈ l)) by exact Hnin.
        destruct (decide (x = k)) as [->|Hne].
        -- rewrite lookup_insert_eq, bool_decide_eq_true_2 by left. reflexivity.
        -- rewrite lookup_insert_ne by exact Hne.
           rewrite bool_decide_eq_false_2; [reflexivity|].
           rewrite elem_of_cons. intros [?|?]; [congruence|contradiction].
Qed.

(** The outer loop over the areas, from any accumulator. *)
Lemma mark_areas (areas : list LevelManager.Area) (s : gset Cell)
      (m : gmap Cell CellType) :
  let r := fold_left
             (fun acc area =>
                fold_left (fun acc' cellKey =>
                             (fst acc' ∪ {[ cellKey ]},
                              <[cellKey := LevelManager.type area]> (snd acc')))
                          (LevelManager.areaCells R C area) acc)
             areas (s, m) in
  (forall k, k ∈ fst r
             <-> k ∈ s \/ exists area, In area areas
                                       /\ k ∈ LevelManager.areaCells R C area)
  /\ (forall k, (forall area, In area areas ->
                              k ∉ LevelManager.areaCells R C area) ->
                snd r !! k = m !! k)
  /\ (forall k l1 area l2,
         areas = l1 ++ area :: l2 ->
         k ∈ LevelManager.areaCells R C area ->
         (forall area', In area' l2 ->
                        k ∉ LevelManager.areaCells R C area') ->
         snd r !! k = Some (LevelManager.type area)).
Proof.
  revert s m. induction areas as [|a areas IH]; intros s m; simpl.
  - split; [|split].
    + intros k. split; [tauto|]. intros [H|(? & [] & _)]. exact H.
    + reflexivity.
    + intros k [|? ?] ? ? E; discriminate E.
  - destruct (mark_cells (LevelManager.type a) (LevelManager.areaCells R C a) s m)
      as [Hs Hm].
    destruct (fold_left _ (LevelManager.areaCells R C a) (s, m)) as [s1 m1].
    cbn [fst snd] in Hs, Hm.
    destruct (IH s1 m1) as (Hs' & Hm' & Hlast).
    split; [|split].
    + intros k. rewrite Hs', Hs. split.
      * intros [[H|H]|(area & Hin & H)]; eauto 6.
      * intros [H|(area & [<-|Hin] & H)]; eauto 6.
    + intros k Hk. rewrite Hm' by (intros; apply Hk; auto).
      rewrite Hm, bool_decide_eq_false_2 by (apply Hk; auto). reflexivity.
    + intros k l1 area l2 E Hin Hl2.
      destruct l1 as [|a' l1]; simpl in E; inversion E; subst.
      * rewrite Hm' by exact Hl2.
        rewrite Hm, bool_decide_eq_true_2 by exact Hin. reflexivity.
      * eapply Hlast; eauto.
Qed.

(** Among the areas that contain a cell there is a last one. *)
Lemma last_area (areas : list LevelManager.Area) (k : Cell) :
  (exists area, In area areas /\ k ∈ LevelManager.areaCells R C area) ->
  exists l1 a l2, areas = l1 ++ a :: l2
                  /\ k ∈ LevelManager.areaCells R C a
                  /\ forall a', In a' l2 -> k ∉ LevelManager.areaCells R C a'.
Proof.
  induction areas as [|a0 areas IH]; intros (area & Hin & H); [destruct Hin|].
  destruct (decide (Exists (fun a1 => k ∈ LevelManager.areaCells R C a1) areas))
    as [Hex|Hno].
  - apply Exists_exists in Hex as (a1 & Hin1 & H1).
    destruct IH as (l1 & a & l2 & E & Ha & Hl2).
    { exists a1. split; [apply list_elem_of_In; exact Hin1|exact H1]. }
    exists (a0 :: l1), a, l2. rewrite E. auto.
  - assert (forall a', In a' areas -> k ∉ LevelManager.areaCells R C a') as Hno'.
    { intros a' Ha' Hk. apply Hno. apply Exists_exists. exists a'.
      split; [apply list_elem_of_In; exact Ha'|exact Hk]. }
    destruct Hin as [<-|Hin].
    + exists [], a0, areas. auto.
    + exfalso. exact (Hno' area Hin H).
Qed.
End Uneditable.

(** X12.  [processUneditableAreas]: a cell is uneditable exactly when
    it is in the grid and covered by some area (areas that extend
    beyond the grid are clipped); [cellTypes] is defined exactly on
    the uneditable cells; and where areas overlap, the type of the
    last area of the list wins. *)
Theorem processUneditableAreas_cells (processedLevel : LevelManager.Converted) :
  let R := LevelManager.grid_rows processedLevel in
  let C := LevelManager.grid_columns processedLevel in
  let areas := LevelManager.grid_uneditable processedLevel in
  let uneditableCells := fst (LevelManager.processUneditableAreas processedLevel) in
  let cellTypes := snd (LevelManager.processUneditableAreas processedLevel) in
  (forall k : Cell,
      k ∈ uneditableCells
      <-> isValidGridPosition (fst k) (snd k) R C = true
          /\ exists area, In area areas /\ covers area k)
  /\ dom cellTypes = uneditableCells
  /\ (forall (k : Cell) l1 area l2,
         areas = l1 ++ area :: l2 ->
         isValidGridPosition (fst k) (snd k) R C = true ->
         covers area k ->
         (forall area', In area' l2 -> ~ covers area' k) ->
         cellTypes !! k = Some (LevelManager.type area)).
Proof.
  intros R C areas uneditableCells cellTypes.
  destruct (mark_areas R C areas ∅ ∅) as (Hs & Hm & Hlast).
  subst uneditableCells cellTypes. unfold LevelManager.processUneditableAreas.
  fold R C areas.
  split; [|split].
  - intros k. rewrite Hs. split.
    + intros [H|(area & Hin & H)]; [set_solver|].
      apply elem_of_areaCells in H as [Hv Hc]. eauto.
    + intros (Hv & area & Hin & Hc). right. exists area.
      split; [exact Hin|]. apply elem_of_areaCells. auto.
  - apply set_eq. intros k. rewrite elem_of_dom, Hs. split.
    + intros Hsome. right.
      destruct (decide (Exists (fun a1 => k ∈ LevelManager.areaCells R C a1) areas))
        as [Hex|Hno].
      * apply Exists_exists in Hex as (a1 & Hin1 & H1).
        exists a1. split; [apply list_elem_of_In; exact Hin1|exact H1].
      * rewrite Hm in Hsome.
        -- rewrite lookup_empty in Hsome. destruct Hsome as [? H]. discriminate H.
        -- intros area Hin Hk. apply Hno. apply Exists_exists. exists area.
           split; [apply list_elem_of_In; exact Hin|exact Hk].
    + intros [H|Hex]; [set_solver|].
      apply last_area in Hex as (l1 & a & l2 & E & Ha & Hl2).
      rewrite (Hlast k l1 a l2 E Ha Hl2). eauto.
  - intros k l1 area l2 E Hv Hc Hl2. apply (Hlast k l1 area l2 E).
    + apply elem_of_areaCells. auto.
    + intros area' Hin Hk. apply elem_of_areaCells in Hk as [_ Hk].
      exact (Hl2 area' Hin Hk).
Qed.

Section Loader.
Import LevelManager.

Lemma bind_ok {A B} (m : M A) (k : A -> M B) (b : B) :
  bind m k = inr b <-> exists a, m = inr a /\ k a = inr b.
Proof.
  destruct m as [e|a]; simpl.
  - split; [discriminate|]. intros (a & H & _). discriminate H.
  - split; [eauto|]. intros (a' & H & Hk). inversion H; subst. exact Hk.
Qed.

Lemma throwIf_ok (cond : bool) (e : Error) (u : unit) :
  throwIf cond e = inr u <-> cond = false.
Proof.
  unfold throwIf, throw, ret. destruct cond, u; split; congruence.
Qed.

(** A loop returns normally when none of its callbacks throws. *)
Lemma forEachFrom_ok {A} (f : A -> nat -> M unit) (P : A -> Prop)
      (index : nat) (l : list A) (u : unit) :
  (forall x i u', f x i = inr u' <-> P x) ->
  forEachFrom f index l = inr u <-> Forall P l.
Proof.
  intros Hf. revert index. induction l as [|x l IH]; intros index; simpl.
  - destruct u. split; [constructor|reflexivity].
  - rewrite bind_ok. split.
    + intros (u' & Hx & Hl). constructor; [eapply Hf; exact Hx|].
      eapply IH. exact Hl.
    + intros H. apply Forall_cons in H as [Hx Hl]. exists tt. split.
      * apply Hf. exact Hx.
      * apply IH. exact Hl.
Qed.

Lemma guard_ok {B} (cond : bool) (e : Error) (k : unit -> M B) (b : B) :
  bind (throwIf cond e) k = inr b <-> cond = false /\ k tt = inr b.
Proof.
  unfold throwIf, throw, ret. destruct cond; simpl; split;
    intros H; try tauto; try discriminate. destruct H. discriminate.
Qed.

Lemma validateCarStructure_ok (car : RawCar) (index : nat) (u : unit) :
  validateCarStructure car index = inr u
  <-> color car <> EmptyString
      /\ (1 <= length (entrances car) <= LevelLimits.maxEntrancesPerCar)%nat.
Proof.
  unfold validateCarStructure. rewrite !guard_ok, throwIf_ok.
  rewrite String.eqb_neq, Nat.eqb_neq, Nat.ltb_ge. intuition lia.
Qed.

Lemma validateLevelStructure_ok (levelData : RawLevel) (u : unit) :
  validateLevelStructure levelData = inr u
  <-> LevelLimits.minGridSize <= rows levelData <= LevelLimits.maxGridSize
      /\ LevelLimits.minGridSize <= column levelData <= LevelLimits.maxGridSize
      /\ (1 <= length (cars levelData) <= LevelLimits.maxCarTypes)%nat
      /\ Forall (fun car =>
                   color car <> EmptyString
                   /\ (1 <= length (entrances car)
                       <= LevelLimits.maxEntrancesPerCar)%nat)
                (cars levelData).
Proof.
  unfold validateLevelStructure, forEach. rewrite !guard_ok.
  rewrite (forEachFrom_ok validateCarStructure
             (fun car => color car <> EmptyString
                         /\ (1 <= length (entrances car)
                             <= LevelLimits.maxEntrancesPerCar)%nat))
    by (intros; apply validateCarStructure_ok).
  rewrite !orb_false_iff, !Z.eqb_neq, !Z.ltb_ge, Nat.eqb_neq, Nat.ltb_ge.
  unfold LevelLimits.minGridSize, LevelLimits.maxGridSize, LevelLimits.maxCarTypes.
  split.
  - intros (? & ? & [? ?] & [? ?] & ? & ? & Hcars). repeat split; try lia. exact Hcars.
  - intros (? & ? & ? & Hcars). repeat split; try lia. exact Hcars.
Qed.

Lemma position_check (R C : Z) (p : RawPosition) :
  negb (isEntrance (processEntranceCoordinates (fst p) (snd p) R C))
  && negb (isValidGridPosition
             (row (processEntranceCoordinates (fst p) (snd p) R C))
             (col (processEntranceCoordinates (fst p) (snd p) R C)) R C)
  = false
  <-> acceptable R C p.
Proof.
  unfold acceptable, processEntranceCoordinates.
  destruct (Z.eqb_spec (fst p) 0) as [Hr0|Hr0];
    [|destruct (Z.eqb_spec (fst p) (-1)) as [Hr1|Hr1]];
    (destruct (Z.eqb_spec (snd p) 0) as [Hc0|Hc0];
     [|destruct (Z.eqb_spec (snd p) (-1)) as [Hc1|Hc1]]);
    cbn [isEntrance row col negb andb]; try tauto.
  rewrite negb_false_iff, isValidGridPosition_true. lia.
Qed.

Lemma validateCarPaths_ok (levelData : RawLevel) (u : unit) :
  validateCarPaths (convertCoordinates levelData) = inr u
  <-> Forall (fun car =>
                Forall (acceptable (rows levelData) (column levelData))
                       (entrances car)
                /\ acceptable (rows levelData) (column levelData) (exit_ car))
             (cars levelData).
Proof.
  unfold validateCarPaths, forEach, convertCoordinates.
  cbn [converted_cars grid_rows grid_columns].
  rewrite (forEachFrom_ok _
             (fun car : Level.CarType =>
                Forall (fun entrance =>
                          negb (isEntrance entrance)
                          && negb (isValidGridPosition (row entrance) (col entrance)
                                     (rows levelData) (column levelData)) = false)
                       (Level.entrances car)
                /\ negb (isEntrance (Level.exit_ car))
                   && negb (isValidGridPosition (row (Level.exit_ car))
                              (col (Level.exit_ car))
                              (rows levelData) (column levelData)) = false)).
  - rewrite Forall_map. apply Forall_iff. intros car.
    unfold convertCar. cbn [Level.entrances Level.exit_].
    rewrite Forall_map, position_check.
    apply and_iff_compat_r. apply Forall_iff. intros p. apply position_check.
  - intros car i u'. rewrite bind_ok.
    rewrite <- (forEachFrom_ok
                  (fun entrance entranceIndex =>
                     throwIf (negb (isEntrance entrance)
                              && negb (isValidGridPosition (row entrance)
                                         (col entrance) (rows levelData)
                                         (column levelData)))
                             (EntranceOutsideGrid i entranceIndex))
                  _ 0 (Level.entrances car) tt)
      by (intros; apply throwIf_ok).
    split.
    + intros ([] & H1 & H2). apply throwIf_ok in H2. auto.
    + intros [H1 H2]. exists tt. split; [exact H1|]. apply throwIf_ok. exact H2.
Qed.

End Loader.

(** X13.  What [LevelManager.loadLevel] accepts, for a level document
    whose fields have the expected JSON types.  The level is accepted
    (no exception) exactly when rows and columns are between
    [minGridSize] and [maxGridSize], there are between one and
    [maxCarTypes] car types, and each of them has a non-empty colour,
    between one and [maxEntrancesPerCar] entrances, and entrances and
    an exit each of which is on an edge (row or column 0 or -1) or
    inside the grid.  The accepted level keeps the dimensions and the
    number of car types, and every car type has an entrance. *)
Theorem loadLevel_accepts (levelData : LevelManager.RawLevel) (initialBudget : Z) :
  ((exists level, LevelManager.loadLevel levelData initialBudget = inr level)
   <-> LevelLimits.minGridSize <= LevelManager.rows levelData
         <= LevelLimits.maxGridSize
       /\ LevelLimits.minGridSize <= LevelManager.column levelData
            <= LevelLimits.maxGridSize
       /\ (1 <= length (LevelManager.cars levelData) <= LevelLimits.maxCarTypes)%nat
       /\ Forall (wellFormedCar (LevelManager.rows levelData)
                                (LevelManager.column levelData))
                 (LevelManager.cars levelData))
  /\ forall level,
      LevelManager.loadLevel levelData initialBudget = inr level ->
      Level.grid_rows level = LevelManager.rows levelData
      /\ Level.grid_columns level = LevelManager.column levelData
      /\ length (Level.cars level) = length (LevelManager.cars levelData)
      /\ Forall (fun car => Level.entrances car <> []) (Level.cars level)
      /\ Level.initialBudget level = initialBudget.
Proof.
  unfold LevelManager.loadLevel. cbv zeta.
  destruct (LevelManager.processUneditableAreas
              (LevelManager.convertCoordinates levelData)) as [cells types].
  split.
  - split.
    + intros (level & H).
      apply bind_ok in H as (u1 & H1 & H).
      apply bind_ok in H as (u2 & H2 & _).
      apply validateLevelStructure_ok in H1 as (Hr & Hc & Hn & Hcars).
      apply validateCarPaths_ok in H2.
      repeat split; try tauto; try lia.
      rewrite Forall_forall in *. intros car Hin.
      destruct (Hcars car Hin) as [? ?]. destruct (H2 car Hin) as [? ?].
      unfold wellFormedCar. tauto.
    + intros (Hr & Hc & Hn & Hcars).
      eexists. apply bind_ok. exists tt. split.
      * apply validateLevelStructure_ok. repeat split; try tauto; try lia.
        rewrite Forall_forall in *. intros car Hin.
        destruct (Hcars car Hin) as (? & ? & _). auto.
      * apply bind_ok. exists tt. split.
        -- apply validateCarPaths_ok.
           rewrite Forall_forall in *. intros car Hin.
           destruct (Hcars car Hin) as (_ & _ & ? & ?). auto.
        -- reflexivity.
  - intros level H.
    apply bind_ok in H as (u1 & H1 & H).
    apply bind_ok in H as (u2 & H2 & H).
    inversion H; subst. cbn.
    apply validateLevelStructure_ok in H1 as (_ & _ & _ & Hcars).
    repeat split.
    + apply length_map.
    + rewrite Forall_map. eapply Forall_impl; [exact Hcars|].
      intros car [_ Hlen]. unfold LevelManager.convertCar. cbn.
      destruct (LevelManager.entrances car); [simpl in Hlen; lia|discriminate].
Qed.

Lemma loadLevel_accepts_witness :
  exists level,
    LevelManager.loadLevel
      (LevelManager.mkRawLevel 3 3 []
         [LevelManager.mkRawCar "red" [(2, 0)] (2, -1)]) 10000 = inr level.
Proof.
  apply (proj2 (proj1 (loadLevel_accepts _ 10000))).
  split; [vm_compute; split; discriminate|].
  split; [vm_compute; split; discriminate|].
  split; [vm_compute; lia|].
  constructor; [|constructor].
  split; [discriminate|]. split; [vm_compute; lia|]. split.
  - constructor; [|constructor]. right. right. left. reflexivity.
  - right. right. right. left. reflexivity.
Defined.

(** ** The occupancy index of the car manager *)

Lemma filter_ne_id (i : CarId) (ids : list CarId) :
  i ∉ ids -> filter (fun j => j ≠ i) ids = ids.
Proof.
  intros H. induction ids as [|j ids IH]; [reflexivity|].
  apply not_elem_of_cons in H as [Hne Hin].
  rewrite filter_cons_True by congruence. rewrite IH by exact Hin. reflexivity.
Qed.

Lemma not_elem_of_filter_ne (i : CarId) (ids : list CarId) :
  i ∉ filter (fun j => j ≠ i) ids.
Proof. rewrite list_elem_of_filter. tauto. Qed.

Lemma positionIds_removeCarFromPosition (m : CarManager.t) (k : Car.t) (q : Cell) :
  CarManager.positionIds (CarManager.removeCarFromPosition m k) (fst q) (snd q)
  = if decide (q = Car.getGridPosition k)
    then filter (fun j => j ≠ Car.id k) (CarManager.positionIds m (fst q) (snd q))
    else CarManager.positionIds m (fst q) (snd q).
Proof.
  unfold CarManager.removeCarFromPosition, CarManager.positionIds,
    Car.getGridPosition, gridKey.
  destruct q as [qr qc]. cbn [fst snd].
  destruct (CarManager.carsByPosition m !! (Car.gridRow k, Car.gridCol k))
    as [ids|] eqn:E.
  - destruct (filter (fun i => i ≠ Car.id k) ids) as [|j ids'] eqn:F;
      cbn [CarManager.carsByPosition CarManager.set_carsByPosition];
      destruct (decide ((qr, qc) = (Car.gridRow k, Car.gridCol k))) as [->|Hne].
    + rewrite lookup_delete_eq, E. cbn. rewrite F. reflexivity.
    + rewrite lookup_delete_ne by congruence. reflexivity.
    + rewrite lookup_insert_eq, E. cbn. rewrite F. reflexivity.
    + rewrite lookup_insert_ne by congruence. reflexivity.
  - destruct (decide ((qr, qc) = (Car.gridRow k, Car.gridCol k))) as [->|Hne];
      [|reflexivity].
    rewrite E. reflexivity.
Qed.

Lemma noEmptySet_removeCarFromPosition (m : CarManager.t) (k : Car.t) :
  noEmptySet m -> noEmptySet (CarManager.removeCarFromPosition m k).
Proof.
  intros H q ids. unfold CarManager.removeCarFromPosition.
  destruct (CarManager.carsByPosition m !! gridKey (Car.gridRow k) (Car.gridCol k))
    as [ids0|] eqn:E; [|apply H].
  destruct (filter (fun i => i ≠ Car.id k) ids0) as [|j ids'] eqn:F;
    cbn [CarManager.carsByPosition CarManager.set_carsByPosition].
  - destruct (decide (q = gridKey (Car.gridRow k) (Car.gridCol k))) as [->|Hne].
    + rewrite lookup_delete_eq. discriminate.
    + rewrite lookup_delete_ne by congruence. apply H.
  - destruct (decide (q = gridKey (Car.gridRow k) (Car.gridCol k))) as [->|Hne].
    + rewrite lookup_insert_eq. intros [= <-]. discriminate.
    + rewrite lookup_insert_ne by congruence. apply H.
Qed.

(** X14.  [updateCarPosition (car, newPosition)]: afterwards the car
    object stands at the new position, its identifier is filed under
    the new cell, which is reported as occupied, and no longer under
    the cell it came from; the entries of all other cells are
    untouched; and no cell is left with an empty set. *)
Theorem updateCarPosition_index (m : CarManager.t) (k : Car.t) (newPosition : Cell) :
  let m' := fst (CarManager.updateCarPosition m k newPosition) in
  let k' := snd (CarManager.updateCarPosition m k newPosition) in
  Car.getGridPosition k' = newPosition
  /\ Car.id k ∈ CarManager.positionIds m' (fst newPosition) (snd newPosition)
  /\ CarManager.isPositionOccupied m' (fst newPosition) (snd newPosition) = true
  /\ (Car.getGridPosition k <> newPosition ->
      Car.id k ∉ CarManager.positionIds m' (Car.gridRow k) (Car.gridCol k))
  /\ (forall q : Cell,
         q <> newPosition -> q <> Car.getGridPosition k ->
         CarManager.positionIds m' (fst q) (snd q)
         = CarManager.positionIds m (fst q) (snd q))
  /\ (noEmptySet m -> noEmptySet m').
Proof.
  destruct newPosition as [nr nc].
  unfold CarManager.updateCarPosition. cbn [fst snd].
  set (m1 := CarManager.removeCarFromPosition m k).
  set (ids := default [] (CarManager.carsByPosition m1 !! gridKey nr nc)).
  assert (Car.id k ∈ CarManager.setAdd (Car.id k) ids) as Hadd.
  { unfold CarManager.setAdd. case_bool_decide; [assumption|].
    apply elem_of_app. right. apply list_elem_of_singleton. reflexivity. }
  split; [reflexivity|]. split; [|split; [|split; [|split]]].
  - unfold CarManager.positionIds.
    cbn [CarManager.carsByPosition CarManager.set_carsByPosition].
    rewrite lookup_insert_eq. exact Hadd.
  - unfold CarManager.isPositionOccupied.
    cbn [CarManager.carsByPosition CarManager.set_carsByPosition].
    rewrite lookup_insert_eq. apply bool_decide_eq_true.
    destruct (CarManager.setAdd (Car.id k) ids);
      [apply elem_of_nil in Hadd; destruct Hadd|simpl; lia].
  - intros Hne. unfold CarManager.positionIds.
    cbn [CarManager.carsByPosition CarManager.set_carsByPosition].
    rewrite lookup_insert_ne by (unfold gridKey, Car.getGridPosition in *; congruence).
    pose proof (positionIds_removeCarFromPosition m k (Car.gridRow k, Car.gridCol k))
      as Hrem.
    unfold CarManager.positionIds in Hrem. cbn [fst snd] in Hrem.
    fold m1 in Hrem. rewrite Hrem.
    rewrite decide_True by reflexivity. apply not_elem_of_filter_ne.
  - intros q Hq Hq'. unfold CarManager.positionIds.
    cbn [CarManager.carsByPosition CarManager.set_carsByPosition].
    rewrite lookup_insert_ne by (unfold gridKey; destruct q; cbn; congruence).
    pose proof (positionIds_removeCarFromPosition m k q) as Hrem.
    unfold CarManager.positionIds in Hrem. fold m1 in Hrem. rewrite Hrem.
    rewrite decide_False by exact Hq'. reflexivity.
  - intros Hm q ids'.
    cbn [CarManager.carsByPosition CarManager.set_carsByPosition].
    destruct (decide (q = gridKey nr nc)) as [->|Hne].
    + rewrite lookup_insert_eq. intros [= <-] E. rewrite E in Hadd.
      apply elem_of_nil in Hadd. exact Hadd.
    + rewrite lookup_insert_ne by congruence.
      apply (noEmptySet_removeCarFromPosition m k Hm).
Qed.

Lemma updateCarPosition_index_witness :
  Car.id strandedCar
    ∉ CarManager.positionIds
        (fst (CarManager.updateCarPosition CarManager.init strandedCar (2, 2)))
        (Car.gridRow strandedCar) (Car.gridCol strandedCar).
Proof.
  apply (updateCarPosition_index CarManager.init strandedCar (2, 2)).
  vm_compute. discriminate.
Defined.

(** X15.  Filing a car and unfiling it is a round trip: if the index
    holds no empty set and does not know the car yet,
    [removeCarFromPosition] after [updateCarPosition] gives back the
    index as it was. *)
Theorem removeCarFromPosition_updateCarPosition
        (m : CarManager.t) (k : Car.t) (newPosition : Cell) :
  noEmptySet m ->
  Car.id k ∉ CarManager.positionIds m (Car.gridRow k) (Car.gridCol k) ->
  Car.id k ∉ CarManager.positionIds m (fst newPosition) (snd newPosition) ->
  CarManager.removeCarFromPosition
    (fst (CarManager.updateCarPosition m k newPosition))
    (snd (CarManager.updateCarPosition m k newPosition))
  = m.
Proof.
  intros Hm Hold Hnew. destruct newPosition as [nr nc]. cbn [fst snd] in Hnew.
  unfold CarManager.positionIds in Hold, Hnew.
  assert (CarManager.removeCarFromPosition m k = m) as E1.
  { unfold CarManager.removeCarFromPosition.
    destruct (CarManager.carsByPosition m !! gridKey (Car.gridRow k) (Car.gridCol k))
      as [ids|] eqn:E; [|reflexivity].
    cbn in Hold. rewrite (filter_ne_id _ _ Hold).
    destruct ids as [|j ids]; [exfalso; exact (Hm _ _ E eq_refl)|].
    rewrite insert_id by exact E. destruct m; reflexivity. }
  unfold CarManager.updateCarPosition. rewrite E1. cbn [fst snd].
  unfold CarManager.removeCarFromPosition.
  cbn [Car.gridRow Car.gridCol Car.set_position Car.id
       CarManager.carsByPosition CarManager.set_carsByPosition].
  rewrite lookup_insert_eq.
  unfold CarManager.setAdd. rewrite bool_decide_eq_false_2 by exact Hnew.
  rewrite filter_app, (filter_ne_id _ _ Hnew).
  rewrite filter_cons_False, filter_nil, app_nil_r by (intros H; apply H; reflexivity).
  destruct (CarManager.carsByPosition m !! gridKey nr nc) as [ids|] eqn:E; cbn.
  - destruct ids as [|j ids]; [exfalso; exact (Hm _ _ E eq_refl)|].
    rewrite insert_insert_eq, insert_id by exact E. destruct m; reflexivity.
  - rewrite delete_insert_id by exact E. destruct m; reflexivity.
Qed.

Lemma removeCarFromPosition_updateCarPosition_witness :
  CarManager.removeCarFromPosition
    (fst (CarManager.updateCarPosition CarManager.init strandedCar (2, 2)))
    (snd (CarManager.updateCarPosition CarManager.init strandedCar (2, 2)))
  = CarManager.init.
Proof.
  apply removeCarFromPosition_updateCarPosition.
  - intros q ids H. discriminate H.
  - apply not_elem_of_nil.
  - apply not_elem_of_nil.
Defined.

(** X16.  [handleCollisionCheck] reports a collision exactly when the
    target cell files the identifier of a registered car other than
    the requesting one (identifiers of removed cars and the car itself
    do not count); without a collision nothing changes, with one the
    only change is [blockedBy] of the requesting car, set to such a
    car. *)
Theorem handleCollisionCheck_other_car (carId : CarId) (targetCell : Cell) (w : World) :
  let r := CarManager_handleCollisionCheck carId targetCell w in
  (snd r = true
   <-> exists other,
        other ∈ CarManager.positionIds (carManager w) (fst targetCell) (snd targetCell)
        /\ other ∈ CarManager.cars (carManager w) /\ other <> carId)
  /\ (snd r = false -> fst r = w)
  /\ (snd r = true ->
      exists other,
        fst r = withCar carId (Car.set_blockedBy (Some other)) w
        /\ other ∈ CarManager.positionIds (carManager w)
                     (fst targetCell) (snd targetCell)
        /\ other ∈ CarManager.cars (carManager w) /\ other <> carId).
Proof.
  unfold CarManager_handleCollisionCheck, CarManager_getCarsAtPosition.
  set (others := filter (fun i => i ≠ carId) _).
  assert (forall other,
             other ∈ others
             <-> other ∈ CarManager.positionIds (carManager w)
                           (fst targetCell) (snd targetCell)
                 /\ other ∈ CarManager.cars (carManager w) /\ other <> carId) as Hin.
  { intros other. unfold others. rewrite !list_elem_of_filter. tauto. }
  destruct others as [|other rest]; cbn [fst snd].
  - split; [|split].
    + split; [discriminate|]. intros (other & H). apply Hin in H.
      apply elem_of_nil in H. destruct H.
    + reflexivity.
    + discriminate.
  - assert (other ∈ other :: rest) as Ho by left.
    apply Hin in Ho. split; [|split].
    + split; [eauto|reflexivity].
    + discriminate.
    + intros _. exists other. auto.
Qed.

(** ** What the updates of the cars leave alone *)

Lemma scenery_layout (w w' : World) : scenery w' = scenery w -> layout w' = layout w.
Proof.
  unfold scenery, layout. intros E. inversion E. congruence.
Qed.

Section CarFrame.
Variable w0 : World.

Local Abbreviation K := (kept w0).

Lemma K_withCar carId f w : K w -> K (withCar carId f w).
Proof.
  unfold kept, scenery, withCar, spawnTimers. cbn. rewrite dom_alter_L. auto.
Qed.

Lemma spawnTimers_addRemoveTimer carId w :
  spawnTimers (addTimer (RemoveTimer carId) w) = spawnTimers w.
Proof.
  unfold spawnTimers, addTimer. cbn. rewrite List.filter_app. cbn.
  apply app_nil_r.
Qed.

Lemma K_handleCarReachedExit carId w :
  K w -> K (CarManager_handleCarReachedExit carId w).
Proof.
  unfold kept, scenery, CarManager_handleCarReachedExit.
  rewrite spawnTimers_addRemoveTimer. cbn. auto.
Qed.

Lemma K_handleCarFailed carId w :
  K w -> K (CarManager_handleCarFailed carId w).
Proof.
  unfold kept, scenery, CarManager_handleCarFailed.
  rewrite spawnTimers_addRemoveTimer. cbn. auto.
Qed.

Lemma K_updatePathfindingGrid w : K w -> K (CarManager_updatePathfindingGrid w).
Proof. unfold kept, scenery, CarManager_updatePathfindingGrid. cbn. auto. Qed.

Lemma K_pathQuery w s e w1 p :
  CarManager_pathQuery w s e = (w1, p) -> K w -> K w1.
Proof.
  unfold CarManager_pathQuery. intros E H. inversion E; subst. clear E.
  destruct (GameState.pathfindingGridDirty (gameState w));
    auto using K_updatePathfindingGrid.
Qed.

Lemma K_handlePathRequest carId s e w :
  K w -> K (CarManager_handlePathRequest carId s e w).
Proof.
  intros H. unfold CarManager_handlePathRequest.
  destruct (CarManager_pathQuery w s e) as [w1 p] eqn:E.
  apply K_withCar. eapply K_pathQuery; eassumption.
Qed.

Lemma K_requestPathForCar carId w : K w -> K (CarManager_requestPathForCar carId w).
Proof.
  intros H. unfold CarManager_requestPathForCar.
  case_match; auto using K_handlePathRequest.
Qed.

Lemma K_requestNewPath carId w : K w -> K (Car_requestNewPath carId w).
Proof.
  intros H. unfold Car_requestNewPath.
  case_match; auto using K_withCar, K_handlePathRequest.
Qed.

Lemma K_checkCollision carId c w w' r :
  Car_checkCollision carId c w = (w', r) -> K w -> K w'.
Proof.
  unfold Car_checkCollision, CarManager_handleCollisionCheck.
  intros E H.
  destruct (filter _ _); simpl in E; inversion E; subst; auto using K_withCar.
Qed.

Lemma K_moveToCell carId c w : K w -> K (Car_moveToCell carId c w).
Proof. apply K_withCar. Qed.

Lemma K_reachDestination carId w : K w -> K (Car_reachDestination carId w).
Proof. intros. apply K_handleCarReachedExit, K_withCar. assumption. Qed.

Lemma K_triggerFailure carId w : K w -> K (Car_triggerFailure carId w).
Proof. intros. apply K_handleCarFailed, K_withCar. assumption. Qed.

Lemma K_checkIfReachedExit carId w : K w -> K (Car_checkIfReachedExit carId w).
Proof.
  intros H. unfold Car_checkIfReachedExit.
  repeat case_match; auto using K_reachDestination.
Qed.

Lemma K_onMoveComplete carId c w : K w -> K (Car_onMoveComplete carId c w).
Proof. intros. apply K_checkIfReachedExit, K_withCar. assumption. Qed.

Local Hint Resolve K_withCar K_handleCarReachedExit K_handleCarFailed
  K_updatePathfindingGrid K_handlePathRequest K_requestPathForCar
  K_requestNewPath K_moveToCell K_reachDestination K_triggerFailure
  K_checkIfReachedExit K_onMoveComplete : core.

Lemma K_updateMoving carId time delta w :
  K w -> K (Car_updateMoving carId time delta w).
Proof.
  intros H. unfold Car_updateMoving.
  destruct (getCar w carId) as [k0|]; [|assumption].
  set (w1 := if Car.needsNewPath k0 then Car_requestNewPath carId w else w).
  assert (K w1) as H1 by (unfold w1; case_match; auto).
  clearbody w1. clear H.
  destruct (getCar w1 carId) as [k1|]; [|assumption].
  match goal with
  | |- K (let '(_, _) := ?X in _) => destruct X as [w2 returned] eqn:E
  end.
  assert (K w2) as H2.
  { repeat case_match; inversion E; subst; eauto using K_checkCollision. }
  clear E. destruct returned; [assumption|].
  destruct (getCar w2 carId) as [k2|]; [|assumption].
  match goal with
  | |- context [if ?c then Car_reachDestination carId w2 else w2] =>
      set (w3 := if c then Car_reachDestination carId w2 else w2)
  end.
  assert (K w3) as H3 by (unfold w3; case_match; auto).
  clearbody w3.
  repeat case_match; auto.
Qed.

Lemma K_updateWaiting carId time delta w :
  K w -> K (Car_updateWaiting carId time delta w).
Proof.
  intros H. unfold Car_updateWaiting.
  set (w1 := withCar carId _ w).
  assert (K w1) as H1 by (unfold w1; auto).
  clearbody w1. clear H.
  destruct (getCar w1 carId) as [k1|]; [|assumption].
  match goal with
  | |- K (let '(_, _) := ?X in _) => destruct X as [w2 returned] eqn:E
  end.
  assert (K w2) as H2.
  { repeat case_match; inversion E; subst; eauto using K_checkCollision. }
  clear E. destruct returned; [assumption|].
  destruct (getCar w2 carId) as [k2|]; [|assumption].
  match goal with
  | |- context [if ?c then Car_triggerFailure carId w2 else w2] =>
      set (w3 := if c then Car_triggerFailure carId w2 else w2)
  end.
  assert (K w3) as H3 by (unfold w3; case_match; auto).
  clearbody w3.
  repeat case_match; auto.
Qed.

Lemma K_update carId time delta w : K w -> K (Car_update carId time delta w).
Proof.
  intros H. unfold Car_update.
  repeat case_match; auto using K_updateMoving, K_updateWaiting.
Qed.

Lemma K_updates time delta (l : list CarId) w :
  K w -> K (fold_left (fun w0' i => Car_update i time delta w0') l w).
Proof.
  revert w. induction l as [|i l IH]; intros w H; simpl; auto using K_update.
Qed.
End CarFrame.

Lemma scenery_update (carId : CarId) (time delta : Z) (w : World) :
  scenery (Car_update carId time delta w) = scenery w.
Proof. apply K_update. reflexivity. Qed.

Lemma scenery_updates (time delta : Z) (l : list CarId) (w : World) :
  scenery (fold_left (fun w0 i => Car_update i time delta w0) l w) = scenery w.
Proof. apply K_updates. reflexivity. Qed.

Lemma scenery_onMoveComplete (carId : CarId) (c : Cell) (w : World) :
  scenery (Car_onMoveComplete carId c w) = scenery w.
Proof. apply K_onMoveComplete. reflexivity. Qed.

Lemma scenery_requestPathForCar (carId : CarId) (w : World) :
  scenery (CarManager_requestPathForCar carId w) = scenery w.
Proof. apply K_requestPathForCar. reflexivity. Qed.

(** ** The phases of the scene *)

Lemma Sound_scenery (w w' : World) : scenery w' = scenery w -> Sound w -> Sound w'.
Proof.
  unfold scenery, Sound, Lasting, spawned. intros E. inversion E.
  repeat match goal with H : _ = _ |- _ => rewrite H; clear H end.
  auto.
Qed.

Lemma stopSimulation_running (s : GameState.t) (now : Z) :
  GameState.isSimulating s = true ->
  GameState.stopSimulation s now
  = (stopped s now,
     map GameState.carRemoved (GameState.cars s) ++ [GameState.simulationStopped]).
Proof. intros H. unfold GameState.stopSimulation. rewrite H. reflexivity. Qed.

Lemma stopSimulation_idle (s : GameState.t) (now : Z) :
  GameState.isSimulating s = false -> GameState.stopSimulation s now = (s, []).
Proof. intros H. unfold GameState.stopSimulation. rewrite H. reflexivity. Qed.

Lemma fold_dispatchBasic_carRemoved (l : list CarId) (w : World) :
  fold_left (fun w0 ev => dispatchBasic ev w0) (map GameState.carRemoved l) w = w.
Proof. induction l as [|i l IH]; simpl; auto. Qed.

Lemma emitAll_app (now : Z) (l1 l2 : list GameState.Event) (w : World) :
  emitAll now (l1 ++ l2) w = emitAll now l2 (emitAll now l1 w).
Proof. unfold emitAll. apply fold_left_app. Qed.

Lemma emitAll_carRemoved (now : Z) (l : list CarId) (w : World) :
  emitAll now (map GameState.carRemoved l) w = w.
Proof.
  apply emitAll_harmless. apply Forall_forall. intros ev Hev.
  apply list_elem_of_In, in_map_iff in Hev as (i & <- & _). reflexivity.
Qed.

(** A stop requested on the scene while a simulation runs. *)
Lemma GameScene_stopSimulation_running (now : Z) (w : World) :
  GameState.isSimulating (gameState w) = true ->
  GameScene_stopSimulation now w
  = InputManager_enable
      (CarManager_stopSimulation
         (with_gameState (stopped (gameState w) now) w)).
Proof.
  intros H. unfold GameScene_stopSimulation.
  rewrite (stopSimulation_running _ now H).
  rewrite fold_left_app, fold_dispatchBasic_carRemoved. reflexivity.
Qed.

Lemma GameScene_stopSimulation_idle (now : Z) (w : World) :
  GameState.isSimulating (gameState w) = false ->
  GameScene_stopSimulation now w = w.
Proof.
  intros H. unfold GameScene_stopSimulation.
  rewrite (stopSimulation_idle _ now H). destruct w; reflexivity.
Qed.

Lemma dom_fold_delete (l : list CarId) (h : gmap CarId Car.t) :
  dom (fold_left (fun h0 i => delete i h0) l h) = dom h ∖ list_to_set l.
Proof.
  revert h. induction l as [|i l IH]; intros h; cbn [fold_left].
  - rewrite list_to_set_nil, difference_empty_L. reflexivity.
  - rewrite IH, dom_delete_L, list_to_set_cons, difference_difference_l_L.
    reflexivity.
Qed.

Lemma spawnTimers_filtered (l : list Timer) :
  List.filter isSpawnTimer (List.filter (fun t => negb (isSpawnTimer t)) l) = [].
Proof.
  induction l as [|t l IH]; simpl; [reflexivity|].
  destruct (isSpawnTimer t) eqn:E; simpl; [exact IH|]. rewrite E. exact IH.
Qed.

(** The world once the managers have handled [simulationStopped]. *)
Lemma Sound_stopped (w : World) :
  GameState.isSimulating (gameState w) = false ->
  GameState.gameState (gameState w) = BUILDING_MODE ->
  GameState.cars (gameState w) = [] ->
  GameState.activeCars (gameState w) = ∅ ->
  Lasting w ->
  Sound (InputManager_enable (CarManager_stopSimulation w)).
Proof.
  intros Hsim Hst Hcars Hact (Hld & Hdom & Hcap).
  unfold Sound, Lasting, spawned, spawnTimers.
  cbn. rewrite Hsim, Hst, Hcars, Hact, spawnTimers_filtered.
  repeat split; auto.
  - intros i Hi. apply elem_of_nil in Hi. destruct Hi.
  - constructor.
  - rewrite dom_fold_delete, Hdom, difference_diag_L. reflexivity.
Qed.

Lemma Lasting_with_gameState (gs : GameState.t) (w : World) :
  GameState.level gs = GameState.level (gameState w) ->
  Lasting w -> Lasting (with_gameState gs w).
Proof. unfold Lasting, spawned. cbn. intros ->. auto. Qed.

Lemma Sound_GameScene_stopSimulation (now : Z) (w : World) :
  GameState.isSimulating (gameState w) = true -> Lasting w ->
  Sound (GameScene_stopSimulation now w).
Proof.
  intros Hsim HL. rewrite (GameScene_stopSimulation_running now w Hsim).
  apply Sound_stopped; try reflexivity.
  apply Lasting_with_gameState; [reflexivity|exact HL].
Qed.

(** What the evaluation of the end conditions returns. *)
Lemma checkGameEndConditions_shape (s : GameState.t) (now : Z) :
  GameState.checkGameEndConditions s now = (s, [])
  \/ (GameState.isSimulating s = true
      /\ exists g ev,
          (ev = GameState.levelWon \/ ev = GameState.levelLost)
          /\ GameState.checkGameEndConditions s now
             = (stopped (GameState.set_gameState g s) now,
                (map GameState.carRemoved (GameState.cars s)
                 ++ [GameState.simulationStopped]) ++ [ev])).
Proof.
  unfold GameState.checkGameEndConditions.
  destruct (GameState.isSimulating s) eqn:Hsim; cbn [negb]; [|auto].
  destruct (_ <=? _)%N; [|auto].
  destruct (Qle_bool _ _).
  - right. split; [reflexivity|]. exists WON, GameState.levelWon.
    split; [auto|].
    rewrite (stopSimulation_running (GameState.set_gameState WON s) now Hsim).
    reflexivity.
  - destruct (_ <? _)%N; [|auto].
    right. split; [reflexivity|]. exists LOST, GameState.levelLost.
    split; [auto|].
    rewrite (stopSimulation_running (GameState.set_gameState LOST s) now Hsim).
    reflexivity.
Qed.

(** The listeners of the events of an ending run. *)
Lemma emitAll_ending (now : Z) (l : list CarId) (ev : GameState.Event) (w : World) :
  ev = GameState.levelWon \/ ev = GameState.levelLost ->
  GameState.isSimulating (gameState w) = false ->
  emitAll now ((map GameState.carRemoved l ++ [GameState.simulationStopped]) ++ [ev]) w
  = InputManager_enable (CarManager_stopSimulation w).
Proof.
  intros Hev Hsim. rewrite !emitAll_app, emitAll_carRemoved.
  assert (emitAll now [GameState.simulationStopped] w
          = InputManager_enable (CarManager_stopSimulation w)) as -> by reflexivity.
  assert (emitAll now [ev] (InputManager_enable (CarManager_stopSimulation w))
          = GameScene_stopSimulation now
              (InputManager_enable (CarManager_stopSimulation w))) as ->
      by (destruct Hev as [->| ->]; reflexivity).
  apply GameScene_stopSimulation_idle. exact Hsim.
Qed.

Lemma Sound_phaseView (w w' : World) :
  phaseView w' = phaseView w -> Sound w -> Sound w'.
Proof.
  unfold phaseView, gsPhase, Sound, Lasting, spawned, spawnTimers.
  intros E. inversion E.
  repeat match goal with H : _ = _ |- _ => rewrite H; clear H end.
  auto.
Qed.

(** *** Road edits keep the phase *)

Lemma placeRoad_phase (s s' : GameState.t) (r c : Z) rd b evs :
  GameState.placeRoad s r c rd = (b, s', evs) ->
  gsPhase s' = gsPhase s /\ Forall (fun ev => harmless ev = true) evs.
Proof.
  unfold GameState.placeRoad, GameState.spendBudget.
  repeat case_match; intros E; inversion E; subst; try discriminate;
    repeat match goal with H : (_, _, _) = (_, _, _) |- _ => inversion H; subst; clear H end;
    split; try reflexivity; repeat constructor.
Qed.

Lemma removeRoad_phase (s s' : GameState.t) (r c : Z) b evs :
  GameState.removeRoad s r c = (b, s', evs) ->
  gsPhase s' = gsPhase s /\ Forall (fun ev => harmless ev = true) evs.
Proof.
  unfold GameState.removeRoad, GameState.addBudget.
  repeat case_match; intros E; inversion E; subst;
    split; try reflexivity; repeat constructor.
Qed.

Lemma updateRoadDirections_phase (s s' : GameState.t) (r c : Z) ds b evs :
  GameState.updateRoadDirections s r c ds = (b, s', evs) ->
  gsPhase s' = gsPhase s /\ Forall (fun ev => harmless ev = true) evs.
Proof.
  unfold GameState.updateRoadDirections.
  repeat case_match; intros E; inversion E; subst;
    split; try reflexivity; repeat constructor.
Qed.

Lemma phaseView_handleRoadPlacement (r c now : Z) (w : World) :
  phaseView (InputManager_handleRoadPlacement r c now w) = phaseView w.
Proof.
  unfold InputManager_handleRoadPlacement.
  repeat case_match; try reflexivity.
  match goal with
  | H : GameState.placeRoad _ _ _ _ = _ |- _ =>
      apply placeRoad_phase in H as [Hp Hev]
  end.
  rewrite emitAll_harmless by exact Hev.
  unfold phaseView. cbn. rewrite Hp. reflexivity.
Qed.

Lemma phaseView_handleRoadDeletion (r c now : Z) (w : World) :
  phaseView (InputManager_handleRoadDeletion r c now w) = phaseView w.
Proof.
  unfold InputManager_handleRoadDeletion.
  repeat case_match; try reflexivity.
  match goal with
  | H : GameState.removeRoad _ _ _ = _ |- _ =>
      apply removeRoad_phase in H as [Hp Hev]
  end.
  rewrite emitAll_harmless by exact Hev.
  unfold phaseView. cbn. rewrite Hp. reflexivity.
Qed.

Lemma phaseView_completeArrowDrawing (s e : Cell) (now : Z) (w : World) :
  phaseView (InputManager_completeArrowDrawing s e now w) = phaseView w.
Proof.
  unfold InputManager_completeArrowDrawing.
  repeat case_match; try reflexivity.
  match goal with
  | H : GameState.updateRoadDirections _ _ _ _ = _ |- _ =>
      apply updateRoadDirections_phase in H as [Hp Hev]
  end.
  rewrite emitAll_harmless by exact Hev.
  unfold phaseView. cbn. rewrite Hp. reflexivity.
Qed.

(** *** Start of a run *)

Lemma spawned_addTimer (t : Timer) (w : World) (i : nat) :
  spawned (addTimer t w) i = spawned w i.
Proof. reflexivity. Qed.

Lemma scheduleCarSpawn_fold (l : list nat) (w : World) :
  CarManager.isSpawning (carManager w) = true ->
  fold_left (fun w0 i => CarManager_scheduleCarSpawn i w0) l w
  = with_timers (timers w ++ map SpawnTimer (List.filter (belowQuota w) l)) w.
Proof.
  revert w. induction l as [|i l IH]; intros w Hsp; cbn [fold_left List.filter map].
  - rewrite app_nil_r. destruct w; reflexivity.
  - unfold CarManager_scheduleCarSpawn at 2. rewrite Hsp. cbn [negb].
    fold (spawned w i). unfold belowQuota at 1.
    destruct (GameConfig.maxCarsPerType <=? Z.of_N (spawned w i)); cbn [negb].
    + apply IH. exact Hsp.
    + rewrite IH by exact Hsp. unfold addTimer. cbn.
      rewrite <- app_assoc. reflexivity.
Qed.

Lemma belowQuota_true (w : World) (i : nat) :
  belowQuota w i = true <-> Z.of_N (spawned w i) < GameConfig.maxCarsPerType.
Proof. unfold belowQuota. rewrite negb_true_iff, Z.leb_gt. reflexivity. Qed.

Lemma filter_spawn_map (l : list nat) :
  List.filter isSpawnTimer (map SpawnTimer l) = map SpawnTimer l.
Proof. induction l as [|i l IH]; simpl; [reflexivity|]. rewrite IH. reflexivity. Qed.

Lemma Sound_startSimulation (now : Z) (w : World) :
  Sound w -> Sound (GameScene_startSimulation now w).
Proof.
  intros H. unfold GameScene_startSimulation.
  case_bool_decide as Hsz; [exact H|].
  unfold GameState.startSimulation.
  destruct (GameState.isSimulating (gameState w)) eqn:Hsim; cbn [fst snd].
  { rewrite emitAll_harmless by constructor. destruct w; exact H. }
  rewrite bool_decide_eq_false_2 by exact Hsz.
  destruct H as (Hst & Hin & Hsp & Hidle & Hpend & Hnd & Hld & Hdom & Hcap).
  destruct (Hidle Hsim) as (Hcars & Hpos & Hgcars & Hact & Htim).
  change (emitAll now [GameState.simulationStarted] ?w')
    with (InputManager_disable (CarManager_startSimulation w')).
  unfold CarManager_startSimulation.
  cbn [carManager with_gameState]. rewrite Hld.
  rewrite scheduleCarSpawn_fold by reflexivity.
  unfold Sound, Lasting, spawned, spawnTimers in *. cbn.
  rewrite List.filter_app, Htim, filter_spawn_map. cbn [app].
  rewrite Hsim in *. cbn [negb].
  repeat split; auto; try discriminate.
  - intros i Hi.
    apply list_elem_of_In, in_map_iff in Hi as (j & E & Hj).
    inversion E; subst j. apply filter_In in Hj as [_ Hj].
    apply belowQuota_true in Hj. exact Hj.
  - apply NoDup_fmap_2; [intros ? ? E; inversion E; reflexivity|].
    apply NoDup_ListNoDup, List.NoDup_filter, NoDup_ListNoDup, NoDup_seq.
Qed.

(** *** Removal of a car *)

Lemma list_to_set_filter_ne (i : CarId) (l : list CarId) :
  (list_to_set (filter (fun j => j ≠ i) l) : gset CarId) = list_to_set l ∖ {[ i ]}.
Proof.
  apply set_eq. intros j.
  rewrite elem_of_difference, !elem_of_list_to_set, list_elem_of_filter,
    elem_of_singleton. tauto.
Qed.

Lemma list_to_set_setAdd (i : CarId) (l : list CarId) :
  (list_to_set (CarManager.setAdd i l) : gset CarId) = {[ i ]} ∪ list_to_set l.
Proof.
  apply set_eq. intros j. unfold CarManager.setAdd.
  rewrite elem_of_union, elem_of_singleton, elem_of_list_to_set.
  case_bool_decide as Hin.
  - rewrite elem_of_list_to_set. split; [auto|]. intros [->|H]; assumption.
  - rewrite elem_of_list_to_set, elem_of_app, list_elem_of_singleton. tauto.
Qed.

Lemma spawnTimers_removeTimer (carId : CarId) (l : list Timer) :
  List.filter isSpawnTimer (removeTimer (RemoveTimer carId) l)
  = List.filter isSpawnTimer l.
Proof.
  induction l as [|t l IH]; cbn [removeTimer]; [reflexivity|].
  destruct (decide (t = RemoveTimer carId)) as [->|Hne]; [reflexivity|].
  cbn [List.filter]. rewrite IH. reflexivity.
Qed.

(** What [GameState.removeCar] returns. *)
Lemma removeCar_shape (s : GameState.t) (carId : CarId)
      (finalState : option CarState) (now : Z) :
  (exists s1,
      GameState.removeCar s carId finalState now = (s1, [])
      /\ s1 = s)
  \/ (exists s1,
         GameState.removeCar s carId finalState now
         = (s1, [GameState.carRemoved carId])
         /\ GameState.gameState s1 = GameState.gameState s
         /\ GameState.isSimulating s1 = GameState.isSimulating s
         /\ GameState.level s1 = GameState.level s)
  \/ (GameState.isSimulating s = true
      /\ exists s1 g ev l,
          (ev = GameState.levelWon \/ ev = GameState.levelLost)
          /\ GameState.level s1 = GameState.level s
          /\ GameState.removeCar s carId finalState now
             = (stopped (GameState.set_gameState g s1) now,
                GameState.carRemoved carId
                :: (map GameState.carRemoved l ++ [GameState.simulationStopped])
                   ++ [ev])).
Proof.
  unfold GameState.removeCar. case_bool_decide; [|left; eauto].
  match goal with
  | |- context [GameState.checkGameEndConditions ?s1 now] =>
      destruct (checkGameEndConditions_shape s1 now) as [E|(Hsim & g & ev & Hev & E)];
      rewrite E
  end.
  - right. left. eexists. split; [reflexivity|]. cbn. auto.
  - right. right. split; [exact Hsim|].
    eexists _, g, ev, _. split; [exact Hev|]. split; [|reflexivity]. reflexivity.
Qed.

Lemma removeCarFromPosition_fields (m : CarManager.t) (k : Car.t) :
  CarManager.cars (CarManager.removeCarFromPosition m k) = CarManager.cars m
  /\ CarManager.levelData (CarManager.removeCarFromPosition m k)
     = CarManager.levelData m
  /\ CarManager.isSpawning (CarManager.removeCarFromPosition m k)
     = CarManager.isSpawning m
  /\ CarManager.stats (CarManager.removeCarFromPosition m k) = CarManager.stats m.
Proof.
  unfold CarManager.removeCarFromPosition.
  destruct (CarManager.carsByPosition m !! _); auto.
Qed.

(** [Sound] during a run. *)
Lemma Sound_running (w : World) :
  GameState.isSimulating (gameState w) = true ->
  Sound w <->
  GameState.gameState (gameState w) = SIMULATING
  /\ inputEnabled w = false
  /\ CarManager.isSpawning (carManager w) = true
  /\ (forall i, SpawnTimer i ∈ spawnTimers w ->
                Z.of_N (spawned w i) < GameConfig.maxCarsPerType)
  /\ NoDup (spawnTimers w)
  /\ Lasting w.
Proof.
  intros Hsim. unfold Sound. rewrite Hsim. cbn [negb]. split.
  - intros (H1 & H2 & H3 & _ & H5 & H6 & H7). auto 10.
  - intros (H1 & H2 & H3 & H5 & H6 & H7).
    split; [exact H1|]. split; [exact H2|]. split; [exact H3|].
    split; [intros E; discriminate E|]. auto.
Qed.

Lemma Sound_idle_cars (w : World) :
  Sound w -> CarManager.cars (carManager w) ≠ [] ->
  GameState.isSimulating (gameState w) = true.
Proof.
  intros (_ & _ & _ & Hidle & _) Hne.
  destruct (GameState.isSimulating (gameState w)); [reflexivity|].
  destruct (Hidle eq_refl) as (Hcars & _). contradiction.
Qed.

Lemma Sound_removeCar (carId : CarId) (now : Z) (w : World) :
  Sound w -> Sound (CarManager_removeCar carId now w).
Proof.
  intros H. unfold CarManager_removeCar.
  case_bool_decide as Hin; [|exact H].
  destruct (getCar w carId) as [k|]; [|exact H].
  set (m2 := CarManager.set_cars _ _).
  set (w1 := with_carObjects _ (with_carManager m2 w)).
  assert (GameState.isSimulating (gameState w) = true) as Hsim.
  { apply Sound_idle_cars; [exact H|]. intros E. rewrite E in Hin.
    apply elem_of_nil in Hin. exact Hin. }
  apply (Sound_running w Hsim) in H as (Hg & Hinp & Hsp & Hq & Hnd & Hld & Hdom & Hcap).
  destruct (removeCarFromPosition_fields (carManager w) k) as (Ec & El & Es & Et).
  assert (Lasting w1) as HL1.
  { unfold Lasting, spawned, w1, m2. cbn. rewrite El, Ec, Et.
    split; [exact Hld|]. split; [|exact Hcap].
    rewrite dom_delete_L, Hdom. symmetry. apply list_to_set_filter_ne. }
  assert (forall s1, GameState.gameState s1 = GameState.gameState (gameState w) ->
                     GameState.isSimulating s1 = GameState.isSimulating (gameState w) ->
                     GameState.level s1 = GameState.level (gameState w) ->
                     Sound (with_gameState s1 w1)) as Hkeep.
  { intros s1 E1 E2 E3. apply Sound_running; [cbn; congruence|].
    cbn. rewrite E1, Es.
    refine (conj Hg (conj Hinp (conj Hsp (conj _ (conj Hnd _))))).
    - intros i Hi. unfold spawned. cbn. rewrite Et. apply Hq. exact Hi.
    - apply Lasting_with_gameState; [exact E3|exact HL1]. }
  destruct (removeCar_shape (gameState w1) carId (Some (Car.state k)) now)
    as [(s1 & E & ->)|[(s1 & E & Hg1 & Hs1 & Hl1)|(_ & s1 & g & ev & l & Hev & Hl & E)]];
    rewrite E.
  - cbn [emitAll fold_left]. apply Hkeep; reflexivity.
  - rewrite emitAll_harmless by (repeat constructor).
    apply Hkeep; assumption.
  - change (GameState.carRemoved carId :: ?l) with ([GameState.carRemoved carId] ++ l).
    rewrite (emitAll_app now [GameState.carRemoved carId]).
    rewrite (emitAll_harmless now [GameState.carRemoved carId])
      by (repeat constructor).
    rewrite emitAll_ending; [|exact Hev|reflexivity].
    apply Sound_stopped; try reflexivity.
    apply Lasting_with_gameState; [exact Hl|exact HL1].
Qed.

(** *** A spawn timer fires *)

Lemma removeTimer_spawn (i : nat) (l : list Timer) :
  List.filter isSpawnTimer (removeTimer (SpawnTimer i) l)
  = removeTimer (SpawnTimer i) (List.filter isSpawnTimer l).
Proof.
  induction l as [|t l IH]; cbn [removeTimer List.filter]; [reflexivity|].
  destruct (decide (t = SpawnTimer i)) as [->|Hne].
  - cbn [isSpawnTimer removeTimer]. rewrite decide_True by reflexivity. reflexivity.
  - cbn [List.filter]. destruct (isSpawnTimer t); [|exact IH].
    cbn [removeTimer]. rewrite decide_False by exact Hne. rewrite IH. reflexivity.
Qed.

Lemma elem_of_removeTimer (t u : Timer) (l : list Timer) :
  u ∈ removeTimer t l -> u ∈ l.
Proof.
  induction l as [|x l IH]; cbn [removeTimer]; [auto|].
  destruct (decide (x = t)); rewrite ?elem_of_cons; tauto.
Qed.

Lemma NoDup_removeTimer (t : Timer) (l : list Timer) :
  NoDup l -> NoDup (removeTimer t l) /\ t ∉ removeTimer t l.
Proof.
  induction 1 as [|x l Hx Hnd IH]; cbn [removeTimer].
  - split; [constructor|apply not_elem_of_nil].
  - destruct (decide (x = t)) as [->|Hne]; [auto|].
    destruct IH as [IH1 IH2]. split.
    + constructor; [|exact IH1]. intros Hin. apply Hx.
      eapply elem_of_removeTimer, Hin.
    + rewrite elem_of_cons. intros [E|Hin]; [congruence|auto].
Qed.

Lemma spawnTimers_elem (t : Timer) (w : World) :
  t ∈ spawnTimers w <-> t ∈ timers w /\ isSpawnTimer t = true.
Proof.
  unfold spawnTimers. rewrite !list_elem_of_In, filter_In. reflexivity.
Qed.

(** The counter of a car type after a spawn of type [i]. *)
Lemma lookup_bump (i j : nat) (cnt : gmap nat N) :
  default 0%N (CarManager.bump i cnt !! j)
  = if decide (j = i) then (default 0 (cnt !! i) + 1)%N else default 0%N (cnt !! j).
Proof.
  unfold CarManager.bump. destruct (decide (j = i)) as [->|Hne].
  - rewrite lookup_insert_eq. reflexivity.
  - rewrite lookup_insert_ne by congruence. reflexivity.
Qed.

Lemma updateCarPosition_fields (m : CarManager.t) (k : Car.t) (p : Cell) :
  CarManager.cars (fst (CarManager.updateCarPosition m k p)) = CarManager.cars m
  /\ CarManager.levelData (fst (CarManager.updateCarPosition m k p))
     = CarManager.levelData m
  /\ CarManager.isSpawning (fst (CarManager.updateCarPosition m k p))
     = CarManager.isSpawning m
  /\ CarManager.stats (fst (CarManager.updateCarPosition m k p)) = CarManager.stats m.
Proof.
  unfold CarManager.updateCarPosition. cbn.
  apply removeCarFromPosition_fields.
Qed.

(** The world after a car was created and registered, up to what the
    first path request changes. *)
Lemma spawnCar_cases (i choice : nat) (newId : CarId) (now : Z) (w : World) :
  CarManager_spawnCar i choice newId now w = w
  \/ exists w',
      CarManager_spawnCar i choice newId now w = w'
      /\ gsPhase (gameState w')
         = (GameState.gameState (gameState w), GameState.isSimulating (gameState w),
            GameState.level (gameState w), GameState.cars (gameState w) ++ [newId],
            GameState.activeCars (gameState w) ∪ {[ newId ]})
      /\ inputEnabled w' = inputEnabled w
      /\ spawnTimers w' = spawnTimers w
      /\ dom (carObjects w') = {[ newId ]} ∪ dom (carObjects w)
      /\ CarManager.cars (carManager w')
         = CarManager.setAdd newId (CarManager.cars (carManager w))
      /\ CarManager.levelData (carManager w') = CarManager.levelData (carManager w)
      /\ CarManager.isSpawning (carManager w') = CarManager.isSpawning (carManager w)
      /\ CarManager.spawnedByType (CarManager.stats (carManager w'))
         = CarManager.bump i (CarManager.spawnedByType (CarManager.stats (carManager w)))
      /\ CarManager.totalSpawned (CarManager.stats (carManager w'))
         = (CarManager.totalSpawned (CarManager.stats (carManager w)) + 1)%N.
Proof.
  unfold CarManager_spawnCar.
  destruct (negb _); [auto|].
  destruct (CarManager.levelData _) as [l|] eqn:Hl; [|auto].
  destruct (Level.cars l !! i) as [carType|]; [|auto].
  destruct (Level.entrances carType !! choice) as [entrance|]; [|auto].
  destruct (CarManager.isPositionOccupied _ _ _); [auto|].
  right. eexists. split; [reflexivity|].
  set (k := Car.create newId carType entrance (Level.exit_ carType) now).
  unfold CarManager_addCar.
  match goal with
  | |- context [CarManager.updateCarPosition ?m ?k ?p] =>
      pose proof (updateCarPosition_fields m k p) as (Ec & El & Es & Et);
      destruct (CarManager.updateCarPosition m k p) as [m2 k']
  end.
  cbn [fst] in Ec, El, Es, Et.
  match goal with
  | |- context [CarManager_requestPathForCar ?c ?wA] =>
      pose proof (scenery_requestPathForCar c wA) as Hsc;
      set (wB := CarManager_requestPathForCar c wA) in *
  end.
  unfold GameState.addCar.
  rewrite emitAll_harmless by (repeat constructor).
  unfold scenery in Hsc. cbn in Hsc. inversion Hsc. clear Hsc.
  unfold gsPhase, spawnTimers in *. cbn in *.
  repeat (split; [congruence|]).
  split; [|repeat (split; [congruence|]); congruence].
  match goal with H : dom (carObjects wB) = _ |- _ => rewrite H end.
  apply dom_insert_L.
Qed.

Lemma Sound_spawnTimerFired (i choice : nat) (newId : CarId) (now : Z) (w : World) :
  Sound w -> SpawnTimer i ∈ timers w ->
  Sound (CarManager_scheduleCarSpawn i
           (CarManager_spawnCar i choice newId now
              (with_timers (removeTimer (SpawnTimer i) (timers w)) w))).
Proof.
  intros H Hin.
  assert (SpawnTimer i ∈ spawnTimers w) as Hin'
      by (apply spawnTimers_elem; auto).
  assert (GameState.isSimulating (gameState w) = true) as Hsim.
  { destruct (GameState.isSimulating (gameState w)) eqn:E; [reflexivity|].
    destruct H as (_ & _ & _ & Hidle & _).
    destruct (Hidle E) as (_ & _ & _ & _ & Ht). rewrite Ht in Hin'.
    apply elem_of_nil in Hin'. destruct Hin'. }
  apply (Sound_running w Hsim) in H as (Hg & Hinp & Hsp & Hq & Hnd & Hld & Hdom & Hcap).
  set (w1 := with_timers (removeTimer (SpawnTimer i) (timers w)) w).
  assert (spawnTimers w1 = removeTimer (SpawnTimer i) (spawnTimers w)) as Et
      by apply removeTimer_spawn.
  destruct (NoDup_removeTimer (SpawnTimer i) _ Hnd) as [Hnd1 Hni].
  rewrite <- Et in Hnd1, Hni.
  assert (forall j, SpawnTimer j ∈ spawnTimers w1 ->
                    Z.of_N (spawned w j) < GameConfig.maxCarsPerType /\ j ≠ i) as Hq1.
  { intros j Hj. split.
    - apply Hq. rewrite Et in Hj. eapply elem_of_removeTimer, Hj.
    - intros ->. contradiction. }
  set (w2 := CarManager_spawnCar i choice newId now w1).
  assert (GameState.isSimulating (gameState w2) = true
          /\ GameState.gameState (gameState w2) = SIMULATING
          /\ inputEnabled w2 = false
          /\ CarManager.isSpawning (carManager w2) = true
          /\ spawnTimers w2 = spawnTimers w1
          /\ (forall j, j ≠ i -> spawned w2 j = spawned w j)
          /\ Lasting w2) as (Hsim2 & Hg2 & Hinp2 & Hsp2 & Et2 & Hoth & HL2).
  { destruct (spawnCar_cases i choice newId now w1)
      as [E|(w' & E & Hph & Hi' & Ht' & Hd' & Hc' & Hl' & Hs' & Hb' & _)];
      fold w2 in E.
    - rewrite E. cbn. repeat split; auto.
    - subst w'. unfold gsPhase in Hph. inversion Hph as [[E1 E2 E3 E4 E5]].
      cbn in Hi', Hl', Hs', Hc', Hd', Hb'.
      rewrite E1, E2, Hi', Hs', Ht'.
      repeat (split; [solve [auto]|]).
      assert (forall j, spawned w2 j
                        = if decide (j = i) then (spawned w i + 1)%N else spawned w j)
        as Hsp'.
      { intros j. unfold spawned. rewrite Hb'. apply lookup_bump. }
      split.
      + intros j Hj. rewrite Hsp'. rewrite decide_False by exact Hj. reflexivity.
      + split; [rewrite Hl', E3; exact Hld|]. split.
        * rewrite Hd', Hc', Hdom. symmetry. apply list_to_set_setAdd.
        * intros j. rewrite Hsp'. destruct (decide (j = i)) as [->|_]; [|apply Hcap].
          specialize (Hq i Hin'). unfold GameConfig.maxCarsPerType in *. lia. }
  clearbody w2.
  unfold CarManager_scheduleCarSpawn. rewrite Hsp2. cbn [negb].
  fold (spawned w2 i).
  destruct (Z.leb_spec GameConfig.maxCarsPerType (Z.of_N (spawned w2 i))) as [Hfull|Hroom].
  - apply Sound_running; [exact Hsim2|].
    refine (conj Hg2 (conj Hinp2 (conj Hsp2 (conj _ (conj _ HL2))))).
    + intros j Hj. rewrite Et2 in Hj. destruct (Hq1 j Hj) as [Hlt Hne].
      rewrite Hoth by exact Hne. exact Hlt.
    + rewrite Et2. exact Hnd1.
  - assert (spawnTimers (addTimer (SpawnTimer i) w2) = spawnTimers w1 ++ [SpawnTimer i])
      as Et3.
    { unfold spawnTimers, addTimer. cbn. rewrite List.filter_app. cbn.
      fold (spawnTimers w2). rewrite Et2. reflexivity. }
    apply Sound_running; [exact Hsim2|].
    refine (conj Hg2 (conj Hinp2 (conj Hsp2 (conj _ (conj _ HL2))))).
    + intros j Hj. rewrite Et3 in Hj.
      apply elem_of_app in Hj as [Hj|Hj].
      * destruct (Hq1 j Hj) as [Hlt Hne].
        rewrite spawned_addTimer, Hoth by exact Hne. exact Hlt.
      * apply list_elem_of_singleton in Hj. inversion Hj; subst j.
        rewrite spawned_addTimer. exact Hroom.
    + rewrite Et3. apply NoDup_app. split; [exact Hnd1|]. split.
      * intros t Ht Ht'. apply list_elem_of_singleton in Ht'. subst t. contradiction.
      * apply NoDup_singleton.
Qed.

(** *** Frames *)

Lemma Sound_fold {A} (f : A -> World -> World) (l : list A) (w : World) :
  (forall a w0, Sound w0 -> Sound (f a w0)) ->
  Sound w -> Sound (fold_left (fun w0 a => f a w0) l w).
Proof.
  intros Hf. revert w. induction l as [|a l IH]; intros w H; simpl; auto.
Qed.

Lemma Sound_update (time delta now : Z) (w : World) :
  Sound w -> Sound (CarManager_update time delta now w).
Proof.
  intros H. unfold CarManager_update.
  assert (Sound (fold_left (fun w0 i => Car_update i time delta w0)
                           (CarManager.cars (carManager w)) w)) as H1.
  { eapply Sound_scenery; [apply scenery_updates|exact H]. }
  case_match; [|exact H1].
  unfold CarManager_cleanupTerminalCars.
  apply Sound_fold; [|exact H1]. intros. apply Sound_removeCar. assumption.
Qed.

Lemma Sound_Lasting (w : World) : Sound w -> Lasting w.
Proof. intros (_ & _ & _ & _ & _ & _ & H). exact H. Qed.

Lemma Sound_checkEndConditions (now : Z) (w : World) :
  Sound w -> Sound (GameScene_checkEndConditions now w).
Proof.
  intros H. unfold GameScene_checkEndConditions.
  destruct (GameState.isSimulating (gameState w)) eqn:Hsim; [|exact H].
  destruct (CarManager.checkEndConditions _) as [[|]|]; [| |exact H];
    cbn [dispatch];
    (apply Sound_GameScene_stopSimulation; [exact Hsim|]);
    (apply Lasting_with_gameState; [reflexivity|apply Sound_Lasting, H]).
Qed.

Lemma Sound_toggleSimulation (now : Z) (w : World) :
  Sound w -> Sound (GameScene_toggleSimulation now w).
Proof.
  intros H. unfold GameScene_toggleSimulation.
  destruct (GameState.isSimulating (gameState w)) eqn:Hsim.
  - apply Sound_GameScene_stopSimulation; [exact Hsim|apply Sound_Lasting, H].
  - apply Sound_startSimulation, H.
Qed.

Lemma Sound_step (ev : Event) (w : World) : Sound w -> Sound (step ev w).
Proof.
  intros H. destruct ev; cbn [step].
  - destruct (inputEnabled w); [|exact H].
    eapply Sound_phaseView; [apply phaseView_handleRoadPlacement|exact H].
  - destruct (inputEnabled w); [|exact H].
    eapply Sound_phaseView; [apply phaseView_handleRoadDeletion|exact H].
  - destruct (inputEnabled w); [|exact H].
    eapply Sound_phaseView; [apply phaseView_completeArrowDrawing|exact H].
  - apply Sound_toggleSimulation, H.
  - case_bool_decide as Hin; [|exact H].
    apply Sound_spawnTimerFired; assumption.
  - case_bool_decide as Hin; [|exact H].
    apply Sound_removeCar.
    eapply Sound_scenery; [|exact H].
    unfold scenery, spawnTimers. cbn. rewrite spawnTimers_removeTimer. reflexivity.
  - destruct (getCar w carId) as [k|]; [|exact H].
    destruct (Car.currentTween k) as [targetCell|]; [|exact H].
    eapply Sound_scenery; [apply scenery_onMoveComplete|exact H].
  - apply Sound_checkEndConditions, Sound_update, H.
Qed.

Lemma lookup_zero_counters (n : nat) (i : nat) :
  default 0%N (fold_left (fun z j => <[j := 0%N]> z) (seq 0 n) (∅ : gmap nat N) !! i)
  = 0%N.
Proof.
  assert (forall l (z : gmap nat N),
             default 0%N (z !! i) = 0%N ->
             default 0%N (fold_left (fun z j => <[j := 0%N]> z) l z !! i) = 0%N) as Hgen.
  { induction l as [|j l IH]; intros z Hz; cbn [fold_left]; [exact Hz|].
    apply IH. destruct (decide (j = i)) as [->|Hne].
    - rewrite lookup_insert_eq. reflexivity.
    - rewrite lookup_insert_ne by exact Hne. exact Hz. }
  apply Hgen. rewrite lookup_empty. reflexivity.
Qed.

Lemma Sound_loadLevel (levelData : Level.t) : Sound (GameScene_loadLevel levelData).
Proof.
  unfold Sound, Lasting, spawned, spawnTimers. cbn.
  repeat split; auto.
  - intros i Hi. apply elem_of_nil in Hi. destruct Hi.
  - constructor.
  - intros i. rewrite lookup_zero_counters. unfold GameConfig.maxCarsPerType. lia.
Qed.

Lemma Sound_run (evs : list Event) (w : World) : Sound w -> Sound (run evs w).
Proof.
  unfold run. revert w. induction evs as [|ev evs IH]; intros w H; simpl;
    auto using Sound_step.
Qed.

(** ** Runs and their outcome *)

(** X17.  As long as the level is not reset (R key), in every state
    reached from a loaded level by pointer edits, the space key,
    timers, tween completions and frames: the recorded game state is
    SIMULATING during a run and BUILDING otherwise (WON and LOST never
    outlive the event that set them, because winning or losing stops
    the run);
    pointer input is enabled exactly outside a run; the car manager
    spawns exactly during a run; and outside a run there is no car, no
    occupancy entry and no pending spawn timer. *)
Theorem run_phases (levelData : Level.t) (evs : list Event) :
  let w := run evs (GameScene_loadLevel levelData) in
  let sim := GameState.isSimulating (gameState w) in
  GameState.gameState (gameState w) = (if sim then SIMULATING else BUILDING_MODE)
  /\ inputEnabled w = negb sim
  /\ CarManager.isSpawning (carManager w) = sim
  /\ (sim = false ->
      CarManager.cars (carManager w) = [] /\ carObjects w = ∅
      /\ CarManager.carsByPosition (carManager w) = ∅
      /\ GameState.cars (gameState w) = []
      /\ List.filter isSpawnTimer (timers w) = []).
Proof.
  intros w sim.
  destruct (Sound_run evs _ (Sound_loadLevel levelData))
    as (H1 & H2 & H3 & Hidle & _ & _ & _ & Hdom & _).
  fold w in H1, H2, H3, Hidle, Hdom. fold sim in H1, H2, H3, Hidle.
  repeat (split; [assumption|]).
  intros Hs. destruct (Hidle Hs) as (Hc & Hp & Hg & _ & Ht).
  repeat split; try assumption.
  apply dom_empty_iff_L. rewrite Hdom, Hc. reflexivity.
Qed.

(** X18.  The spawn quota holds over the whole life of a loaded level,
    however often the simulation is stopped and restarted: the manager
    never counts more than [maxCarsPerType] spawned cars of a type, a
    spawn timer is pending only for a type still below the quota, and at
    most one spawn timer is pending per type. *)
Theorem run_spawn_quota (levelData : Level.t) (evs : list Event) :
  let w := run evs (GameScene_loadLevel levelData) in
  (forall i, Z.of_N (default 0%N (CarManager.spawnedByType
                                    (CarManager.stats (carManager w)) !! i))
             <= GameConfig.maxCarsPerType)
  /\ (forall i, SpawnTimer i ∈ timers w ->
                Z.of_N (default 0%N (CarManager.spawnedByType
                                       (CarManager.stats (carManager w)) !! i))
                < GameConfig.maxCarsPerType)
  /\ NoDup (List.filter isSpawnTimer (timers w)).
Proof.
  intros w.
  destruct (Sound_run evs _ (Sound_loadLevel levelData))
    as (_ & _ & _ & _ & Hq & Hnd & _ & _ & Hcap).
  fold w in Hq, Hnd, Hcap. split; [exact Hcap|]. split; [|exact Hnd].
  intros i Hi. apply Hq. apply spawnTimers_elem. auto.
Qed.

(** What the car manager keeps when a run starts. *)
Lemma startSimulation_carManager (now : Z) (w : World) :
  let w' := GameScene_startSimulation now w in
  CarManager.cars (carManager w') = CarManager.cars (carManager w)
  /\ CarManager.stats (carManager w') = CarManager.stats (carManager w)
  /\ CarManager.levelData (carManager w') = CarManager.levelData (carManager w)
  /\ carObjects w' = carObjects w.
Proof.
  unfold GameScene_startSimulation.
  case_bool_decide as Hsz; [auto|].
  unfold GameState.startSimulation.
  destruct (GameState.isSimulating (gameState w)); cbn [fst snd].
  { rewrite emitAll_harmless by constructor. auto. }
  rewrite bool_decide_eq_false_2 by exact Hsz.
  change (emitAll now [GameState.simulationStarted] ?w')
    with (InputManager_disable (CarManager_startSimulation w')).
  unfold CarManager_startSimulation. cbn [carManager with_gameState].
  destruct (CarManager.levelData (carManager w)) eqn:Hl; [|cbn; auto].
  rewrite scheduleCarSpawn_fold by reflexivity. cbn. auto.
Qed.

Lemma stopSimulation_carManager (now : Z) (w : World) :
  GameState.isSimulating (gameState w) = true ->
  let w' := GameScene_stopSimulation now w in
  GameState.isSimulating (gameState w') = false
  /\ CarManager.stats (carManager w') = CarManager.stats (carManager w)
  /\ CarManager.levelData (carManager w') = CarManager.levelData (carManager w).
Proof.
  intros Hsim. cbv zeta. rewrite (GameScene_stopSimulation_running now w Hsim).
  cbn. auto.
Qed.

Lemma update_no_cars (time delta now : Z) (w : World) :
  CarManager.cars (carManager w) = [] -> CarManager_update time delta now w = w.
Proof.
  intros H. unfold CarManager_update, CarManager_cleanupTerminalCars.
  rewrite H. cbn [fold_left]. destruct (_ <? _); [|reflexivity].
  rewrite H. reflexivity.
Qed.

Lemma checkEndConditions_reads (m m' : CarManager.t) :
  CarManager.stats m' = CarManager.stats m ->
  CarManager.levelData m' = CarManager.levelData m ->
  CarManager.checkEndConditions m' = CarManager.checkEndConditions m.
Proof.
  intros Hs Hl.
  unfold CarManager.checkEndConditions,
    CarManager.minCarsToCheck, CarManager.getSuccessRate.
  rewrite Hs, Hl. reflexivity.
Qed.

(** X19.  The counters of the car manager are not reset when a run
    starts.  So once they decide the level (won or lost), every later
    run of the same level is over at its first frame: start the
    simulation in such a state, and the first frame stops it again,
    before any car was spawned. *)
Theorem decided_level_cannot_be_replayed
        (levelData : Level.t) (evs : list Event) (c : CarManager.EndCondition)
        (start time delta now : Z) :
  let w := run evs (GameScene_loadLevel levelData) in
  GameState.isSimulating (gameState w) = false ->
  CarManager.checkEndConditions (carManager w) = Some c ->
  let w' := run [SpaceKey start; Frame time delta now] w in
  GameState.isSimulating (gameState w') = false
  /\ CarManager.stats (carManager w') = CarManager.stats (carManager w)
  /\ CarManager.cars (carManager w') = [].
Proof.
  intros w Hsim Hend w'.
  assert (Sound w) as HS by apply Sound_run, Sound_loadLevel.
  destruct HS as (_ & _ & _ & Hidle & _).
  destruct (Hidle Hsim) as (Hcars & _).
  unfold w', run. cbn [fold_left step].
  unfold GameScene_toggleSimulation. rewrite Hsim.
  destruct (startSimulation_carManager start w) as (Ec & Es & El & _).
  set (ws := GameScene_startSimulation start w) in *.
  unfold GameScene_update.
  rewrite update_no_cars by (rewrite Ec; exact Hcars).
  unfold GameScene_checkEndConditions.
  destruct (GameState.isSimulating (gameState ws)) eqn:Hsim';
    [|rewrite Hsim', Es, Ec; auto].
  rewrite (checkEndConditions_reads _ _ Es El), Hend.
  assert (forall g,
             let w2 := GameScene_stopSimulation now
                         (with_gameState (GameState.set_gameState g (gameState ws)) ws) in
             GameState.isSimulating (gameState w2) = false
             /\ CarManager.stats (carManager w2) = CarManager.stats (carManager w)
             /\ CarManager.cars (carManager w2) = []) as Hstop.
  { intros g. cbv zeta.
    rewrite GameScene_stopSimulation_running by exact Hsim'.
    cbn. rewrite Es. auto. }
  destruct c; cbn [dispatch]; apply Hstop.
Qed.

Lemma decided_level_cannot_be_replayed_witness :
  let w := run lostRun (GameScene_loadLevel edgeLevel) in
  let w' := run [SpaceKey 30000; Frame 30016 16 30016] w in
  GameState.isSimulating (gameState w') = false
  /\ CarManager.stats (carManager w') = CarManager.stats (carManager w)
  /\ CarManager.cars (carManager w') = [].
Proof.
  apply (decided_level_cannot_be_replayed edgeLevel lostRun CarManager.lost
           30000 30016 16 30016).
  - vm_compute. reflexivity.
  - vm_compute. reflexivity.
Defined.

(** ** The layout is frozen outside the build phase *)

Lemma layout_gs (gs : GameState.t) (w : World) :
  gsLayout gs = gsLayout (gameState w) -> layout (with_gameState gs w) = layout w.
Proof. unfold layout, gsLayout. intros E. inversion E. cbn. congruence. Qed.

Lemma stopSimulation_layout (s : GameState.t) (now : Z) :
  gsLayout (fst (GameState.stopSimulation s now)) = gsLayout s.
Proof.
  unfold GameState.stopSimulation. destruct (GameState.isSimulating s); reflexivity.
Qed.

Lemma checkGameEndConditions_layout (s : GameState.t) (now : Z) :
  gsLayout (fst (GameState.checkGameEndConditions s now)) = gsLayout s.
Proof.
  destruct (checkGameEndConditions_shape s now) as [E|(_ & g & ev & _ & E)];
    rewrite E; reflexivity.
Qed.

Lemma removeCar_layout (s : GameState.t) (carId : CarId)
      (finalState : option CarState) (now : Z) :
  gsLayout (fst (GameState.removeCar s carId finalState now)) = gsLayout s.
Proof.
  unfold GameState.removeCar. case_bool_decide; [|reflexivity].
  match goal with
  | |- context [GameState.checkGameEndConditions ?s1 now] =>
      pose proof (checkGameEndConditions_layout s1 now) as H1;
      destruct (GameState.checkGameEndConditions s1 now) as [s2 evs]
  end.
  exact H1.
Qed.

Lemma layout_startSimulation (w : World) :
  layout (CarManager_startSimulation w) = layout w.
Proof.
  unfold CarManager_startSimulation.
  destruct (CarManager.levelData (carManager w)); [|reflexivity].
  rewrite scheduleCarSpawn_fold by reflexivity. reflexivity.
Qed.

Lemma layout_dispatchBasic (ev : GameState.Event) (w : World) :
  layout (dispatchBasic ev w) = layout w.
Proof.
  destruct ev; cbn [dispatchBasic]; try reflexivity.
  unfold InputManager_disable. cbn. apply layout_startSimulation.
Qed.

Lemma layout_fold_dispatchBasic (evs : list GameState.Event) (w : World) :
  layout (fold_left (fun w0 ev => dispatchBasic ev w0) evs w) = layout w.
Proof.
  revert w. induction evs as [|ev evs IH]; intros w; cbn [fold_left]; [reflexivity|].
  rewrite IH. apply layout_dispatchBasic.
Qed.

Lemma layout_GameScene_stopSimulation (now : Z) (w : World) :
  layout (GameScene_stopSimulation now w) = layout w.
Proof.
  unfold GameScene_stopSimulation.
  pose proof (stopSimulation_layout (gameState w) now) as H.
  destruct (GameState.stopSimulation (gameState w) now) as [gs evs].
  rewrite layout_fold_dispatchBasic. apply layout_gs. exact H.
Qed.

Lemma layout_dispatch (now : Z) (ev : GameState.Event) (w : World) :
  layout (dispatch now ev w) = layout w.
Proof.
  destruct ev; cbn [dispatch];
    first [apply layout_GameScene_stopSimulation|apply layout_dispatchBasic].
Qed.

Lemma layout_emitAll (now : Z) (evs : list GameState.Event) (w : World) :
  layout (emitAll now evs w) = layout w.
Proof.
  unfold emitAll. revert w.
  induction evs as [|ev evs IH]; intros w; cbn [fold_left]; [reflexivity|].
  rewrite IH. apply layout_dispatch.
Qed.

Lemma layout_removeCar (carId : CarId) (now : Z) (w : World) :
  layout (CarManager_removeCar carId now w) = layout w.
Proof.
  unfold CarManager_removeCar.
  case_bool_decide; [|reflexivity].
  destruct (getCar w carId) as [k|]; [|reflexivity].
  match goal with
  | |- context [GameState.removeCar ?s ?i ?f now] =>
      pose proof (removeCar_layout s i f now) as H1;
      destruct (GameState.removeCar s i f now) as [gs evs]
  end.
  rewrite layout_emitAll. cbn [fst] in H1.
  rewrite layout_gs by exact H1. reflexivity.
Qed.

Lemma layout_fold {A} (f : A -> World -> World) (l : list A) (w : World) :
  (forall a w0, layout (f a w0) = layout w0) ->
  layout (fold_left (fun w0 a => f a w0) l w) = layout w.
Proof.
  intros Hf. revert w. induction l as [|a l IH]; intros w; cbn [fold_left];
    [reflexivity|]. rewrite IH. apply Hf.
Qed.

Lemma layout_update (time delta now : Z) (w : World) :
  layout (CarManager_update time delta now w) = layout w.
Proof.
  unfold CarManager_update, CarManager_cleanupTerminalCars.
  assert (layout (fold_left (fun w0 i => Car_update i time delta w0)
                            (CarManager.cars (carManager w)) w) = layout w) as H1
      by apply scenery_layout, scenery_updates.
  destruct (_ <? _); [|exact H1].
  rewrite layout_fold by (intros; apply layout_removeCar). exact H1.
Qed.

Lemma layout_checkEndConditions (now : Z) (w : World) :
  layout (GameScene_checkEndConditions now w) = layout w.
Proof.
  unfold GameScene_checkEndConditions.
  destruct (GameState.isSimulating (gameState w)); [|reflexivity].
  destruct (CarManager.checkEndConditions _) as [[|]|]; [| |reflexivity];
    rewrite layout_dispatch; reflexivity.
Qed.

Lemma layout_toggleSimulation (now : Z) (w : World) :
  layout (GameScene_toggleSimulation now w) = layout w.
Proof.
  unfold GameScene_toggleSimulation, GameScene_startSimulation.
  destruct (GameState.isSimulating (gameState w)) eqn:Hsim;
    [apply layout_GameScene_stopSimulation|].
  case_bool_decide; [reflexivity|].
  unfold GameState.startSimulation.
  repeat case_match; rewrite layout_emitAll;
    match goal with H : (_, _, _) = (_, _, _) |- _ => inversion H; subst end;
    reflexivity.
Qed.

Lemma layout_scheduleCarSpawn (i : nat) (w : World) :
  layout (CarManager_scheduleCarSpawn i w) = layout w.
Proof. unfold CarManager_scheduleCarSpawn. repeat case_match; reflexivity. Qed.

Lemma layout_spawnCar (i choice : nat) (newId : CarId) (now : Z) (w : World) :
  layout (CarManager_spawnCar i choice newId now w) = layout w.
Proof.
  unfold CarManager_spawnCar.
  destruct (negb _); [reflexivity|].
  destruct (CarManager.levelData _) as [l|]; [|reflexivity].
  destruct (Level.cars l !! i) as [carType|]; [|reflexivity].
  destruct (Level.entrances carType !! choice) as [entrance|]; [|reflexivity].
  destruct (CarManager.isPositionOccupied _ _ _); [reflexivity|].
  unfold GameState.addCar. rewrite layout_emitAll.
  unfold CarManager_addCar.
  destruct (CarManager.updateCarPosition _ _ _) as [m2 k'].
  match goal with
  | |- context [CarManager_requestPathForCar ?c ?wA] =>
      pose proof (scenery_layout _ _ (scenery_requestPathForCar c wA)) as Hsc;
      set (wB := CarManager_requestPathForCar c wA) in *
  end.
  unfold layout in *. cbn in *. inversion Hsc. congruence.
Qed.

(** An event other than an accepted pointer edit keeps the layout. *)
Lemma layout_step (ev : Event) (w : World) :
  isEdit ev = false \/ inputEnabled w = false -> layout (step ev w) = layout w.
Proof.
  intros H. destruct ev; cbn [step];
    try (destruct H as [H|H]; [discriminate H|rewrite H; reflexivity]).
  - apply layout_toggleSimulation.
  - case_bool_decide; [|reflexivity].
    rewrite layout_scheduleCarSpawn, layout_spawnCar. reflexivity.
  - case_bool_decide; [|reflexivity]. rewrite layout_removeCar. reflexivity.
  - destruct (getCar w carId) as [k|]; [|reflexivity].
    destruct (Car.currentTween k) as [targetCell|]; [|reflexivity].
    apply scenery_layout, scenery_onMoveComplete.
  - unfold GameScene_update. rewrite layout_checkEndConditions. apply layout_update.
Qed.

(** X20.  Between its load and the next reset (R key), the layout of
    a level (the grid with its cells and roads, the roads and the
    budget of the game state, the level) is frozen during a run: among
    pointer events, the space key, timers, tween completions and
    frames, only a pointer edit made while no simulation is running
    changes it.  Spawns, removals, frames, tween completions, starts
    and stops, won and lost runs never touch it. *)
Theorem layout_changes_only_by_edits_while_building
        (levelData : Level.t) (evs : list Event) (ev : Event) :
  let w := run evs (GameScene_loadLevel levelData) in
  layout (step ev w) <> layout w ->
  isEdit ev = true /\ GameState.isSimulating (gameState w) = false.
Proof.
  intros w Hch.
  destruct (Sound_run evs _ (Sound_loadLevel levelData)) as (_ & Hinp & _).
  fold w in Hinp.
  destruct (isEdit ev) eqn:He; [|exfalso; apply Hch, layout_step; auto].
  destruct (GameState.isSimulating (gameState w)); [|auto].
  exfalso. apply Hch, layout_step. right. exact Hinp.
Qed.

Lemma layout_changes_only_by_edits_while_building_witness :
  isEdit (PlaceRoadClick 1 0 0) = true
  /\ GameState.isSimulating
       (gameState (run [] (GameScene_loadLevel edgeLevel))) = false.
Proof.
  apply (layout_changes_only_by_edits_while_building edgeLevel [] (PlaceRoadClick 1 0 0)).
  vm_compute. intros E. inversion E.
Defined.

(** ** Budget and roads *)

Lemma Built_layout (l : Level.t) (w w' : World) :
  layout w' = layout w -> Built l w -> Built l w'.
Proof.
  unfold layout, Built. intros E. inversion E as [[E1 E2 E3 E4]].
  rewrite E1, E2, E3, E4. auto.
Qed.

Lemma lookup_fold_insert {A} (f : Cell -> A) (ks : list Cell) (m : gmap Cell A)
      (k : Cell) (a : A) :
  fold_left (fun m0 k0 => <[k0 := f k0]> m0) ks m !! k = Some a ->
  a = f k \/ m !! k = Some a.
Proof.
  revert m. induction ks as [|k0 ks IH]; intros m H; cbn [fold_left] in H; [auto|].
  apply IH in H as [H|H]; [auto|].
  destruct (decide (k0 = k)) as [->|Hne].
  - rewrite lookup_insert_eq in H. inversion H. auto.
  - rewrite lookup_insert_ne in H by exact Hne. auto.
Qed.

Lemma Built_loadLevel (l : Level.t) : Built l (GameScene_loadLevel l).
Proof.
  unfold Built. cbn.
  repeat (split; [reflexivity|]).
  split; [rewrite map_size_empty; lia|].
  split; [lia|]. split.
  - intros k ct Hk Hed. apply lookup_fold_insert in Hk as [->|Hk].
    + exact Hed.
    + rewrite lookup_empty in Hk. discriminate Hk.
  - intros k rd Hk. rewrite lookup_empty in Hk. discriminate Hk.
Qed.

Lemma lookup_setCellType (k k' : Cell) (ct : CellType) (m : gmap Cell CellType) :
  GridManager.setCellType k ct m !! k'
  = if decide (k = k')
    then match m !! k with Some _ => Some ct | None => None end
    else m !! k'.
Proof.
  unfold GridManager.setCellType.
  destruct (m !! k) eqn:E; destruct (decide (k = k')) as [->|Hne].
  - apply lookup_insert_eq.
  - apply lookup_insert_ne. exact Hne.
  - exact E.
  - reflexivity.
Qed.

Lemma isPositionEditable_true (g : GridManager.t) (r c : Z) :
  GridManager.isPositionEditable g r c = true ->
  GridManager.isValidPosition g r c = true
  /\ exists ct, GridManager.cells g !! gridKey r c = Some ct
                /\ GridManager.isEditable ct = true.
Proof.
  unfold GridManager.isPositionEditable.
  destruct (GridManager.isValidPosition g r c); [|discriminate].
  cbn [negb]. destruct (GridManager.cells g !! gridKey r c) as [ct|];
    [|discriminate]. eauto.
Qed.

Lemma Built_handleRoadPlacement (l : Level.t) (r c now : Z) (w : World) :
  Built l w -> GameState.isSimulating (gameState w) = false ->
  Built l (InputManager_handleRoadPlacement r c now w).
Proof.
  intros H Hsim. pose proof H as (Hl & Hld & Hr & Hc & Hm & Hb & Hpos & Hcells & Hroads).
  unfold InputManager_handleRoadPlacement.
  destruct (GridManager.isPositionEditable (gridManager w) r c) eqn:Hed; [|exact H].
  destruct (GridManager.hasRoad (gridManager w) r c) eqn:Hhas; [exact H|].
  destruct (GameState.canAfford (gameState w) GameConfig.roadCost) eqn:Haff;
    [|exact H].
  cbn [negb]. unfold GridManager.placeRoad. rewrite Hed, Hhas.
  destruct (isPositionEditable_true _ _ _ Hed) as (Hval & ct & Hct & Hcte).
  rewrite Hval. cbn [negb orb].
  unfold GridManager.hasRoad in Hhas. apply bool_decide_eq_false in Hhas.
  assert (GridManager.roads (gridManager w) !! gridKey r c = None) as Hnone
    by (destruct (GridManager.roads (gridManager w) !! gridKey r c);
        [exfalso; apply Hhas; eauto|reflexivity]).
  unfold GameState.placeRoad, GameState.hasRoad, GameState.spendBudget.
  rewrite Hsim, Haff. cbn [negb].
  rewrite bool_decide_eq_false_2
    by (rewrite Hm, Hnone; intros [? ?]; discriminate).
  rewrite emitAll_harmless by (repeat constructor).
  unfold GameState.canAfford in Haff. apply Z.leb_le in Haff.
  unfold Built. cbn.
  split; [exact Hl|]. split; [exact Hld|]. split; [exact Hr|]. split; [exact Hc|].
  split; [rewrite Hm; reflexivity|].
  split.
  { rewrite map_size_insert_None by (rewrite Hm; exact Hnone).
    rewrite Hb. unfold GameConfig.roadCost. lia. }
  split; [unfold GameConfig.roadCost in *; lia|].
  split.
  - intros k ct' Hk Hed'. rewrite lookup_setCellType in Hk.
    destruct (decide (gridKey r c = k)) as [<-|Hne].
    + eapply Hcells; eassumption.
    + eapply Hcells; eassumption.
  - intros k rd Hk.
    destruct (decide (gridKey r c = k)) as [<-|Hne].
    + rewrite lookup_insert_eq in Hk. inversion Hk; subst rd. clear Hk.
      unfold wellPlaced. cbn.
      rewrite lookup_setCellType, decide_True, Hct by reflexivity.
      repeat split; try assumption; try reflexivity.
      * eapply Hcells; eassumption.
      * constructor.
    + rewrite lookup_insert_ne in Hk by exact Hne.
      destruct (Hroads k rd Hk) as (H1 & H2 & H3 & H4 & H5 & H6).
      unfold wellPlaced. cbn.
      rewrite lookup_setCellType, decide_False by exact Hne.
      repeat split; assumption.
Qed.

Lemma Built_handleRoadDeletion (l : Level.t) (r c now : Z) (w : World) :
  Built l w -> GameState.isSimulating (gameState w) = false ->
  Built l (InputManager_handleRoadDeletion r c now w).
Proof.
  intros H Hsim. pose proof H as (Hl & Hld & Hr & Hc & Hm & Hb & Hpos & Hcells & Hroads).
  unfold InputManager_handleRoadDeletion.
  destruct (GridManager.hasRoad (gridManager w) r c) eqn:Hhas; [|exact H].
  cbn [negb]. unfold GridManager.removeRoad.
  destruct (GridManager.roads (gridManager w) !! gridKey r c) as [road|] eqn:Hroad;
    [|exact H].
  unfold GameState.removeRoad, GameState.addBudget. rewrite Hsim, Hm, Hroad.
  rewrite emitAll_harmless by (repeat constructor).
  destruct (Hroads _ _ Hroad) as (_ & _ & _ & Hcell & Hlev & _).
  assert (0 < size (GridManager.roads (gridManager w)))%nat as Hsz.
  { destruct (size (GridManager.roads (gridManager w))) eqn:E; [|lia].
    apply map_size_empty_iff in E. rewrite E, lookup_empty in Hroad.
    discriminate Hroad. }
  unfold Built. cbn.
  split; [exact Hl|]. split; [exact Hld|]. split; [exact Hr|]. split; [exact Hc|].
  split; [reflexivity|].
  split.
  { rewrite map_size_delete_Some by eauto.
    rewrite Hb, Hm. unfold GameConfig.roadCost. lia. }
  split; [unfold GameConfig.roadCost in *; lia|].
  split.
  - intros k ct' Hk Hed'. rewrite lookup_setCellType in Hk.
    destruct (decide (gridKey r c = k)) as [<-|Hne].
    + exact Hlev.
    + eapply Hcells; eassumption.
  - intros k rd Hk.
    destruct (decide (gridKey r c = k)) as [<-|Hne].
    + rewrite lookup_delete_eq in Hk. discriminate Hk.
    + rewrite lookup_delete_ne in Hk by exact Hne.
      destruct (Hroads k rd Hk) as (H1 & H2 & H3 & H4 & H5 & H6).
      unfold wellPlaced. cbn.
      rewrite lookup_setCellType, decide_False by exact Hne.
      repeat split; assumption.
Qed.

Lemma calculateDirection_cardinal (s e : Cell) (d : Direction) :
  InputManager_calculateDirection s e = Some d -> cardinal d.
Proof.
  unfold InputManager_calculateDirection, cardinal.
  repeat case_match; intros E; inversion E; subst; set_solver.
Qed.

Lemma Built_completeArrowDrawing (l : Level.t) (s e : Cell) (now : Z) (w : World) :
  Built l w -> Built l (InputManager_completeArrowDrawing s e now w).
Proof.
  intros H. pose proof H as (Hl & Hld & Hr & Hc & Hm & Hb & Hpos & Hcells & Hroads).
  unfold InputManager_completeArrowDrawing, GridManager.getRoad.
  destruct (GridManager.roads (gridManager w) !! gridKey (fst s) (snd s))
    as [road|] eqn:Hroad; [|exact H].
  destruct (InputManager_calculateDirection s e) as [d|] eqn:Hd; [|exact H].
  apply calculateDirection_cardinal in Hd.
  unfold GameState.updateRoadDirections, GameState.getRoad. rewrite Hm, Hroad.
  rewrite emitAll_harmless by (repeat constructor).
  assert (gridKey (fst s) (snd s) = s) as Hs by (destruct s; reflexivity).
  rewrite Hs in *.
  assert (<[s := Road.mk (Road.r road) (Road.c road)
                         (Road.directions (Road.addDirection road d))]>
            (GridManager.roads (gridManager w))
          = alter (fun rd => Road.addDirection rd d) s
                  (GridManager.roads (gridManager w))) as Halt.
  { apply map_eq. intros k. destruct (decide (s = k)) as [<-|Hne].
    - rewrite lookup_insert_eq, lookup_alter_eq, Hroad. reflexivity.
    - rewrite lookup_insert_ne, lookup_alter_ne by exact Hne. reflexivity. }
  unfold Built. cbn.
  split; [exact Hl|]. split; [exact Hld|]. split; [exact Hr|]. split; [exact Hc|].
  split; [exact Halt|].
  split.
  { rewrite map_size_insert_Some by eauto. rewrite Hb, Hm. reflexivity. }
  split; [exact Hpos|].
  split; [exact Hcells|].
  intros k rd Hk.
  destruct (decide (s = k)) as [<-|Hne].
  - rewrite lookup_alter_eq, Hroad in Hk. inversion Hk; subst rd. clear Hk.
    destruct (Hroads _ _ Hroad) as (H1 & H2 & H3 & H4 & H5 & H6).
    unfold wellPlaced. cbn. repeat split; try assumption.
    apply Forall_app. split; [exact H6|]. constructor; [exact Hd|constructor].
  - rewrite lookup_alter_ne in Hk by exact Hne.
    destruct (Hroads k rd Hk) as (H1 & H2 & H3 & H4 & H5 & H6).
    unfold wellPlaced. cbn. repeat split; assumption.
Qed.

Lemma Built_step (l : Level.t) (ev : Event) (w : World) :
  Inv w -> Built l w -> Built l (step ev w).
Proof.
  intros [_ Hq] H. unfold quiet in Hq.
  destruct (inputEnabled w) eqn:Hin.
  - specialize (Hq eq_refl).
    destruct ev;
      try (eapply Built_layout; [apply layout_step; left; reflexivity|exact H]);
      cbn [step]; rewrite Hin.
    + apply Built_handleRoadPlacement; assumption.
    + apply Built_handleRoadDeletion; assumption.
    + apply Built_completeArrowDrawing; assumption.
  - eapply Built_layout; [apply layout_step; right; exact Hin|exact H].
Qed.

Lemma Built_run (l : Level.t) (evs : list Event) (w : World) :
  Inv w -> Built l w -> Built l (run evs w).
Proof.
  unfold run. revert w. induction evs as [|ev evs IH]; intros w HI H; cbn [fold_left];
    [exact H|]. apply IH; [apply Inv_step, HI|apply Built_step; assumption].
Qed.

(** X21.  Budget accounting over the whole life of a loaded level,
    through any number of edits and runs: the road map of the game
    state and the road map of the grid are one and the same map, the
    budget is the initial budget of the level minus [roadCost] for each
    road now on the grid (a deleted road is refunded in full, a
    simulation costs nothing and refunds nothing), and the budget never
    falls below zero if the level starts with a non-negative one. *)
Theorem run_budget_accounting (levelData : Level.t) (evs : list Event) :
  let w := run evs (GameScene_loadLevel levelData) in
  GameState.roads (gameState w) = GridManager.roads (gridManager w)
  /\ GameState.budget (gameState w)
     = Level.initialBudget levelData
       - GameConfig.roadCost * Z.of_nat (size (GridManager.roads (gridManager w)))
  /\ Z.min 0 (Level.initialBudget levelData) <= GameState.budget (gameState w).
Proof.
  intros w.
  destruct (Built_run levelData evs _ (Inv_loadLevel levelData)
              (Built_loadLevel levelData))
    as (_ & _ & _ & _ & Hm & Hb & Hpos & _).
  fold w in Hm, Hb, Hpos. rewrite <- Hm. auto.
Qed.

(** X22.  Every road that is ever on the grid of a loaded level lies
    inside the grid, on a cell whose type in the level is editable (so
    never on a tree or a building), under the key of its own
    coordinates; the cell is typed ROAD; and its arrows are among up,
    down, left and right.  The grid keeps the dimensions and the level
    it was initialised with. *)
Theorem run_roads_well_placed (levelData : Level.t) (evs : list Event) :
  let w := run evs (GameScene_loadLevel levelData) in
  GridManager.rows (gridManager w) = Level.grid_rows levelData
  /\ GridManager.columns (gridManager w) = Level.grid_columns levelData
  /\ GameState.level (gameState w) = levelData
  /\ forall r c rd,
      GridManager.getRoad (gridManager w) r c = Some rd ->
      Road.r rd = r /\ Road.c rd = c
      /\ isValidGridPosition r c (Level.grid_rows levelData)
                             (Level.grid_columns levelData) = true
      /\ GridManager.cells (gridManager w) !! gridKey r c = Some ROAD
      /\ GridManager.isEditable (GridManager.getCellType (Some levelData) r c) = true
      /\ Forall (fun d => d ∈ [UP; DOWN; LEFT; RIGHT]) (Road.directions rd).
Proof.
  intros w.
  destruct (Built_run levelData evs _ (Inv_loadLevel levelData)
              (Built_loadLevel levelData))
    as (Hl & _ & Hr & Hc & _ & _ & _ & _ & Hroads).
  fold w in Hl, Hr, Hc, Hroads.
  split; [exact Hr|]. split; [exact Hc|]. split; [exact Hl|].
  intros r c rd Hrd. destruct (Hroads _ _ Hrd) as (H1 & H2 & H3 & H4 & H5 & H6).
  unfold GridManager.isValidPosition in H3. rewrite Hr, Hc in H3.
  repeat split; assumption.
Qed.

Lemma gridManager_emitAll (now : Z) (evs : list GameState.Event) (w : World) :
  gridManager (emitAll now evs w) = gridManager w.
Proof.
  exact (f_equal (fun x => fst (fst (fst x))) (layout_emitAll now evs w)).
Qed.

Lemma roads_handleRoadPlacement (r c now : Z) (w : World) :
  let w' := InputManager_handleRoadPlacement r c now w in
  GridManager.roads (gridManager w') = GridManager.roads (gridManager w)
  \/ GridManager.roads (gridManager w')
     = <[gridKey r c := Road.mk r c []]> (GridManager.roads (gridManager w)).
Proof.
  cbv zeta. unfold InputManager_handleRoadPlacement.
  destruct (negb (GridManager.isPositionEditable _ _ _)); [auto|].
  destruct (GridManager.hasRoad _ _ _) eqn:Hhas; [auto|].
  destruct (negb (GameState.canAfford _ _)); [auto|].
  unfold GridManager.placeRoad. rewrite Hhas.
  destruct (_ || _); [auto|].
  destruct (GameState.placeRoad _ _ _ _) as [[b gs] evs].
  rewrite gridManager_emitAll. auto.
Qed.

Lemma roads_handleRoadDeletion (r c now : Z) (w : World) :
  GridManager.roads (gridManager (InputManager_handleRoadDeletion r c now w))
  = delete (gridKey r c) (GridManager.roads (gridManager w)).
Proof.
  unfold InputManager_handleRoadDeletion, GridManager.hasRoad, GridManager.removeRoad.
  destruct (GridManager.roads (gridManager w) !! gridKey r c) as [rd|] eqn:Hrd.
  - rewrite bool_decide_eq_true_2 by eauto. cbn [negb].
    destruct (GameState.removeRoad (gameState w) r c) as [[b gs] evs].
    rewrite gridManager_emitAll. reflexivity.
  - rewrite bool_decide_eq_false_2 by (intros [? ?]; discriminate).
    cbn [negb]. symmetry. apply delete_id. exact Hrd.
Qed.

(** X23.  Placing a road and deleting it again is an undo.  In any state
    reached from a loaded level, for a cell that holds no road, a click
    that places a road there followed by a click that deletes it leaves
    the roads of the grid, the roads of the game state and the budget as
    they were, whether the placement was accepted or refused (cell not
    editable, budget too low, simulation running). *)
Theorem place_then_delete_is_undo
        (levelData : Level.t) (evs : list Event) (r c t1 t2 : Z) :
  let w := run evs (GameScene_loadLevel levelData) in
  GridManager.hasRoad (gridManager w) r c = false ->
  let w' := run [PlaceRoadClick r c t1; DeleteRoadClick r c t2] w in
  GridManager.roads (gridManager w') = GridManager.roads (gridManager w)
  /\ GameState.roads (gameState w') = GameState.roads (gameState w)
  /\ GameState.budget (gameState w') = GameState.budget (gameState w).
Proof.
  intros w Hno w'.
  assert (GridManager.roads (gridManager w) !! gridKey r c = None) as Hnone.
  { unfold GridManager.hasRoad in Hno. apply bool_decide_eq_false in Hno.
    destruct (GridManager.roads (gridManager w) !! gridKey r c);
      [exfalso; apply Hno; eauto|reflexivity]. }
  assert (GridManager.roads (gridManager w') = GridManager.roads (gridManager w)) as Hgm.
  { unfold w', run. cbn [fold_left step].
    destruct (inputEnabled w) eqn:Hin; [|rewrite Hin; reflexivity].
    assert (inputEnabled (InputManager_handleRoadPlacement r c t1 w) = inputEnabled w)
      as Hin'
        by exact (f_equal (fun x => snd (fst (fst (fst x))))
                          (phaseView_handleRoadPlacement r c t1 w)).
    rewrite Hin', Hin, roads_handleRoadDeletion.
    destruct (roads_handleRoadPlacement r c t1 w) as [-> | ->].
    - apply delete_id. exact Hnone.
    - apply delete_insert_id. exact Hnone. }
  destruct (Built_run levelData evs _ (Inv_loadLevel levelData)
              (Built_loadLevel levelData)) as (_ & _ & _ & _ & Hm & Hb & _).
  destruct (Built_run levelData (evs ++ [PlaceRoadClick r c t1; DeleteRoadClick r c t2])
              _ (Inv_loadLevel levelData) (Built_loadLevel levelData))
    as (_ & _ & _ & _ & Hm' & Hb' & _).
  unfold run in Hm', Hb'. rewrite fold_left_app in Hm', Hb'.
  fold (run evs (GameScene_loadLevel levelData)) in Hm', Hb'.
  fold w in Hm, Hb, Hm', Hb'.
  fold (run [PlaceRoadClick r c t1; DeleteRoadClick r c t2] w) in Hm', Hb'.
  fold w' in Hm', Hb'.
  split; [exact Hgm|]. split; [congruence|]. rewrite Hb', Hb, Hm', Hm, Hgm.
  reflexivity.
Qed.

Lemma place_then_delete_is_undo_witness :
  let w := run [PlaceRoadClick 1 0 0] (GameScene_loadLevel edgeLevel) in
  let w' := run [PlaceRoadClick 1 1 5; DeleteRoadClick 1 1 9] w in
  GridManager.roads (gridManager w') = GridManager.roads (gridManager w)
  /\ GameState.roads (gameState w') = GameState.roads (gameState w)
  /\ GameState.budget (gameState w') = GameState.budget (gameState w).
Proof.
  apply (place_then_delete_is_undo edgeLevel [PlaceRoadClick 1 0 0] 1 1 5 9).
  vm_compute. reflexivity.
Defined.

(** ** The fate of one car *)

(** *** What a car does leaves the other car objects alone *)

Section OtherCar.
Variables (w0 : World) (i carId : CarId).
Hypothesis Hne : carId <> i.

Local Abbreviation T := (sameCar i w0).

Lemma T_withCar f w : T w -> T (withCar carId f w).
Proof.
  unfold sameCar, getCar, withCar. cbn. intros <-. apply lookup_alter_ne. exact Hne.
Qed.

Lemma T_handleCarReachedExit c w : T w -> T (CarManager_handleCarReachedExit c w).
Proof. exact id. Qed.

Lemma T_handleCarFailed c w : T w -> T (CarManager_handleCarFailed c w).
Proof. exact id. Qed.

Lemma T_pathQuery w s e w1 p :
  CarManager_pathQuery w s e = (w1, p) -> T w -> T w1.
Proof.
  unfold CarManager_pathQuery. intros E H. inversion E; subst. clear E.
  destruct (GameState.pathfindingGridDirty (gameState w)); exact H.
Qed.

Lemma T_handlePathRequest s e w : T w -> T (CarManager_handlePathRequest carId s e w).
Proof.
  intros H. unfold CarManager_handlePathRequest.
  destruct (CarManager_pathQuery w s e) as [w1 p] eqn:E.
  apply T_withCar. eapply T_pathQuery; eassumption.
Qed.

Lemma T_requestPathForCar w : T w -> T (CarManager_requestPathForCar carId w).
Proof.
  intros H. unfold CarManager_requestPathForCar.
  case_match; auto using T_handlePathRequest.
Qed.

Lemma T_requestNewPath w : T w -> T (Car_requestNewPath carId w).
Proof.
  intros H. unfold Car_requestNewPath.
  case_match; auto using T_withCar, T_handlePathRequest.
Qed.

Lemma T_checkCollision c w w' r :
  Car_checkCollision carId c w = (w', r) -> T w -> T w'.
Proof.
  unfold Car_checkCollision, CarManager_handleCollisionCheck.
  intros E H.
  destruct (filter _ _); simpl in E; inversion E; subst; auto using T_withCar.
Qed.

Lemma T_moveToCell c w : T w -> T (Car_moveToCell carId c w).
Proof. apply T_withCar. Qed.

Lemma T_reachDestination w : T w -> T (Car_reachDestination carId w).
Proof. intros. apply T_handleCarReachedExit, T_withCar. assumption. Qed.

Lemma T_triggerFailure w : T w -> T (Car_triggerFailure carId w).
Proof. intros. apply T_handleCarFailed, T_withCar. assumption. Qed.

Lemma T_checkIfReachedExit w : T w -> T (Car_checkIfReachedExit carId w).
Proof.
  intros H. unfold Car_checkIfReachedExit.
  repeat case_match; auto using T_reachDestination.
Qed.

Lemma T_onMoveComplete c w : T w -> T (Car_onMoveComplete carId c w).
Proof. intros. apply T_checkIfReachedExit, T_withCar. assumption. Qed.

Local Hint Resolve T_withCar T_handlePathRequest T_requestPathForCar
  T_requestNewPath T_moveToCell T_reachDestination T_triggerFailure
  T_checkIfReachedExit T_onMoveComplete : core.

Lemma T_updateMoving time delta w : T w -> T (Car_updateMoving carId time delta w).
Proof.
  intros H. unfold Car_updateMoving.
  destruct (getCar w carId) as [k0|]; [|assumption].
  set (w1 := if Car.needsNewPath k0 then Car_requestNewPath carId w else w).
  assert (T w1) as H1 by (unfold w1; case_match; auto).
  clearbody w1. clear H.
  destruct (getCar w1 carId) as [k1|]; [|assumption].
  match goal with
  | |- T (let '(_, _) := ?X in _) => destruct X as [w2 returned] eqn:E
  end.
  assert (T w2) as H2.
  { repeat case_match; inversion E; subst; eauto using T_checkCollision. }
  clear E. destruct returned; [assumption|].
  destruct (getCar w2 carId) as [k2|]; [|assumption].
  match goal with
  | |- context [if ?c then Car_reachDestination carId w2 else w2] =>
      set (w3 := if c then Car_reachDestination carId w2 else w2)
  end.
  assert (T w3) as H3 by (unfold w3; case_match; auto).
  clearbody w3.
  repeat case_match; auto.
Qed.

Lemma T_updateWaiting time delta w : T w -> T (Car_updateWaiting carId time delta w).
Proof.
  intros H. unfold Car_updateWaiting.
  set (w1 := withCar carId _ w).
  assert (T w1) as H1 by (unfold w1; auto).
  clearbody w1. clear H.
  destruct (getCar w1 carId) as [k1|]; [|assumption].
  match goal with
  | |- T (let '(_, _) := ?X in _) => destruct X as [w2 returned] eqn:E
  end.
  assert (T w2) as H2.
  { repeat case_match; inversion E; subst; eauto using T_checkCollision. }
  clear E. destruct returned; [assumption|].
  destruct (getCar w2 carId) as [k2|]; [|assumption].
  match goal with
  | |- context [if ?c then Car_triggerFailure carId w2 else w2] =>
      set (w3 := if c then Car_triggerFailure carId w2 else w2)
  end.
  assert (T w3) as H3 by (unfold w3; case_match; auto).
  clearbody w3.
  repeat case_match; auto.
Qed.

Lemma T_update time delta w : T w -> T (Car_update carId time delta w).
Proof.
  intros H. unfold Car_update.
  repeat case_match; auto using T_updateMoving, T_updateWaiting.
Qed.
End OtherCar.

Lemma getCar_update_other (i carId : CarId) (time delta : Z) (w : World) :
  carId <> i -> getCar (Car_update carId time delta w) i = getCar w i.
Proof. intros Hne. apply (T_update w i carId Hne). reflexivity. Qed.

Lemma getCar_onMoveComplete_other (i carId : CarId) (c : Cell) (w : World) :
  carId <> i -> getCar (Car_onMoveComplete carId c w) i = getCar w i.
Proof. intros Hne. apply (T_onMoveComplete w i carId Hne). reflexivity. Qed.

Lemma getCar_requestPathForCar_other (i carId : CarId) (w : World) :
  carId <> i -> getCar (CarManager_requestPathForCar carId w) i = getCar w i.
Proof. intros Hne. apply (T_requestPathForCar w i carId Hne). reflexivity. Qed.

(** *** What stops and removals do to a car object *)

Section Removal.
Variables (w0 : World) (i : CarId).

Local Abbreviation Gone := (goneOrSame i w0).

Lemma Gone_same w w' : getCar w' i = getCar w i -> Gone w -> Gone w'.
Proof. unfold goneOrSame. intros ->. auto. Qed.

Lemma Gone_clearAllCars w : Gone w -> Gone (CarManager_clearAllCars w).
Proof.
  unfold goneOrSame, CarManager_clearAllCars, getCar. cbn.
  generalize (CarManager.cars (carManager w)) (carObjects w).
  induction l as [|j l IH]; intros h H; cbn [fold_left]; [exact H|].
  apply IH. destruct (decide (j = i)) as [->|Hne].
  - left. apply lookup_delete_eq.
  - rewrite lookup_delete_ne by exact Hne. exact H.
Qed.

Lemma Gone_dispatchBasic ev w : Gone w -> Gone (dispatchBasic ev w).
Proof.
  intros H. destruct ev; cbn [dispatchBasic]; try exact H.
  - eapply Gone_same; [|exact H]. unfold InputManager_disable. cbn.
    unfold getCar, CarManager_startSimulation.
    destruct (CarManager.levelData (carManager w)); [|reflexivity].
    rewrite scheduleCarSpawn_fold by reflexivity. reflexivity.
  - unfold InputManager_enable, CarManager_stopSimulation.
    apply (Gone_same (CarManager_clearAllCars
                     (with_timers
                        (List.filter (fun t => negb (isSpawnTimer t)) (timers w))
                        (with_carManager
                           (CarManager.set_isSpawning false (carManager w)) w))));
      [reflexivity|].
    apply Gone_clearAllCars. exact H.
  - unfold CarManager_initializeForLevel.
    eapply Gone_same; [|apply Gone_clearAllCars, H]. reflexivity.
Qed.

Lemma Gone_GameScene_stopSimulation now w : Gone w -> Gone (GameScene_stopSimulation now w).
Proof.
  intros H. unfold GameScene_stopSimulation.
  destruct (GameState.stopSimulation (gameState w) now) as [gs evs].
  assert (Gone (with_gameState gs w)) as H1 by exact H.
  revert H1. generalize (with_gameState gs w).
  induction evs as [|ev evs IH]; intros w1 H1; cbn [fold_left]; [exact H1|].
  apply IH, Gone_dispatchBasic, H1.
Qed.

Lemma Gone_dispatch now ev w : Gone w -> Gone (dispatch now ev w).
Proof.
  intros H. destruct ev; cbn [dispatch];
    first [apply Gone_GameScene_stopSimulation, H|apply Gone_dispatchBasic, H].
Qed.

Lemma Gone_emitAll now evs w : Gone w -> Gone (emitAll now evs w).
Proof.
  unfold emitAll. revert w.
  induction evs as [|ev evs IH]; intros w H; cbn [fold_left]; [exact H|].
  apply IH, Gone_dispatch, H.
Qed.

Lemma Gone_removeCar carId now w : Gone w -> Gone (CarManager_removeCar carId now w).
Proof.
  intros H. unfold CarManager_removeCar.
  case_bool_decide; [|exact H].
  destruct (getCar w carId) as [k|]; [|exact H].
  destruct (GameState.removeCar _ _ _ _) as [gs evs].
  apply Gone_emitAll.
  unfold goneOrSame, getCar in *. cbn.
  destruct (decide (carId = i)) as [->|Hne].
  - left. apply lookup_delete_eq.
  - rewrite lookup_delete_ne by exact Hne. exact H.
Qed.

Lemma Gone_fold {A} (f : A -> World -> World) (l : list A) w :
  (forall a w1, Gone w1 -> Gone (f a w1)) ->
  Gone w -> Gone (fold_left (fun w1 a => f a w1) l w).
Proof.
  intros Hf. revert w. induction l as [|a l IH]; intros w H; cbn [fold_left]; auto.
Qed.

Lemma Gone_checkEndConditions now w : Gone w -> Gone (GameScene_checkEndConditions now w).
Proof.
  intros H. unfold GameScene_checkEndConditions.
  destruct (GameState.isSimulating (gameState w)); [|exact H].
  destruct (CarManager.checkEndConditions _) as [[|]|]; [| |exact H];
    apply Gone_dispatch; exact H.
Qed.
End Removal.

Lemma getCar_spawnCar_other (i : CarId) (n choice : nat) (newId : CarId) (now : Z)
      (w : World) :
  newId <> i -> getCar (CarManager_spawnCar n choice newId now w) i = getCar w i.
Proof.
  intros Hne. unfold CarManager_spawnCar.
  destruct (negb _); [reflexivity|].
  destruct (CarManager.levelData _) as [l|]; [|reflexivity].
  destruct (Level.cars l !! n) as [carType|]; [|reflexivity].
  destruct (Level.entrances carType !! choice) as [entrance|]; [|reflexivity].
  destruct (CarManager.isPositionOccupied _ _ _); [reflexivity|].
  unfold GameState.addCar. rewrite emitAll_harmless by (repeat constructor).
  unfold CarManager_addCar.
  destruct (CarManager.updateCarPosition _ _ _) as [m2 k'].
  change (getCar (CarManager_requestPathForCar newId
                    (with_carObjects (<[newId := k']> (carObjects w))
                                     (with_carManager m2 w))) i = getCar w i).
  rewrite getCar_requestPathForCar_other by exact Hne.
  unfold getCar. cbn. apply lookup_insert_ne. exact Hne.
Qed.

Section CarFate.
Variables (i : CarId) (P : Car.t -> Prop) (G : World -> Prop).
Hypothesis P_tween : forall k, P k -> Car.currentTween k = None.
Hypothesis G_update : forall j t d w, G w -> G (Car_update j t d w).
Hypothesis P_update :
  forall w t d k, G w -> getCar w i = Some k -> P k ->
                  exists k', getCar (Car_update i t d w) i = Some k' /\ P k'.
Hypothesis G_step : forall ev w, G w -> G (step ev w).

Local Abbreviation F := (fate i P).

Lemma F_gone (w0 w : World) : goneOrSame i w0 w -> F w0 -> F w.
Proof.
  unfold fate. intros [H|H] H0 k Hk; [congruence|]. apply H0. congruence.
Qed.

Lemma F_same (w0 w : World) : getCar w i = getCar w0 i -> F w0 -> F w.
Proof. intros H. apply F_gone. right. exact H. Qed.

Lemma F_updates (time delta : Z) (l : list CarId) (w : World) :
  G w -> F w -> F (fold_left (fun w1 j => Car_update j time delta w1) l w).
Proof.
  revert w. induction l as [|j l IH]; intros w HG HF; cbn [fold_left]; [exact HF|].
  apply IH; [apply G_update, HG|].
  destruct (decide (j = i)) as [->|Hne].
  - intros k' Hk'.
    destruct (getCar w i) as [k|] eqn:Hk.
    + destruct (P_update w time delta k HG Hk (HF k Hk)) as (k1 & Hk1 & HP).
      congruence.
    + exfalso.
      assert (dom (carObjects (Car_update i time delta w)) = dom (carObjects w)) as Hd
          by exact (f_equal snd (scenery_update i time delta w)).
      unfold getCar in Hk, Hk'. apply not_elem_of_dom in Hk.
      rewrite <- Hd in Hk. apply not_elem_of_dom in Hk. congruence.
  - eapply F_same; [|exact HF]. apply getCar_update_other. exact Hne.
Qed.

Lemma F_step (ev : Event) (w : World) :
  reuses i ev = false -> G w -> F w -> F (step ev w).
Proof.
  intros Hre HG HF. destruct ev; cbn [step].
  - destruct (inputEnabled w); [|exact HF].
    eapply F_same; [|exact HF].
    exact (f_equal (fun x => snd x !! i) (phaseView_handleRoadPlacement r c now w)).
  - destruct (inputEnabled w); [|exact HF].
    eapply F_same; [|exact HF].
    exact (f_equal (fun x => snd x !! i) (phaseView_handleRoadDeletion r c now w)).
  - destruct (inputEnabled w); [|exact HF].
    eapply F_same; [|exact HF].
    exact (f_equal (fun x => snd x !! i)
                   (phaseView_completeArrowDrawing startCell endCell now w)).
  - unfold GameScene_toggleSimulation.
    destruct (GameState.isSimulating (gameState w)).
    + eapply F_gone; [|exact HF]. apply Gone_GameScene_stopSimulation. right. reflexivity.
    + eapply F_same; [|exact HF].
      destruct (startSimulation_carManager now w) as (_ & _ & _ & E).
      unfold getCar. rewrite E. reflexivity.
  - cbn in Hre. apply bool_decide_eq_false in Hre.
    case_bool_decide; [|exact HF].
    eapply F_same; [|exact HF].
    transitivity (getCar (CarManager_spawnCar carTypeIndex entranceChoice newId now
                            (with_timers (removeTimer (SpawnTimer carTypeIndex) (timers w)) w))
                         i).
    + unfold CarManager_scheduleCarSpawn. repeat case_match; reflexivity.
    + rewrite getCar_spawnCar_other by exact Hre. reflexivity.
  - case_bool_decide; [|exact HF].
    eapply F_gone; [|exact HF]. apply Gone_removeCar. right. reflexivity.
  - destruct (getCar w carId) as [k|] eqn:Hk; [|exact HF].
    destruct (Car.currentTween k) as [targetCell|] eqn:Htw; [|exact HF].
    destruct (decide (carId = i)) as [->|Hne].
    + rewrite (P_tween k (HF k Hk)) in Htw. discriminate Htw.
    + eapply F_same; [|exact HF]. apply getCar_onMoveComplete_other. exact Hne.
  - unfold GameScene_update, CarManager_update.
    set (w1 := fold_left _ (CarManager.cars (carManager w)) w).
    assert (F w1) as H1 by (apply F_updates; assumption).
    clearbody w1.
    eapply F_gone; [|exact H1]. apply Gone_checkEndConditions.
    destruct (_ <? _); [|right; reflexivity].
    unfold CarManager_cleanupTerminalCars.
    apply Gone_fold; [intros; apply Gone_removeCar; assumption|right; reflexivity].
Qed.

Lemma F_run (evs : list Event) (w : World) :
  Forall (fun ev => reuses i ev = false) evs -> G w -> F w -> F (run evs w).
Proof.
  unfold run. intros Hevs. revert w.
  induction Hevs as [|ev evs Hev _ IH]; intros w HG HF; cbn [fold_left]; [exact HF|].
  apply IH; [apply G_step, HG|apply F_step; assumption].
Qed.
End CarFate.

(** ** Cars that never move *)

Lemma getCar_handleCarFailed (carId i : CarId) (w : World) :
  getCar (CarManager_handleCarFailed carId w) i = getCar w i.
Proof. reflexivity. Qed.

Lemma Car_update_halted (carId : CarId) (time delta : Z) (w : World) (k : Car.t)
      (r c : Z) :
  getCar w carId = Some k -> haltedAt r c k ->
  exists k', getCar (Car_update carId time delta w) carId = Some k'
             /\ haltedAt r c k'.
Proof.
  intros Hk ([Hst|Hst] & Hbl & Htw & Hr & Hc); unfold Car_update;
    rewrite (getCar_withCar _ _ _ _ Hk); cbn [Car.state Car.set_lastMoveTime];
    rewrite Hst.
  2:{ eexists. split; [apply getCar_withCar; exact Hk|].
      unfold haltedAt. cbn. auto 10. }
  unfold Car_updateWaiting.
  set (w1 := withCar carId (Car.set_lastMoveTime time) w).
  assert (getCar w1 carId = Some (Car.set_lastMoveTime time k)) as H1
    by (apply getCar_withCar; exact Hk).
  rewrite (getCar_withCar _ _ _ _ H1).
  cbn [Car.isBlocked Car.set_lastMoveTime Car.set_totalWaitTime Car.set_waitTime].
  rewrite Hbl. cbn [andb].
  set (w2 := withCar carId _ w1).
  assert (exists k2, getCar w2 carId = Some k2 /\ haltedAt r c k2) as (k2 & H2 & Hh2).
  { eexists. split; [apply getCar_withCar; exact H1|].
    unfold haltedAt. cbn. auto 10. }
  clearbody w2. rewrite H2.
  set (w3 := if GameConfig.maxWaitTime <? Car.waitTime k2
             then Car_triggerFailure carId w2 else w2).
  assert (exists k3, getCar w3 carId = Some k3 /\ haltedAt r c k3) as (k3 & H3 & Hh3).
  { unfold w3. destruct (_ <? _); [|eauto].
    unfold Car_triggerFailure. rewrite getCar_handleCarFailed.
    eexists. split; [apply getCar_withCar; exact H2|].
    destruct Hh2 as (_ & ? & ? & ? & ?). unfold haltedAt. cbn. auto 10. }
  clearbody w3. rewrite H3.
  destruct (_ <? _); [|eauto].
  eexists. split; [apply getCar_withCar; exact H3|].
  destruct Hh3 as (? & ? & ? & ? & ?). unfold haltedAt. cbn. auto 10.
Qed.

Lemma pathQuery_carObjects (w : World) (s e : Position) :
  carObjects (fst (CarManager_pathQuery w s e)) = carObjects w.
Proof.
  unfold CarManager_pathQuery.
  destruct (GameState.pathfindingGridDirty (gameState w)); reflexivity.
Qed.

Lemma pathQuery_fresh (w : World) (s e : Position) :
  InvW w ->
  fresh (fst (CarManager_pathQuery w s e))
  /\ gridManager (fst (CarManager_pathQuery w s e)) = gridManager w.
Proof.
  intros HW. unfold CarManager_pathQuery.
  destruct (GameState.pathfindingGridDirty (gameState w)) eqn:Hd; cbn [fst].
  - destruct (J_updatePathfindingGrid _ w (conj HW eq_refl)) as [(_ & _ & Hf) _].
    split; [apply Hf; reflexivity|reflexivity].
  - split; [apply (proj2 (proj2 HW)); exact Hd|reflexivity].
Qed.

(** No route starts outside the grid, unless the start is flagged as an
    entrance. *)
Lemma findPathWithEntrances_outside (pf : PathFinder.t) (r c : Z) (e : Position)
      (R C : Z) :
  PathFinder.gridWidth pf = C -> PathFinder.gridHeight pf = R ->
  isValidGridPosition r c R C = false ->
  PathFinder.findPathWithEntrances pf (plainPosition (r, c)) e R C = None.
Proof.
  intros HC HR Hout. unfold PathFinder.findPathWithEntrances. cbn.
  destruct (if isEntrance e then _ else _) as [e'|]; [|reflexivity].
  unfold PathFinder.findPath. destruct (PathFinder.grid pf); [|reflexivity].
  rewrite HC, HR, Hout. reflexivity.
Qed.

Lemma pathQuery_outside (w : World) (r c : Z) (e : Position) :
  InvW w ->
  isValidGridPosition r c (GridManager.rows (gridManager w))
                      (GridManager.columns (gridManager w)) = false ->
  snd (CarManager_pathQuery w (plainPosition (r, c)) e) = None.
Proof.
  intros HW Hout.
  destruct (pathQuery_fresh w (plainPosition (r, c)) e HW) as [Hf Hgm].
  unfold CarManager_pathQuery in *. cbn [fst snd] in *.
  destruct Hf as (HC & HR & _).
  apply findPathWithEntrances_outside; [exact HC|exact HR|].
  rewrite Hgm. exact Hout.
Qed.

Lemma Car_update_stranded (carId : CarId) (time delta : Z) (w : World) (k : Car.t)
      (r c : Z) :
  InvW w ->
  isValidGridPosition r c (GridManager.rows (gridManager w))
                      (GridManager.columns (gridManager w)) = false ->
  getCar w carId = Some k -> strandedAt r c k ->
  exists k', getCar (Car_update carId time delta w) carId = Some k'
             /\ haltedAt r c k'.
Proof.
  intros HW Hout Hk [Hh|(Hst & Hneed & Hbl & Htw & Hr & Hc)].
  { eapply Car_update_halted; eassumption. }
  unfold Car_update.
  rewrite (getCar_withCar _ _ _ _ Hk). cbn [Car.state Car.set_lastMoveTime].
  rewrite Hst. unfold Car_updateMoving.
  set (w0 := withCar carId (Car.set_lastMoveTime time) w).
  assert (getCar w0 carId = Some (Car.set_lastMoveTime time k)) as H0
    by (apply getCar_withCar; exact Hk).
  assert (InvW w0) as HW0 by (eapply InvW_core; [|exact HW]; reflexivity).
  rewrite H0. cbn [Car.needsNewPath Car.set_lastMoveTime]. rewrite Hneed.
  unfold Car_requestNewPath. rewrite H0.
  cbn [Car.gridRow Car.gridCol Car.targetPosition Car.set_lastMoveTime].
  unfold CarManager_handlePathRequest.
  pose proof (pathQuery_outside w0 (Car.gridRow k) (Car.gridCol k)
                (Car.targetPosition k) HW0) as Hp.
  rewrite Hr, Hc in Hp. specialize (Hp Hout).
  pose proof (pathQuery_carObjects w0 (plainPosition (Car.gridRow k, Car.gridCol k))
                (Car.targetPosition k)) as Ho.
  rewrite Hr, Hc in Ho. rewrite Hr, Hc.
  destruct (CarManager_pathQuery w0 (plainPosition (r, c)) (Car.targetPosition k))
    as [wq p].
  cbn [fst snd] in Hp, Ho. subst p.
  assert (getCar wq carId = Some (Car.set_lastMoveTime time k)) as Hq
    by (unfold getCar; rewrite Ho; exact H0).
  set (w1 := withCar carId (Car.set_needsNewPath false)
                     (withCar carId (Car.setPath None) wq)).
  assert (getCar w1 carId
          = Some (Car.set_needsNewPath false
                    (Car.setPath None (Car.set_lastMoveTime time k)))) as H1
    by (apply getCar_withCar, getCar_withCar; exact Hq).
  clearbody w1. rewrite H1. cbn [Car.hasPath Car.setPath Car.set_needsNewPath
    Car.set_state Car.set_route andb]. rewrite H1.
  cbn [Car.hasPath Car.setPath Car.set_needsNewPath Car.set_state Car.set_route andb].
  rewrite H1.
  cbn [Car.hasPath Car.setPath Car.set_needsNewPath Car.set_state Car.set_route
         negb orb].
  eexists. split; [apply getCar_withCar; exact H1|].
  unfold haltedAt. cbn. auto 10.
Qed.

Lemma strandedAt_tween (r c : Z) (k : Car.t) :
  strandedAt r c k -> Car.currentTween k = None.
Proof. intros [(_ & _ & H & _)|(_ & _ & _ & H & _)]; exact H. Qed.

Lemma Inv_Car_update (j : CarId) (t d : Z) (w : World) :
  Inv w -> Inv (Car_update j t d w).
Proof.
  intros H. apply (J_Inv w (Car_update j t d)); [|exact H].
  intros b. apply J_update.
Qed.

Lemma Built_Car_update (l : Level.t) (j : CarId) (t d : Z) (w : World) :
  Built l w -> Built l (Car_update j t d w).
Proof. apply Built_layout, scenery_layout, scenery_update. Qed.

(** X24.  Waiting is a dead end.  A car that waits without being flagged
    as blocked (every car without a route is in that case, and the
    collision check never sets the flag) or that has failed, and has no
    tween running, never moves again: whatever events follow (frames
    of any length, tween completions, timers, stops and restarts,
    edits), as long as its identifier is not given to a new car, the car
    object is either removed or still at the same cell, waiting or
    failed, unblocked and without a tween. *)
Theorem halted_car_never_resumes
        (w : World) (evs : list Event) (i : CarId) (k : Car.t) :
  getCar w i = Some k ->
  Car.state k = WAITING \/ Car.state k = FAILED ->
  Car.isBlocked k = false -> Car.currentTween k = None ->
  Forall (fun ev => reuses i ev = false) evs ->
  match getCar (run evs w) i with
  | Some k' =>
      (Car.state k' = WAITING \/ Car.state k' = FAILED)
      /\ Car.isBlocked k' = false /\ Car.currentTween k' = None
      /\ Car.gridRow k' = Car.gridRow k /\ Car.gridCol k' = Car.gridCol k
  | None => True
  end.
Proof.
  intros Hk Hst Hbl Htw Hevs.
  assert (fate i (haltedAt (Car.gridRow k) (Car.gridCol k)) (run evs w)) as HF.
  { apply (F_run i _ (fun _ => True)); auto.
    - intros k0 (_ & _ & H & _). exact H.
    - intros w0 t d k0 _ Hk0 Hh. eapply Car_update_halted; eassumption.
    - intros k0 Hk0. rewrite Hk in Hk0. inversion Hk0; subst k0.
      unfold haltedAt. auto. }
  destruct (getCar (run evs w) i) as [k'|] eqn:Hk'; [|exact I].
  exact (HF k' Hk').
Qed.

Lemma halted_car_never_resumes_witness :
  match getCar (run [ Frame 5000 1000 5000; Frame 6000 1000 6000;
                      TweenCompleted "A"; Frame 17000 11000 17000;
                      TweenCompleted "B"; SpawnTimerFired 0 0 "D" 18000 ]
                    (run laneSpawned (GameScene_loadLevel laneLevel))) "B" with
  | Some k' =>
      (Car.state k' = WAITING \/ Car.state k' = FAILED)
      /\ Car.isBlocked k' = false /\ Car.currentTween k' = None
      /\ Car.gridRow k' = Car.gridRow strandedCar
      /\ Car.gridCol k' = Car.gridCol strandedCar
  | None => True
  end.
Proof.
  apply (halted_car_never_resumes
           (run laneSpawned (GameScene_loadLevel laneLevel)) _ "B" strandedCar).
  - vm_compute. reflexivity.
  - left. reflexivity.
  - reflexivity.
  - reflexivity.
  - repeat constructor.
Defined.

(** X25.  A car that stands outside the grid never enters it.  In a
    state reached from a loaded level, take a car whose cell is outside
    the grid, with no tween running and not flagged as blocked, that
    is either about to ask for a new route (MOVING with [needsNewPath]
    set, as every car is after its creation) or waiting or failed.
    Its own path request starts from its cell without the entrance flag,
    so the path finder answers with no path and the car waits.  Hence
    after any further events that do not reuse its identifier the car
    object is either removed or still at that cell, without a tween,
    never REACHED_EXIT. *)
Theorem car_outside_grid_never_moves
        (levelData : Level.t) (evs0 evs : list Event) (i : CarId) (k : Car.t) :
  let w := run evs0 (GameScene_loadLevel levelData) in
  getCar w i = Some k ->
  isValidGridPosition (Car.gridRow k) (Car.gridCol k)
                      (Level.grid_rows levelData) (Level.grid_columns levelData)
  = false ->
  Car.isBlocked k = false -> Car.currentTween k = None ->
  (Car.state k = MOVING /\ Car.needsNewPath k = true)
  \/ Car.state k = WAITING \/ Car.state k = FAILED ->
  Forall (fun ev => reuses i ev = false) evs ->
  match getCar (run evs w) i with
  | Some k' =>
      Car.gridRow k' = Car.gridRow k /\ Car.gridCol k' = Car.gridCol k
      /\ Car.currentTween k' = None
      /\ ((Car.state k' = MOVING /\ Car.needsNewPath k' = true)
          \/ Car.state k' = WAITING \/ Car.state k' = FAILED)
  | None => True
  end.
Proof.
  intros w Hk Hout Hbl Htw Hst Hevs.
  assert (Inv w /\ Built levelData w) as HG.
  { split; [apply Inv_run, Inv_loadLevel|].
    apply Built_run; [apply Inv_loadLevel|apply Built_loadLevel]. }
  assert (fate i (strandedAt (Car.gridRow k) (Car.gridCol k)) (run evs w)) as HF.
  { apply (F_run i _ (fun w0 => Inv w0 /\ Built levelData w0)); auto.
    - apply strandedAt_tween.
    - intros j t d w0 [HI HB]. split;
        [apply Inv_Car_update, HI|apply Built_Car_update, HB].
    - intros w0 t d k0 [[HW _] HB] Hk0 Hs.
      destruct HB as (_ & _ & Hr & Hc & _).
      destruct (Car_update_stranded i t d w0 k0 (Car.gridRow k) (Car.gridCol k) HW)
        as (k1 & Hk1 & Hh);
        [rewrite Hr, Hc; exact Hout|exact Hk0|exact Hs|].
      exists k1. split; [exact Hk1|left; exact Hh].
    - intros ev w0 [HI HB]. split; [apply Inv_step, HI|apply Built_step; assumption].
    - intros k0 Hk0. rewrite Hk in Hk0. inversion Hk0; subst k0.
      unfold strandedAt, haltedAt.
      destruct Hst as [[? ?]|Hst]; [right; auto 10|left; auto 10]. }
  destruct (getCar (run evs w) i) as [k'|] eqn:Hk'; [|exact I].
  destruct (HF k' Hk') as [(Hs & _ & Ht & Hr & Hc)|(Hs & Hn & _ & Ht & Hr & Hc)];
    auto 10.
Qed.

Lemma car_outside_grid_never_moves_witness :
  match getCar (run [ Frame 5000 16 5000; TweenCompleted "A";
                      SpawnTimerFired 0 1 "B" 7000; Frame 8000 3000 8000 ]
                    (run edgeSpawned (GameScene_loadLevel edgeLevel))) "A" with
  | Some k' =>
      Car.gridRow k' = Car.gridRow edgeCar /\ Car.gridCol k' = Car.gridCol edgeCar
      /\ Car.currentTween k' = None
      /\ ((Car.state k' = MOVING /\ Car.needsNewPath k' = true)
          \/ Car.state k' = WAITING \/ Car.state k' = FAILED)
  | None => True
  end.
Proof.
  apply (car_outside_grid_never_moves edgeLevel edgeSpawned _ "A" edgeCar).
  - vm_compute. reflexivity.
  - reflexivity.
  - reflexivity.
  - reflexivity.
  - left. split; reflexivity.
  - repeat constructor.
Defined.

(** X26.  What a spawn creates.  When [spawnCar] accepts (the manager
    is spawning, the car type and the chosen entrance exist, the
    entrance is not occupied), the new car object stands at the
    entrance, with no tween and not blocked, and its flag
    [needsNewPath] is still set although a route was just requested for
    it with the entrance handling of the path finder: it is MOVING on
    that route if one was found, WAITING without a route otherwise.
    So its first update asks again, this time from its cell without the
    entrance flag. *)
Theorem spawned_car_is_fresh
        (n choice : nat) (newId : CarId) (now : Z) (w : World)
        (l : Level.t) (carType : Level.CarType) (entrance : Position) :
  CarManager.isSpawning (carManager w) = true ->
  CarManager.levelData (carManager w) = Some l ->
  Level.cars l !! n = Some carType ->
  Level.entrances carType !! choice = Some entrance ->
  CarManager.isPositionOccupied (carManager w) (row entrance) (col entrance) = false ->
  let route := snd (CarManager_pathQuery w entrance (Level.exit_ carType)) in
  exists k,
    getCar (CarManager_spawnCar n choice newId now w) newId = Some k
    /\ Car.gridRow k = row entrance /\ Car.gridCol k = col entrance
    /\ Car.spawnPosition k = entrance /\ Car.targetPosition k = Level.exit_ carType
    /\ Car.needsNewPath k = true
    /\ Car.isBlocked k = false /\ Car.currentTween k = None
    /\ Car.isMoving k = false
    /\ match route with
       | Some (c :: p) =>
           Car.state k = MOVING /\ Car.path k = c :: p /\ Car.pathIndex k = 0%nat
           /\ Car.hasPath k = true
       | _ => Car.state k = WAITING /\ Car.path k = [] /\ Car.hasPath k = false
       end.
Proof.
  intros Hsp Hl Hct Hen Hocc route.
  unfold CarManager_spawnCar. rewrite Hsp, Hl, Hct, Hen, Hocc. cbn [negb].
  unfold GameState.addCar. rewrite emitAll_harmless by (repeat constructor).
  unfold CarManager_addCar, CarManager.updateCarPosition.
  cbn [Car.id Car.create Car.getGridPosition Car.gridRow Car.gridCol fst snd].
  set (k0 := Car.set_position _ _ _).
  set (wA := with_carObjects _ _).
  assert (getCar wA newId = Some k0) as HA
      by (unfold getCar, wA; cbn; apply lookup_insert_eq).
  match goal with
  | |- exists k, getCar ?X newId = Some k /\ _ =>
      change (getCar X newId)
        with (getCar (CarManager_requestPathForCar newId wA) newId)
  end.
  unfold CarManager_requestPathForCar. rewrite HA.
  unfold CarManager_handlePathRequest.
  cbn [Car.spawnPosition Car.targetPosition k0 Car.set_position Car.create].
  assert (snd (CarManager_pathQuery wA entrance (Level.exit_ carType)) = route) as Hp.
  { unfold route, CarManager_pathQuery. cbn [snd].
    destruct (GameState.pathfindingGridDirty (gameState w)) eqn:Hd;
      unfold wA; cbn; rewrite Hd; reflexivity. }
  pose proof (pathQuery_carObjects wA entrance (Level.exit_ carType)) as Ho.
  destruct (CarManager_pathQuery wA entrance (Level.exit_ carType)) as [wq p].
  cbn [fst snd] in Hp, Ho. subst p.
  assert (getCar wq newId = Some k0) as Hq by (unfold getCar; rewrite Ho; exact HA).
  eexists. split; [apply getCar_withCar; exact Hq|].
  destruct route as [[|c p]|]; cbn; auto 15.
Qed.

Lemma spawned_car_is_fresh_witness :
  let w := run [ PlaceRoadClick 1 0 0; SpaceKey 1000 ] (GameScene_loadLevel edgeLevel) in
  let entrance := processEntranceCoordinates 1 0 3 3 in
  let exit_ := processEntranceCoordinates 2 (-1) 3 3 in
  let route := snd (CarManager_pathQuery w entrance exit_) in
  exists k,
    getCar (CarManager_spawnCar 0 0 "A" 4000 w) "A" = Some k
    /\ Car.gridRow k = row entrance /\ Car.gridCol k = col entrance
    /\ Car.spawnPosition k = entrance /\ Car.targetPosition k = exit_
    /\ Car.needsNewPath k = true
    /\ Car.isBlocked k = false /\ Car.currentTween k = None
    /\ Car.isMoving k = false
    /\ match route with
       | Some (c :: p) =>
           Car.state k = MOVING /\ Car.path k = c :: p /\ Car.pathIndex k = 0%nat
           /\ Car.hasPath k = true
       | _ => Car.state k = WAITING /\ Car.path k = [] /\ Car.hasPath k = false
       end.
Proof.
  apply (spawned_car_is_fresh 0 0 "A" 4000
           (run [ PlaceRoadClick 1 0 0; SpaceKey 1000 ] (GameScene_loadLevel edgeLevel))
           edgeLevel
           (Level.mkCarType "red" [ processEntranceCoordinates 1 0 3 3;
                                    processEntranceCoordinates 2 0 3 3;
                                    processEntranceCoordinates 3 0 3 3 ]
                            (processEntranceCoordinates 2 (-1) 3 3))
           (processEntranceCoordinates 1 0 3 3)).
  - vm_compute. reflexivity.
  - vm_compute. reflexivity.
  - reflexivity.
  - reflexivity.
  - vm_compute. reflexivity.
Defined.

(** ** Following a route *)

Lemma getCar_handleCarReachedExit (carId i : CarId) (w : World) :
  getCar (CarManager_handleCarReachedExit carId w) i = getCar w i.
Proof. reflexivity. Qed.

Lemma getCar_checkCollision (carId : CarId) (c : Cell) (w : World) (k : Car.t) :
  getCar w carId = Some k ->
  exists b, getCar (fst (Car_checkCollision carId c w)) carId
            = Some (Car.set_blockedBy b k)
            /\ scenery (fst (Car_checkCollision carId c w)) = scenery w
            /\ CarManager.stats (carManager (fst (Car_checkCollision carId c w)))
               = CarManager.stats (carManager w)
            /\ timers (fst (Car_checkCollision carId c w)) = timers w.
Proof.
  intros Hk. unfold Car_checkCollision, CarManager_handleCollisionCheck.
  destruct (filter _ _) as [|other ?]; cbn [fst].
  - exists (Car.blockedBy k). split; [|auto]. rewrite Hk. destruct k; reflexivity.
  - exists (Some other). split; [apply getCar_withCar; exact Hk|].
    split; [|auto]. apply (K_withCar w). reflexivity.
Qed.

(** One update of a car that follows its route: the collision check is
    made, then the tween towards the next cell of the route starts. *)
Lemma Car_update_moving (i : CarId) (time delta : Z) (w : World) (k : Car.t)
      (cell : Cell) :
  getCar w i = Some k ->
  Car.state k = MOVING -> Car.needsNewPath k = false -> Car.hasPath k = true ->
  Car.isMoving k = false -> Car.path k !! Car.pathIndex k = Some cell ->
  Car_update i time delta w
  = Car_moveToCell i cell
      (fst (Car_checkCollision i cell (withCar i (Car.set_lastMoveTime time) w))).
Proof.
  intros Hk Hst Hneed Hhas Hmov Hcell.
  assert (Car.pathIndex k < length (Car.path k))%nat as Hlt
      by (eapply lookup_lt_Some; exact Hcell).
  unfold Car_update.
  rewrite (getCar_withCar _ _ _ _ Hk). cbn [Car.state Car.set_lastMoveTime].
  rewrite Hst. unfold Car_updateMoving.
  set (w0 := withCar i (Car.set_lastMoveTime time) w).
  assert (getCar w0 i = Some (Car.set_lastMoveTime time k)) as H0
    by (apply getCar_withCar; exact Hk).
  rewrite H0. cbn [Car.needsNewPath Car.set_lastMoveTime]. rewrite Hneed, H0.
  cbn [Car.hasPath Car.isMoving Car.pathIndex Car.path Car.set_lastMoveTime].
  rewrite Hhas, Hmov, Hcell. cbn [negb andb].
  rewrite (proj2 (Nat.ltb_lt _ _) Hlt).
  destruct (getCar_checkCollision i cell w0 _ H0) as (b & Hb & _).
  destruct (Car_checkCollision i cell w0) as [w1 collision] eqn:Ecol.
  assert (collision = false) as ->
      by (rewrite <- (checkCollision_always_false i cell w0), Ecol; reflexivity).
  cbn [fst] in *. unfold Car_moveToCell.
  rewrite (getCar_withCar _ _ _ _ Hb).
  cbn [Car.hasPath Car.pathIndex Car.path Car.set_lastMoveTime Car.set_motion
         Car.set_blockedBy].
  rewrite Hhas, (proj2 (Nat.leb_gt _ _) Hlt). cbn [andb].
  rewrite (getCar_withCar _ _ _ _ Hb).
  cbn [Car.hasPath Car.pathIndex Car.path Car.set_lastMoveTime Car.set_motion
         Car.set_blockedBy].
  rewrite Hhas. cbn [negb orb].
  destruct (length (Car.path k)) eqn:El; [lia|]. reflexivity.
Qed.

(** X27.  One step along the route.  A car that is MOVING on a route,
    with no pending request for a new path and no tween running,
    starts at its next update a tween towards the next cell of its
    route, whether or not another car is filed there; when the tween
    completes, the car stands on that cell, its route index has advanced
    by one, and it is counted as arrived exactly when that cell is its
    target or lies next to a target flagged as an entrance (otherwise
    it keeps MOVING).  Neither step changes the occupancy index. *)
Theorem car_advances_along_route
        (i : CarId) (time delta : Z) (w : World) (k : Car.t) (cell : Cell) :
  getCar w i = Some k ->
  Car.state k = MOVING -> Car.needsNewPath k = false -> Car.hasPath k = true ->
  Car.isMoving k = false -> Car.path k !! Car.pathIndex k = Some cell ->
  let w1 := Car_update i time delta w in
  let w2 := step (TweenCompleted i) w1 in
  let arrived := arrivesAt (Car.targetPosition k) cell in
  (exists k1, getCar w1 i = Some k1
              /\ Car.state k1 = MOVING /\ Car.isMoving k1 = true
              /\ Car.currentTween k1 = Some cell
              /\ Car.gridRow k1 = Car.gridRow k /\ Car.gridCol k1 = Car.gridCol k
              /\ Car.pathIndex k1 = Car.pathIndex k)
  /\ (exists k2, getCar w2 i = Some k2
                 /\ Car.gridRow k2 = fst cell /\ Car.gridCol k2 = snd cell
                 /\ Car.pathIndex k2 = S (Car.pathIndex k)
                 /\ Car.path k2 = Car.path k
                 /\ Car.isMoving k2 = false /\ Car.currentTween k2 = None
                 /\ Car.state k2 = (if arrived then REACHED_EXIT else MOVING))
  /\ reached (carManager w2)
     = (reached (carManager w) + (if arrived then 1 else 0))%N
  /\ CarManager.carsByPosition (carManager w2)
     = CarManager.carsByPosition (carManager w).
Proof.
  intros Hk Hst Hneed Hhas Hmov Hcell w1 w2 arrived.
  set (w0 := withCar i (Car.set_lastMoveTime time) w).
  assert (getCar w0 i = Some (Car.set_lastMoveTime time k)) as H0
    by (apply getCar_withCar; exact Hk).
  destruct (getCar_checkCollision i cell w0 _ H0) as (b & Hb & _ & Hstats & _).
  assert (w1 = Car_moveToCell i cell (fst (Car_checkCollision i cell w0))) as E1
      by exact (Car_update_moving i time delta w k cell Hk Hst Hneed Hhas Hmov Hcell).
  set (wc := fst (Car_checkCollision i cell w0)) in *.
  assert (getCar w1 i
          = Some (Car.set_motion true (Some cell)
                    (Car.set_blockedBy b (Car.set_lastMoveTime time k)))) as H1
      by (rewrite E1; apply getCar_withCar; exact Hb).
  assert (CarManager.stats (carManager w1) = CarManager.stats (carManager w)) as Hs1
      by (rewrite E1; exact Hstats).
  assert (CarManager.carsByPosition (carManager w1)
          = CarManager.carsByPosition (carManager w)) as Hp1.
  { pose proof (scenery_update i time delta w) as Hsc. fold w1 in Hsc.
    unfold scenery in Hsc. inversion Hsc. reflexivity. }
  clearbody w1. clear E1.
  split.
  { eexists. split; [exact H1|]. cbn. auto 10. }
  unfold w2. cbn [step]. rewrite H1.
  cbn [Car.currentTween Car.set_motion]. unfold Car_onMoveComplete.
  set (w3 := withCar i _ w1).
  set (k3 := Car.set_waitTime 0
               (Car.set_route (Car.path k) (S (Car.pathIndex k)) (Car.hasPath k)
                  (Car.set_position (fst cell) (snd cell)
                     (Car.set_motion false None
                        (Car.set_blockedBy b (Car.set_lastMoveTime time k)))))).
  assert (getCar w3 i = Some k3) as H3
      by (unfold w3; rewrite (getCar_withCar _ _ _ _ H1); reflexivity).
  unfold Car_checkIfReachedExit. rewrite H3.
  assert (Car.atTarget k3 || Car.isNearTarget k3 = arrived) as ->.
  { unfold arrived, arrivesAt, Car.atTarget, Car.isNearTarget. reflexivity. }
  destruct arrived.
  - unfold Car_reachDestination. split; [|split].
    + eexists. split.
      * rewrite getCar_handleCarReachedExit. apply getCar_withCar. exact H3.
      * cbn. auto 10.
    + unfold reached. cbn. rewrite Hs1. reflexivity.
    + cbn. exact Hp1.
  - split; [|split].
    + eexists. split; [exact H3|]. cbn. auto 10.
    + unfold reached. cbn. rewrite Hs1. rewrite N.add_0_r. reflexivity.
    + cbn. exact Hp1.
Qed.

Lemma car_advances_along_route_witness :
  let w := run laneFirstMove (GameScene_loadLevel laneLevel) in
  let w1 := Car_update "A" 6000 1000 w in
  let w2 := step (TweenCompleted "A") w1 in
  let arrived := arrivesAt (Car.targetPosition laneCar) (1, 1) in
  (exists k1, getCar w1 "A" = Some k1
              /\ Car.state k1 = MOVING /\ Car.isMoving k1 = true
              /\ Car.currentTween k1 = Some (1, 1)
              /\ Car.gridRow k1 = Car.gridRow laneCar
              /\ Car.gridCol k1 = Car.gridCol laneCar
              /\ Car.pathIndex k1 = Car.pathIndex laneCar)
  /\ (exists k2, getCar w2 "A" = Some k2
                 /\ Car.gridRow k2 = fst (1, 1) /\ Car.gridCol k2 = snd (1, 1)
                 /\ Car.pathIndex k2 = S (Car.pathIndex laneCar)
                 /\ Car.path k2 = Car.path laneCar
                 /\ Car.isMoving k2 = false /\ Car.currentTween k2 = None
                 /\ Car.state k2 = (if arrived then REACHED_EXIT else MOVING))
  /\ reached (carManager w2)
     = (reached (carManager w) + (if arrived then 1 else 0))%N
  /\ CarManager.carsByPosition (carManager w2)
     = CarManager.carsByPosition (carManager w).
Proof.
  apply (car_advances_along_route "A" 6000 1000
           (run laneFirstMove (GameScene_loadLevel laneLevel)) laneCar (1, 1)).
  - vm_compute. reflexivity.
  - reflexivity.
  - reflexivity.
  - reflexivity.
  - reflexivity.
  - reflexivity.
Defined.

(** X28.  The end of the route counts as the exit.  A MOVING car whose
    route is used up (its index is past the last cell) is declared
    arrived by its next update, wherever it stands: the test compares
    the index with the length of the route, not the cell of the car
    with its target.  The car becomes REACHED_EXIT where it is, the
    arrival counter of the manager grows by one and the removal of the
    car is scheduled. *)
Theorem car_arrives_at_end_of_route
        (i : CarId) (time delta : Z) (w : World) (k : Car.t) :
  getCar w i = Some k ->
  Car.state k = MOVING -> Car.needsNewPath k = false -> Car.hasPath k = true ->
  Car.path k <> [] -> (length (Car.path k) <= Car.pathIndex k)%nat ->
  let w1 := Car_update i time delta w in
  (exists k1, getCar w1 i = Some k1
              /\ Car.state k1 = REACHED_EXIT
              /\ Car.gridRow k1 = Car.gridRow k /\ Car.gridCol k1 = Car.gridCol k
              /\ Car.isMoving k1 = false /\ Car.currentTween k1 = None)
  /\ reached (carManager w1) = (reached (carManager w) + 1)%N
  /\ timers w1 = timers w ++ [RemoveTimer i].
Proof.
  intros Hk Hst Hneed Hhas Hne Hend w1. unfold w1, Car_update.
  rewrite (getCar_withCar _ _ _ _ Hk). cbn [Car.state Car.set_lastMoveTime].
  rewrite Hst. unfold Car_updateMoving.
  set (w0 := withCar i (Car.set_lastMoveTime time) w).
  assert (getCar w0 i = Some (Car.set_lastMoveTime time k)) as H0
    by (apply getCar_withCar; exact Hk).
  rewrite H0. cbn [Car.needsNewPath Car.set_lastMoveTime]. rewrite Hneed, H0.
  cbn [Car.hasPath Car.isMoving Car.pathIndex Car.path Car.set_lastMoveTime].
  rewrite (proj2 (Nat.ltb_ge _ _) Hend), andb_false_r, H0.
  cbn [Car.hasPath Car.pathIndex Car.path Car.set_lastMoveTime].
  rewrite Hhas, (proj2 (Nat.leb_le _ _) Hend). cbn [andb].
  unfold Car_reachDestination. rewrite getCar_handleCarReachedExit.
  rewrite (getCar_withCar _ _ _ _ H0).
  cbn [Car.hasPath Car.path Car.set_lastMoveTime Car.set_motion Car.set_state].
  rewrite Hhas. cbn [negb orb].
  destruct (Car.path k) as [|c p] eqn:Ep; [contradiction|]. cbn [length Nat.eqb].
  split; [|split].
  - eexists. split.
    + rewrite getCar_handleCarReachedExit. apply getCar_withCar. exact H0.
    + cbn. auto 10.
  - reflexivity.
  - reflexivity.
Qed.

Lemma car_arrives_at_end_of_route_witness :
  let w := run farRun (GameScene_loadLevel farExitLevel) in
  let w1 := Car_update "A" 6000 16 w in
  (exists k1, getCar w1 "A" = Some k1
              /\ Car.state k1 = REACHED_EXIT
              /\ Car.gridRow k1 = Car.gridRow farCar
              /\ Car.gridCol k1 = Car.gridCol farCar
              /\ Car.isMoving k1 = false /\ Car.currentTween k1 = None)
  /\ reached (carManager w1) = (reached (carManager w) + 1)%N
  /\ timers w1 = timers w ++ [RemoveTimer "A"].
Proof.
  apply (car_arrives_at_end_of_route "A" 6000 16
           (run farRun (GameScene_loadLevel farExitLevel)) farCar).
  - vm_compute. reflexivity.
  - reflexivity.
  - reflexivity.
  - reflexivity.
  - discriminate.
  - vm_compute. lia.
Defined.

(** X29.  A removed car keeps blocking the cell it was filed under.  The
    occupancy index is written when a car is added and is not updated
    when the car moves, and the removal of a car clears the entry of
    the cell where the car stands.  So when a car that was filed under
    a cell [p] and has left it is removed (and the run goes on), the
    car is gone from the manager but its identifier stays under [p],
    which [isPositionOccupied] keeps reporting as occupied. *)
Theorem removed_car_keeps_blocking_its_cell
        (i : CarId) (now : Z) (w : World) (k : Car.t) (p : Cell) :
  getCar w i = Some k ->
  i ∈ CarManager.cars (carManager w) ->
  i ∈ CarManager.positionIds (carManager w) (fst p) (snd p) ->
  Car.getGridPosition k <> p ->
  let w' := CarManager_removeCar i now w in
  GameState.isSimulating (gameState w') = true ->
  getCar w' i = None
  /\ (i ∉ CarManager.cars (carManager w'))
  /\ i ∈ CarManager.positionIds (carManager w') (fst p) (snd p)
  /\ CarManager.isPositionOccupied (carManager w') (fst p) (snd p) = true.
Proof.
  intros Hk Hin Hpos Hmoved w'. unfold w', CarManager_removeCar.
  rewrite bool_decide_eq_true_2 by exact Hin. rewrite Hk.
  set (m2 := CarManager.set_cars _ _).
  set (w1 := with_carObjects _ (with_carManager m2 w)).
  assert (forall gs, getCar (with_gameState gs w1) i = None
                     /\ (i ∉ CarManager.cars (carManager (with_gameState gs w1)))
                     /\ i ∈ CarManager.positionIds (carManager (with_gameState gs w1))
                            (fst p) (snd p)
                     /\ CarManager.isPositionOccupied
                          (carManager (with_gameState gs w1)) (fst p) (snd p) = true)
    as Hres.
  { intros gs.
    assert (i ∈ CarManager.positionIds m2 (fst p) (snd p)) as Hp2.
    { unfold m2.
      change (CarManager.positionIds (CarManager.set_cars ?l ?m) ?r ?c)
        with (CarManager.positionIds m r c).
      rewrite positionIds_removeCarFromPosition.
      rewrite decide_False by congruence. exact Hpos. }
    split; [apply lookup_delete_eq|]. split; [apply not_elem_of_filter_ne|].
    split; [exact Hp2|].
    unfold CarManager.positionIds in Hp2. unfold CarManager.isPositionOccupied.
    change (carManager (with_gameState gs w1)) with m2.
    destruct (CarManager.carsByPosition m2 !! gridKey (fst p) (snd p)) as [ids|];
      [|apply elem_of_nil in Hp2; destruct Hp2].
    apply bool_decide_eq_true. destruct ids; [apply elem_of_nil in Hp2; destruct Hp2|].
    cbn. lia. }
  destruct (removeCar_shape (gameState w1) i (Some (Car.state k)) now)
    as [(s1 & E & ->)|[(s1 & E & _)|(_ & s1 & g & ev & l & Hev & _ & E)]];
    rewrite E.
  - intros _. apply Hres.
  - rewrite emitAll_harmless by (repeat constructor). intros _. apply Hres.
  - change (GameState.carRemoved i :: ?l) with ([GameState.carRemoved i] ++ l).
    rewrite (emitAll_app now [GameState.carRemoved i]).
    rewrite (emitAll_harmless now [GameState.carRemoved i]) by (repeat constructor).
    rewrite emitAll_ending; [|exact Hev|reflexivity].
    cbn. discriminate.
Qed.

Lemma removed_car_keeps_blocking_its_cell_witness :
  let w := run laneCrash (GameScene_loadLevel laneLevel) in
  let w' := CarManager_removeCar "A" 9000 w in
  getCar w' "A" = None
  /\ ("A" ∉ CarManager.cars (carManager w'))
  /\ "A" ∈ CarManager.positionIds (carManager w') (fst (1, 0)) (snd (1, 0))
  /\ CarManager.isPositionOccupied (carManager w') (fst (1, 0)) (snd (1, 0)) = true.
Proof.
  apply (removed_car_keeps_blocking_its_cell "A" 9000
           (run laneCrash (GameScene_loadLevel laneLevel))
           (default strandedCar
              (getCar (run laneCrash (GameScene_loadLevel laneLevel)) "A"))
           (1, 0)).
  - vm_compute. reflexivity.
  - vm_compute. apply list_elem_of_In. right. left. reflexivity.
  - vm_compute. apply list_elem_of_In. left. reflexivity.
  - vm_compute. intros E. inversion E.
  - vm_compute. reflexivity.
Defined.

(** ** Completeness of the search *)

Section Complete.
Variable g : PF.Grid.
Variable goal : PF.Node.

Lemma Linked_snoc (a b c : PF.Node) :
  Linked g a b -> c ∈ PF.getNeighbors g b -> Linked g a c.
Proof.
  induction 1 as [a|a b' c' Hab _ IH]; intros Hc.
  - eapply Linked_step; [exact Hc|apply Linked_here].
  - eapply Linked_step; [exact Hab|apply IH; exact Hc].
Qed.

Lemma RevPath_Linked (start : PF.Node) (p : list PF.Node) :
  RevPath g start p -> forall x q, p = x :: q -> Linked g start x.
Proof.
  induction 1 as [|n cur p _ IH Hn]; intros x q E; inversion E; subst.
  - apply Linked_here.
  - eapply Linked_snoc; [eapply IH; reflexivity|exact Hn].
Qed.

(** Once the queue is empty the discovered nodes are closed under
    steps and the goal is not among them. *)
Lemma Frontier_empty (visited : gset PF.Node) (v : PF.Node) :
  Frontier g goal visited [] -> v ∈ visited -> ~ Linked g v goal.
Proof.
  intros HF Hv HL. revert HF Hv.
  induction HL as [a|a b c Hab _ IH]; intros HF Hv.
  - destruct (HF a Hv) as [(p & Hp)|[Hne _]].
    + apply elem_of_nil in Hp. exact Hp.
    + apply Hne. reflexivity.
  - apply IH; [exact HF|]. destruct (HF a Hv) as [(p & Hp)|[_ Hcl]].
    + apply elem_of_nil in Hp. destruct Hp.
    + apply Hcl. exact Hab.
Qed.

Lemma bfs_complete (fuel : nat) (visited : gset PF.Node)
      (queue : list (list PF.Node)) (v : PF.Node) :
  (searchMeasure g visited queue <= fuel)%nat ->
  Frontier g goal visited queue ->
  v ∈ visited -> Linked g v goal ->
  PF.bfs fuel g goal visited queue <> [].
Proof.
  revert visited queue.
  induction fuel as [|fuel IH]; intros visited queue Hm HF Hv HL.
  - unfold searchMeasure in Hm. destruct queue; [|simpl in Hm; lia].
    exfalso. exact (Frontier_empty visited v HF Hv HL).
  - simpl. destruct queue as [|[|cur p] rest].
    + exfalso. exact (Frontier_empty visited v HF Hv HL).
    + apply IH; [unfold searchMeasure in *; simpl in *; lia| |exact Hv|exact HL].
      intros u Hu. destruct (HF u Hu) as [(q & Hq)|Hc]; [|right; exact Hc].
      left. exists q. apply elem_of_cons in Hq as [Hq|Hq]; [discriminate|exact Hq].
    + destruct (decide (cur = goal)) as [->|Hcg].
      { destruct (rev p); discriminate. }
      set (ns := filter (fun n => n ∉ visited) (PF.getNeighbors g cur)).
      assert (searchMeasure g (visited ∪ list_to_set ns)
                            (rest ++ map (fun n => n :: cur :: p) ns)
              = searchMeasure g visited rest) as E.
      { unfold searchMeasure. rewrite length_app, length_map.
        rewrite <- (discover_measure g visited ns); [lia| |].
        - apply NoDup_filter, getNeighbors_NoDup.
        - intros m Hmm. apply list_elem_of_filter in Hmm as [Hvm Hmm].
          split; [eapply getNeighbors_inside; exact Hmm|exact Hvm]. }
      apply IH.
      * rewrite E. unfold searchMeasure in *. simpl in *. lia.
      * intros u Hu.
        assert (forall n, n ∈ PF.getNeighbors g cur ->
                          n ∈ visited ∪ list_to_set ns) as Hcur.
        { intros n Hn. destruct (decide (n ∈ visited)) as [Hin|Hout].
          - apply elem_of_union_l. exact Hin.
          - apply elem_of_union_r, elem_of_list_to_set.
            apply list_elem_of_filter. split; assumption. }
        apply elem_of_union in Hu as [Hu|Hu].
        -- destruct (HF u Hu) as [(q & Hq)|[Hne Hcl]].
           ++ apply elem_of_cons in Hq as [Hq|Hq].
              ** inversion Hq; subst. right. split; [exact Hcg|exact Hcur].
              ** left. exists q. apply elem_of_app. left. exact Hq.
           ++ right. split; [exact Hne|].
              intros n Hn. apply elem_of_union_l, Hcl. exact Hn.
        -- apply elem_of_list_to_set in Hu. left. exists (cur :: p).
           apply elem_of_app. right.
           apply (list_elem_of_fmap_2 (fun n => n :: cur :: p)). exact Hu.
      * apply elem_of_union_l. exact Hv.
      * exact HL.
Qed.
End Complete.

(** The search of [PF.findPath] finds a path exactly when the goal can
    be reached from the start. *)
Lemma PF_findPath_complete (g : PF.Grid) (sx sy ex ey : Z) :
  PF.findPath sx sy ex ey g <> [] <-> Linked g (sx, sy) (ex, ey).
Proof.
  unfold PF.findPath. split.
  - intros Hne.
    destruct (bfs_sound g (sx, sy) _ (ex, ey) _ _
                (Forall_cons_2 _ _ _ (RevPath_start g (sx, sy)) (Forall_nil_2 _)) Hne)
      as (p & _ & Hp).
    eapply RevPath_Linked; [exact Hp|reflexivity].
  - intros HL. apply (bfs_complete g (ex, ey) _ _ _ (sx, sy)).
    + unfold searchMeasure. simpl.
      assert (size (insideNodes g ∖ {[ (sx, sy) ]}) <= size (insideNodes g))%nat
        as H1 by (apply subseteq_size, subseteq_difference_l; reflexivity).
      pose proof (size_list_to_set_le (PF.allNodes (PF.width g) (PF.height g))) as H3.
      fold (insideNodes g) in H3. rewrite length_allNodes in H3.
      assert (Z.to_nat (PF.height g) * Z.to_nat (PF.width g)
              <= Z.to_nat (PF.width g * PF.height g))%nat; [|lia].
      destruct (Z_le_gt_dec (PF.width g) 0) as [Hw|Hw].
      { replace (Z.to_nat (PF.width g)) with 0%nat by lia. lia. }
      destruct (Z_le_gt_dec (PF.height g) 0) as [Hh|Hh].
      { replace (Z.to_nat (PF.height g)) with 0%nat by lia. lia. }
      rewrite Z2Nat.inj_mul by lia. lia.
    + intros v Hv. apply elem_of_singleton in Hv. subst v.
      left. exists []. apply list_elem_of_singleton. reflexivity.
    + apply elem_of_singleton. reflexivity.
    + exact HL.
Qed.

(** ** Path requests and the roads of the layout *)

Lemma Joined_first (P : Cell -> Prop) (a b : Cell) : Joined P a b -> P a.
Proof. destruct 1; assumption. Qed.

Lemma Joined_last (P : Cell -> Prop) (a b : Cell) : Joined P a b -> P b.
Proof. induction 1; assumption. Qed.

Section Reflecting.
Variable pf : PathFinder.t.
Variable roads : gmap Cell Road.t.
Variable obstacles : gset Cell.
Variables R C : Z.
Hypothesis Hrefl : reflects pf roads obstacles R C.

Local Abbreviation open := (openCell roads obstacles R C).

Lemma reflects_walkable (k : Cell) :
  PathFinder.gridWalkableAt pf (snd k) (fst k) = true <-> open k.
Proof.
  destruct Hrefl as (_ & _ & g & Hg & _ & _ & Hw).
  unfold PathFinder.gridWalkableAt. rewrite Hg.
  destruct k as [r c]. exact (Hw r c).
Qed.

Lemma getNeighbors_beside (g : PF.Grid) (x y x' y' : Z) :
  (x', y') ∈ PF.getNeighbors g (x, y)
  <-> beside (y, x) (y', x') /\ PF.isWalkableAt g x' y' = true.
Proof.
  unfold PF.getNeighbors, beside, manhattanDistance.
  rewrite list_elem_of_filter. cbn [fst snd].
  rewrite !elem_of_cons, elem_of_nil. split.
  - intros [Hw [E|[E|[E|[E|[]]]]]]; inversion E; subst; split; try exact Hw; lia.
  - intros [Hb Hw]. split; [exact Hw|].
    destruct (Z.eq_dec x' x) as [->|Hx].
    + destruct (Z.eq_dec y' (y - 1)) as [->|Hy]; [left; reflexivity|].
      right. right. left. f_equal. lia.
    + assert (y' = y) as -> by lia.
      destruct (Z.eq_dec x' (x + 1)) as [->|Hx1]; [right; left; reflexivity|].
      right. right. right. left. f_equal. lia.
Qed.

Lemma Linked_Joined (g : PF.Grid) (a b : PF.Node) :
  PathFinder.grid pf = Some g ->
  Linked g a b -> open (snd a, fst a) ->
  Joined open (snd a, fst a) (snd b, fst b).
Proof.
  intros Hg HL. induction HL as [a|a b c Hab _ IH]; intros Ha.
  - apply Joined_here. exact Ha.
  - destruct a as [x y], b as [x' y'].
    apply getNeighbors_beside in Hab as [Hb Hw].
    assert (open (y', x')) as Hopen.
    { apply reflects_walkable. unfold PathFinder.gridWalkableAt. rewrite Hg.
      exact Hw. }
    eapply Joined_step; [exact Ha|exact Hb|apply IH; exact Hopen].
Qed.

Lemma Joined_Linked (g : PF.Grid) (a b : Cell) :
  PathFinder.grid pf = Some g ->
  Joined open a b -> Linked g (snd a, fst a) (snd b, fst b).
Proof.
  intros Hg HJ. induction HJ as [a _|a b c _ Hb HJ IH].
  - apply Linked_here.
  - eapply Linked_step; [|exact IH].
    destruct a as [r c0], b as [r' c']. cbn [fst snd].
    apply getNeighbors_beside. split; [exact Hb|].
    pose proof (proj2 (reflects_walkable (r', c')) (Joined_first _ _ _ HJ)) as Hw.
    unfold PathFinder.gridWalkableAt in Hw. rewrite Hg in Hw. exact Hw.
Qed.

(** On a grid that reflects the roads, [findPath] answers exactly when
    the two cells are joined by roads. *)
Lemma findPath_Joined (s e : Cell) :
  is_Some (PathFinder.findPath pf (fst s) (snd s) (fst e) (snd e))
  <-> Joined open s e.
Proof.
  pose proof (reflects_walkable s) as Hs.
  pose proof (reflects_walkable e) as He.
  destruct Hrefl as (HC & HR & g & Hg & _ & _ & _).
  unfold PathFinder.findPath, PathFinder.gridWalkableAt in *.
  rewrite Hg, HC, HR in *.
  destruct s as [sr sc], e as [er ec]. cbn [fst snd] in *.
  split.
  - intros Hsome.
    destruct (isValidGridPosition sr sc R C); [|destruct Hsome; discriminate].
    destruct (isValidGridPosition er ec R C); [|destruct Hsome; discriminate].
    cbn [negb orb] in Hsome.
    destruct (PF.isWalkableAt g sc sr) eqn:Ws; [|destruct Hsome; discriminate].
    destruct (PF.isWalkableAt g ec er) eqn:We; [|destruct Hsome; discriminate].
    cbn [negb] in Hsome.
    assert (PF.findPath sc sr ec er g <> []) as Hne.
    { intros E. rewrite E in Hsome. destruct Hsome; discriminate. }
    apply PF_findPath_complete in Hne.
    apply (Linked_Joined g (sc, sr) (ec, er) Hg Hne).
    apply Hs. reflexivity.
  - intros HJ.
    pose proof (Joined_first _ _ _ HJ) as Ps.
    pose proof (Joined_last _ _ _ HJ) as Pe.
    pose proof (Joined_Linked g _ _ Hg HJ) as HL. cbn [fst snd] in HL.
    apply PF_findPath_complete in HL.
    destruct Ps as [Vs _]. destruct Pe as [Ve _]. cbn [fst snd] in Vs, Ve.
    rewrite Vs, Ve. cbn [negb orb].
    rewrite (proj2 Hs); [|exact (Joined_first _ _ _ HJ)].
    rewrite (proj2 He); [|exact (Joined_last _ _ _ HJ)].
    cbn [negb].
    destruct (PF.findPath sc sr ec er g); [contradiction|eauto].
Qed.
End Reflecting.

(** X30.  Path requests follow the roads of the current layout.  In
    every state reached from a loaded level by pointer edits, the space
    key, timers, tween completions and frames, a path request between
    two cells is answered with a path exactly when the two cells are
    joined by a chain of road cells side by side (cells of the grid
    that hold a road now and are not obstacles); the path goes from the
    first cell to the second over such cells only; and the request
    leaves the dirty flag clean.  So a road added or removed by the
    latest edit is taken into account by the next request. *)
Theorem path_request_follows_current_roads
        (levelData : Level.t) (evs : list Event) (s e : Cell) :
  let w := run evs (GameScene_loadLevel levelData) in
  let q := CarManager_pathQuery w (plainPosition s) (plainPosition e) in
  (is_Some (snd q) <-> Joined (roadCell w) s e)
  /\ (forall path, snd q = Some path ->
                   head path = Some s /\ last path = Some e
                   /\ Forall (roadCell w) path)
  /\ GameState.pathfindingGridDirty (gameState (fst q)) = false.
Proof.
  intros w q.
  assert (InvW w) as HW by (apply Inv_run, Inv_loadLevel).
  destruct (pathQuery_fresh w (plainPosition s) (plainPosition e) HW)
    as [Hf Hgm].
  fold q in Hf, Hgm. unfold fresh in Hf. rewrite Hgm in Hf.
  assert (snd q = PathFinder.findPath (pathFinder (fst q))
                    (fst s) (snd s) (fst e) (snd e)) as Eq.
  { unfold q, CarManager_pathQuery. cbn [snd fst].
    unfold PathFinder.findPathWithEntrances. reflexivity. }
  split; [|split].
  - rewrite Eq. exact (findPath_Joined _ _ _ _ _ Hf s e).
  - intros path Hp. rewrite Eq in Hp.
    destruct (findPath_sound _ _ _ _ _ _ Hp) as (Hh & Hl & Hall).
    destruct s, e. split; [exact Hh|]. split; [exact Hl|].
    eapply Forall_impl; [exact Hall|].
    intros k Hk. exact (proj1 (reflects_walkable _ _ _ _ _ Hf k) Hk).
  - unfold q, CarManager_pathQuery.
    destruct (GameState.pathfindingGridDirty (gameState w)) eqn:Hd;
      cbn [fst]; [reflexivity|exact Hd].
Qed.
